(** * HEIC converter: conversion-task orchestrator

    A shallow embedding of the client-side orchestration layer of the
    HEIC/HEIF web converter:

    - [MemoryManager]   : src/utils/memory-manager.js
    - [Queue]           : the enhanced ConversionQueue (conversion-queue.js,
                          the variant with pause/destroy/priorities)
    - [SingleWorker]    : the enhanced single-file conversion worker
    - [BatchWorker]     : src/workers/batch-converter.worker.js

    JavaScript numbers that hold byte counts, counters and priorities are
    modelled by [Z] or [nat]; percentages and thresholds, which the source
    computes with fractions, are modelled by exact rationals [Q]. *)

From Stdlib Require Import ZArith QArith Qround Qminmax List String Ascii Bool Lia.
From Stdlib Require Import Floats.
From stdpp Require Import gmap strings list sorting.

Local Open Scope Z_scope.

(** ** JavaScript [Set]: insertion-ordered, no duplicates *)

Section JsSet.
Context {A : Type} `{EqDecision A}.

(** [Set.prototype.has] *)
Definition set_has (x : A) (s : list A) : bool := bool_decide (x ∈ s).

(** [Set.prototype.add]: an element already present keeps its position. *)
Definition set_add (x : A) (s : list A) : list A :=
  if set_has x s then s else s ++ [x].

(** [Set.prototype.delete] *)
Definition set_delete (x : A) (s : list A) : list A :=
  filter (λ y, y ≠ x) s.
End JsSet.

(** ** Memory manager (memory-manager.js) *)

Module MemoryManager.

(** A [Blob] object.  Blobs are compared by reference in the source;
    [blob_ref] stands for the reference, [blob_size] for [blob.size]. *)
Record Blob := { blob_ref : nat; blob_size : Z }.

#[export] Instance Blob_eq_dec : EqDecision Blob.
Proof. solve_decision. Defined.

(** Argument of [registerBlob] / [unregisterBlob]: the source tests
    [blob instanceof Blob]. *)
Inductive Value :=
| VBlob (b : Blob)
| VOther.

(** What the manager reads from, and does to, the browser. *)
Record Host := {
  usedJSHeapSize : option Z;   (* performance.memory, when present *)
  imgSrcs : list string;       (* src of the <img> elements in the document *)
  gcExposed : bool             (* window.gc *)
}.

Record State := {
  activeBlobs : list Blob;         (* Set, in insertion order *)
  objectURLs : list string;        (* Set, in insertion order *)
  maxMemoryUsage : Z;
  currentMemoryEstimate : Z;
  gcThreshold : Q;
  revoked : list string;           (* URL.revokeObjectURL calls, oldest first *)
  gcRequests : nat                 (* window.gc() calls *)
}.

Definition set_blobs (m : State) (bs : list Blob) (est : Z) : State :=
  {| activeBlobs := bs; objectURLs := objectURLs m;
     maxMemoryUsage := maxMemoryUsage m; currentMemoryEstimate := est;
     gcThreshold := gcThreshold m; revoked := revoked m;
     gcRequests := gcRequests m |}.

Definition set_urls (m : State) (us : list string) (rv : list string) : State :=
  {| activeBlobs := activeBlobs m; objectURLs := us;
     maxMemoryUsage := maxMemoryUsage m;
     currentMemoryEstimate := currentMemoryEstimate m;
     gcThreshold := gcThreshold m; revoked := rv;
     gcRequests := gcRequests m |}.

(** constructor, with [calculateMaxMemory] supplied by the host *)
Definition new (maxMemory : Z) : State :=
  {| activeBlobs := []; objectURLs := []; maxMemoryUsage := maxMemory;
     currentMemoryEstimate := 0; gcThreshold := 8 # 10;
     revoked := []; gcRequests := 0 |}.

Definition getCurrentMemoryUsage (h : Host) (m : State) : Z :=
  match usedJSHeapSize h with
  | Some used => used
  | None => currentMemoryEstimate m
  end.

(** [Math.ceil(fileSize * 5.5)] *)
Definition estimateMemoryRequirement (fileSize : Z) : Z :=
  Qceiling (inject_Z fileSize * (55 # 10)).

Definition registerBlob (v : Value) (m : State) : State :=
  match v with
  | VBlob b =>
      set_blobs m (set_add b (activeBlobs m))
                (currentMemoryEstimate m + blob_size b)
  | VOther => m
  end.

Definition unregisterBlob (v : Value) (m : State) : State :=
  match v with
  | VBlob b =>
      if set_has b (activeBlobs m)
      then set_blobs m (set_delete b (activeBlobs m))
                     (currentMemoryEstimate m - blob_size b)
      else m
  | VOther => m
  end.

Definition revokeObjectURL (url : string) (m : State) : State :=
  if set_has url (objectURLs m)
  then set_urls m (set_delete url (objectURLs m)) (revoked m ++ [url])
  else m.

Definition requestGarbageCollection (h : Host) (m : State) : State :=
  if gcExposed h
  then {| activeBlobs := activeBlobs m; objectURLs := objectURLs m;
          maxMemoryUsage := maxMemoryUsage m;
          currentMemoryEstimate := currentMemoryEstimate m;
          gcThreshold := gcThreshold m; revoked := revoked m;
          gcRequests := S (gcRequests m) |}
  else m.

(** [Math.floor(this.activeBlobs.size * 0.3)] *)
Definition keepCount (m : State) : nat :=
  Z.to_nat (Qfloor (inject_Z (Z.of_nat (length (activeBlobs m))) * (3 # 10))).

(** The loop of [triggerCleanup] walks the Set in insertion order and
    collects every blob whose index is at least [keepCount]. *)
Definition blobsToRemove (m : State) : list Blob :=
  drop (keepCount m) (activeBlobs m).

(** [document.querySelector('img[src="url"]')] finds nothing *)
Definition orphaned (h : Host) (url : string) : bool :=
  negb (bool_decide (url ∈ imgSrcs h)).

Definition urlsToRevoke (h : Host) (m : State) : list string :=
  List.filter (orphaned h) (objectURLs m).

Definition triggerCleanup (h : Host) (m : State) : State :=
  let m1 := fold_left (λ acc b, unregisterBlob (VBlob b) acc) (blobsToRemove m) m in
  let m2 := fold_left (λ acc u, revokeObjectURL u acc) (urlsToRevoke h m1) m1 in
  requestGarbageCollection h m2.

(** [hasAvailableMemory]: the answer and the state after the call. *)
Definition hasAvailableMemory (h : Host) (requiredMemory : Z) (m : State)
  : bool * State :=
  let currentUsage := getCurrentMemoryUsage h m in
  let projected := currentUsage + requiredMemory in
  let m' :=
    if negb (Qle_bool (inject_Z projected)
                      (inject_Z (maxMemoryUsage m) * gcThreshold m))
    then triggerCleanup h m else m in
  (projected <? maxMemoryUsage m, m').

(** [createObjectURL]; [url] is the string [URL.createObjectURL] returns
    for the blob. *)
Definition createObjectURL (url : string) (b : Blob) (m : State) : State :=
  registerBlob (VBlob b) (set_urls m (set_add url (objectURLs m)) (revoked m)).

(** [cleanup]: every tracked URL is revoked, in insertion order, both sets
    are cleared and the estimate is reset. *)
Definition cleanup (h : Host) (m : State) : State :=
  let m := set_urls m [] (revoked m ++ objectURLs m) in
  let m := set_blobs m [] 0 in
  requestGarbageCollection h m.

(** *** The manager driven by its callers

    A call names the method and its arguments; the host is read afresh at
    every call. *)

Inductive Call :=
| CallRegisterBlob (v : Value)
| CallUnregisterBlob (v : Value)
| CallCreateObjectURL (url : string) (b : Blob)
| CallRevokeObjectURL (url : string)
| CallHasAvailableMemory (requiredMemory : Z)
| CallTriggerCleanup
| CallCleanup.

Definition call (m : State) (hc : Host * Call) : State :=
  let (h, c) := hc in
  match c with
  | CallRegisterBlob v => registerBlob v m
  | CallUnregisterBlob v => unregisterBlob v m
  | CallCreateObjectURL url b => createObjectURL url b m
  | CallRevokeObjectURL url => revokeObjectURL url m
  | CallHasAvailableMemory r => snd (hasAvailableMemory h r m)
  | CallTriggerCleanup => triggerCleanup h m
  | CallCleanup => cleanup h m
  end.

Definition calls (m : State) (cs : list (Host * Call)) : State :=
  fold_left call cs m.

(** The blob a call registers, if any. *)
Definition registers (c : Call) : option Blob :=
  match c with
  | CallRegisterBlob (VBlob b) | CallCreateObjectURL _ b => Some b
  | _ => None
  end.

(** No call of the sequence registers a blob that is tracked at the time
    of the call. *)
Fixpoint registersUntracked (m : State) (cs : list (Host * Call)) : Prop :=
  match cs with
  | [] => True
  | hc :: rest =>
      match registers (snd hc) with
      | Some b => b ∉ activeBlobs m
      | None => True
      end
      ∧ registersUntracked (call m hc) rest
  end.

(** Sum of [blob.size] over a list of blobs. *)
Definition totalSize (bs : list Blob) : Z :=
  foldr (λ b acc, blob_size b + acc) 0 bs.

(** The accounting invariant: the estimate is the total size of the
    tracked blobs, and both sets hold no element twice. *)
Definition accounted (m : State) : Prop :=
  currentMemoryEstimate m = totalSize (activeBlobs m)
  ∧ NoDup (activeBlobs m) ∧ NoDup (objectURLs m).

(** *** Scenarios used in the properties below *)

Definition someBlob : Blob := {| blob_ref := 7; blob_size := 42 |}.

Definition bareHost : Host :=
  {| usedJSHeapSize := None; imgSrcs := []; gcExposed := false |}.

(** Ten blobs registered one after the other, oldest first. *)
Definition tenBlobs : list Blob :=
  List.map (λ i, {| blob_ref := i; blob_size := 1000 |}) (seq 0 10).

Definition afterTenBlobs : State :=
  fold_left (λ acc b, registerBlob (VBlob b) acc) tenBlobs (new 1000000).

(** A session: two blobs get object URLs, one URL is shown by an image,
    memory is checked under pressure, one blob is unregistered. *)
Definition pictureHost : Host :=
  {| usedJSHeapSize := Some 900; imgSrcs := ["blob:a"%string]; gcExposed := true |}.

Definition session : list (Host * Call) :=
  [ (bareHost, CallCreateObjectURL "blob:a" {| blob_ref := 1; blob_size := 300 |});
    (bareHost, CallCreateObjectURL "blob:b" {| blob_ref := 2; blob_size := 500 |});
    (pictureHost, CallHasAvailableMemory 50);
    (bareHost, CallRegisterBlob (VBlob {| blob_ref := 2; blob_size := 500 |}));
    (bareHost, CallUnregisterBlob (VBlob {| blob_ref := 1; blob_size := 300 |}));
    (bareHost, CallRevokeObjectURL "blob:a") ].

(** Tracked state with two blobs and two URLs, one URL in use. *)
Definition twoPictures : State :=
  calls (new 1000)
    [ (bareHost, CallCreateObjectURL "blob:a" {| blob_ref := 1; blob_size := 300 |});
      (bareHost, CallCreateObjectURL "blob:b" {| blob_ref := 2; blob_size := 500 |}) ].

End MemoryManager.

(** ** Conversion queue (the enhanced ConversionQueue class)

    Modelling choices.

    - Task and worker objects are shared by reference between the queue
      array, the [activeWorkers] map, the pools and the closures of pending
      timers.  Their read-only properties travel with the reference
      ([Task], [WorkerId]); their mutable properties ([task.retries],
      [task.status], [worker.metadata]) live in stores keyed by the
      reference, so an update made through one alias is seen through all.
    - [generateTaskId] (clock plus random suffix) is modelled by a counter:
      ids are unique and grow with submission order.
    - [processQueue] is an async loop that parks at [await executeTask]; an
      activation runs one iteration, and [suspended] counts the parked
      activations, each resumed by a [Microtask] input.
    - [setTimeout] callbacks are kept in [timers]; the host picks which
      pending one fires.
    - The progress tracker, the subscribers and the workers are outside the
      queue: calls to them are recorded, newest first, in [trace].  The
      [Worker] constructor and [postMessage] are assumed not to throw, and
      subscribers are assumed not to call back into the queue from inside a
      handler.  Wall-clock fields ([addedAt], [created], [lastActivity],
      processing times) are left out. *)

Module Queue.

Abbreviation TaskId := nat (only parsing).
Abbreviation WorkerId := nat (only parsing).

Inductive TaskType := single | batch.

#[export] Instance TaskType_eq_dec : EqDecision TaskType.
Proof. solve_decision. Defined.

Inductive Status := queued | processing.

(** A file as [addFile] / [addBatch] inspect it: [None] stands for a
    missing property or one of the wrong JavaScript type. *)
Record FileObj := { file_name : option string; file_size : option Z }.

(** The value of [options.targetType] when the property is there: a
    string; a falsy value that is not a string ([undefined], [null], [0],
    [false], [NaN]); or a truthy value that is not a string and has no
    [toLowerCase] method (a number, [true], a plain object). *)
Inductive TargetType :=
| TString (s : string)
| TFalsy
| TOther.

(** The properties of an [options] object.  [None] is an absent
    property; [quality] and [priority], when present, are numbers. *)
Record Options := {
  targetType : option TargetType;
  quality : option Z;
  opt_priority : option Z
}.

(** The [options] argument.  An argument left out, or a falsy value
    other than [null] ([0], [false], the empty string), reads as an object
    without properties. *)
Inductive OptionsArg :=
| OptionsObject (o : Options)
| OptionsNull                (* null *)
| OptionsOther.              (* a truthy value that is not an object *)

Inductive Payload :=
| PFile (f : FileObj)
| PFiles (fs : list FileObj).

(** Read-only part of a task object. *)
Record Task := {
  task_id : TaskId;
  task_type : TaskType;
  payload : Payload;
  task_targetType : TargetType;  (* task.options.targetType *)
  task_quality : Z;              (* task.options.quality *)
  priority : Z
}.

(** [worker.metadata].  [busyWrites] is a history variable, absent from
    the source: every value assigned to [busy], newest first. *)
Record Metadata := {
  worker_type : TaskType;
  busy : bool;
  taskId : option TaskId;
  tasksProcessed : nat;
  busyWrites : list bool
}.

Inductive Command :=
| convert (t : Task)
| convert_batch (t : Task)
| cancel
| cancel_batch.

Inductive QueueEvent :=
| EvProgress (t : TaskId) (percent : Q)
| EvComplete (t : TaskId)
| EvError (t : TaskId) (retries : nat)
| EvCancelled (t : TaskId)
| EvQueuePaused
| EvQueueResumed.

Inductive TrackerCall :=
| createTask (t : TaskId)
| updateProgress (t : TaskId) (percent : Q)
| completeTask (t : TaskId)
| failTask (t : TaskId)
| trackerCancelTask (t : TaskId)
| reset.

Inductive Effect :=
| Emit (e : QueueEvent)                       (* this.emit(...) *)
| Post (w : WorkerId) (c : Command)           (* worker.postMessage(...) *)
| Track (c : TrackerCall)                     (* this.progressTracker.… *)
| Terminate (w : WorkerId)                    (* worker.terminate() *)
| SetTimeout (delay : Z).                     (* setTimeout(callback, delay) *)

Inductive Timer :=
| RetryTimer (delay : Z) (t : Task)
| DestroyTimer.

Record Metrics := {
  totalTasksProcessed : nat;
  totalTasksFailed : nat;
  totalTasksCancelled : nat
}.

Record State := mkState {
  maxConcurrent : nat;
  maxRetries : nat;
  retryDelay : Z;
  maxWorkers : nat;
  queue : list Task;
  activeWorkers : gmap TaskId (Task * WorkerId);
  isPaused : bool;
  isDestroyed : bool;
  workerPool : list WorkerId;
  batchWorkerPool : list WorkerId;
  metadata : gmap WorkerId Metadata;
  retries : gmap TaskId nat;
  status : gmap TaskId Status;
  timers : list Timer;
  suspended : nat;
  metrics : Metrics;
  trace : list Effect;
  nextTaskId : TaskId;
  nextWorkerId : WorkerId
}.

(** *** Field updates *)

Definition set_queue (q : list Task) (s : State) : State :=
  mkState (maxConcurrent s) (maxRetries s) (retryDelay s) (maxWorkers s)
    q (activeWorkers s) (isPaused s) (isDestroyed s) (workerPool s)
    (batchWorkerPool s) (metadata s) (retries s) (status s) (timers s)
    (suspended s) (metrics s) (trace s) (nextTaskId s) (nextWorkerId s).

Definition set_activeWorkers (a : gmap TaskId (Task * WorkerId)) (s : State) : State :=
  mkState (maxConcurrent s) (maxRetries s) (retryDelay s) (maxWorkers s)
    (queue s) a (isPaused s) (isDestroyed s) (workerPool s)
    (batchWorkerPool s) (metadata s) (retries s) (status s) (timers s)
    (suspended s) (metrics s) (trace s) (nextTaskId s) (nextWorkerId s).

Definition set_isPaused (b : bool) (s : State) : State :=
  mkState (maxConcurrent s) (maxRetries s) (retryDelay s) (maxWorkers s)
    (queue s) (activeWorkers s) b (isDestroyed s) (workerPool s)
    (batchWorkerPool s) (metadata s) (retries s) (status s) (timers s)
    (suspended s) (metrics s) (trace s) (nextTaskId s) (nextWorkerId s).

Definition set_isDestroyed (b : bool) (s : State) : State :=
  mkState (maxConcurrent s) (maxRetries s) (retryDelay s) (maxWorkers s)
    (queue s) (activeWorkers s) (isPaused s) b (workerPool s)
    (batchWorkerPool s) (metadata s) (retries s) (status s) (timers s)
    (suspended s) (metrics s) (trace s) (nextTaskId s) (nextWorkerId s).

Definition set_pools (p bp : list WorkerId) (s : State) : State :=
  mkState (maxConcurrent s) (maxRetries s) (retryDelay s) (maxWorkers s)
    (queue s) (activeWorkers s) (isPaused s) (isDestroyed s) p
    bp (metadata s) (retries s) (status s) (timers s)
    (suspended s) (metrics s) (trace s) (nextTaskId s) (nextWorkerId s).

Definition set_metadata (m : gmap WorkerId Metadata) (s : State) : State :=
  mkState (maxConcurrent s) (maxRetries s) (retryDelay s) (maxWorkers s)
    (queue s) (activeWorkers s) (isPaused s) (isDestroyed s) (workerPool s)
    (batchWorkerPool s) m (retries s) (status s) (timers s)
    (suspended s) (metrics s) (trace s) (nextTaskId s) (nextWorkerId s).

Definition set_retries (r : gmap TaskId nat) (s : State) : State :=
  mkState (maxConcurrent s) (maxRetries s) (retryDelay s) (maxWorkers s)
    (queue s) (activeWorkers s) (isPaused s) (isDestroyed s) (workerPool s)
    (batchWorkerPool s) (metadata s) r (status s) (timers s)
    (suspended s) (metrics s) (trace s) (nextTaskId s) (nextWorkerId s).

Definition set_status (st : gmap TaskId Status) (s : State) : State :=
  mkState (maxConcurrent s) (maxRetries s) (retryDelay s) (maxWorkers s)
    (queue s) (activeWorkers s) (isPaused s) (isDestroyed s) (workerPool s)
    (batchWorkerPool s) (metadata s) (retries s) st (timers s)
    (suspended s) (metrics s) (trace s) (nextTaskId s) (nextWorkerId s).

Definition set_timers (ts : list Timer) (s : State) : State :=
  mkState (maxConcurrent s) (maxRetries s) (retryDelay s) (maxWorkers s)
    (queue s) (activeWorkers s) (isPaused s) (isDestroyed s) (workerPool s)
    (batchWorkerPool s) (metadata s) (retries s) (status s) ts
    (suspended s) (metrics s) (trace s) (nextTaskId s) (nextWorkerId s).

Definition set_suspended (n : nat) (s : State) : State :=
  mkState (maxConcurrent s) (maxRetries s) (retryDelay s) (maxWorkers s)
    (queue s) (activeWorkers s) (isPaused s) (isDestroyed s) (workerPool s)
    (batchWorkerPool s) (metadata s) (retries s) (status s) (timers s)
    n (metrics s) (trace s) (nextTaskId s) (nextWorkerId s).

Definition set_metrics (m : Metrics) (s : State) : State :=
  mkState (maxConcurrent s) (maxRetries s) (retryDelay s) (maxWorkers s)
    (queue s) (activeWorkers s) (isPaused s) (isDestroyed s) (workerPool s)
    (batchWorkerPool s) (metadata s) (retries s) (status s) (timers s)
    (suspended s) m (trace s) (nextTaskId s) (nextWorkerId s).

Definition set_trace (t : list Effect) (s : State) : State :=
  mkState (maxConcurrent s) (maxRetries s) (retryDelay s) (maxWorkers s)
    (queue s) (activeWorkers s) (isPaused s) (isDestroyed s) (workerPool s)
    (batchWorkerPool s) (metadata s) (retries s) (status s) (timers s)
    (suspended s) (metrics s) t (nextTaskId s) (nextWorkerId s).

Definition set_nextTaskId (n : TaskId) (s : State) : State :=
  mkState (maxConcurrent s) (maxRetries s) (retryDelay s) (maxWorkers s)
    (queue s) (activeWorkers s) (isPaused s) (isDestroyed s) (workerPool s)
    (batchWorkerPool s) (metadata s) (retries s) (status s) (timers s)
    (suspended s) (metrics s) (trace s) n (nextWorkerId s).

Definition set_nextWorkerId (n : WorkerId) (s : State) : State :=
  mkState (maxConcurrent s) (maxRetries s) (retryDelay s) (maxWorkers s)
    (queue s) (activeWorkers s) (isPaused s) (isDestroyed s) (workerPool s)
    (batchWorkerPool s) (metadata s) (retries s) (status s) (timers s)
    (suspended s) (metrics s) (trace s) (nextTaskId s) n.

Definition effect (e : Effect) (s : State) : State :=
  set_trace (e :: trace s) s.

(** [this.emit(event, data)] *)
Definition emit (e : QueueEvent) : State → State := effect (Emit e).

(** [task.retries], 0 until the first failure *)
Definition retriesOf (s : State) (t : TaskId) : nat :=
  default 0%nat (retries s !! t).

(** [worker.metadata.busy]; a reference without metadata is not a worker *)
Definition busyOf (s : State) (w : WorkerId) : bool :=
  match metadata s !! w with
  | Some m => busy m
  | None => true
  end.

Definition taskIdOf (s : State) (w : WorkerId) : option TaskId :=
  m ← metadata s !! w; taskId m.

(** *** Worker pools *)

Definition poolOf (ty : TaskType) (s : State) : list WorkerId :=
  match ty with
  | batch => batchWorkerPool s
  | single => workerPool s
  end.

Definition set_poolOf (ty : TaskType) (p : list WorkerId) (s : State) : State :=
  match ty with
  | batch => set_pools (workerPool s) p s
  | single => set_pools p (batchWorkerPool s) s
  end.

Definition freshMetadata (ty : TaskType) : Metadata :=
  {| worker_type := ty; busy := false; taskId := None;
     tasksProcessed := 0; busyWrites := [false] |}.

(** [createWorker]; [None] is the throw on a destroyed queue. *)
Definition createWorker (ty : TaskType) (s : State) : option (WorkerId * State) :=
  if isDestroyed s then None
  else
    let w := nextWorkerId s in
    let s := set_nextWorkerId (S w) s in
    let s := set_metadata (<[w := freshMetadata ty]> (metadata s)) s in
    let s := set_poolOf ty (poolOf ty s ++ [w]) s in
    Some (w, s).

Fixpoint initializeWorkerPools (n : nat) (s : State) : State :=
  match n with
  | O => s
  | S n' =>
      let s := match createWorker single s with Some (_, s') => s' | None => s end in
      let s := match createWorker batch s with Some (_, s') => s' | None => s end in
      initializeWorkerPools n' s
  end.

Inductive Available :=
| Found (w : WorkerId)
| NoWorker                   (* returns undefined *)
| Threw.                     (* createWorker threw *)

Definition getAvailableWorker (ty : TaskType) (s : State) : Available * State :=
  let pool := poolOf ty s in
  match List.find (λ w, negb (busyOf s w)) pool with
  | Some w => (Found w, s)
  | None =>
      if (length pool <? maxWorkers s)%nat
      then match createWorker ty s with
           | Some (w, s') => (Found w, s')
           | None => (Threw, s)
           end
      else (NoWorker, s)
  end.

Definition markBusy (t : TaskId) (m : Metadata) : Metadata :=
  {| worker_type := worker_type m; busy := true; taskId := Some t;
     tasksProcessed := tasksProcessed m; busyWrites := true :: busyWrites m |}.

Definition markIdle (m : Metadata) : Metadata :=
  {| worker_type := worker_type m; busy := false; taskId := None;
     tasksProcessed := tasksProcessed m; busyWrites := false :: busyWrites m |}.

Definition countProcessed (m : Metadata) : Metadata :=
  {| worker_type := worker_type m; busy := busy m; taskId := taskId m;
     tasksProcessed := S (tasksProcessed m); busyWrites := busyWrites m |}.

Definition releaseWorker (t : TaskId) (s : State) : State :=
  match activeWorkers s !! t with
  | Some (_, w) =>
      let s := set_metadata (alter markIdle w (metadata s)) s in
      set_activeWorkers (delete t (activeWorkers s)) s
  | None => s
  end.

(** *** Scheduling *)

Definition executeTask (task : Task) (w : WorkerId) (s : State) : State :=
  let s := set_metadata (alter (markBusy (task_id task)) w (metadata s)) s in
  let s := set_activeWorkers (<[task_id task := (task, w)]> (activeWorkers s)) s in
  let s := set_status (<[task_id task := processing]> (status s)) s in
  let s := effect (Track (updateProgress (task_id task) 0)) s in
  match task_type task with
  | batch => effect (Post w (convert_batch task)) s
  | single => effect (Post w (convert task)) s
  end.

(** One iteration of the [while] loop of [processQueue], up to and
    including the [await]. *)
Definition processLoop (s : State) : State :=
  match queue s with
  | [] => s
  | task :: rest =>
      if (size (activeWorkers s) <? maxConcurrent s)%nat
         && negb (isPaused s) && negb (isDestroyed s)
      then
        let s := set_queue rest s in                        (* shift *)
        match getAvailableWorker (task_type task) s with
        | (Found w, s) =>
            let s := executeTask task w s in
            set_suspended (S (suspended s)) s               (* await *)
        | (NoWorker, s) => set_queue (task :: queue s) s    (* unshift; break *)
        | (Threw, s) => s
        end
      else s
  end.

Definition processQueue (s : State) : State :=
  if isPaused s || isDestroyed s then s else processLoop s.

(** A parked activation of [processQueue] continues. *)
Definition resumeProcessQueue (s : State) : State :=
  match suspended s with
  | O => s
  | S n => processLoop (set_suspended n s)
  end.

(** *** Worker messages *)

Inductive Message :=
| progress (percent : Q)
| batch_progress (percent : Q)
| success
| batch_complete
| cancelled
| batch_cancelled
| error
| batch_error
| other.                     (* any other [type], or none *)

Definition handleProgress (task : Task) (percent : Q) (s : State) : State :=
  let s := effect (Track (updateProgress (task_id task) percent)) s in
  emit (EvProgress (task_id task) percent) s.

Definition handleBatchProgress (task : Task) (percent : Q) (s : State) : State :=
  let s := effect (Track (updateProgress (task_id task) percent)) s in
  emit (EvProgress (task_id task) percent) s.

Definition countWorkerTask (t : TaskId) (s : State) : State :=
  match activeWorkers s !! t with
  | Some (_, w) => set_metadata (alter countProcessed w (metadata s)) s
  | None => s
  end.

Definition handleSuccess (task : Task) (s : State) : State :=
  let m := metrics s in
  let s := set_metrics {| totalTasksProcessed := S (totalTasksProcessed m);
                          totalTasksFailed := totalTasksFailed m;
                          totalTasksCancelled := totalTasksCancelled m |} s in
  let s := countWorkerTask (task_id task) s in
  let s := effect (Track (completeTask (task_id task))) s in
  let s := releaseWorker (task_id task) s in
  let s := emit (EvComplete (task_id task)) s in
  processQueue s.

Definition handleBatchComplete (task : Task) (s : State) : State :=
  let m := metrics s in
  let s := set_metrics {| totalTasksProcessed := S (totalTasksProcessed m);
                          totalTasksFailed := totalTasksFailed m;
                          totalTasksCancelled := totalTasksCancelled m |} s in
  let s := countWorkerTask (task_id task) s in
  let s := effect (Track (completeTask (task_id task))) s in
  let s := releaseWorker (task_id task) s in
  let s := emit (EvComplete (task_id task)) s in
  processQueue s.

Definition handleCancellation (task : Task) (s : State) : State :=
  let m := metrics s in
  let s := set_metrics {| totalTasksProcessed := totalTasksProcessed m;
                          totalTasksFailed := totalTasksFailed m;
                          totalTasksCancelled := S (totalTasksCancelled m) |} s in
  let s := effect (Track (trackerCancelTask (task_id task))) s in
  let s := releaseWorker (task_id task) s in
  let s := emit (EvCancelled (task_id task)) s in
  processQueue s.

(** [task.retries++] *)
Definition countFailure (task : Task) (s : State) : State :=
  set_retries (<[task_id task := S (retriesOf s (task_id task))]> (retries s)) s.

(** [setTimeout(() => { … }, delay)] with the retry callback *)
Definition scheduleRetry (delay : Z) (task : Task) (s : State) : State :=
  effect (SetTimeout delay) (set_timers (timers s ++ [RetryTimer delay task]) s).

Definition handleTaskError (task : Task) (s : State) : State :=
  let s := countFailure task s in
  let r := retriesOf s (task_id task) in
  if (r <? maxRetries s)%nat
  then
    let s := scheduleRetry (retryDelay s * Z.of_nat r) task s in
    effect (Track (updateProgress (task_id task) 0)) s
  else
    let m := metrics s in
    let s := set_metrics {| totalTasksProcessed := totalTasksProcessed m;
                            totalTasksFailed := S (totalTasksFailed m);
                            totalTasksCancelled := totalTasksCancelled m |} s in
    let s := effect (Track (failTask (task_id task))) s in
    let s := releaseWorker (task_id task) s in
    let s := emit (EvError (task_id task) r) s in
    processQueue s.

(** The retry callback handed to [setTimeout] by [handleTaskError];
    [requeue] is the part before the call to [processQueue]. *)
Definition requeue (task : Task) (s : State) : State :=
  let s := set_status (<[task_id task := queued]> (status s)) s in
  set_queue (task :: queue s) s.                                       (* unshift *)

Definition retryCallback (task : Task) (s : State) : State :=
  if isDestroyed s then s else processQueue (requeue task s).

Definition handleWorkerMessage (w : WorkerId) (msg : Message) (s : State) : State :=
  match taskIdOf s w with
  | None => s
  | Some t =>
      match activeWorkers s !! t with
      | None => s
      | Some (task, _) =>
          match msg with
          | progress p => handleProgress task p s
          | batch_progress p => handleBatchProgress task p s
          | success => handleSuccess task s
          | batch_complete => handleBatchComplete task s
          | cancelled | batch_cancelled => handleCancellation task s
          | error | batch_error => handleTaskError task s
          | other => s
          end
      end
  end.

Definition replaceWorker (w : WorkerId) (s : State) : State :=
  match metadata s !! w with
  | None => s
  | Some m =>
      let ty := worker_type m in
      if bool_decide (w ∈ poolOf ty s)
      then
        let s := effect (Terminate w) s in
        let s := set_poolOf ty (List.filter (λ v, negb (v =? w)%nat) (poolOf ty s)) s in
        match createWorker ty s with
        | Some (_, s') => s'
        | None => s
        end
      else s
  end.

(** [worker.onerror]; [isEvent] tells whether the argument is an
    [Event] instance, in which case the handler only logs. *)
Definition handleWorkerError (w : WorkerId) (isEvent : bool) (s : State) : State :=
  if isEvent then s
  else
    let s :=
      match taskIdOf s w with
      | Some t =>
          match activeWorkers s !! t with
          | Some (task, _) => handleTaskError task s
          | None => s
          end
      | None => s
      end in
    replaceWorker w s.

(** *** Cancellation, pause, teardown *)

Definition cancelCommand (task : Task) : Command :=
  match task_type task with
  | batch => cancel_batch
  | single => cancel
  end.

Definition cancelTask (t : TaskId) (s : State) : bool * State :=
  match list_find (λ task, task_id task = t) (queue s) with
  | Some (i, _) =>
      let s := set_queue (delete i (queue s)) s in                     (* splice *)
      let s := effect (Track (trackerCancelTask t)) s in
      let s := emit (EvCancelled t) s in
      (true, s)
  | None =>
      match activeWorkers s !! t with
      | Some (task, w) => (true, effect (Post w (cancelCommand task)) s)
      | None => (false, s)
      end
  end.

(** [cancelAll].  The second loop walks a [Map]; each entry posts to its
    own worker, and the model posts in key order. *)
Definition cancelAll (s : State) : State :=
  let s := fold_left (λ acc task,
               emit (EvCancelled (task_id task))
                 (effect (Track (trackerCancelTask (task_id task))) acc))
             (queue s) (set_queue [] s) in
  fold_left (λ acc e, effect (Post (snd (snd e)) (cancelCommand (fst (snd e)))) acc)
    (map_to_list (activeWorkers s)) s.

Inductive Error :=
| Destroyed
| InvalidFile
| InvalidName
| InvalidSize
| OptionsNotObject
| FilesEmpty
| BatchTooLarge
| InvalidTargetType (t : string)
| TypeError.                 (* a property of [null] is read, or a value
                                without [toLowerCase] is lower-cased *)

Inductive Result (A : Type) :=
| Returns (a : A)
| Throws (e : Error).
Arguments Returns {A} a.
Arguments Throws {A} e.

Definition pause (s : State) : Result State :=
  if isDestroyed s then Throws Destroyed
  else if isPaused s then Returns s
  else Returns (emit EvQueuePaused (set_isPaused true s)).

Definition resume (s : State) : Result State :=
  if isDestroyed s then Throws Destroyed
  else if isPaused s
  then Returns (processQueue (emit EvQueueResumed (set_isPaused false s)))
  else Returns s.

Definition destroy (s : State) : State :=
  if isDestroyed s then s
  else
    let s := set_isDestroyed true s in
    let s := set_isPaused false s in
    let s := cancelAll s in
    let s := set_timers (timers s ++ [DestroyTimer]) s in
    effect (SetTimeout 100) s.

(** The callback of the 100 ms timer set by [destroy]. *)
Definition destroyCallback (s : State) : State :=
  let s := fold_left (λ acc w, effect (Terminate w) acc)
             (workerPool s ++ batchWorkerPool s) s in
  let s := set_pools [] [] s in
  let s := set_activeWorkers ∅ s in
  let s := set_queue [] s in
  effect (Track reset) s.

Definition fireTimer (n : nat) (s : State) : State :=
  match timers s !! n with
  | None => s
  | Some tm =>
      let s := set_timers (delete n (timers s)) s in
      match tm with
      | RetryTimer _ task => retryCallback task s
      | DestroyTimer => destroyCallback s
      end
  end.

(** *** Submission *)

(** [String.prototype.toLowerCase], on ASCII letters *)
Definition lowerAscii (c : ascii) : ascii :=
  let n := nat_of_ascii c in
  if ((65 <=? n) && (n <=? 90))%nat then ascii_of_nat (n + 32) else c.

Fixpoint toLowerCase (s : string) : string :=
  match s with
  | EmptyString => EmptyString
  | String c s' => String (lowerAscii c) (toLowerCase s')
  end.

Definition validTargetTypes : list string :=
  ["jpeg"; "jpg"; "png"; "webp"]%string.

(** [a || b] on an optional string: the empty string is falsy *)
Definition orString (a : option string) (b : string) : string :=
  match a with
  | Some x => if bool_decide (x = EmptyString) then b else x
  | None => b
  end.

(** [a || b] on an optional number: zero is falsy *)
Definition orNumber (a : option Z) (b : Z) : Z :=
  match a with
  | Some x => if x =? 0 then b else x
  | None => b
  end.

(** [{ key: computed, ...options }]: an own property of [options]
    replaces the computed value. *)
Definition spread {A : Type} (computed : A) (own : option A) : A :=
  match own with
  | Some v => v
  | None => computed
  end.

(** [options.targetType || 'jpeg'], when it is a string; [None] when it
    is a value that cannot be lower-cased. *)
Definition targetTypeOf (o : Options) : option string :=
  match targetType o with
  | Some (TString x) => Some (orString (Some x) "jpeg")
  | Some TOther => None
  | Some TFalsy | None => Some "jpeg"%string
  end.

(** The three checks made on a file by [addFile] and [addBatch]. *)
Definition validateFile (file : option FileObj) : option Error :=
  match file with
  | None => Some InvalidFile
  | Some f =>
      match file_name f with
      | None => Some InvalidName
      | Some n =>
          if bool_decide (n = EmptyString) then Some InvalidName
          else match file_size f with
               | None => Some InvalidSize
               | Some sz => if sz <? 0 then Some InvalidSize else None
               end
      end
  end.

(** Stable sort by descending priority, as [Array.prototype.sort] with
    the comparator [(a, b) => (b.priority || 0) - (a.priority || 0)]. *)
Fixpoint insertByPriority (t : Task) (l : list Task) : list Task :=
  match l with
  | [] => [t]
  | u :: l' =>
      if priority t <? priority u then u :: insertByPriority t l'
      else t :: u :: l'
  end.

Definition sortQueue (l : list Task) : list Task :=
  foldr insertByPriority [] l.

(** What [addFile] and [addBatch] do once the task object is built:
    [register] is the part before the call to [processQueue]. *)
Definition register (task : Task) (s : State) : State :=
  let s := set_nextTaskId (S (nextTaskId s)) s in
  let s := effect (Track (createTask (task_id task))) s in
  let s := set_queue (queue s ++ [task]) s in                          (* push *)
  set_queue (sortQueue (queue s)) s.

Definition enqueue (task : Task) (s : State) : State :=
  processQueue (register task s).

(** The task object of [addFile] and [addBatch], built once
    [targetType.toLowerCase()] has succeeded. *)
Definition mkTask (t : TaskId) (ty : TaskType) (p : Payload) (o : Options) : Task :=
  let targetType0 := default "jpeg"%string (targetTypeOf o) in
  let quality0 := Z.min 100 (Z.max 1 (orNumber (quality o) 90)) in
  {| task_id := t; task_type := ty; payload := p;
     task_targetType := spread (TString (toLowerCase targetType0)) (targetType o);
     task_quality := spread quality0 (quality o);
     priority := orNumber (opt_priority o) 0 |}.

Definition addFile (file : option FileObj) (options : OptionsArg) (s : State)
  : Result (TaskId * State) :=
  if isDestroyed s then Throws Destroyed
  else
    match validateFile file, file with
    | Some e, _ => Throws e
    | None, None => Throws InvalidFile
    | None, Some f =>
        match options with
        | OptionsOther => Throws OptionsNotObject
        | OptionsNull => Throws TypeError                   (* options.targetType *)
        | OptionsObject o =>
            let taskId := nextTaskId s in
            match targetTypeOf o with
            | None => Throws TypeError                      (* targetType.toLowerCase() *)
            | Some targetType0 =>
                if bool_decide (toLowerCase targetType0 ∈ validTargetTypes)
                then
                  let task := mkTask taskId single (PFile f) o in
                  Returns (taskId, enqueue task s)
                else Throws (InvalidTargetType targetType0)
            end
        end
    end.

(** [files.forEach] with the per-file checks: the first failure throws. *)
Fixpoint validateFiles (files : list (option FileObj)) : Error + list FileObj :=
  match files with
  | [] => inr []
  | file :: rest =>
      match validateFile file, file with
      | Some e, _ => inl e
      | None, None => inl InvalidFile
      | None, Some f =>
          match validateFiles rest with
          | inl e => inl e
          | inr fs => inr (f :: fs)
          end
      end
  end.

(** [addBatch]; [None] for [files] is a value that is not an array. *)
Definition addBatch (files : option (list (option FileObj))) (options : OptionsArg)
    (s : State) : Result (TaskId * State) :=
  if isDestroyed s then Throws Destroyed
  else
    match files with
    | None => Throws InvalidFile
    | Some files =>
        if (length files =? 0)%nat then Throws FilesEmpty
        else if (100 <? length files)%nat then Throws BatchTooLarge
        else
          match validateFiles files with
          | inl e => Throws e
          | inr fs =>
              match options with
              | OptionsOther => Throws OptionsNotObject
              | OptionsNull => Throws TypeError             (* options.targetType *)
              | OptionsObject o =>
                  let taskId := nextTaskId s in
                  match targetTypeOf o with
                  | None => Throws TypeError                (* targetType.toLowerCase() *)
                  | Some targetType0 =>
                      if bool_decide (toLowerCase targetType0 ∈ validTargetTypes)
                      then
                        let task := mkTask taskId batch (PFiles fs) o in
                        Returns (taskId, enqueue task s)
                      else Throws (InvalidTargetType targetType0)
                  end
              end
          end
    end.

(** *** Construction *)

Record QueueOptions := {
  opt_maxConcurrent : option Z;
  opt_maxRetries : option Z;
  opt_retryDelay : option Z;
  opt_maxWorkers : option Z
}.

Definition defaultOptions : QueueOptions :=
  {| opt_maxConcurrent := None; opt_maxRetries := None;
     opt_retryDelay := None; opt_maxWorkers := None |}.

Definition new (o : QueueOptions) : State :=
  let maxWorkers0 := Z.to_nat (Z.max 1 (orNumber (opt_maxWorkers o) 4)) in
  let s :=
    {| maxConcurrent := Z.to_nat (Z.max 1 (orNumber (opt_maxConcurrent o) 2));
       maxRetries := Z.to_nat (Z.max 0 (orNumber (opt_maxRetries o) 3));
       retryDelay := Z.max 100 (orNumber (opt_retryDelay o) 1000);
       maxWorkers := maxWorkers0;
       queue := []; activeWorkers := ∅;
       isPaused := false; isDestroyed := false;
       workerPool := []; batchWorkerPool := [];
       metadata := ∅; retries := ∅; status := ∅;
       timers := []; suspended := 0;
       metrics := {| totalTasksProcessed := 0; totalTasksFailed := 0;
                     totalTasksCancelled := 0 |};
       trace := []; nextTaskId := 0; nextWorkerId := 0 |} in
  initializeWorkerPools (Nat.min 2 maxWorkers0) s.

(** *** The queue as a reactive system *)

Inductive Input :=
| CallAddFile (file : option FileObj) (options : OptionsArg)
| CallAddBatch (files : option (list (option FileObj))) (options : OptionsArg)
| CallCancelTask (t : TaskId)
| CallCancelAll
| CallPause
| CallResume
| CallDestroy
| WorkerMessage (w : WorkerId) (msg : Message)
| WorkerError (w : WorkerId) (isEvent : bool)
| TimerFires (n : nat)
| Microtask.

Definition stateOf {A : Type} (f : A → State) (r : Result A) (s : State) : State :=
  match r with
  | Returns a => f a
  | Throws _ => s
  end.

Definition step (s : State) (i : Input) : State :=
  match i with
  | CallAddFile file options => stateOf snd (addFile file options s) s
  | CallAddBatch files options => stateOf snd (addBatch files options s) s
  | CallCancelTask t => snd (cancelTask t s)
  | CallCancelAll => cancelAll s
  | CallPause => stateOf id (pause s) s
  | CallResume => stateOf id (resume s) s
  | CallDestroy => destroy s
  | WorkerMessage w msg => handleWorkerMessage w msg s
  | WorkerError w isEvent => handleWorkerError w isEvent s
  | TimerFires n => fireTimer n s
  | Microtask => resumeProcessQueue s
  end.

Definition run (s : State) (inputs : list Input) : State :=
  fold_left step inputs s.

(** *** Vocabulary and scenarios used in the properties below *)

(** The target format asked for is a string and, lower-cased, one of the
    supported formats; left out, it is jpeg. *)
Definition supportedTarget (o : Options) : Prop :=
  match targetTypeOf o with
  | Some targetType0 => toLowerCase targetType0 ∈ validTargetTypes
  | None => False
  end.

(** An [options] argument that [addFile] and [addBatch] accept. *)
Definition acceptedOptions (options : OptionsArg) : Prop :=
  match options with
  | OptionsObject o => supportedTarget o
  | OptionsNull | OptionsOther => False
  end.

Definition heicFile : FileObj :=
  {| file_name := Some "photo.heic"%string; file_size := Some 2000000 |}.

Definition noOptions : Options :=
  {| targetType := None; quality := None; opt_priority := None |}.

Definition quality150 : Options :=
  {| targetType := Some (TString "png"); quality := Some 150; opt_priority := None |}.

Definition withPriority (p : Z) : Options :=
  {| targetType := None; quality := None; opt_priority := Some p |}.

(** One round in the life of a task whose conversions always fail: the
    worker that holds task [t] reports an error; the retry timer, if the
    queue has set one, fires; the scheduling loop parked by the new
    dispatch resumes.  Once no worker holds [t] the round does nothing. *)
Definition failOnce (t : TaskId) (s : State) : State :=
  match activeWorkers s !! t with
  | Some (_, w) =>
      let s := step s (WorkerMessage w error) in
      let s := step s (TimerFires 0) in
      step s Microtask
  | None => s
  end.

(** A fresh queue, one file submitted, and [rounds] rounds of failure. *)
Definition alwaysFailing (o : QueueOptions) (rounds : nat) : State :=
  Nat.iter rounds (failOnce 0)
    (run (new o) [CallAddFile (Some heicFile) (OptionsObject noOptions); Microtask]).

(** Single-file workers a dispatch can still use: the idle ones in the
    pool, plus those the pool may still create. *)
Definition idleWorkers (s : State) : list WorkerId :=
  filter (λ w, busyOf s w = false) (workerPool s).

Definition freeSlots (s : State) : nat :=
  (length (idleWorkers s) + (maxWorkers s - length (workerPool s)))%nat.

Definition poolOk (s : State) : Prop :=
  NoDup (workerPool s)
  ∧ (∀ w, w ∈ workerPool s → (w < nextWorkerId s)%nat)
  ∧ (∀ w, w ∈ workerPool s → is_Some (metadata s !! w))
  ∧ (length (workerPool s) <= maxWorkers s)%nat.

(** Two plain tasks are running; the first fails and waits for its
    retry; a task of priority 5 is submitted; the retry timer fires.  The
    retried task, of priority 0, now heads the queue. *)
Definition retryAheadOfPriority : State :=
  run (new defaultOptions)
    [ CallAddFile (Some heicFile) (OptionsObject noOptions); Microtask;
      CallAddFile (Some heicFile) (OptionsObject noOptions); Microtask;
      WorkerMessage 0 error;
      CallAddFile (Some heicFile) (OptionsObject (withPriority 5));
      TimerFires 0 ].

(** *** Observations on the trace *)

(** The command [executeTask] posts for a task. *)
Definition convertCommand (task : Task) : Command :=
  match task_type task with
  | batch => convert_batch task
  | single => convert task
  end.


Definition isConvertOf (t : TaskId) (e : Effect) : bool :=
  match e with
  | Post _ (convert task) | Post _ (convert_batch task) => (task_id task =? t)%nat
  | _ => false
  end.

(** Number of conversion attempts handed to workers for task [t]. *)
Definition attempts (t : TaskId) (s : State) : nat :=
  length (List.filter (isConvertOf t) (trace s)).

Definition isErrorOf (t : TaskId) (e : Effect) : bool :=
  match e with
  | Emit (EvError u _) => (u =? t)%nat
  | _ => false
  end.

Definition isTerminalOf (t : TaskId) (e : Effect) : bool :=
  match e with
  | Emit (EvError u _) | Emit (EvComplete u) | Emit (EvCancelled u) => (u =? t)%nat
  | _ => false
  end.

Definition errorEvents (t : TaskId) (s : State) : nat :=
  length (List.filter (isErrorOf t) (trace s)).

Definition terminalEvents (t : TaskId) (s : State) : nat :=
  length (List.filter (isTerminalOf t) (trace s)).

(** Two states that differ at most in [isPaused], [isDestroyed],
    [status], [suspended], [metrics], and in trace entries that are not
    conversion commands. *)
Definition sameCore (s s' : State) : Prop :=
  maxConcurrent s' = maxConcurrent s ∧ maxRetries s' = maxRetries s
  ∧ retryDelay s' = retryDelay s ∧ maxWorkers s' = maxWorkers s
  ∧ queue s' = queue s ∧ activeWorkers s' = activeWorkers s
  ∧ workerPool s' = workerPool s ∧ batchWorkerPool s' = batchWorkerPool s
  ∧ metadata s' = metadata s ∧ retries s' = retries s
  ∧ timers s' = timers s ∧ nextTaskId s' = nextTaskId s
  ∧ nextWorkerId s' = nextWorkerId s
  ∧ ∀ t, attempts t s' = attempts t s.

(** No two consecutive entries of a write history are equal. *)
Fixpoint alternates (l : list bool) : bool :=
  match l with
  | b1 :: ((b2 :: _) as l') => negb (eqb b1 b2) && alternates l'
  | _ => true
  end.

(** The invariant behind the worker-slot discipline: every entry of
    [activeWorkers] names a worker that is marked busy and records the
    entry's task id; the values written to each [busy] flag alternate and
    end with the current value; worker references are below the next
    fresh one. *)
Definition slotsConsistent (s : State) : Prop :=
  (∀ t task w, activeWorkers s !! t = Some (task, w) →
     ∃ m, metadata s !! w = Some m ∧ busy m = true ∧ taskId m = Some t)
  ∧ (∀ w m, metadata s !! w = Some m →
       alternates (busyWrites m) = true ∧ head (busyWrites m) = Some (busy m))
  ∧ (∀ w, is_Some (metadata s !! w) → (w < nextWorkerId s)%nat).

(** [a] goes before [b]: higher priority, or the same priority and
    submitted earlier (task ids grow with submission order). *)
Definition before (a b : Task) : Prop :=
  priority b < priority a
  ∨ (priority a = priority b ∧ (task_id a < task_id b)%nat).

(** The pending tasks that have not failed yet, in queue order. *)
Definition pendingFresh (s : State) : list Task :=
  filter (λ task, retriesOf s (task_id task) = 0%nat) (queue s).

(** The invariant behind priority scheduling. *)
Definition priorityOrdered (s : State) : Prop :=
  StronglySorted before (pendingFresh s)
  ∧ (∀ task, task ∈ queue s → (task_id task < nextTaskId s)%nat)
  ∧ (∀ t task w, activeWorkers s !! t = Some (task, w) →
       (task_id task < nextTaskId s)%nat)
  ∧ (∀ d task, RetryTimer d task ∈ timers s →
       (task_id task < nextTaskId s)%nat ∧ (1 <= retriesOf s (task_id task))%nat)
  ∧ (∀ t, is_Some (retries s !! t) → (t < nextTaskId s)%nat).

(** Task [t] is out of the queue's hands and has been handed to a worker
    [a] times: no pending task, no active entry and no retry timer carries
    its id, and the id has been issued already. *)
Definition retired (t : TaskId) (a : nat) (s : State) : Prop :=
  (∀ task, task ∈ queue s → task_id task ≠ t)
  ∧ (∀ t0 task w, activeWorkers s !! t0 = Some (task, w) → task_id task ≠ t)
  ∧ (∀ d task, RetryTimer d task ∈ timers s → task_id task ≠ t)
  ∧ (t < nextTaskId s)%nat
  ∧ attempts t s = a.

(** The invariant that ties dispatches to the trace: a task held by a
    worker or waiting for a retry has been handed over at least once, ids
    of pending tasks have been issued, and a task never handed over
    stands in the queue at most once. *)
Definition dispatchesRecorded (s : State) : Prop :=
  (∀ t0 task w, activeWorkers s !! t0 = Some (task, w) →
     (1 <= attempts (task_id task) s)%nat ∧ (task_id task < nextTaskId s)%nat)
  ∧ (∀ d task, RetryTimer d task ∈ timers s →
       (1 <= attempts (task_id task) s)%nat ∧ (task_id task < nextTaskId s)%nat)
  ∧ (∀ task, task ∈ queue s → (task_id task < nextTaskId s)%nat)
  ∧ (∀ t, attempts t s = 0%nat →
       (length (filter (λ task, task_id task = t) (queue s)) <= 1)%nat).

(** The [quality] of the conversion commands posted, oldest first. *)
Definition task_quality_sent (s : State) : list Z :=
  rev (omap (λ e, match e with
                  | Post _ (convert task) | Post _ (convert_batch task) =>
                      Some (task_quality task)
                  | _ => None
                  end) (trace s)).

(** The delays handed to [setTimeout], oldest first. *)
Definition timeouts (s : State) : list Z :=
  rev (omap (λ e, match e with SetTimeout d => Some d | _ => None end) (trace s)).

#[export] Instance FileObj_eq_dec : EqDecision FileObj.
Proof. solve_decision. Defined.

#[export] Instance Payload_eq_dec : EqDecision Payload.
Proof. solve_decision. Defined.

#[export] Instance TargetType_eq_dec : EqDecision TargetType.
Proof. solve_decision. Defined.

#[export] Instance Task_eq_dec : EqDecision Task.
Proof. solve_decision. Defined.

(** The configured limits are respected: at most [maxConcurrent] active
    tasks, at most [maxWorkers] workers in each pool. *)
Definition withinLimits (s : State) : Prop :=
  (size (activeWorkers s) <= maxConcurrent s)%nat
  ∧ (length (workerPool s) <= maxWorkers s)%nat
  ∧ (length (batchWorkerPool s) <= maxWorkers s)%nat.

(** The four settings fixed by the constructor. *)
Definition configOf (s : State) : nat * nat * Z * nat :=
  (maxConcurrent s, maxRetries s, retryDelay s, maxWorkers s).

(** Number of conversion commands ([convert], [convert-batch]) posted so far. *)
Definition isConvert (e : Effect) : bool :=
  match e with
  | Post _ (convert _) | Post _ (convert_batch _) => true
  | _ => false
  end.

Definition dispatches (s : State) : nat :=
  length (List.filter isConvert (trace s)).

Definition isCallResume (i : Input) : bool :=
  match i with
  | CallResume => true
  | _ => false
  end.

(** The queue is paused or destroyed. *)
Definition halted (s : State) : bool := isPaused s || isDestroyed s.

(** [s'] has the flags of [s] and no conversion command more. *)
Definition sameFlags (s s' : State) : Prop :=
  isPaused s' = isPaused s ∧ isDestroyed s' = isDestroyed s
  ∧ dispatches s' = dispatches s.

(** Two files submitted as one batch. *)
Definition twoFiles : list (option FileObj) :=
  [ Some heicFile;
    Some {| file_name := Some "second.heic"%string; file_size := Some 0 |} ].



(** One file is being converted and one is pending when the only worker
    crashes, with no retry allowed. *)
Definition crashOptions : QueueOptions :=
  {| opt_maxConcurrent := Some 1; opt_maxRetries := Some 1;
     opt_retryDelay := None; opt_maxWorkers := Some 1 |}.

Definition beforeCrash : State :=
  run (new crashOptions)
    [CallAddFile (Some heicFile) (OptionsObject noOptions); Microtask;
     CallAddFile (Some heicFile) (OptionsObject noOptions)].

(** How a task ends: the [complete], [error] and [cancelled] events, and
    the calls that tell the progress tracker that a task completed, failed
    or was cancelled. *)
Inductive TaskEnd := Completed | Failed | Cancelled.

Definition TaskEnd_eqb (a b : TaskEnd) : bool :=
  match a, b with
  | Completed, Completed | Failed, Failed | Cancelled, Cancelled => true
  | _, _ => false
  end.

Definition isEventOf (k : TaskEnd) (e : Effect) : bool :=
  match e with
  | Emit (EvComplete _) => TaskEnd_eqb Completed k
  | Emit (EvError _ _) => TaskEnd_eqb Failed k
  | Emit (EvCancelled _) => TaskEnd_eqb Cancelled k
  | _ => false
  end.

Definition isTrackerCallOf (k : TaskEnd) (e : Effect) : bool :=
  match e with
  | Track (completeTask _) => TaskEnd_eqb Completed k
  | Track (failTask _) => TaskEnd_eqb Failed k
  | Track (trackerCancelTask _) => TaskEnd_eqb Cancelled k
  | _ => false
  end.

(** Number of events of kind [k] emitted so far. *)
Definition emitted (k : TaskEnd) (s : State) : nat :=
  length (List.filter (isEventOf k) (trace s)).

(** Number of tasks the progress tracker was told to have ended as [k]. *)
Definition tracked (k : TaskEnd) (s : State) : nat :=
  length (List.filter (isTrackerCallOf k) (trace s)).

(** The counters of [metrics] against the trace. *)
Definition metricsMatchEvents (s : State) : Prop :=
  totalTasksProcessed (metrics s) = emitted Completed s
  ∧ totalTasksFailed (metrics s) = emitted Failed s
  ∧ (totalTasksCancelled (metrics s) <= emitted Cancelled s)%nat
  ∧ ∀ k, tracked k s = emitted k s.

(** [s'] has the metrics of [s] and no ending more in its trace. *)
Definition sameLedger (s s' : State) : Prop :=
  metrics s' = metrics s
  ∧ ∀ k, emitted k s' = emitted k s ∧ tracked k s' = tracked k s.

(** A task is submitted to a paused queue and cancelled while pending. *)
Definition cancelledWhilePending : State :=
  run (new defaultOptions)
    [CallPause; CallAddFile (Some heicFile) (OptionsObject noOptions); CallCancelTask 0].

(** One batch worker, one task at a time: a batch is running and a
    second one is pending when the first is cancelled and the worker
    acknowledges the cancellation. *)
Definition secondBatchAfterCancel : State :=
  run (new crashOptions)
    [ CallAddBatch (Some twoFiles) (OptionsObject noOptions); Microtask;
      CallAddBatch (Some twoFiles) (OptionsObject noOptions);
      CallCancelTask 0; WorkerMessage 1 batch_cancelled ].

(** Task 0 is in its attempt number [k + 1], on a queue that holds nothing
    else: it is the only active task, nothing is pending, no timer is set,
    [k] failures have been counted and [k] retries scheduled with delays
    [d × 1 … d × k], no terminal event has been emitted for it, and the
    single-file pool can still serve the attempts that remain before the
    [R]-th. *)
Definition attempting (R : nat) (d : Z) (k : nat) (s : State) : Prop :=
  maxRetries s = R ∧ retryDelay s = d ∧ (2 <= maxConcurrent s)%nat
  ∧ isPaused s = false ∧ isDestroyed s = false
  ∧ queue s = [] ∧ timers s = [] ∧ suspended s = 0%nat
  ∧ (∃ task w, task_id task = 0%nat ∧ task_type task = single
       ∧ activeWorkers s = {[ 0%nat := (task, w) ]}
       ∧ taskIdOf s w = Some 0%nat)
  ∧ retriesOf s 0 = k
  ∧ attempts 0 s = S k ∧ terminalEvents 0 s = 0%nat
  ∧ timeouts s = List.map (λ i, d * Z.of_nat i) (seq 1 k)
  ∧ poolOk s
  ∧ (∀ v, is_Some (metadata s !! v) → (v < nextWorkerId s)%nat)
  ∧ (R <= S k + freeSlots s)%nat.

(** Task 0 has failed for good after [n] attempts: it was handed to a
    worker [n] times, the tracker was told that it failed, its only
    terminal event is one [error] event that reports [n] retries, and the
    retries were scheduled with delays [d × 1 … d × (n - 1)]. *)
Definition failedAfter (d : Z) (n : nat) (s : State) : Prop :=
  activeWorkers s = ∅ ∧ queue s = [] ∧ timers s = []
  ∧ attempts 0 s = n ∧ errorEvents 0 s = 1%nat ∧ terminalEvents 0 s = 1%nat
  ∧ Track (failTask 0) ∈ trace s
  ∧ List.filter (isErrorOf 0) (trace s) = [Emit (EvError 0 n)]
  ∧ timeouts s = List.map (λ i, d * Z.of_nat i) (seq 1 (n - 1)).

End Queue.

(** ** Worker protocol: what both workers share *)

Inductive Stage := initializing | loading | decoding | encoding | finalizing | complete.

(** How an awaited promise settles.  Timers always resolve; the converter
    resolves with the encoded bytes (their length is kept) or rejects. *)
Inductive Outcome :=
| Resolved (outputSize : Z)
| Rejected (message : string).

(** ** Single-file worker (the enhanced heic-converter worker)

    The async [onmessage] handler is a coroutine: it runs until its next
    [await], and other messages are handled while it is parked.  The
    worker state holds the module-level [isCancelled] flag, the parked
    activations, and the messages posted so far (oldest first).  Progress
    message texts and the [toFixed] compression ratio are left out. *)

Module SingleWorker.

Record Request := {
  fileSize : Z;
  targetType : string;
  quality : option Z
}.

Inductive Posted :=
| Progress (percent : Q) (stage : Stage)       (* { type: 'progress', … } *)
| CancelledMsg                                 (* { type: 'cancelled', … } *)
| SuccessMsg (originalSize convertedSize : Z)  (* { success: true, result, metadata } *)
| FailureMsg (wasCancelled : bool) (error : string).
                                               (* { success: false, cancelled?, error } *)

(** The four [await]s of the handler. *)
Inductive Point :=
| AwaitFileRead
| AwaitConverter
| AwaitEncode (outputSize : Z)
| AwaitOptimize (outputSize : Z).

Record State := {
  isCancelled : bool;
  parked : list (Request * Point);
  outbox : list Posted
}.

Definition init : State :=
  {| isCancelled := false; parked := []; outbox := [] |}.

Definition post (m : Posted) (s : State) : State :=
  {| isCancelled := isCancelled s; parked := parked s; outbox := outbox s ++ [m] |}.

Definition sendProgress (percent : Q) (stage : Stage) : State → State :=
  post (Progress percent stage).

Definition park (r : Request) (p : Point) (s : State) : State :=
  {| isCancelled := isCancelled s; parked := parked s ++ [(r, p)];
     outbox := outbox s |}.

Definition cancelledMessage : string := "Conversion cancelled".

(** The [catch] block of the handler. *)
Definition catchError (message : string) (s : State) : State :=
  if bool_decide (message = cancelledMessage)
  then post (FailureMsg true message) s
  else post (FailureMsg false message) s.

Definition supported (r : Request) : bool :=
  bool_decide (targetType r = "jpeg"%string) || bool_decide (targetType r = "png"%string).

(** From the resumption after the simulated file read to the converter call. *)
Definition afterFileRead (r : Request) (s : State) : State :=
  if isCancelled s then catchError cancelledMessage s
  else
    let s := sendProgress 20 loading s in
    let s := sendProgress 20 decoding s in
    if isCancelled s then catchError cancelledMessage s
    else if supported r then park r AwaitConverter s
    else catchError ("Unsupported conversion type: " ++ targetType r) s.

Definition afterConverter (r : Request) (o : Outcome) (s : State) : State :=
  match o with
  | Rejected message => catchError message s
  | Resolved out =>
      if isCancelled s then catchError cancelledMessage s
      else
        let s := sendProgress 60 decoding s in
        let s := sendProgress 60 encoding s in
        park r (AwaitEncode out) s
  end.

Definition afterEncode (r : Request) (out : Z) (s : State) : State :=
  if isCancelled s then catchError cancelledMessage s
  else
    let s := sendProgress 80 encoding s in
    park r (AwaitOptimize out) s.

Definition afterOptimize (r : Request) (out : Z) (s : State) : State :=
  if isCancelled s then catchError cancelledMessage s
  else
    let s := sendProgress 90 encoding s in
    let s := sendProgress 90 finalizing s in
    if isCancelled s then catchError cancelledMessage s
    else
      let s := sendProgress 100 complete s in
      post (SuccessMsg (fileSize r) out) s.

Inductive Command :=
| convert (r : Request)
| cancel
| unknown.

Definition onmessage (c : Command) (s : State) : State :=
  match c with
  | cancel =>
      let s := {| isCancelled := true; parked := parked s; outbox := outbox s |} in
      post CancelledMsg s
  | convert r =>
      let s := {| isCancelled := false; parked := parked s; outbox := outbox s |} in
      let s := sendProgress 0 loading s in
      if isCancelled s then catchError cancelledMessage s
      else
        let s := sendProgress 10 loading s in
        park r AwaitFileRead s
  | unknown => s
  end.

(** The callback of [setInterval] while the converter runs;
    [elapsed] is [Date.now() - conversionStartTime]. *)
Definition intervalTick (elapsed : Z) (s : State) : State :=
  if isCancelled s then s
  else sendProgress (Qmin 50 (20 + inject_Z elapsed / 100)) decoding s.

Inductive Input :=
| Receive (c : Command)
| Settle (k : nat) (o : Outcome)      (* the awaited promise of activation [k] *)
| Tick (k : nat) (elapsed : Z).       (* the interval of activation [k] *)

Definition unpark (k : nat) (s : State) : State :=
  {| isCancelled := isCancelled s; parked := delete k (parked s);
     outbox := outbox s |}.

Definition step (s : State) (i : Input) : State :=
  match i with
  | Receive c => onmessage c s
  | Settle k o =>
      match parked s !! k with
      | None => s
      | Some (r, p) =>
          let s := unpark k s in
          match p with
          | AwaitFileRead => afterFileRead r s
          | AwaitConverter => afterConverter r o s
          | AwaitEncode out => afterEncode r out s
          | AwaitOptimize out => afterOptimize r out s
          end
      end
  | Tick k elapsed =>
      match parked s !! k with
      | Some (_, AwaitConverter) => intervalTick elapsed s
      | _ => s
      end
  end.

Definition run (s : State) (inputs : list Input) : State :=
  fold_left step inputs s.

Definition isTerminal (m : Posted) : bool :=
  match m with
  | Progress _ _ => false
  | _ => true
  end.

Definition terminalCount (s : State) : nat :=
  length (List.filter isTerminal (outbox s)).

(** Messages that carry the outcome of a conversion, and acknowledgements
    of a [cancel] command. *)
Definition isResult (m : Posted) : bool :=
  match m with
  | SuccessMsg _ _ | FailureMsg _ _ => true
  | _ => false
  end.

Definition isCancelAck (m : Posted) : bool :=
  match m with
  | CancelledMsg => true
  | _ => false
  end.

Definition resultCount (s : State) : nat :=
  length (List.filter isResult (outbox s)).

Definition ackCount (s : State) : nat :=
  length (List.filter isCancelAck (outbox s)).

Definition isConvertInput (i : Input) : bool :=
  match i with
  | Receive (convert _) => true
  | _ => false
  end.

Definition isCancelInput (i : Input) : bool :=
  match i with
  | Receive cancel => true
  | _ => false
  end.

(** The percentages of the progress messages, oldest first. *)
Definition percents (s : State) : list Q :=
  omap (λ m, match m with Progress p _ => Some p | _ => None end) (outbox s).

(** The readings of the interval timer are non-negative and do not go
    back in time: each [Tick] carries an elapsed time at least as large
    as the one before, starting from [since]. *)
Fixpoint clockAdvances (since : Z) (inputs : list Input) : Prop :=
  match inputs with
  | [] => True
  | Tick _ elapsed :: rest => since <= elapsed ∧ clockAdvances elapsed rest
  | _ :: rest => clockAdvances since rest
  end.

Definition isReceive (i : Input) : bool :=
  match i with
  | Receive _ => true
  | _ => false
  end.

(** The highest percentage a conversion can have reported while it waits
    at an [await], the interval timer having last read [elapsed]. *)
Definition ceilingAt (p : Point) (elapsed : Z) : Q :=
  match p with
  | AwaitFileRead => 10
  | AwaitConverter => Qmin 50 (20 + inject_Z elapsed / 100)
  | AwaitEncode _ => 60
  | AwaitOptimize _ => 80
  end.

(** The progress reported so far is in non-decreasing order, within 0 to
    100 and at most [c]. *)
Definition reportedUpTo (c : Q) (s : State) : Prop :=
  StronglySorted Qle (percents s)
  ∧ Forall (λ q, 0 <= q <= 100 ∧ q <= c)%Q (percents s).

(** One conversion runs, uncancelled: while it waits at an [await] its
    progress is under the ceiling of that [await] and the last message is
    a progress message; once it has ended, a success message comes right
    after a progress of 100. *)
Definition advancing (elapsed : Z) (s : State) : Prop :=
  isCancelled s = false ∧ 0 <= elapsed
  ∧ match parked s with
    | [] =>
        reportedUpTo 100 s
        ∧ ∀ m, last (outbox s) = Some m →
            match m with
            | SuccessMsg _ _ => last (percents s) = Some 100%Q
            | _ => True
            end
    | [(_, p)] =>
        reportedUpTo (ceilingAt p elapsed) s
        ∧ ∀ m, last (outbox s) = Some m → isTerminal m = false
    | _ => False
    end.

(** *** Scenario used in the properties below *)

Definition tickingRun : list Input :=
  [Settle 0 (Resolved 0); Tick 0 150; Tick 0 5000; Settle 0 (Resolved 900);
   Settle 0 (Resolved 0); Settle 0 (Resolved 0)].

Definition jpegRequest : Request :=
  {| fileSize := 2000000; targetType := "jpeg"; quality := Some 80 |}.

(** A conversion that receives [cancel] while its simulated file read is
    pending, and is then resumed. *)
Definition cancelledDuringRead : State :=
  run init [Receive (convert jpegRequest); Receive cancel; Settle 0 (Resolved 0)].

End SingleWorker.

(** ** Batch worker (batch-converter.worker.js)

    Same coroutine model.  [batchState] is one module-level object shared
    by every activation; [startTime] and the time estimates derived from
    it are left out.  [effects] records, oldest first, the messages posted
    and the calls made to the converter. *)

Module BatchWorker.

Record File := { name : string; size : Z }.

Record Request := {
  files : list File;
  targetType : string;
  quality : option Z
}.

Record ResultEntry := {
  r_fileName : string;
  r_originalSize : Z;
  r_convertedSize : Z
}.

Record ErrorEntry := {
  e_fileName : string;
  e_error : string
}.

(** The message templates of [sendProgress]. *)
Inductive Note :=
| StartingBatch        (* "Starting batch conversion of N files" *)
| Starting             (* "Starting conversion of <file>" *)
| Loading
| Decoding
| Encoding
| Finalizing
| Completed
| BatchDone.           (* "Batch conversion complete" *)

Inductive Posted :=
| BatchProgress (percent : Q) (currentFile : string) (note : Note) (stage : Stage)
    (filesProcessed totalFiles : nat)
| BatchCancelled (results : list ResultEntry) (errors : list ErrorEntry)
| BatchComplete (results : list ResultEntry) (errors : list ErrorEntry)
    (totalFiles successCount errorCount : nat).

Inductive Effect :=
| PostMessage (m : Posted)
| CallConverter (f : File).

Record BatchState := {
  isCancelled : bool;
  currentFileIndex : nat;
  totalFiles : nat;
  results : list ResultEntry;
  errors : list ErrorEntry;
  filesProcessed : nat
}.

(** The three [await]s of [convertSingleFile]. *)
Inductive Point :=
| AwaitLoad
| AwaitConverter
| AwaitEncode (outputSize : Z).

(** A parked activation: its command, the loop index [i], and where in
    [convertSingleFile] it waits. *)
Record Activation := {
  request : Request;
  index : nat;
  point : Point
}.

Record State := {
  batchState : BatchState;
  parked : list Activation;
  effects : list Effect
}.

Definition initialBatchState : BatchState :=
  {| isCancelled := false; currentFileIndex := 0; totalFiles := 0;
     results := []; errors := []; filesProcessed := 0 |}.

Definition init : State :=
  {| batchState := initialBatchState; parked := []; effects := [] |}.

Definition set_batchState (b : BatchState) (s : State) : State :=
  {| batchState := b; parked := parked s; effects := effects s |}.

Definition effect (e : Effect) (s : State) : State :=
  {| batchState := batchState s; parked := parked s; effects := effects s ++ [e] |}.

Definition park (a : Activation) (s : State) : State :=
  {| batchState := batchState s; parked := parked s ++ [a]; effects := effects s |}.

Definition calculateBatchProgress (s : State) (fileIndex : nat) (fileProgress : Q) : Q :=
  let total := inject_Z (Z.of_nat (totalFiles (batchState s))) in
  let baseProgress := (inject_Z (Z.of_nat fileIndex) / total * 100)%Q in
  let fileContribution := (fileProgress / total)%Q in
  Qmin 100 (baseProgress + fileContribution)%Q.

(** The same expression in IEEE 754 binary64, the arithmetic JavaScript
    performs: [Math.min(100, fileIndex / totalFiles * 100
                             + fileProgress / totalFiles)]. *)
Definition calculateBatchProgress64 (totalFiles fileIndex fileProgress : float) : float :=
  let baseProgress := (fileIndex / totalFiles * 100)%float in
  let fileContribution := (fileProgress / totalFiles)%float in
  let sum := (baseProgress + fileContribution)%float in
  if (100 <? sum)%float then 100%float else sum.

Definition sendProgress (percent : Q) (currentFile : string) (note : Note)
    (stage : Stage) (s : State) : State :=
  effect (PostMessage (BatchProgress percent currentFile note stage
                         (filesProcessed (batchState s)) (totalFiles (batchState s)))) s.

Definition cancelledMessage : string := "Batch conversion cancelled".

(** The [catch] block of [convertSingleFile]: [batchState.errors.push]. *)
Definition pushError (f : File) (message : string) (s : State) : State :=
  let b := batchState s in
  set_batchState
    {| isCancelled := isCancelled b; currentFileIndex := currentFileIndex b;
       totalFiles := totalFiles b; results := results b;
       errors := errors b ++ [{| e_fileName := name f; e_error := message |}];
       filesProcessed := filesProcessed b |} s.

(** [batchState.filesProcessed++] and, back in the loop,
    [batchState.results.push(result)]. *)
Definition pushResult (f : File) (out : Z) (s : State) : State :=
  let b := batchState s in
  set_batchState
    {| isCancelled := isCancelled b; currentFileIndex := currentFileIndex b;
       totalFiles := totalFiles b;
       results := results b ++ [{| r_fileName := name f; r_originalSize := size f;
                                   r_convertedSize := out |}];
       errors := errors b;
       filesProcessed := S (filesProcessed b) |} s.

Definition setCurrentFileIndex (i : nat) (s : State) : State :=
  let b := batchState s in
  set_batchState
    {| isCancelled := isCancelled b; currentFileIndex := i;
       totalFiles := totalFiles b; results := results b; errors := errors b;
       filesProcessed := filesProcessed b |} s.

(** After the [for] loop: the completion message, unless cancelled. *)
Definition finish (s : State) : State :=
  if isCancelled (batchState s) then s
  else
    let s := sendProgress 100 "" BatchDone complete s in
    let b := batchState s in
    effect (PostMessage (BatchComplete (results b) (errors b) (totalFiles b)
                           (length (results b)) (length (errors b)))) s.

(** The head of the [for] loop at index [i], and [convertSingleFile] up
    to its first [await].  The cancellation check that follows the first
    [sendProgress] reads the flag that the loop head has just found
    false, with no [await] in between, so it cannot fire. *)
Definition loopHead (r : Request) (i : nat) (s : State) : State :=
  match files r !! i with
  | None => finish s
  | Some f =>
      if isCancelled (batchState s) then finish s                     (* break *)
      else
        let s := setCurrentFileIndex i s in
        let s := sendProgress (calculateBatchProgress s i 0) (name f) Starting loading s in
        park {| request := r; index := i; point := AwaitLoad |} s
  end.

Definition supported (r : Request) : bool :=
  bool_decide (targetType r = "jpeg"%string) || bool_decide (targetType r = "png"%string).

Definition afterLoad (r : Request) (i : nat) (f : File) (s : State) : State :=
  let s := sendProgress (calculateBatchProgress s i 20) (name f) Loading loading s in
  if isCancelled (batchState s)
  then loopHead r (S i) (pushError f cancelledMessage s)
  else
    let s := sendProgress (calculateBatchProgress s i 40) (name f) Decoding decoding s in
    if supported r
    then park {| request := r; index := i; point := AwaitConverter |}
           (effect (CallConverter f) s)
    else loopHead r (S i)
           (pushError f ("Unsupported conversion type: " ++ targetType r) s).

Definition afterConverter (r : Request) (i : nat) (f : File) (o : Outcome)
    (s : State) : State :=
  match o with
  | Rejected message => loopHead r (S i) (pushError f message s)
  | Resolved out =>
      if isCancelled (batchState s)
      then loopHead r (S i) (pushError f cancelledMessage s)
      else
        let s := sendProgress (calculateBatchProgress s i 70) (name f) Encoding encoding s in
        park {| request := r; index := i; point := AwaitEncode out |} s
  end.

Definition afterEncode (r : Request) (i : nat) (f : File) (out : Z)
    (s : State) : State :=
  let s := sendProgress (calculateBatchProgress s i 90) (name f) Finalizing finalizing s in
  let s := sendProgress (calculateBatchProgress s i 100) (name f) Completed complete s in
  loopHead r (S i) (pushResult f out s).

Inductive Command :=
| convert_batch (r : Request)
| cancel_batch
| unknown.

Definition onmessage (c : Command) (s : State) : State :=
  match c with
  | cancel_batch =>
      let b := batchState s in
      let s := set_batchState
                 {| isCancelled := true; currentFileIndex := currentFileIndex b;
                    totalFiles := totalFiles b; results := results b;
                    errors := errors b; filesProcessed := filesProcessed b |} s in
      effect (PostMessage (BatchCancelled (results (batchState s))
                             (errors (batchState s)))) s
  | convert_batch r =>
      let s := set_batchState
                 {| isCancelled := false; currentFileIndex := 0;
                    totalFiles := length (files r); results := []; errors := [];
                    filesProcessed := 0 |} s in
      let s := sendProgress 0 "" StartingBatch initializing s in
      loopHead r 0 s
  | unknown => s
  end.

Inductive Input :=
| Receive (c : Command)
| Settle (k : nat) (o : Outcome).     (* the awaited promise of activation [k] *)

Definition unpark (k : nat) (s : State) : State :=
  {| batchState := batchState s; parked := delete k (parked s);
     effects := effects s |}.

Definition step (s : State) (i : Input) : State :=
  match i with
  | Receive c => onmessage c s
  | Settle k o =>
      match parked s !! k with
      | None => s
      | Some a =>
          match files (request a) !! index a with
          | None => s
          | Some f =>
              let s := unpark k s in
              match point a with
              | AwaitLoad => afterLoad (request a) (index a) f s
              | AwaitConverter => afterConverter (request a) (index a) f o s
              | AwaitEncode out => afterEncode (request a) (index a) f out s
              end
          end
      end
  end.

Definition run (s : State) (inputs : list Input) : State :=
  fold_left step inputs s.

(** An effect that begins the conversion of a file: the first progress
    message of [convertSingleFile], or a call to the converter. *)
Definition startsFile (e : Effect) : bool :=
  match e with
  | PostMessage (BatchProgress _ _ Starting _ _ _) => true
  | CallConverter _ => true
  | _ => false
  end.

Definition isConvertBatch (i : Input) : bool :=
  match i with
  | Receive (convert_batch _) => true
  | _ => false
  end.

(** *** Vocabulary and scenarios used in the properties below *)

(** [s'] continues [s] without beginning any file: the cancellation flag
    is still set, and the effects added neither announce a new file nor
    call the converter. *)
Definition quietly (s s' : State) : Prop :=
  isCancelled (batchState s') = true
  ∧ ∃ more, effects s' = effects s ++ more
            ∧ Forall (λ e, startsFile e = false) more.

Definition threeFiles : Request :=
  {| files := [ {| name := "a.heic"; size := 10 |};
                {| name := "b.heic"; size := 20 |};
                {| name := "c.heic"; size := 30 |} ];
     targetType := "jpeg"; quality := None |}.

(** The first file is done and the second is inside the converter. *)
Definition midBatch : State :=
  run init [Receive (convert_batch threeFiles);
            Settle 0 (Resolved 0); Settle 0 (Resolved 5);
            Settle 0 (Resolved 0); Settle 0 (Resolved 0)].

Definition laterInputs : list Input :=
  [Settle 0 (Resolved 7); Settle 0 (Resolved 0)].

Inductive Kind := KProgress | KTerminal | KConverter.

Definition kindOf (e : Effect) : Kind :=
  match e with
  | PostMessage (BatchProgress _ _ _ _ _ _) => KProgress
  | PostMessage (BatchCancelled _ _) => KTerminal
  | PostMessage (BatchComplete _ _ _ _ _) => KTerminal
  | CallConverter _ => KConverter
  end.

Definition isTerminalEffect (e : Effect) : bool :=
  match kindOf e with
  | KTerminal => true
  | _ => false
  end.

Definition isReceive (i : Input) : bool :=
  match i with
  | Receive _ => true
  | _ => false
  end.

(** The first [i] files of the request are accounted for, each once,
    among the results and the errors. *)
Definition accountedFor (r : Request) (i : nat) (b : BatchState) : Prop :=
  (length (results b) + length (errors b) = i)%nat
  ∧ List.map r_fileName (results b) ++ List.map e_fileName (errors b)
    ≡ₚ List.map name (take i (files r)).

(** The batch [r] runs, uncancelled: either one activation waits inside
    the conversion of file [index], the files before it accounted for and
    no terminal message posted; or nothing waits, every file is accounted
    for, and the last effect is the one terminal message, a
    [batch-complete] that carries the results, the errors and their
    counts. *)
Definition converting (r : Request) (s : State) : Prop :=
  isCancelled (batchState s) = false
  ∧ totalFiles (batchState s) = length (files r)
  ∧ match parked s with
    | [] =>
        accountedFor r (length (files r)) (batchState s)
        ∧ ∃ before,
            effects s
            = before
              ++ [PostMessage (BatchComplete (results (batchState s))
                                 (errors (batchState s)) (length (files r))
                                 (length (results (batchState s)))
                                 (length (errors (batchState s))))]
            ∧ Forall (λ e, isTerminalEffect e = false) before
    | [a] =>
        request a = r ∧ (index a < length (files r))%nat
        ∧ accountedFor r (index a) (batchState s)
        ∧ Forall (λ e, isTerminalEffect e = false) (effects s)
    | _ => False
    end.

(** Awaits left before the batch is done, at most: three per file not
    yet begun, less the ones the current file is past. *)
Definition awaitsLeft (r : Request) (s : State) : nat :=
  match parked s with
  | a :: _ =>
      3 * (length (files r) - index a)
      - match point a with
        | AwaitLoad => 0
        | AwaitConverter => 1
        | AwaitEncode _ => 2
        end
  | [] => 0
  end.

(** Files of [r] that are over when [s] waits: those before the one in
    progress, or all of them when nothing waits. *)
Definition filesOver (r : Request) (s : State) : nat :=
  match parked s with
  | a :: _ => index a
  | [] => length (files r)
  end.

(** What a trace tells about files and batches: the conversion of a file
    begins, the converter is called on a file, a terminal message is
    posted, with the names of the files whose results it carries. *)
Inductive Milestone :=
| FileBegins (file : string)
| ConverterCalled (file : string)
| CancelledPosted (converted : list string)
| CompletePosted (converted : list string).

Definition milestone (e : Effect) : option Milestone :=
  match e with
  | PostMessage (BatchProgress _ file Starting _ _ _) => Some (FileBegins file)
  | CallConverter f => Some (ConverterCalled (name f))
  | PostMessage (BatchCancelled rs _) => Some (CancelledPosted (List.map r_fileName rs))
  | PostMessage (BatchComplete rs _ _ _ _) => Some (CompletePosted (List.map r_fileName rs))
  | _ => None
  end.

Definition nextBatch : Request :=
  {| files := [ {| name := "z.heic"; size := 40 |} ];
     targetType := "jpeg"; quality := None |}.

(** The batch [threeFiles] is cancelled while its first file loads; the
    worker is handed the next batch; then the pause and the conversion of
    the first file of the cancelled batch settle. *)
Definition cancelledThenNextBatch : list Input :=
  [ Receive (convert_batch threeFiles); Receive cancel_batch;
    Receive (convert_batch nextBatch);
    Settle 0 (Resolved 0); Settle 1 (Resolved 5); Settle 1 (Resolved 0) ].

(** The same run, continued until nothing waits. *)
Definition cancelledThenAllSettle : list Input :=
  cancelledThenNextBatch
  ++ [ Settle 0 (Resolved 0); Settle 1 (Resolved 9); Settle 1 (Resolved 0);
       Settle 0 (Resolved 0); Settle 0 (Resolved 6); Settle 0 (Resolved 0);
       Settle 0 (Resolved 0); Settle 0 (Resolved 7); Settle 0 (Resolved 0) ].

Definition oneFile : Request :=
  {| files := [ {| name := "a.heic"; size := 10 |} ];
     targetType := "jpeg"; quality := None |}.

(** A one-file batch that receives [cancel-batch] while the 50 ms pause of
    the encoding phase is pending, and is then resumed. *)
Definition cancelledDuringEncode : State :=
  run init [Receive (convert_batch oneFile);
            Settle 0 (Resolved 0); Settle 0 (Resolved 5);
            Receive cancel_batch; Settle 0 (Resolved 0)].

End BatchWorker.


(** ** Chunked processor (the ChunkedProcessor class)

    The pure and the sequential parts: [createChunks], and the per-item
    retry wrapper that [processWithRetry] hands to [processInChunks]. *)

Module ChunkedProcessor.

Section Chunks.
Context {A : Type}.

(** [Array.prototype.slice(start, end)] for [0 ≤ start ≤ end] *)
Definition slice (start stop : nat) (items : list A) : list A :=
  take (stop - start) (drop start items).

(** The [for] loop of [createChunks], entered with loop variable [i].
    [fuel] bounds the number of iterations; [None] means the bound was
    reached with the loop still running. *)
Fixpoint createChunksFrom (fuel : nat) (chunkSize i : nat) (items : list A)
  : option (list (list A)) :=
  match fuel with
  | O => None
  | S fuel' =>
      if (i <? length items)%nat
      then
        match createChunksFrom fuel' chunkSize (i + chunkSize) items with
        | Some chunks => Some (slice i (i + chunkSize) items :: chunks)
        | None => None
        end
      else Some []
  end.

Definition createChunks (fuel : nat) (chunkSize : nat) (items : list A)
  : option (list (list A)) :=
  createChunksFrom fuel chunkSize 0 items.
End Chunks.

Section Retry.
Context {V E : Type}.

(** What one call of the processor does. *)
Inductive Attempt :=
| Fulfils (v : V)
| Rejects (e : E).

(** How the wrapper ends: with the processor's value, or by throwing
    [itemError], which is [undefined] ([None]) if the loop never ran. *)
Inductive Ending :=
| Returned (v : V)
| Thrown (itemError : option E).

Record Run := {
  ending : Ending;
  calls : nat;               (* number of calls of the processor *)
  delays : list Z            (* arguments of [this.delay], oldest first *)
}.

(** The inner [for] loop of [processWithRetry], entered with loop variable
    [itemAttempt]; [iterations] is the number of iterations left before
    [itemAttempt <= maxRetries] fails.  [outcome k] is what call number
    [k] of the processor does. *)
Fixpoint retryLoop (iterations : nat) (maxRetries retryDelay retryBackoff : Z)
    (outcome : nat → Attempt) (itemAttempt : nat) (itemError : option E)
    (waited : list Z) : Run :=
  match iterations with
  | O => {| ending := Thrown itemError; calls := itemAttempt; delays := waited |}
  | S iterations' =>
      match outcome itemAttempt with
      | Fulfils v =>
          {| ending := Returned v; calls := S itemAttempt; delays := waited |}
      | Rejects e =>
          let waited :=
            if Z.of_nat itemAttempt <? maxRetries
            then waited ++ [retryDelay * retryBackoff ^ Z.of_nat itemAttempt]
            else waited in
          retryLoop iterations' maxRetries retryDelay retryBackoff outcome
            (S itemAttempt) (Some e) waited
      end
  end.

(** The wrapper, for integer [maxRetries]: the loop runs while
    [itemAttempt <= maxRetries], that is [maxRetries + 1] times at most,
    and not at all when [maxRetries] is negative. *)
Definition retryingProcessor (maxRetries retryDelay retryBackoff : Z)
    (outcome : nat → Attempt) : Run :=
  retryLoop (Z.to_nat (maxRetries + 1)) maxRetries retryDelay retryBackoff
    outcome 0 None [].
End Retry.

Arguments Attempt : clear implicits.
Arguments Ending : clear implicits.
Arguments Run : clear implicits.

(** Delays [retryDelay × retryBackoff^0 … retryDelay × retryBackoff^(k-1)]. *)
Definition backoffDelays (retryDelay retryBackoff : Z) (k : nat) : list Z :=
  List.map (λ i, retryDelay * retryBackoff ^ Z.of_nat i) (seq 0 k).

(** A processor that fails twice and then yields 7. *)
Definition failsTwice (k : nat) : Attempt Z string :=
  if (k <? 2)%nat then Rejects "busy"%string else Fulfils 7.

(** *** [processFiles]: files sorted by size and chunked adaptively *)

(** An element of [files]: a [File] with its [size], or another value. *)
Inductive FileItem :=
| IsFile (ref : nat) (size : Z)
| NotFile (ref : nat).

(** [a instanceof File ? a.size : 0] *)
Definition sizeOf (f : FileItem) : Z :=
  match f with
  | IsFile _ size => size
  | NotFile _ => 0
  end.

(** Stable sort by ascending size, as [Array.prototype.sort] with the
    comparator [(a, b) => sizeA - sizeB]. *)
Fixpoint insertBySize (f : FileItem) (l : list FileItem) : list FileItem :=
  match l with
  | [] => [f]
  | g :: l' =>
      if sizeOf g <? sizeOf f then g :: insertBySize f l'
      else f :: g :: l'
  end.

Definition sortBySize (files : list FileItem) : list FileItem :=
  foldr insertBySize [] files.

(** [sortedFiles.reduce(…, 0)] *)
Definition totalFileSize (files : list FileItem) : Z :=
  fold_left (λ sum f, sum + sizeOf f) files 0.

(** [totalSize / sortedFiles.length]; [None] is [NaN], the value of
    [0 / 0]. *)
Definition averageFileSize (files : list FileItem) : option Q :=
  match length files with
  | O => None
  | S n => Some (totalFileSize files # Pos.of_succ_nat n)
  end.

Definition MB : Z := 1024 * 1024.

(** [a < b] on numbers that are not [NaN] *)
Definition Qlt_bool (a b : Q) : bool := negb (Qle_bool b a).

(** [calculateAdaptiveChunkSize]; every comparison with [NaN] is false. *)
Definition calculateAdaptiveChunkSize (avgFileSize : option Q) : nat :=
  match avgFileSize with
  | None => 1
  | Some a =>
      if Qlt_bool a (inject_Z MB) then 10
      else if Qlt_bool a (inject_Z (10 * MB)) then 5
      else if Qlt_bool a (inject_Z (50 * MB)) then 3
      else 1
  end%nat.

(** The chunks [processFiles] hands to the processing loop: the sorted
    files, cut by [createChunks] with the adaptive chunk size. *)
Definition processFilesChunks (fuel : nat) (files : list FileItem)
  : option (list (list FileItem)) :=
  let sortedFiles := sortBySize files in
  createChunks fuel (calculateAdaptiveChunkSize (averageFileSize sortedFiles))
    sortedFiles.

(** A large picture, two small ones of the same size, and a value that
    is not a [File]. *)
Definition mixedFiles : list FileItem :=
  [ IsFile 0 (60 * MB); IsFile 1 300; NotFile 2; IsFile 3 300 ].

End ChunkedProcessor.

(** ** HEIC converter wrapper (wasm/heic-to-wrapper.js)

    The byte-level format check [isHEIC] and the sequential
    [convertBatch].  The decoder itself ([heic-to]) is outside the
    repository: what a conversion does is an input of the model. *)

Module SimpleHeicConverter.

(** The elements of a [Uint8Array] are the 8-bit characters that
    [String.fromCharCode] makes of them. *)
Definition Bytes := list ascii.

(** What [isHEIC] is given.  A [File] or [Blob] is read with
    [arrayBuffer()], which may reject; a [Uint8Array] is a view of
    [viewLength] bytes at [byteOffset] of its underlying [buffer]. *)
Inductive Input :=
| FromBlob (content : option Bytes)
| FromArrayBuffer (content : Bytes)
| FromUint8Array (buffer : Bytes) (byteOffset viewLength : nat)
| FromOther.

Definition heicBrands : list string :=
  ["heic"; "heix"; "hevc"; "hevx"; "heim"; "heis"; "hevm"; "hevs"; "mif1"]%string.

(** [String.fromCharCode(a[i], a[i+1], a[i+2], a[i+3])] *)
Definition fourCC (a : Bytes) (i : nat) : string :=
  string_of_list_ascii (take 4 (drop i a)).

(** The checks made on [new Uint8Array(buffer)]. *)
Definition hasSignature (uint8Array : Bytes) : bool :=
  if (length uint8Array <? 12)%nat then false
  else if negb (String.eqb (fourCC uint8Array 4) "ftyp") then false
  else bool_decide (fourCC uint8Array 8 ∈ heicBrands).

Definition isHEIC (input : Input) : bool :=
  match input with
  | FromBlob (Some content) => hasSignature content
  | FromBlob None => false                       (* the [catch] block *)
  | FromArrayBuffer content => hasSignature content
  | FromUint8Array buffer _ _ => hasSignature buffer     (* [input.buffer] *)
  | FromOther => false
  end.

(** The bytes [isHEIC] inspects, when it gets any: for a [Uint8Array]
    the whole underlying buffer, not the window the view shows. *)
Definition inspected (input : Input) : option Bytes :=
  match input with
  | FromBlob content => content
  | FromArrayBuffer content => Some content
  | FromUint8Array buffer _ _ => Some buffer
  | FromOther => None
  end.

(** *** [convertBatch] *)

Inductive Format := JPEG | PNG.

(** [convertToPNG] when [outputFormat.toLowerCase() === 'png'], otherwise
    [convertToJPEG], whatever the format asked for. *)
Definition formatFor (outputFormat : string) : Format :=
  if String.eqb (Queue.toLowerCase outputFormat) "png" then PNG else JPEG.

Record BatchRun := {
  converted : list (nat * Format);       (* conversions started: file index, format *)
  outcome : list Z + (nat * string)      (* the blobs (sizes), or the 1-based
                                            file number and message of the error *)
}.

(** The loop of [convertBatch] from index [i] on; [conversions] lists
    what the conversion of each remaining file does. *)
Fixpoint convertFrom (format : Format) (i : nat) (conversions : list Outcome)
    (started : list (nat * Format)) (results : list Z) : BatchRun :=
  match conversions with
  | [] => {| converted := started; outcome := inl results |}
  | Resolved blob :: rest =>
      convertFrom format (S i) rest (started ++ [(i, format)]) (results ++ [blob])
  | Rejected message :: _ =>
      {| converted := started ++ [(i, format)]; outcome := inr (S i, message) |}
  end.

Definition convertBatch (conversions : list Outcome) (outputFormat : string) : BatchRun :=
  convertFrom (formatFor outputFormat) 0 conversions [] [].

Definition blobOf (o : Outcome) : option Z :=
  match o with
  | Resolved blob => Some blob
  | Rejected _ => None
  end.

Definition isRejected (o : Outcome) : bool :=
  match o with
  | Rejected _ => true
  | Resolved _ => false
  end.

(** A 16-byte header with the [heic] brand. *)
Definition heicHeader : Bytes :=
  list_ascii_of_string "....ftypheic....".

End SimpleHeicConverter.

(** ** Progress tracker (utils/progress-tracker.js)

    The counters and the listener table.  Clock readings
    ([startTime], throughput, time estimates) are left out. *)

Module ProgressTracker.

Record Stats := {
  totalFiles : Z;
  processedFiles : Z;
  failedFiles : Z;
  cancelledFiles : Z;
  totalBytes : Z;
  processedBytes : Z
}.

(** A listener is a callback reference; calling it may throw. *)
Record Listener := { listener_ref : nat; throws : bool }.

#[export] Instance Listener_eq_dec : EqDecision Listener.
Proof. solve_decision. Defined.

Record State := {
  stats : Stats;
  listeners : list (string * list Listener);   (* Map, in insertion order *)
  called : list (string * nat)                 (* listener calls, oldest first *)
}.

Definition zeroStats : Stats :=
  {| totalFiles := 0; processedFiles := 0; failedFiles := 0; cancelledFiles := 0;
     totalBytes := 0; processedBytes := 0 |}.

Definition new : State := {| stats := zeroStats; listeners := []; called := [] |}.

Definition set_stats (st : Stats) (s : State) : State :=
  {| stats := st; listeners := listeners s; called := called s |}.

(** [Map.prototype.get] *)
Fixpoint lookupEvent (event : string) (m : list (string * list Listener))
  : option (list Listener) :=
  match m with
  | [] => None
  | (e, ls) :: rest => if String.eqb e event then Some ls else lookupEvent event rest
  end.

(** [Map.prototype.set] followed by a mutation of the stored array:
    replaces the array of an existing key in place, or appends the key. *)
Fixpoint storeEvent (event : string) (ls : list Listener)
    (m : list (string * list Listener)) : list (string * list Listener) :=
  match m with
  | [] => [(event, ls)]
  | (e, old) :: rest =>
      if String.eqb e event then (e, ls) :: rest
      else (e, old) :: storeEvent event ls rest
  end.

(** [emitEvent]: every listener of the event is called, in registration
    order; one that throws is logged and the next is called. *)
Definition emitEvent (event : string) (s : State) : State :=
  match lookupEvent event (listeners s) with
  | None => s
  | Some ls =>
      {| stats := stats s; listeners := listeners s;
         called := called s ++ List.map (λ l, (event, listener_ref l)) ls |}
  end.

Definition on (event : string) (callback : Listener) (s : State) : State :=
  let ls := default [] (lookupEvent event (listeners s)) in
  {| stats := stats s; listeners := storeEvent event (ls ++ [callback]) (listeners s);
     called := called s |}.

(** [indexOf] then [splice(index, 1)]: the first occurrence goes. *)
Fixpoint removeFirst (callback : Listener) (ls : list Listener) : list Listener :=
  match ls with
  | [] => []
  | l :: rest => if decide (l = callback) then rest else l :: removeFirst callback rest
  end.

Definition off (event : string) (callback : Listener) (s : State) : State :=
  match lookupEvent event (listeners s) with
  | None => s
  | Some ls =>
      {| stats := stats s;
         listeners := storeEvent event (removeFirst callback ls) (listeners s);
         called := called s |}
  end.

Definition reset (s : State) : State := set_stats zeroStats s.

Definition startTracking (files bytes : Z) (s : State) : State :=
  let st := stats s in
  emitEvent "trackingStarted"
    (set_stats {| totalFiles := files; processedFiles := processedFiles st;
                  failedFiles := failedFiles st; cancelledFiles := cancelledFiles st;
                  totalBytes := bytes; processedBytes := processedBytes st |} s).

(** [Math.floor((fileSize * progress) / 100)], then the cap at [totalBytes] *)
Definition updateFileProgress (fileSize progress : Z) (s : State) : State :=
  let st := stats s in
  let progressBytes := (fileSize * progress) / 100 in
  emitEvent "progressUpdated"
    (set_stats {| totalFiles := totalFiles st; processedFiles := processedFiles st;
                  failedFiles := failedFiles st; cancelledFiles := cancelledFiles st;
                  totalBytes := totalBytes st;
                  processedBytes := Z.min (processedBytes st + progressBytes)
                                          (totalBytes st) |} s).

Definition completeFile (s : State) : State :=
  let st := stats s in
  emitEvent "fileCompleted"
    (set_stats {| totalFiles := totalFiles st; processedFiles := processedFiles st + 1;
                  failedFiles := failedFiles st; cancelledFiles := cancelledFiles st;
                  totalBytes := totalBytes st; processedBytes := processedBytes st |} s).

Definition failFile (s : State) : State :=
  let st := stats s in
  emitEvent "fileFailed"
    (set_stats {| totalFiles := totalFiles st; processedFiles := processedFiles st + 1;
                  failedFiles := failedFiles st + 1; cancelledFiles := cancelledFiles st;
                  totalBytes := totalBytes st; processedBytes := processedBytes st |} s).

Definition cancelFile (s : State) : State :=
  let st := stats s in
  emitEvent "fileCancelled"
    (set_stats {| totalFiles := totalFiles st; processedFiles := processedFiles st;
                  failedFiles := failedFiles st; cancelledFiles := cancelledFiles st + 1;
                  totalBytes := totalBytes st; processedBytes := processedBytes st |} s).

Definition finish (s : State) : State := emitEvent "trackingFinished" s.

(** [getProgress().isComplete] *)
Definition isComplete (s : State) : bool :=
  totalFiles (stats s) <=? processedFiles (stats s).

(** The calls made while one batch is tracked. *)
Inductive Call :=
| UpdateFileProgress (fileSize progress : Z)
| CompleteFile
| FailFile
| CancelFile
| Finish
| On (event : string) (callback : Listener)
| Off (event : string) (callback : Listener).

Definition call (s : State) (c : Call) : State :=
  match c with
  | UpdateFileProgress fileSize progress => updateFileProgress fileSize progress s
  | CompleteFile => completeFile s
  | FailFile => failFile s
  | CancelFile => cancelFile s
  | Finish => finish s
  | On event callback => on event callback s
  | Off event callback => off event callback s
  end.

Definition calls (s : State) (cs : list Call) : State := fold_left call cs s.


Definition count (p : Call → bool) (cs : list Call) : Z :=
  Z.of_nat (length (List.filter p cs)).

Definition isCompleteFile (c : Call) : bool :=
  match c with CompleteFile => true | _ => false end.

Definition isFailFile (c : Call) : bool :=
  match c with FailFile => true | _ => false end.

Definition isCancelFile (c : Call) : bool :=
  match c with CancelFile => true | _ => false end.

End ProgressTracker.

(** ** Memory manager: the conversion queue (utils/memory-manager.js)

    [queueConversion], [processQueue], [delay] and [dispose].  An
    activation of the asynchronous [processQueue] runs until it reaches an
    [await], where it is parked; it continues when its timer fires or the
    promise returned by the task settles.  The manager's other methods may
    be called in between, and the host is read afresh at every step.
    Monitoring ([startMonitoring], [stopMonitoring]) is left out. *)

Module MemoryQueue.

(** What calling [item.task()] does: it throws, or it returns a value
    that is awaited. *)
Inductive TaskBody :=
| ThrowsAtOnce (error : nat)
| ReturnsPromise.

(** An entry of [conversionQueue].  [item_id] numbers the calls of
    [queueConversion]; it stands for the promise handed back to the
    caller, with its [resolve] and [reject]. *)
Record Item := {
  item_id : nat;
  task : TaskBody;
  estimatedMemory : Z
}.

Inductive Outcome :=
| Fulfilled (result : nat)
| Rejected (error : nat).

(** Where an activation of [processQueue] is parked. *)
Inductive Activation :=
| AwaitMemory (item : Item)    (* await this.delay(100), in the while loop *)
| AwaitTask (item : Item)      (* await item.task() *)
| AwaitPause.                  (* await this.delay(10), in the finally block *)

Inductive Effect :=
| Invoke (i : nat)                   (* item.task() *)
| Resolve (i : nat) (result : nat)   (* item.resolve(result) *)
| Reject (i : nat) (error : nat)     (* item.reject(error) *)
| SetTimeout (ms : Z).               (* setTimeout(resolve, ms) *)

Record State := mkState {
  manager : MemoryManager.State;
  conversionQueue : list Item;
  isProcessing : bool;
  parked : gmap nat Activation;
  trace : list Effect;               (* newest first *)
  nextItem : nat;
  nextActivation : nat
}.

Definition set_manager (m : MemoryManager.State) (s : State) : State :=
  mkState m (conversionQueue s) (isProcessing s) (parked s) (trace s)
    (nextItem s) (nextActivation s).

Definition set_conversionQueue (q : list Item) (s : State) : State :=
  mkState (manager s) q (isProcessing s) (parked s) (trace s)
    (nextItem s) (nextActivation s).

Definition set_isProcessing (b : bool) (s : State) : State :=
  mkState (manager s) (conversionQueue s) b (parked s) (trace s)
    (nextItem s) (nextActivation s).

Definition set_parked (p : gmap nat Activation) (s : State) : State :=
  mkState (manager s) (conversionQueue s) (isProcessing s) p (trace s)
    (nextItem s) (nextActivation s).

Definition effect (e : Effect) (s : State) : State :=
  mkState (manager s) (conversionQueue s) (isProcessing s) (parked s)
    (e :: trace s) (nextItem s) (nextActivation s).

(** An activation reaches an [await]. *)
Definition park (a : Activation) (s : State) : State :=
  mkState (manager s) (conversionQueue s) (isProcessing s)
    (<[nextActivation s := a]> (parked s)) (trace s)
    (nextItem s) (S (nextActivation s)).

Definition new (m : MemoryManager.State) : State :=
  mkState m [] false ∅ [] 0 0.

(** [await this.delay(ms)] *)
Definition delay (ms : Z) (a : Activation) (s : State) : State :=
  park a (effect (SetTimeout ms) s).

(** The [finally] block of [processQueue]. *)
Definition finish (s : State) : State :=
  let s := set_conversionQueue (tail (conversionQueue s)) s in          (* shift *)
  if (0 <? length (conversionQueue s))%nat
  then delay 10 AwaitPause s
  else set_isProcessing false s.

(** The [try] block, up to the [await]. *)
Definition runTask (item : Item) (s : State) : State :=
  let s := effect (Invoke (item_id item)) s in
  match task item with
  | ThrowsAtOnce error => finish (effect (Reject (item_id item) error) s)
  | ReturnsPromise => park (AwaitTask item) s
  end.

(** The [while] loop, from the test of its condition. *)
Definition waitForMemory (h : MemoryManager.Host) (item : Item) (s : State) : State :=
  let (available, m) :=
    MemoryManager.hasAvailableMemory h (estimatedMemory item) (manager s) in
  let s := set_manager m s in
  if available then runTask item s
  else delay 100 (AwaitMemory item) s.

Definition processQueue (h : MemoryManager.Host) (s : State) : State :=
  match conversionQueue s with
  | [] => set_isProcessing false s
  | item :: _ => waitForMemory h item (set_isProcessing true s)
  end.

Definition queueConversion (h : MemoryManager.Host) (body : TaskBody)
    (estimated : Z) (s : State) : State :=
  let item := {| item_id := nextItem s; task := body; estimatedMemory := estimated |} in
  let s := mkState (manager s) (conversionQueue s ++ [item]) (isProcessing s)
             (parked s) (trace s) (S (nextItem s)) (nextActivation s) in
  if isProcessing s then s else processQueue h s.

(** [dispose] *)
Definition dispose (h : MemoryManager.Host) (s : State) : State :=
  let s := set_manager (MemoryManager.cleanup h (manager s)) s in
  let s := set_conversionQueue [] s in
  set_isProcessing false s.

Inductive Input :=
| CallQueueConversion (body : TaskBody) (estimated : Z)
| CallDispose
| CallManager (c : MemoryManager.Call)       (* any other method *)
| DelayElapsed (k : nat)                     (* the timer of activation [k] fires *)
| TaskSettles (k : nat) (o : Outcome).       (* the promise awaited by [k] settles *)

Definition settle (item : Item) (o : Outcome) : Effect :=
  match o with
  | Fulfilled result => Resolve (item_id item) result
  | Rejected error => Reject (item_id item) error
  end.

Definition step (s : State) (hi : MemoryManager.Host * Input) : State :=
  let (h, i) := hi in
  match i with
  | CallQueueConversion body estimated => queueConversion h body estimated s
  | CallDispose => dispose h s
  | CallManager c => set_manager (MemoryManager.call (manager s) (h, c)) s
  | DelayElapsed k =>
      match parked s !! k with
      | Some (AwaitMemory item) =>
          let s := set_parked (delete k (parked s)) s in
          let s := set_manager (MemoryManager.triggerCleanup h (manager s)) s in
          waitForMemory h item s
      | Some AwaitPause =>
          processQueue h (set_parked (delete k (parked s)) s)
      | _ => s
      end
  | TaskSettles k o =>
      match parked s !! k with
      | Some (AwaitTask item) =>
          let s := set_parked (delete k (parked s)) s in
          finish (effect (settle item o) s)
      | _ => s
      end
  end.

Definition run (s : State) (inputs : list (MemoryManager.Host * Input)) : State :=
  fold_left step inputs s.

(** *** Observations *)

(** The trace read as a schedule, from its oldest entry: [Some (n, r)]
    when the tasks were invoked in the order 0, 1, 2, …, each one after
    the promise of the one before was settled, and each promise was
    settled once, after its task was invoked; [n] promises are settled
    and [r] tells whether task [n] is running. *)
Definition observe (e : Effect) (st : nat * bool) : option (nat * bool) :=
  match e, st with
  | Invoke i, (n, false) => if (i =? n)%nat then Some (n, true) else None
  | Resolve i _, (n, true) | Reject i _, (n, true) =>
      if (i =? n)%nat then Some (S n, false) else None
  | SetTimeout _, st => Some st
  | _, _ => None
  end.

Fixpoint schedule (tr : list Effect) : option (nat * bool) :=
  match tr with
  | [] => Some (0%nat, false)
  | e :: older =>
      match schedule older with
      | Some st => observe e st
      | None => None
      end
  end.

Definition isCallQueueConversion (hi : MemoryManager.Host * Input) : bool :=
  match snd hi with
  | CallQueueConversion _ _ => true
  | _ => false
  end.

Definition isCallDispose (hi : MemoryManager.Host * Input) : bool :=
  match snd hi with
  | CallDispose => true
  | _ => false
  end.

(** Number of calls of [queueConversion] among the inputs. *)
Definition submissions (inputs : list (MemoryManager.Host * Input)) : nat :=
  length (List.filter isCallQueueConversion inputs).

(** The invariant of a queue that is never disposed of: the trace is a
    schedule, the queue holds the submissions whose promise is not
    settled, in order, and at most one activation is parked, on the head
    of the queue. *)
Definition orderly (s : State) : Prop :=
  ∃ n r,
    schedule (trace s) = Some (n, r)
    ∧ List.map item_id (conversionQueue s) = seq n (nextItem s - n)
    ∧ (n <= nextItem s)%nat
    ∧ isProcessing s = negb (bool_decide (conversionQueue s = []))
    ∧ (∀ k, is_Some (parked s !! k) → (k < nextActivation s)%nat)
    ∧ match conversionQueue s with
      | [] => parked s = ∅ ∧ r = false
      | item :: _ =>
          ∃ k, (parked s = {[ k := AwaitMemory item ]} ∧ r = false)
               ∨ (parked s = {[ k := AwaitTask item ]} ∧ r = true)
               ∨ (parked s = {[ k := AwaitPause ]} ∧ r = false)
      end.

(** *** Scenarios *)

Definition roomyHost : MemoryManager.Host :=
  {| MemoryManager.usedJSHeapSize := Some 100;
     MemoryManager.imgSrcs := []; MemoryManager.gcExposed := false |}.

Definition fullHost : MemoryManager.Host :=
  {| MemoryManager.usedJSHeapSize := Some 990;
     MemoryManager.imgSrcs := []; MemoryManager.gcExposed := false |}.

(** Two conversions are queued while memory is short; memory frees up,
    the first task runs and fulfils, and after the pause the second one
    throws at once. *)
Definition twoConversions : list (MemoryManager.Host * Input) :=
  [ (fullHost, CallQueueConversion ReturnsPromise 50);
    (fullHost, CallQueueConversion (ThrowsAtOnce 3) 50);
    (roomyHost, DelayElapsed 0);
    (roomyHost, TaskSettles 1 (Fulfilled 8));
    (roomyHost, DelayElapsed 2) ].

(** Two conversions are queued, [dispose] is called while the first one
    runs, a third conversion is queued, and the first task settles. *)
Definition disposedWhileRunning : list (MemoryManager.Host * Input) :=
  [ (roomyHost, CallQueueConversion ReturnsPromise 50);
    (roomyHost, CallQueueConversion ReturnsPromise 50);
    (roomyHost, CallDispose);
    (roomyHost, CallQueueConversion ReturnsPromise 50);
    (roomyHost, TaskSettles 0 (Fulfilled 8)) ].

End MemoryQueue.
(** * Properties *)

(** ** JavaScript [Set] *)

Section JsSetFacts.
Context {A : Type} `{EqDecision A}.
Implicit Types (x : A) (s : list A).

Lemma set_has_true x s : set_has x s = true ↔ x ∈ s.
Proof. unfold set_has. apply bool_decide_eq_true. Qed.

Lemma set_has_false x s : set_has x s = false ↔ x ∉ s.
Proof. unfold set_has. apply bool_decide_eq_false. Qed.

Lemma set_delete_notin x s : x ∉ s → set_delete x s = s.
Proof.
  intros Hx. unfold set_delete. induction s as [|y s IH]; [done|].
  apply not_elem_of_cons in Hx as [Hne Hs].
  rewrite filter_cons_True by congruence. by rewrite IH.
Qed.

Lemma set_delete_app_last x s : x ∉ s → set_delete x (s ++ [x]) = s.
Proof.
  intros Hx. unfold set_delete. rewrite (filter_app _ s [x]).
  fold (set_delete x s). rewrite set_delete_notin by done.
  rewrite filter_cons_False by (intros Hne; by apply Hne).
  by rewrite filter_nil, app_nil_r.
Qed.

Lemma set_delete_all (rem s : list A) :
  foldl (λ acc x, set_delete x acc) s rem = filter (λ y, y ∉ rem) s.
Proof.
  revert s. induction rem as [|x rem IH]; intros s; simpl.
  - induction s as [|y s IHs]; [done|].
    rewrite filter_cons_True by apply not_elem_of_nil. by rewrite <- IHs.
  - rewrite IH. unfold set_delete. rewrite (list_filter_filter _ _ s).
    apply list_filter_iff. intros y. rewrite not_elem_of_cons. tauto.
Qed.

Lemma filter_all_True (P : A → Prop) `{∀ y, Decision (P y)} s :
  (∀ y, y ∈ s → P y) → filter P s = s.
Proof.
  induction s as [|y s IH]; intros Hall; [done|].
  rewrite filter_cons_True by (apply Hall; left).
  rewrite IH; [done|]. intros z Hz. apply Hall. by right.
Qed.

Lemma filter_all_False (P : A → Prop) `{∀ y, Decision (P y)} s :
  (∀ y, y ∈ s → ¬ P y) → filter P s = [].
Proof.
  induction s as [|y s IH]; intros Hall; [done|].
  rewrite filter_cons_False by (apply Hall; left).
  apply IH. intros z Hz. apply Hall. by right.
Qed.

Lemma filter_notin_app (l1 l2 : list A) :
  (∀ y, y ∈ l1 → y ∉ l2) → filter (λ y, y ∉ l2) (l1 ++ l2) = l1.
Proof.
  intros Hdisj. rewrite (filter_app _ l1 l2).
  rewrite (filter_all_False _ l2) by (intros y Hy Hn; by apply Hn).
  rewrite app_nil_r. by apply filter_all_True.
Qed.

Lemma filter_notin_drop (k : nat) s :
  NoDup s → filter (λ y, y ∉ drop k s) s = take k s.
Proof.
  intros Hnd. rewrite <- (take_drop k s) in Hnd.
  apply NoDup_app in Hnd as (_ & Hdisj & _).
  pose proof (filter_notin_app (take k s) (drop k s) Hdisj) as Heq.
  by rewrite take_drop in Heq.
Qed.
End JsSetFacts.

(** ** Memory manager *)

Section MemoryManagerFacts.
Import MemoryManager.
Implicit Types (m : State) (b : Blob) (h : Host).

Lemma set_blobs_same m : set_blobs m (activeBlobs m) (currentMemoryEstimate m) = m.
Proof. by destruct m. Qed.

Lemma activeBlobs_unregisterBlob b m :
  activeBlobs (unregisterBlob (VBlob b) m) = set_delete b (activeBlobs m).
Proof.
  unfold unregisterBlob. destruct (set_has b (activeBlobs m)) eqn:Hhas; [done|].
  apply set_has_false in Hhas. by rewrite set_delete_notin.
Qed.

Lemma objectURLs_unregisterBlob b m :
  objectURLs (unregisterBlob (VBlob b) m) = objectURLs m
  ∧ revoked (unregisterBlob (VBlob b) m) = revoked m.
Proof. unfold unregisterBlob. by destruct (set_has b (activeBlobs m)). Qed.

Lemma activeBlobs_unregister_all (rem : list Blob) m :
  activeBlobs (fold_left (λ acc b, unregisterBlob (VBlob b) acc) rem m)
  = filter (λ y, y ∉ rem) (activeBlobs m).
Proof.
  rewrite <- set_delete_all. revert m.
  induction rem as [|b rem IH]; intros m; [done|]. cbn [fold_left foldl].
  by rewrite IH, activeBlobs_unregisterBlob.
Qed.

Lemma urls_unregister_all (rem : list Blob) m :
  objectURLs (fold_left (λ acc b, unregisterBlob (VBlob b) acc) rem m) = objectURLs m
  ∧ revoked (fold_left (λ acc b, unregisterBlob (VBlob b) acc) rem m) = revoked m.
Proof.
  revert m. induction rem as [|b rem IH]; intros m; [done|]. cbn [fold_left].
  destruct (IH (unregisterBlob (VBlob b) m)) as [-> ->].
  apply objectURLs_unregisterBlob.
Qed.

Lemma activeBlobs_revoke_all (us : list string) m :
  activeBlobs (fold_left (λ acc u, revokeObjectURL u acc) us m) = activeBlobs m.
Proof.
  revert m. induction us as [|u us IH]; intros m; [done|]. cbn [fold_left].
  rewrite IH. unfold revokeObjectURL. by destruct (set_has u (objectURLs m)).
Qed.

Lemma activeBlobs_requestGarbageCollection h m :
  activeBlobs (requestGarbageCollection h m) = activeBlobs m.
Proof. unfold requestGarbageCollection. by destruct (gcExposed h). Qed.

(** What [triggerCleanup] leaves in the blob set: the first [keepCount]
    blobs in insertion order, that is, the ones registered earliest. *)
Lemma triggerCleanup_keeps_first h m :
  NoDup (activeBlobs m) →
  activeBlobs (triggerCleanup h m) = take (keepCount m) (activeBlobs m).
Proof.
  intros Hnd. unfold triggerCleanup.
  rewrite activeBlobs_requestGarbageCollection, activeBlobs_revoke_all,
    activeBlobs_unregister_all.
  unfold blobsToRemove. by apply filter_notin_drop.
Qed.

(** [Math.floor(n * 0.3)] *)
Lemma keepCount_floor m :
  Z.of_nat (keepCount m) = (3 * Z.of_nat (length (activeBlobs m))) / 10.
Proof.
  unfold keepCount, Qfloor. simpl.
  rewrite Z2Nat.id; [f_equal; lia|].
  apply Z.div_pos; lia.
Qed.
End MemoryManagerFacts.

Section MemoryManagerClaims.
Import MemoryManager.
Implicit Types (m : State) (b : Blob) (h : Host).

(** C10.  For a blob [b] that is not tracked, [registerBlob] appends [b]
    to the tracked set and adds exactly [b.size] to
    [currentMemoryEstimate]; a following [unregisterBlob b] gives back
    the state from before, estimate and tracked set included.
    [unregisterBlob] of a tracked blob removes it and subtracts exactly
    [b.size]; [unregisterBlob] of an untracked blob changes nothing. *)
Theorem registerBlob_unregisterBlob_restores m b :
  b ∉ activeBlobs m →
  currentMemoryEstimate (registerBlob (VBlob b) m)
    = currentMemoryEstimate m + blob_size b
  ∧ activeBlobs (registerBlob (VBlob b) m) = activeBlobs m ++ [b]
  ∧ unregisterBlob (VBlob b) (registerBlob (VBlob b) m) = m
  ∧ unregisterBlob (VBlob b) m = m
  ∧ (∀ m', b ∈ activeBlobs m' →
       currentMemoryEstimate (unregisterBlob (VBlob b) m')
         = currentMemoryEstimate m' - blob_size b
       ∧ b ∉ activeBlobs (unregisterBlob (VBlob b) m')).
Proof.
  intros Hnew.
  assert (set_has b (activeBlobs m) = false) as Hhas by by apply set_has_false.
  assert (activeBlobs (registerBlob (VBlob b) m) = activeBlobs m ++ [b]) as Hreg.
  { unfold registerBlob, set_add. by rewrite Hhas. }
  split; [reflexivity|]. split; [exact Hreg|].
  split; [|split; [|intros m' Hin; split]].
  - unfold unregisterBlob. rewrite Hreg.
    assert (set_has b (activeBlobs m ++ [b]) = true) as ->.
    { apply set_has_true, elem_of_app. right. left. }
    rewrite set_delete_app_last by done. cbn.
    replace (currentMemoryEstimate m + blob_size b - blob_size b)
      with (currentMemoryEstimate m) by lia.
    by destruct m.
  - unfold unregisterBlob. by rewrite Hhas.
  - unfold unregisterBlob.
    assert (set_has b (activeBlobs m') = true) as -> by by apply set_has_true.
    done.
  - rewrite activeBlobs_unregisterBlob. unfold set_delete.
    rewrite list_elem_of_filter. tauto.
Qed.

Lemma registerBlob_unregisterBlob_restores_witness :
  (someBlob ∉ activeBlobs (new 1000))
  ∧ currentMemoryEstimate (registerBlob (VBlob someBlob) (new 1000)) = 42
  ∧ unregisterBlob (VBlob someBlob) (registerBlob (VBlob someBlob) (new 1000))
    = new 1000.
Proof.
  assert (someBlob ∉ activeBlobs (new 1000)) as Hnew by (cbn; apply not_elem_of_nil).
  split; [exact Hnew|].
  destruct (registerBlob_unregisterBlob_restores (new 1000) someBlob Hnew)
    as (He & _ & Hrt & _).
  split; [exact He | exact Hrt].
Defined.

(** C7, as stated, fails: with a ceiling of 1000 bytes, nothing tracked
    and a request of 900 bytes, [hasAvailableMemory] answers true
    although 900 exceeds 0.8 × 1000. *)
Lemma hasAvailableMemory_above_threshold :
  fst (hasAvailableMemory bareHost 900 (new 1000)) = true
  ∧ ¬ (inject_Z (getCurrentMemoryUsage bareHost (new 1000) + 900)
         <= inject_Z (maxMemoryUsage (new 1000)) * gcThreshold (new 1000))%Q.
Proof.
  split; [reflexivity|].
  intros Hle. apply Qle_bool_iff in Hle. vm_compute in Hle. discriminate.
Qed.

(** C7, amended.  [hasAvailableMemory] answers true exactly when the
    current usage plus the request is strictly below the ceiling
    [maxMemoryUsage] itself; the 0.8 threshold does not bound the
    answer.  Whenever usage plus request exceeds ceiling × threshold, it
    runs [triggerCleanup] before answering, and otherwise leaves the
    manager as it was. *)
Theorem hasAvailableMemory_spec h (requiredMemory : Z) m :
  let projected := getCurrentMemoryUsage h m + requiredMemory in
  (fst (hasAvailableMemory h requiredMemory m) = true
     ↔ projected < maxMemoryUsage m)
  ∧ ((inject_Z (maxMemoryUsage m) * gcThreshold m < inject_Z projected)%Q →
       snd (hasAvailableMemory h requiredMemory m) = triggerCleanup h m)
  ∧ ((inject_Z projected <= inject_Z (maxMemoryUsage m) * gcThreshold m)%Q →
       snd (hasAvailableMemory h requiredMemory m) = m).
Proof.
  intros projected. unfold hasAvailableMemory. cbn [fst snd].
  fold projected. repeat split.
  - apply Z.ltb_lt.
  - apply Z.ltb_lt.
  - intros Hlt.
    destruct (Qle_bool (inject_Z projected)
                (inject_Z (maxMemoryUsage m) * gcThreshold m)) eqn:Hb; [|done].
    apply Qle_bool_iff in Hb. exfalso. by apply (Qlt_not_le _ _ Hlt).
  - intros Hle. apply Qle_bool_iff in Hle. by rewrite Hle.
Qed.

Lemma hasAvailableMemory_spec_witness :
  (inject_Z (maxMemoryUsage (new 1000)) * gcThreshold (new 1000)
     < inject_Z (getCurrentMemoryUsage bareHost (new 1000) + 900))%Q
  ∧ snd (hasAvailableMemory bareHost 900 (new 1000))
    = triggerCleanup bareHost (new 1000).
Proof.
  assert (inject_Z (maxMemoryUsage (new 1000)) * gcThreshold (new 1000)
            < inject_Z (getCurrentMemoryUsage bareHost (new 1000) + 900))%Q
    as Hlt by reflexivity.
  split; [exact Hlt|].
  exact (proj1 (proj2 (hasAvailableMemory_spec bareHost 900 (new 1000))) Hlt).
Defined.

(** C8.  With ten tracked blobs, [triggerCleanup] unregisters the seven
    registered last and keeps the three registered first: the blobs
    released are the newest, not the oldest. *)
Theorem triggerCleanup_releases_newest :
  activeBlobs afterTenBlobs = tenBlobs
  ∧ activeBlobs (triggerCleanup bareHost afterTenBlobs) = take 3 tenBlobs
  ∧ blobsToRemove afterTenBlobs = drop 3 tenBlobs
  ∧ currentMemoryEstimate (triggerCleanup bareHost afterTenBlobs) = 3000.
Proof. vm_compute. repeat split. Qed.

End MemoryManagerClaims.

(** ** Single-file worker *)

(** C5.  Three runs of the workers.  A single conversion that is cancelled
    while it waits posts two terminal messages: the [cancelled] message of
    the cancel handler, then the failure message of its own [catch] block.
    A batch cancelled during the encoding pause posts its
    [batch-cancelled] message first and two more progress messages after
    it.  And in a batch of three files the percentage computed in binary64
    when the first file completes (33.333333333333336) is larger than the
    one computed next, when the second file starts (33.33333333333333). *)
Theorem cancelled_conversion_terminal_messages :
  SingleWorker.outbox SingleWorker.cancelledDuringRead
    = [ SingleWorker.Progress 0 loading;
        SingleWorker.Progress 10 loading;
        SingleWorker.CancelledMsg;
        SingleWorker.FailureMsg true "Conversion cancelled" ]
  ∧ SingleWorker.terminalCount SingleWorker.cancelledDuringRead = 2%nat
  ∧ List.map BatchWorker.kindOf (BatchWorker.effects BatchWorker.cancelledDuringEncode)
    = [ BatchWorker.KProgress; BatchWorker.KProgress; BatchWorker.KProgress;
        BatchWorker.KProgress; BatchWorker.KConverter; BatchWorker.KProgress;
        BatchWorker.KTerminal;
        BatchWorker.KProgress; BatchWorker.KProgress ]
  ∧ (BatchWorker.calculateBatchProgress64 3 1 0
       <? BatchWorker.calculateBatchProgress64 3 0 100)%float = true.
Proof. repeat split; reflexivity. Qed.

(** ** Batch worker *)

Section BatchWorkerFacts.
Import BatchWorker.
Implicit Types (s : State) (r : Request) (f : File).

Lemma quietly_refl s : isCancelled (batchState s) = true → quietly s s.
Proof. intros Hc. split; [done|]. exists []. by rewrite app_nil_r. Qed.

Lemma quietly_trans s1 s2 s3 : quietly s1 s2 → quietly s2 s3 → quietly s1 s3.
Proof.
  intros [_ (m1 & E1 & F1)] [Hc (m2 & E2 & F2)]. split; [done|].
  exists (m1 ++ m2). rewrite E2, E1, app_assoc. split; [done|].
  by apply Forall_app.
Qed.

Lemma quietly_effect s e :
  isCancelled (batchState s) = true → startsFile e = false →
  quietly s (effect e s).
Proof.
  intros Hc He. split; [done|]. exists [e]. split; [done|].
  by apply Forall_singleton.
Qed.

Lemma quietly_sendProgress s (p : Q) (file : string) (n : Note) (st : Stage) :
  isCancelled (batchState s) = true → n ≠ Starting →
  quietly s (sendProgress p file n st s).
Proof.
  intros Hc Hn. apply quietly_effect; [done|]. by destruct n.
Qed.

Lemma quietly_batchState s (b : BatchState) :
  isCancelled b = true → quietly s (set_batchState b s).
Proof. intros Hc. split; [done|]. exists []. by rewrite app_nil_r. Qed.

Lemma quietly_unpark s k :
  isCancelled (batchState s) = true → quietly s (unpark k s).
Proof. intros Hc. split; [done|]. exists []. by rewrite app_nil_r. Qed.

Lemma quietly_loopHead r i s :
  isCancelled (batchState s) = true → quietly s (loopHead r i s).
Proof.
  intros Hc. unfold loopHead, finish.
  destruct (files r !! i); rewrite Hc; by apply quietly_refl.
Qed.

Lemma quietly_pushError_loop r i f msg s :
  isCancelled (batchState s) = true →
  quietly s (loopHead r i (pushError f msg s)).
Proof.
  intros Hc. eapply quietly_trans; [|apply quietly_loopHead; exact Hc].
  unfold pushError. by apply quietly_batchState.
Qed.

Lemma quietly_step s i :
  isCancelled (batchState s) = true → isConvertBatch i = false →
  quietly s (step s i).
Proof.
  intros Hc Hi. destruct i as [c|k o]; cbn [step].
  - destruct c as [r| |]; [discriminate| |by apply quietly_refl].
    split; [reflexivity|]. eexists. split; [reflexivity|].
    by apply Forall_singleton.
  - destruct (parked s !! k) as [a|]; [|by apply quietly_refl].
    destruct (files (request a) !! index a) as [f|]; [|by apply quietly_refl].
    eapply quietly_trans; [apply (quietly_unpark s k Hc)|].
    assert (isCancelled (batchState (unpark k s)) = true) as Hc' by done.
    generalize dependent (unpark k s). intros u Hu.
    destruct (point a) as [| |out].
    + unfold afterLoad.
      set (u1 := sendProgress _ _ Loading _ u).
      assert (quietly u u1) as H1 by (by apply quietly_sendProgress).
      eapply quietly_trans; [exact H1|].
      destruct H1 as [-> _]. by apply quietly_pushError_loop.
    + unfold afterConverter. destruct o as [out|msg].
      * rewrite Hu. by apply quietly_pushError_loop.
      * by apply quietly_pushError_loop.
    + unfold afterEncode.
      set (u1 := sendProgress _ _ Finalizing _ u).
      assert (quietly u u1) as H1 by (by apply quietly_sendProgress).
      set (u2 := sendProgress _ _ Completed _ u1).
      assert (quietly u1 u2) as H2 by (apply quietly_sendProgress; [apply H1|done]).
      eapply quietly_trans; [exact H1|].
      eapply quietly_trans; [exact H2|].
      eapply quietly_trans; [|apply quietly_loopHead; apply H2].
      unfold pushResult. apply quietly_batchState. apply H2.
Qed.

Lemma quietly_run s (inputs : list Input) :
  isCancelled (batchState s) = true →
  Forall (λ i, isConvertBatch i = false) inputs →
  quietly s (run s inputs).
Proof.
  revert s. induction inputs as [|i inputs IH]; intros s Hc Hall.
  - by apply quietly_refl.
  - apply Forall_cons in Hall as [Hi Hall]. cbn [run fold_left].
    pose proof (quietly_step s i Hc Hi) as Hstep.
    eapply quietly_trans; [exact Hstep|].
    apply IH; [apply Hstep | exact Hall].
Qed.

(** C9.  A run of the batch worker.  The batch of three files is
    cancelled while its first file loads, and the worker posts
    [batch-cancelled] at once.  It is then handed the next batch, as the
    queue does once it has released the worker: that [convert-batch]
    replaces the shared [batchState], and the flag [isCancelled] with it.
    When the operations the cancelled batch waits for settle, its loop
    finds the flag down and goes on: the converter is called on a.heic and
    the conversion of b.heic begins, after the cancellation was reported.
    Continued until nothing waits, the run converts all three files of the
    cancelled batch and posts two [batch-complete] messages, whose results
    mix the files of both batches. *)
Theorem cancelled_batch_resumes :
  omap milestone (effects (run init cancelledThenNextBatch))
  = [ FileBegins "a.heic"; CancelledPosted [];
      FileBegins "z.heic"; ConverterCalled "a.heic"; FileBegins "b.heic" ]
  ∧ isCancelled (batchState (run init cancelledThenNextBatch)) = false
  ∧ omap milestone (effects (run init cancelledThenAllSettle))
    = [ FileBegins "a.heic"; CancelledPosted [];
        FileBegins "z.heic"; ConverterCalled "a.heic"; FileBegins "b.heic";
        ConverterCalled "z.heic"; CompletePosted ["a.heic"; "z.heic"];
        ConverterCalled "b.heic"; FileBegins "c.heic"; ConverterCalled "c.heic";
        CompletePosted ["a.heic"; "z.heic"; "b.heic"; "c.heic"] ]
  ∧ parked (run init cancelledThenAllSettle) = [].
Proof. repeat split; reflexivity. Qed.

End BatchWorkerFacts.

(** ** Conversion queue *)

Section QueueFacts.
Import Queue.
Implicit Types (s : State) (task : Task) (w : WorkerId) (t : TaskId).

Ltac qsimpl :=
  cbn [maxConcurrent maxRetries retryDelay maxWorkers queue activeWorkers
       isPaused isDestroyed workerPool batchWorkerPool metadata retries status
       timers suspended metrics trace nextTaskId nextWorkerId
       set_queue set_activeWorkers set_isPaused set_isDestroyed set_pools
       set_metadata set_retries set_status set_timers set_suspended
       set_metrics set_trace set_nextTaskId set_nextWorkerId
       poolOf set_poolOf effect emit fst snd] in *.

(** *** Frame properties of the worker pool operations *)

Lemma createWorker_frame ty s w s' :
  createWorker ty s = Some (w, s') →
  queue s' = queue s ∧ activeWorkers s' = activeWorkers s ∧ trace s' = trace s
  ∧ retries s' = retries s ∧ timers s' = timers s ∧ nextTaskId s' = nextTaskId s
  ∧ isPaused s' = isPaused s ∧ isDestroyed s' = isDestroyed s
  ∧ maxConcurrent s' = maxConcurrent s ∧ suspended s' = suspended s
  ∧ maxRetries s' = maxRetries s ∧ retryDelay s' = retryDelay s
  ∧ maxWorkers s' = maxWorkers s.
Proof.
  unfold createWorker. destruct (isDestroyed s) eqn:Hd; [done|].
  intros [= <- <-]. destruct ty; qsimpl; by repeat split.
Qed.

Lemma getAvailableWorker_frame ty s :
  let s' := snd (getAvailableWorker ty s) in
  queue s' = queue s ∧ activeWorkers s' = activeWorkers s ∧ trace s' = trace s
  ∧ retries s' = retries s ∧ timers s' = timers s ∧ nextTaskId s' = nextTaskId s
  ∧ isPaused s' = isPaused s ∧ isDestroyed s' = isDestroyed s
  ∧ maxConcurrent s' = maxConcurrent s ∧ suspended s' = suspended s
  ∧ maxRetries s' = maxRetries s ∧ retryDelay s' = retryDelay s
  ∧ maxWorkers s' = maxWorkers s.
Proof.
  unfold getAvailableWorker.
  destruct (find _ _); [by repeat split|].
  destruct (_ <? _)%nat; [|by repeat split].
  destruct (createWorker ty s) as [[w s']|] eqn:Hc; [|by repeat split].
  by apply createWorker_frame in Hc.
Qed.

Lemma getAvailableWorker_not_Threw ty s :
  isDestroyed s = false → fst (getAvailableWorker ty s) ≠ Threw.
Proof.
  intros Hd. unfold getAvailableWorker, createWorker. rewrite Hd.
  destruct (find _ _); [done|]. by destruct (_ <? _)%nat.
Qed.

(** *** One iteration of the scheduling loop *)

Lemma processLoop_spec s :
  isDestroyed s = false →
  (queue (processLoop s) = queue s
   ∧ activeWorkers (processLoop s) = activeWorkers s
   ∧ trace (processLoop s) = trace s)
  ∨ (∃ task w,
       queue s = task :: queue (processLoop s)
       ∧ activeWorkers (processLoop s)
         = <[task_id task := (task, w)]> (activeWorkers s)
       ∧ trace (processLoop s)
         = Post w (convertCommand task)
             :: Track (updateProgress (task_id task) 0) :: trace s).
Proof.
  intros Hd. unfold processLoop.
  destruct (queue s) as [|task rest] eqn:Hq; [left; by rewrite Hq|].
  destruct (_ && _ && _); [|left; by rewrite Hq].
  pose proof (getAvailableWorker_frame (task_type task) (set_queue rest s)) as Hf.
  pose proof (getAvailableWorker_not_Threw (task_type task) (set_queue rest s) Hd) as Hn.
  destruct (getAvailableWorker (task_type task) (set_queue rest s)) as [[w| |] s1].
  - right. exists task, w. qsimpl. destruct Hf as (Hfq & Hfa & Hft & _).
    unfold executeTask, convertCommand. destruct (task_type task); qsimpl;
      by rewrite Hfq, Hfa, Hft.
  - left. qsimpl. destruct Hf as (Hfq & Hfa & Hft & _). by rewrite Hfq, Hfa, Hft.
  - done.
Qed.

Lemma processQueue_spec s :
  isDestroyed s = false →
  (queue (processQueue s) = queue s
   ∧ activeWorkers (processQueue s) = activeWorkers s
   ∧ trace (processQueue s) = trace s)
  ∨ (∃ task w,
       queue s = task :: queue (processQueue s)
       ∧ activeWorkers (processQueue s)
         = <[task_id task := (task, w)]> (activeWorkers s)
       ∧ trace (processQueue s)
         = Post w (convertCommand task)
             :: Track (updateProgress (task_id task) 0) :: trace s).
Proof.
  intros Hd. unfold processQueue. destruct (_ || _); [by left|].
  by apply processLoop_spec.
Qed.

(** *** Submission *)

Lemma elem_of_insertByPriority (x task : Task) (l : list Task) :
  x ∈ insertByPriority task l ↔ x = task ∨ x ∈ l.
Proof.
  induction l as [|u l IH]; cbn [insertByPriority].
  - rewrite list_elem_of_singleton, elem_of_nil. tauto.
  - destruct (priority task <? priority u).
    + rewrite !elem_of_cons, IH. tauto.
    + rewrite !elem_of_cons. tauto.
Qed.

Lemma elem_of_sortQueue (x : Task) (l : list Task) : x ∈ sortQueue l ↔ x ∈ l.
Proof.
  unfold sortQueue. induction l as [|u l IH]; [done|]. cbn [foldr].
  rewrite elem_of_insertByPriority, IH, elem_of_cons. tauto.
Qed.

Lemma enqueue_registers task s :
  isDestroyed s = false →
  Track (createTask (task_id task)) ∈ trace (enqueue task s)
  ∧ (task ∈ queue (enqueue task s)
     ∨ ∃ w, activeWorkers (enqueue task s) !! task_id task = Some (task, w)).
Proof.
  intros Hd. unfold enqueue, register.
  set (s1 := set_queue _ (set_queue _ _)).
  assert (task ∈ queue s1) as Hin.
  { subst s1. qsimpl. apply elem_of_sortQueue, elem_of_app. right. left. }
  assert (Track (createTask (task_id task)) ∈ trace s1) as Htr by (subst s1; qsimpl; left).
  assert (isDestroyed s1 = false) as Hd1 by (subst s1; by qsimpl).
  clearbody s1.
  destruct (processQueue_spec s1 Hd1) as [(Hq & Ha & Ht) | (hd & w & Hq & Ha & Ht)].
  - rewrite Hq, Ht. by split; [|left].
  - rewrite Ht. split; [by do 2 right|].
    rewrite Hq in Hin. apply elem_of_cons in Hin as [->|Hin]; [|by left].
    right. exists w. by rewrite Ha, lookup_insert_eq.
Qed.

(** On a queue that is not destroyed, [addFile] throws, and leaves the
    queue as it was, exactly when the file is not an object, its name is
    missing or empty, its size is missing or negative, the options are
    [null] or a truthy value that is not an object, or the target format
    is a value that cannot be lower-cased or (lower-cased, defaulting to
    jpeg) is not one of jpeg, jpg, png, webp.  The quality is never a
    reason to throw, whatever its value.  When it does not throw it
    returns the fresh task id, has registered the task with the progress
    tracker, and the task is either pending in the queue or already
    handed to a worker. *)
Theorem addFile_validation s (file : option FileObj) (options : OptionsArg) :
  isDestroyed s = false →
  match addFile file options s with
  | Throws _ => validateFile file ≠ None ∨ ¬ acceptedOptions options
  | Returns (t, s') =>
      validateFile file = None ∧ acceptedOptions options
      ∧ t = nextTaskId s
      ∧ Track (createTask t) ∈ trace s'
      ∧ ∃ task, task_id task = t
          ∧ (task ∈ queue s' ∨ ∃ w, activeWorkers s' !! t = Some (task, w))
  end.
Proof.
  intros Hd. unfold addFile, acceptedOptions, supportedTarget. rewrite Hd.
  destruct (validateFile file) as [e|] eqn:Hv.
  { left. congruence. }
  destruct file as [f|]; [|left; discriminate].
  destruct options as [o| |]; [|right; tauto..].
  destruct (targetTypeOf o) as [targetType0|]; [|right; tauto].
  case_bool_decide as Hsup; [|by right].
  split; [done|]. split; [done|]. split; [done|].
  destruct (enqueue_registers (mkTask (nextTaskId s) single (PFile f) o) s Hd)
    as [Htr Hin].
  split; [exact Htr|]. eexists. split; [|exact Hin]. reflexivity.
Qed.

Lemma addFile_validation_witness :
  isDestroyed (new defaultOptions) = false
  ∧ match addFile (Some heicFile) (OptionsObject quality150) (new defaultOptions) with
    | Throws _ =>
        validateFile (Some heicFile) ≠ None ∨ ¬ acceptedOptions (OptionsObject quality150)
    | Returns (t, s') =>
        validateFile (Some heicFile) = None ∧ acceptedOptions (OptionsObject quality150)
        ∧ t = nextTaskId (new defaultOptions)
        ∧ Track (createTask t) ∈ trace s'
        ∧ ∃ task, task_id task = t
            ∧ (task ∈ queue s' ∨ ∃ w, activeWorkers s' !! t = Some (task, w))
    end.
Proof.
  split; [reflexivity|].
  apply (addFile_validation (new defaultOptions) (Some heicFile) (OptionsObject quality150)).
  reflexivity.
Defined.

(** What [addFile] throws for options it does not accept, on a valid
    file: an object passes the first check but not a plain number, [null]
    fails when its [targetType] is read, a number as target format fails
    when it is lower-cased, and an unknown format is named in the error.
    An explicit [undefined] as target format is accepted as jpeg, and the
    task carries it in place of the format. *)
Example addFile_options_examples :
  addFile (Some heicFile) OptionsOther (new defaultOptions) = Throws OptionsNotObject
  ∧ addFile (Some heicFile) OptionsNull (new defaultOptions) = Throws TypeError
  ∧ addFile (Some heicFile)
      (OptionsObject {| targetType := Some TOther; quality := None; opt_priority := None |})
      (new defaultOptions) = Throws TypeError
  ∧ addFile (Some heicFile)
      (OptionsObject {| targetType := Some (TString "GIF"); quality := None;
                        opt_priority := None |})
      (new defaultOptions) = Throws (InvalidTargetType "GIF")
  ∧ match addFile (Some heicFile)
            (OptionsObject {| targetType := Some TFalsy; quality := None;
                              opt_priority := None |})
            (new defaultOptions) with
    | Returns (t, s') =>
        ∃ task w, activeWorkers s' !! t = Some (task, w) ∧ task_targetType task = TFalsy
    | Throws _ => False
    end.
Proof.
  split; [reflexivity|]. split; [reflexivity|]. split; [reflexivity|].
  split; [reflexivity|]. vm_compute. eexists _, _. split; reflexivity.
Qed.

(** C6, as stated, fails: a quality of 150 is accepted, and the task is
    handed to a worker at once. *)
Lemma addFile_accepts_quality_150 :
  match addFile (Some heicFile) (OptionsObject quality150) (new defaultOptions) with
  | Returns (t, s') => t = 0%nat ∧ attempts 0 s' = 1%nat ∧ task_quality_sent s' = [150]
  | Throws _ => False
  end
  ∧ ¬ (1 <= 150 <= 100).
Proof. split; [vm_compute; repeat split | lia]. Qed.

(** *** A proof scheme shared by the invariants of the queue

    Every input is handled by a chain of a few elementary state changes.
    A property kept by each elementary change is kept by every handler,
    hence by every run. *)

Ltac same_core :=
  unfold sameCore, attempts; qsimpl; repeat split; intros; reflexivity.

Section Preservation.
Variable Inv : State → Prop.

Hypothesis Inv_frame : ∀ s s', sameCore s s' → Inv s → Inv s'.
Hypothesis Inv_dispatch : ∀ s task rest w s1,
  queue s = task :: rest →
  getAvailableWorker (task_type task) (set_queue rest s) = (Found w, s1) →
  (size (activeWorkers s) < maxConcurrent s)%nat
  ∧ isPaused s = false ∧ isDestroyed s = false →
  Inv s → Inv (executeTask task w s1).
Hypothesis Inv_nodispatch : ∀ s task rest s1,
  queue s = task :: rest →
  getAvailableWorker (task_type task) (set_queue rest s) = (NoWorker, s1) →
  Inv s → Inv (set_queue (task :: queue s1) s1).
Hypothesis Inv_threw : ∀ s task rest s1,
  queue s = task :: rest →
  getAvailableWorker (task_type task) (set_queue rest s) = (Threw, s1) →
  Inv s → Inv s1.
Hypothesis Inv_release : ∀ s t, Inv s → Inv (releaseWorker t s).
Hypothesis Inv_count : ∀ s t, Inv s → Inv (countWorkerTask t s).
Hypothesis Inv_failure : ∀ s t0 task w0,
  activeWorkers s !! t0 = Some (task, w0) → Inv s → Inv (countFailure task s).
Hypothesis Inv_retry : ∀ s t0 task w0 d,
  activeWorkers s !! t0 = Some (task, w0) →
  Inv s → Inv (scheduleRetry d task (countFailure task s)).
Hypothesis Inv_fire : ∀ s n d task,
  timers s !! n = Some (RetryTimer d task) →
  Inv s →
  Inv (set_timers (delete n (timers s)) s)
  ∧ Inv (requeue task (set_timers (delete n (timers s)) s)).
Hypothesis Inv_fire_destroy : ∀ s n,
  timers s !! n = Some DestroyTimer →
  Inv s → Inv (destroyCallback (set_timers (delete n (timers s)) s)).
Hypothesis Inv_cancel : ∀ s t i task,
  list_find (λ task, task_id task = t) (queue s) = Some (i, task) →
  Inv s → Inv (set_queue (delete i (queue s)) s).
Hypothesis Inv_clear : ∀ s, Inv s → Inv (set_queue [] s).
Hypothesis Inv_register : ∀ s task,
  task_id task = nextTaskId s → Inv s → Inv (register task s).
Hypothesis Inv_replace : ∀ s w, Inv s → Inv (replaceWorker w s).
Hypothesis Inv_destroyTimer : ∀ s,
  Inv s → Inv (set_timers (timers s ++ [DestroyTimer]) s).

Lemma Inv_processLoop s : Inv s → Inv (processLoop s).
Proof.
  intros HI. unfold processLoop.
  destruct (queue s) as [|task rest] eqn:Hq; [done|].
  destruct (_ && _ && _) eqn:Hguard; [|done].
  apply andb_true_iff in Hguard as [Hguard Hd].
  apply andb_true_iff in Hguard as [Hsize Hp].
  apply Nat.ltb_lt in Hsize. apply negb_true_iff in Hp, Hd.
  destruct (getAvailableWorker (task_type task) (set_queue rest s))
    as [[w| |] s1] eqn:Hg.
  - eapply Inv_frame; [|by eapply Inv_dispatch]. same_core.
  - by eapply Inv_nodispatch.
  - by eapply Inv_threw.
Qed.

Lemma Inv_processQueue s : Inv s → Inv (processQueue s).
Proof.
  intros HI. unfold processQueue. destruct (_ || _); [done|].
  by apply Inv_processLoop.
Qed.

Lemma Inv_resumeProcessQueue s : Inv s → Inv (resumeProcessQueue s).
Proof.
  intros HI. unfold resumeProcessQueue. destruct (suspended s); [done|].
  apply Inv_processLoop. eapply Inv_frame; [|exact HI]. same_core.
Qed.

Lemma Inv_handleProgress task p s : Inv s → Inv (handleProgress task p s).
Proof. intros HI. eapply Inv_frame; [|exact HI]. unfold handleProgress. same_core. Qed.

Lemma Inv_handleBatchProgress task p s : Inv s → Inv (handleBatchProgress task p s).
Proof. intros HI. eapply Inv_frame; [|exact HI]. unfold handleBatchProgress. same_core. Qed.

Lemma Inv_handleSuccess task s : Inv s → Inv (handleSuccess task s).
Proof.
  intros HI. unfold handleSuccess. apply Inv_processQueue.
  eapply Inv_frame; [|apply Inv_release]; [same_core|].
  eapply Inv_frame; [|apply Inv_count]; [same_core|].
  eapply Inv_frame; [|exact HI]. same_core.
Qed.

Lemma Inv_handleBatchComplete task s : Inv s → Inv (handleBatchComplete task s).
Proof.
  intros HI. unfold handleBatchComplete. apply Inv_processQueue.
  eapply Inv_frame; [|apply Inv_release]; [same_core|].
  eapply Inv_frame; [|apply Inv_count]; [same_core|].
  eapply Inv_frame; [|exact HI]. same_core.
Qed.

Lemma Inv_handleCancellation task s : Inv s → Inv (handleCancellation task s).
Proof.
  intros HI. unfold handleCancellation. apply Inv_processQueue.
  eapply Inv_frame; [|apply Inv_release]; [same_core|].
  eapply Inv_frame; [|exact HI]. same_core.
Qed.

Lemma Inv_handleTaskError t0 task w0 s :
  activeWorkers s !! t0 = Some (task, w0) → Inv s → Inv (handleTaskError task s).
Proof.
  intros Ha HI. unfold handleTaskError. cbv zeta.
  destruct (_ <? _)%nat.
  - eapply Inv_frame; [|by eapply Inv_retry]. same_core.
  - apply Inv_processQueue.
    eapply Inv_frame; [|apply Inv_release]; [same_core|].
    eapply Inv_frame; [|by eapply Inv_failure]. same_core.
Qed.

Lemma Inv_handleWorkerMessage w msg s : Inv s → Inv (handleWorkerMessage w msg s).
Proof.
  intros HI. unfold handleWorkerMessage.
  destruct (taskIdOf s w) as [t|]; [|done].
  destruct (activeWorkers s !! t) as [[task w0]|] eqn:Ha; [|done].
  destruct msg; auto using Inv_handleProgress, Inv_handleBatchProgress,
    Inv_handleSuccess, Inv_handleBatchComplete, Inv_handleCancellation;
    by eapply Inv_handleTaskError.
Qed.

Lemma Inv_handleWorkerError w isEvent s : Inv s → Inv (handleWorkerError w isEvent s).
Proof.
  intros HI. unfold handleWorkerError. destruct isEvent; [done|].
  apply Inv_replace.
  destruct (taskIdOf s w) as [t|]; [|done].
  destruct (activeWorkers s !! t) as [[task w0]|] eqn:Ha; [|done].
  by eapply Inv_handleTaskError.
Qed.

Lemma Inv_cancelTask t s : Inv s → Inv (snd (cancelTask t s)).
Proof.
  intros HI. unfold cancelTask.
  destruct (list_find _ (queue s)) as [[i task]|] eqn:Hf.
  - cbn [snd]. eapply Inv_frame; [|by eapply Inv_cancel]. same_core.
  - destruct (activeWorkers s !! t) as [[task w]|]; [|done].
    cbn [snd]. eapply Inv_frame; [|exact HI].
    unfold cancelCommand. destruct (task_type task); same_core.
Qed.

Lemma Inv_cancelAll s : Inv s → Inv (cancelAll s).
Proof.
  intros HI. unfold cancelAll.
  assert (∀ (l : list (nat * (Task * nat))) s0, Inv s0 →
            Inv (fold_left (λ acc e,
                   effect (Post (snd (snd e)) (cancelCommand (fst (snd e)))) acc) l s0))
    as Hposts.
  { induction l as [|e l IH]; intros s0 H0; [done|]. cbn [fold_left].
    apply IH. eapply Inv_frame; [|exact H0].
    unfold cancelCommand. destruct (task_type _); same_core. }
  apply Hposts.
  assert (∀ (l : list Task) s0, Inv s0 →
            Inv (fold_left (λ acc task,
                   emit (EvCancelled (task_id task))
                     (effect (Track (trackerCancelTask (task_id task))) acc)) l s0))
    as Hemits.
  { induction l as [|task l IH]; intros s0 H0; [done|]. cbn [fold_left].
    apply IH. eapply Inv_frame; [|exact H0]. same_core. }
  apply Hemits. by apply Inv_clear.
Qed.

Lemma Inv_pause s : Inv s → Inv (stateOf id (pause s) s).
Proof.
  intros HI. unfold pause. destruct (isDestroyed s); [done|].
  destruct (isPaused s); [done|]. cbn [stateOf id].
  eapply Inv_frame; [|exact HI]. same_core.
Qed.

Lemma Inv_resume s : Inv s → Inv (stateOf id (resume s) s).
Proof.
  intros HI. unfold resume. destruct (isDestroyed s); [done|].
  destruct (isPaused s); [|done]. cbn [stateOf id].
  apply Inv_processQueue. eapply Inv_frame; [|exact HI]. same_core.
Qed.

Lemma Inv_destroy s : Inv s → Inv (destroy s).
Proof.
  intros HI. unfold destroy. destruct (isDestroyed s); [done|]. cbv zeta.
  eapply Inv_frame; [|apply Inv_destroyTimer, Inv_cancelAll]; [same_core|].
  eapply Inv_frame; [|exact HI]. same_core.
Qed.

Lemma Inv_fireTimer n s : Inv s → Inv (fireTimer n s).
Proof.
  intros HI. unfold fireTimer.
  destruct (timers s !! n) as [[d task|]|] eqn:Ht; [| |done].
  - destruct (Inv_fire s n d task Ht HI) as [H1 H2].
    unfold retryCallback. cbn [isDestroyed set_timers].
    destruct (isDestroyed s); [done|]. by apply Inv_processQueue.
  - by apply Inv_fire_destroy.
Qed.

Lemma Inv_enqueue task s :
  task_id task = nextTaskId s → Inv s → Inv (enqueue task s).
Proof. intros Hid HI. unfold enqueue. by apply Inv_processQueue, Inv_register. Qed.

Lemma Inv_addFile file options s : Inv s → Inv (stateOf snd (addFile file options s) s).
Proof.
  intros HI. unfold addFile. destruct (isDestroyed s); [done|].
  destruct (validateFile file); [done|]. destruct file as [f|]; [|done].
  destruct options as [o| |]; [|done..].
  destruct (targetTypeOf o) as [targetType0|]; [|done]. case_bool_decide; [|done].
  cbn [stateOf snd]. by apply Inv_enqueue.
Qed.

Lemma Inv_addBatch files options s : Inv s → Inv (stateOf snd (addBatch files options s) s).
Proof.
  intros HI. unfold addBatch. destruct (isDestroyed s); [done|].
  destruct files as [files|]; [|done].
  destruct (_ =? _)%nat; [done|]. destruct (_ <? _)%nat; [done|].
  destruct (validateFiles files); [done|].
  destruct options as [o| |]; [|done..].
  destruct (targetTypeOf o) as [targetType0|]; [|done]. case_bool_decide; [|done].
  cbn [stateOf snd]. by apply Inv_enqueue.
Qed.

Lemma Inv_step s i : Inv s → Inv (step s i).
Proof.
  intros HI. destruct i; cbn [step];
    auto using Inv_addFile, Inv_addBatch, Inv_cancelTask, Inv_cancelAll,
      Inv_pause, Inv_resume, Inv_destroy, Inv_handleWorkerMessage,
      Inv_handleWorkerError, Inv_fireTimer, Inv_resumeProcessQueue.
Qed.

Lemma Inv_run s (inputs : list Input) : Inv s → Inv (run s inputs).
Proof.
  revert s. induction inputs as [|i inputs IH]; intros s HI; [done|].
  cbn [run fold_left]. apply IH. by apply Inv_step.
Qed.

End Preservation.

(** *** Worker slots *)

Lemma slotsConsistent_ext s s' :
  activeWorkers s' = activeWorkers s → metadata s' = metadata s →
  nextWorkerId s' = nextWorkerId s →
  slotsConsistent s → slotsConsistent s'.
Proof. unfold slotsConsistent. by intros -> -> ->. Qed.

Lemma createWorker_slots ty s w s' :
  createWorker ty s = Some (w, s') →
  slotsConsistent s →
  slotsConsistent s' ∧ metadata s' !! w = Some (freshMetadata ty).
Proof.
  unfold createWorker. destruct (isDestroyed s); [done|].
  intros [= <- <-] (Hent & Hwr & Hdom).
  assert (metadata s !! nextWorkerId s = None) as Hfresh.
  { destruct (metadata s !! nextWorkerId s) eqn:Hm; [|done].
    assert (nextWorkerId s < nextWorkerId s)%nat by (apply Hdom; by rewrite Hm). lia. }
  split; [|destruct ty; qsimpl; by rewrite lookup_insert_eq].
  assert (slotsConsistent
            (set_metadata (<[nextWorkerId s := freshMetadata ty]> (metadata s))
               (set_nextWorkerId (S (nextWorkerId s)) s))) as Hgoal.
  { split; [|split]; qsimpl.
    - intros t task w Ha. destruct (Hent t task w Ha) as (m & Hm & Hb & Ht).
      exists m. rewrite lookup_insert_ne; [done|]. intros <-. congruence.
    - intros w m. rewrite lookup_insert. case_decide as Hw.
      + intros [= <-]. done.
      + apply Hwr.
    - intros w. rewrite lookup_insert. case_decide as Hw; [lia|].
      intros Hs. apply Hdom in Hs. lia. }
  eapply slotsConsistent_ext; [| | |exact Hgoal]; by destruct ty.
Qed.

Lemma busyOf_false s w :
  busyOf s w = false ↔ ∃ m, metadata s !! w = Some m ∧ busy m = false.
Proof.
  unfold busyOf. destruct (metadata s !! w) as [m|]; split.
  - intros Hb. by exists m.
  - by intros (m' & [= <-] & Hb).
  - done.
  - by intros (m' & ? & _).
Qed.

Lemma getAvailableWorker_slots ty s w s1 :
  getAvailableWorker ty s = (Found w, s1) →
  slotsConsistent s →
  slotsConsistent s1 ∧ busyOf s1 w = false.
Proof.
  unfold getAvailableWorker. intros Hg HI.
  destruct (find _ (poolOf ty s)) as [w'|] eqn:Hf.
  - injection Hg as <- <-. split; [done|].
    apply find_some in Hf as [_ Hb]. by apply negb_true_iff in Hb.
  - destruct (_ <? _)%nat; [|done].
    destruct (createWorker ty s) as [[w' s']|] eqn:Hc; [|done].
    injection Hg as <- <-.
    destruct (createWorker_slots ty s w' s' Hc HI) as [HI' Hm].
    split; [done|]. apply busyOf_false. by eexists.
Qed.

Lemma getAvailableWorker_none ty s a s1 :
  getAvailableWorker ty s = (a, s1) → a ≠ Found 0 → (∀ w, a ≠ Found w) → s1 = s.
Proof.
  unfold getAvailableWorker. intros Hg _ Hn.
  destruct (find _ _) as [w'|]; [injection Hg as <- <-; by destruct (Hn w')|].
  destruct (_ <? _)%nat; [|by injection Hg as <- <-].
  destruct (createWorker ty s) as [[w' s']|]; [|by injection Hg as <- <-].
  injection Hg as <- <-. by destruct (Hn w').
Qed.

Lemma alternates_cons (b : bool) (l : list bool) :
  alternates l = true → head l = Some (negb b) → alternates (b :: l) = true.
Proof.
  destruct l as [|b' l]; [done|]. cbn [head]. intros Hl [= ->].
  cbn [alternates] in *. rewrite Hl. by destruct b.
Qed.

Lemma executeTask_slots task w s :
  busyOf s w = false → slotsConsistent s → slotsConsistent (executeTask task w s).
Proof.
  intros Hidle (Hent & Hwr & Hdom).
  apply busyOf_false in Hidle as (m & Hm & Hb).
  assert (slotsConsistent
            (set_activeWorkers (<[task_id task := (task, w)]> (activeWorkers s))
               (set_metadata (alter (markBusy (task_id task)) w (metadata s)) s)))
    as Hgoal.
  { split; [|split]; qsimpl.
    - intros t task' w'. rewrite lookup_insert. case_decide as Ht.
      + intros [= <- <-]. subst t. exists (markBusy (task_id task) m).
        by rewrite lookup_alter_eq, Hm.
      + intros Ha. destruct (Hent t task' w' Ha) as (m' & Hm' & Hb' & Ht').
        exists m'. rewrite lookup_alter_ne; [done|]. intros <-. congruence.
    - intros w' m'. rewrite lookup_alter. case_decide as Hw.
      + subst w'. rewrite Hm. intros [= <-]. cbn [markBusy busyWrites busy].
        destruct (Hwr w m Hm) as [Halt Hhd]. split; [|done].
        apply alternates_cons; [done|]. by rewrite Hhd, Hb.
      + apply Hwr.
    - intros w'. rewrite lookup_alter. case_decide as Hw.
      + subst w'. intros _. apply Hdom. by rewrite Hm.
      + apply Hdom. }
  eapply slotsConsistent_ext; [| | |exact Hgoal];
    unfold executeTask; by destruct (task_type task).
Qed.

Lemma releaseWorker_slots t s : slotsConsistent s → slotsConsistent (releaseWorker t s).
Proof.
  intros (Hent & Hwr & Hdom). unfold releaseWorker.
  destruct (activeWorkers s !! t) as [[task w]|] eqn:Ha; [|done].
  destruct (Hent t task w Ha) as (m & Hm & Hb & Ht).
  split; [|split]; qsimpl.
  - intros t' task' w'. rewrite lookup_delete. case_decide as Hne; [done|].
    intros Ha'. destruct (Hent t' task' w' Ha') as (m' & Hm' & Hb' & Ht').
    exists m'. rewrite lookup_alter_ne; [done|]. intros <-. congruence.
  - intros w' m'. rewrite lookup_alter. case_decide as Hw.
    + subst w'. rewrite Hm. intros [= <-]. cbn [markIdle busyWrites busy].
      destruct (Hwr w m Hm) as [Halt Hhd]. split; [|done].
      apply alternates_cons; [done|]. by rewrite Hhd, Hb.
    + apply Hwr.
  - intros w'. rewrite lookup_alter. case_decide as Hw.
    + subst w'. intros _. apply Hdom. by rewrite Hm.
    + apply Hdom.
Qed.

Lemma countWorkerTask_slots t s : slotsConsistent s → slotsConsistent (countWorkerTask t s).
Proof.
  intros (Hent & Hwr & Hdom). unfold countWorkerTask.
  destruct (activeWorkers s !! t) as [[task w]|] eqn:Ha; [|done].
  split; [|split]; qsimpl.
  - intros t' task' w' Ha'. destruct (Hent t' task' w' Ha') as (m' & Hm' & Hb' & Ht').
    destruct (decide (w = w')) as [<-|Hw].
    + exists (countProcessed m'). by rewrite lookup_alter_eq, Hm'.
    + exists m'. by rewrite lookup_alter_ne.
  - intros w' m'. rewrite lookup_alter. case_decide as Hw.
    + subst w'. destruct (metadata s !! w) as [m|] eqn:Hm; [|done].
      intros [= <-]. cbn [countProcessed busyWrites busy]. by apply (Hwr w).
    + apply Hwr.
  - intros w'. rewrite lookup_alter. case_decide as Hw.
    + subst w'. destruct (metadata s !! w) as [m|] eqn:Hm; [|by intros [? ?]].
      intros _. apply Hdom. by rewrite Hm.
    + apply Hdom.
Qed.

Lemma replaceWorker_slots w s : slotsConsistent s → slotsConsistent (replaceWorker w s).
Proof.
  intros HI. unfold replaceWorker.
  destruct (metadata s !! w) as [m|]; [|done].
  case_bool_decide; [|done]. cbv zeta.
  set (s1 := set_poolOf _ _ _).
  assert (slotsConsistent s1) as H1.
  { eapply slotsConsistent_ext; [| | |exact HI]; subst s1;
      by destruct (worker_type m). }
  destruct (createWorker (worker_type m) s1) as [[w' s']|] eqn:Hc; [|done].
  by destruct (createWorker_slots _ _ _ _ Hc H1).
Qed.

Lemma destroyCallback_slots s : slotsConsistent s → slotsConsistent (destroyCallback s).
Proof.
  intros (Hent & Hwr & Hdom). unfold destroyCallback. cbv zeta.
  set (s1 := fold_left _ _ s).
  assert (metadata s1 = metadata s ∧ nextWorkerId s1 = nextWorkerId s) as [Hm Hn].
  { subst s1. generalize (workerPool s ++ batchWorkerPool s). intros l.
    revert s Hent Hwr Hdom. induction l as [|w l IH]; intros s _ _ _; [done|].
    cbn [fold_left]. set (s2 := effect _ s).
    change (metadata s) with (metadata s2). change (nextWorkerId s) with (nextWorkerId s2).
    generalize s2. clear. intros s.
    revert s. induction l as [|w' l IH]; intros s; [done|].
    cbn [fold_left]. destruct (IH (effect (Terminate w') s)) as [-> ->]. done. }
  split; [|split]; qsimpl.
  - intros t task w. by rewrite lookup_empty.
  - rewrite Hm. apply Hwr.
  - rewrite Hm, Hn. apply Hdom.
Qed.

Lemma initializeWorkerPools_slots n s :
  slotsConsistent s → slotsConsistent (initializeWorkerPools n s).
Proof.
  revert s. induction n as [|n IH]; intros s HI; [done|].
  cbn [initializeWorkerPools]. apply IH.
  assert (slotsConsistent
            match createWorker single s with Some (_, s') => s' | None => s end) as H1.
  { destruct (createWorker single s) as [[w s']|] eqn:Hc; [|done].
    by destruct (createWorker_slots _ _ _ _ Hc HI). }
  destruct (createWorker batch _) as [[w s']|] eqn:Hc; [|done].
  by destruct (createWorker_slots _ _ _ _ Hc H1).
Qed.

Lemma new_slots (o : QueueOptions) : slotsConsistent (new o).
Proof.
  unfold new. apply initializeWorkerPools_slots.
  split; [|split]; qsimpl.
  - intros t task w. by rewrite lookup_empty.
  - intros w m. by rewrite lookup_empty.
  - intros w. rewrite lookup_empty. by intros [? ?].
Qed.

Lemma run_slots (o : QueueOptions) (inputs : list Input) :
  slotsConsistent (run (new o) inputs).
Proof.
  apply Inv_run; [..|apply new_slots].
  - intros s s' (_ & _ & _ & _ & _ & Ha & _ & _ & Hm & _ & _ & _ & Hn & _).
    by apply slotsConsistent_ext.
  - intros s task rest w s1 Hq Hg _ HI.
    assert (slotsConsistent (set_queue rest s)) as HI'
      by (by eapply slotsConsistent_ext; [| | |exact HI]).
    destruct (getAvailableWorker_slots _ _ _ _ Hg HI') as [H1 Hidle].
    by apply executeTask_slots.
  - intros s task rest s1 Hq Hg HI.
    apply getAvailableWorker_none in Hg as ->; [|done..].
    by eapply slotsConsistent_ext; [| | |exact HI].
  - intros s task rest s1 Hq Hg HI.
    apply getAvailableWorker_none in Hg as ->; [|done..].
    by eapply slotsConsistent_ext; [| | |exact HI].
  - intros s t. apply releaseWorker_slots.
  - intros s t. apply countWorkerTask_slots.
  - intros s t0 task w0 _ HI. by eapply slotsConsistent_ext; [| | |exact HI].
  - intros s t0 task w0 d _ HI. by eapply slotsConsistent_ext; [| | |exact HI].
  - intros s n d task _ HI. split; by eapply slotsConsistent_ext; [| | |exact HI].
  - intros s n _ HI. apply destroyCallback_slots.
    by eapply slotsConsistent_ext; [| | |exact HI].
  - intros s t i task _ HI. by eapply slotsConsistent_ext; [| | |exact HI].
  - intros s HI. by eapply slotsConsistent_ext; [| | |exact HI].
  - intros s task _ HI. by eapply slotsConsistent_ext; [| | |exact HI].
  - intros s w. apply replaceWorker_slots.
  - intros s HI. by eapply slotsConsistent_ext; [| | |exact HI].
Qed.

(** C2.  In every state the queue can reach from its construction,
    whatever the inputs: no worker is the assigned worker of two active
    tasks; the worker assigned to an active task is marked busy and
    records that task's id; the worker [getAvailableWorker] hands out for
    a dispatch has its busy flag false; [executeTask] sets the flag and
    records the task id; [releaseWorker] clears both; and the history of
    values written to each worker's busy flag alternates, so no flag is
    ever set twice in a row (no task is given to a slot already busy) nor
    cleared twice in a row. *)
Theorem worker_slot_discipline (o : QueueOptions) (inputs : list Input) :
  (∀ t1 t2 task1 task2 w,
     activeWorkers (run (new o) inputs) !! t1 = Some (task1, w) →
     activeWorkers (run (new o) inputs) !! t2 = Some (task2, w) → t1 = t2)
  ∧ (∀ t task w,
       activeWorkers (run (new o) inputs) !! t = Some (task, w) →
       busyOf (run (new o) inputs) w = true
       ∧ taskIdOf (run (new o) inputs) w = Some t)
  ∧ (∀ ty w s1,
       getAvailableWorker ty (run (new o) inputs) = (Found w, s1) →
       busyOf s1 w = false
       ∧ ∀ task, busyOf (executeTask task w s1) w = true
                 ∧ taskIdOf (executeTask task w s1) w = Some (task_id task))
  ∧ (∀ t task w,
       activeWorkers (run (new o) inputs) !! t = Some (task, w) →
       busyOf (releaseWorker t (run (new o) inputs)) w = false
       ∧ taskIdOf (releaseWorker t (run (new o) inputs)) w = None)
  ∧ (∀ w m,
       metadata (run (new o) inputs) !! w = Some m →
       alternates (busyWrites m) = true ∧ head (busyWrites m) = Some (busy m)).
Proof.
  pose proof (run_slots o inputs) as HI.
  set (s := run (new o) inputs) in *. destruct HI as (Hent & Hwr & Hdom).
  split; [|split; [|split; [|split]]].
  - intros t1 t2 task1 task2 w H1 H2.
    destruct (Hent _ _ _ H1) as (m1 & Hm1 & _ & Ht1).
    destruct (Hent _ _ _ H2) as (m2 & Hm2 & _ & Ht2). congruence.
  - intros t task w Ha. destruct (Hent _ _ _ Ha) as (m & Hm & Hb & Ht).
    unfold busyOf, taskIdOf. by rewrite Hm.
  - intros ty w s1 Hg.
    destruct (getAvailableWorker_slots _ _ _ _ Hg (conj Hent (conj Hwr Hdom)))
      as [H1 Hidle].
    split; [done|]. apply busyOf_false in Hidle as (m & Hm & Hb).
    assert (∀ task, metadata (executeTask task w s1) !! w
                    = Some (markBusy (task_id task) m)) as Hex.
    { intros task. unfold executeTask. destruct (task_type task); qsimpl;
        by rewrite lookup_alter_eq, Hm. }
    intros task. unfold busyOf, taskIdOf. by rewrite Hex.
  - intros t task w Ha. destruct (Hent _ _ _ Ha) as (m & Hm & Hb & Ht).
    unfold releaseWorker. rewrite Ha. unfold busyOf, taskIdOf. qsimpl.
    by rewrite lookup_alter_eq, Hm.
  - exact Hwr.
Qed.

(** *** Priority order *)

Lemma StronglySorted_sublist {A : Type} (R : A → A → Prop) (l1 l2 : list A) :
  l1 `sublist_of` l2 → StronglySorted R l2 → StronglySorted R l1.
Proof.
  induction 1 as [|x l1 l2 Hsub IH|x l1 l2 Hsub IH]; intros Hs.
  - constructor.
  - apply StronglySorted_inv in Hs as [Hs Hall]. constructor; [by apply IH|].
    apply Forall_forall. intros y Hy.
    eapply Forall_forall in Hall; [exact Hall|]. by eapply elem_of_sublist.
  - apply StronglySorted_inv in Hs as [Hs _]. by apply IH.
Qed.

Lemma insertByPriority_desc (y : Task) (m : list Task) :
  StronglySorted (λ a b, priority b <= priority a) m →
  StronglySorted (λ a b, priority b <= priority a) (insertByPriority y m).
Proof.
  induction m as [|u m IH]; intros Hs; cbn [insertByPriority].
  - repeat constructor.
  - apply StronglySorted_inv in Hs as [Hs Hall].
    destruct (priority y <? priority u) eqn:Hlt.
    + apply Z.ltb_lt in Hlt. constructor; [by apply IH|].
      apply Forall_forall. intros v Hv.
      apply elem_of_insertByPriority in Hv as [->|Hv]; [lia|].
      by eapply Forall_forall in Hall.
    + apply Z.ltb_ge in Hlt. constructor; [by constructor|].
      constructor; [done|]. eapply Forall_impl; [exact Hall|].
      intros v Hv. cbn in Hv. lia.
Qed.

Lemma sortQueue_desc (l : list Task) :
  StronglySorted (λ a b, priority b <= priority a) (sortQueue l).
Proof.
  unfold sortQueue. induction l as [|y l IH]; [constructor|].
  cbn [foldr]. by apply insertByPriority_desc.
Qed.

Lemma filter_insertByPriority (P : Task → Prop) `{∀ x, Decision (P x)}
    (y : Task) (m : list Task) :
  StronglySorted (λ a b, priority b <= priority a) m →
  filter P (insertByPriority y m)
  = if decide (P y) then insertByPriority y (filter P m) else filter P m.
Proof.
  induction m as [|u m IH]; intros Hs; cbn [insertByPriority].
  - rewrite filter_cons, filter_nil. by destruct (decide (P y)).
  - apply StronglySorted_inv in Hs as [Hs Hall].
    destruct (priority y <? priority u) eqn:Hlt.
    + rewrite !filter_cons, IH by done.
      destruct (decide (P y)), (decide (P u)); try done.
      cbn [insertByPriority]. by rewrite Hlt.
    + rewrite (filter_cons _ y).
      destruct (decide (P y)) as [Hy|Hy]; [|done].
      apply Z.ltb_ge in Hlt.
      destruct (filter P (u :: m)) as [|v rest] eqn:Hf; [done|].
      cbn [insertByPriority].
      assert (priority v <= priority y) as Hv.
      { assert (v ∈ u :: m) as Hin.
        { eapply list_elem_of_filter. rewrite Hf. left. }
        apply elem_of_cons in Hin as [->|Hin]; [done|].
        eapply Forall_forall in Hall; [|exact Hin]. cbn in Hall. lia. }
      apply Z.ltb_ge in Hv. by rewrite Hv.
Qed.

Lemma filter_sortQueue (P : Task → Prop) `{∀ x, Decision (P x)} (l : list Task) :
  filter P (sortQueue l) = sortQueue (filter P l).
Proof.
  induction l as [|y l IH]; [done|].
  change (sortQueue (y :: l)) with (insertByPriority y (sortQueue l)).
  rewrite filter_insertByPriority by apply sortQueue_desc.
  rewrite filter_cons. destruct (decide (P y)); [|done].
  change (sortQueue (y :: filter P l)) with (insertByPriority y (sortQueue (filter P l))).
  by rewrite IH.
Qed.

Lemma insertByPriority_before (y : Task) (m : list Task) :
  StronglySorted before m →
  (∀ u, u ∈ m → priority u = priority y → (task_id y < task_id u)%nat) →
  StronglySorted before (insertByPriority y m).
Proof.
  induction m as [|u m IH]; intros Hs Hnew; cbn [insertByPriority].
  - repeat constructor.
  - apply StronglySorted_inv in Hs as [Hs Hall].
    destruct (priority y <? priority u) eqn:Hlt.
    + apply Z.ltb_lt in Hlt. constructor.
      * apply IH; [done|]. intros v Hv. apply Hnew. by right.
      * apply Forall_forall. intros v Hv.
        apply elem_of_insertByPriority in Hv as [->|Hv]; [by left|].
        by eapply Forall_forall in Hall.
    + apply Z.ltb_ge in Hlt.
      assert (before y u) as Hyu.
      { destruct (decide (priority u = priority y)) as [He|Hne].
        - right. split; [done|]. apply Hnew; [left|done].
        - left. lia. }
      constructor; [by constructor|]. constructor; [done|].
      apply Forall_forall. intros v Hv.
      eapply Forall_forall in Hall; [|exact Hv].
      destruct (decide (priority v = priority y)) as [He|Hne].
      * right. split; [done|]. apply Hnew; [by right|done].
      * left. unfold before in Hall, Hyu. lia.
Qed.

Lemma sortQueue_app_newest (l : list Task) (x : Task) :
  StronglySorted before l →
  (∀ u, u ∈ l → (task_id u < task_id x)%nat) →
  StronglySorted before (sortQueue (l ++ [x])).
Proof.
  induction l as [|y l IH]; intros Hs Hnew.
  - repeat constructor.
  - apply StronglySorted_inv in Hs as [Hs Hall].
    change (sortQueue ((y :: l) ++ [x]))
      with (insertByPriority y (sortQueue (l ++ [x]))).
    apply insertByPriority_before.
    + apply IH; [done|]. intros u Hu. apply Hnew. by right.
    + intros u Hu He. apply elem_of_sortQueue, elem_of_app in Hu as [Hu|Hu].
      * eapply Forall_forall in Hall; [|exact Hu]. unfold before in Hall. lia.
      * apply list_elem_of_singleton in Hu as ->. apply Hnew. left.
Qed.

Lemma filter_sublist_mono {A : Type} (P : A → Prop) `{∀ x, Decision (P x)}
    (l1 l2 : list A) :
  l1 `sublist_of` l2 → filter P l1 `sublist_of` filter P l2.
Proof.
  induction 1 as [|x l1 l2 Hsub IH|x l1 l2 Hsub IH].
  - done.
  - rewrite !filter_cons. destruct (decide (P x)); [by constructor|done].
  - rewrite filter_cons. destruct (decide (P x)); [by constructor|done].
Qed.

Lemma priorityOrdered_weaken s s' :
  queue s' `sublist_of` queue s →
  (∀ t task w, activeWorkers s' !! t = Some (task, w) →
     (∃ t0 w0, activeWorkers s !! t0 = Some (task, w0)) ∨ task ∈ queue s) →
  (∀ d task, RetryTimer d task ∈ timers s' → RetryTimer d task ∈ timers s) →
  retries s' = retries s → nextTaskId s' = nextTaskId s →
  priorityOrdered s → priorityOrdered s'.
Proof.
  intros Hq Ha Ht Hr Hn (Hs & Hqb & Hab & Htb & Hrb).
  unfold priorityOrdered, pendingFresh, retriesOf in *. rewrite Hr, Hn.
  split; [|split; [|split; [|split]]].
  - eapply StronglySorted_sublist; [|exact Hs]. by apply filter_sublist_mono.
  - intros task Hin. apply Hqb. by eapply elem_of_sublist.
  - intros t task w Hin. destruct (Ha _ _ _ Hin) as [(t0 & w0 & H0)|H0].
    + by eapply Hab.
    + by apply Hqb.
  - intros d task Hin. by eapply Htb, Ht.
  - exact Hrb.
Qed.

Lemma executeTask_fields task w s :
  queue (executeTask task w s) = queue s
  ∧ activeWorkers (executeTask task w s)
    = <[task_id task := (task, w)]> (activeWorkers s)
  ∧ timers (executeTask task w s) = timers s
  ∧ retries (executeTask task w s) = retries s
  ∧ nextTaskId (executeTask task w s) = nextTaskId s
  ∧ trace (executeTask task w s)
    = Post w (convertCommand task)
        :: Track (updateProgress (task_id task) 0) :: trace s
  ∧ metadata (executeTask task w s)
    = alter (markBusy (task_id task)) w (metadata s)
  ∧ workerPool (executeTask task w s) = workerPool s
  ∧ nextWorkerId (executeTask task w s) = nextWorkerId s
  ∧ suspended (executeTask task w s) = suspended s
  ∧ isPaused (executeTask task w s) = isPaused s
  ∧ isDestroyed (executeTask task w s) = isDestroyed s
  ∧ maxConcurrent (executeTask task w s) = maxConcurrent s
  ∧ maxRetries (executeTask task w s) = maxRetries s
  ∧ retryDelay (executeTask task w s) = retryDelay s
  ∧ maxWorkers (executeTask task w s) = maxWorkers s.
Proof.
  unfold executeTask, convertCommand. destruct (task_type task); by repeat split.
Qed.

Lemma priorityOrdered_dispatch s task rest w s1 :
  queue s = task :: rest →
  getAvailableWorker (task_type task) (set_queue rest s) = (Found w, s1) →
  priorityOrdered s → priorityOrdered (executeTask task w s1).
Proof.
  intros Hq Hg.
  pose proof (getAvailableWorker_frame (task_type task) (set_queue rest s)) as Hf.
  rewrite Hg in Hf. cbn [snd] in Hf. qsimpl.
  destruct Hf as (Hfq & Hfa & _ & Hfr & Hft & Hfn & _).
  destruct (executeTask_fields task w s1) as (Eq & Ea & Et & Er & En & _).
  apply priorityOrdered_weaken.
  - rewrite Eq, Hfq, Hq. by apply sublist_cons.
  - intros t task' w'. rewrite Ea, Hfa, lookup_insert. case_decide.
    + intros [= <- <-]. right. rewrite Hq. left.
    + intros Hin. left. eauto.
  - intros d task'. by rewrite Et, Hft.
  - by rewrite Er, Hfr.
  - by rewrite En, Hfn.
Qed.

Lemma priorityOrdered_failure s t0 task w0 :
  activeWorkers s !! t0 = Some (task, w0) →
  priorityOrdered s → priorityOrdered (countFailure task s).
Proof.
  intros Ha (Hs & Hqb & Hab & Htb & Hrb).
  unfold priorityOrdered, pendingFresh, countFailure, retriesOf in *. qsimpl.
  split; [|split; [|split; [|split]]]; try done.
  - eapply StronglySorted_sublist; [|exact Hs].
    rewrite <- (list_filter_filter_l
                  (λ task0, default 0%nat (<[task_id task:=_]> (retries s) !! task_id task0) = 0%nat)
                  (λ task0, default 0%nat (retries s !! task_id task0) = 0%nat)).
    + apply sublist_filter.
    + intros u. cbn beta. destruct (decide (task_id task = task_id u)) as [He|Hne].
      * rewrite He, lookup_insert_eq. done.
      * by rewrite lookup_insert_ne.
  - intros d task' Hin. destruct (Htb d task' Hin) as [Hb Hr]. split; [done|].
    rewrite lookup_insert. case_decide; cbn; lia.
  - intros t. rewrite lookup_insert. case_decide as Ht; [|apply Hrb].
    subst t. intros _. by eapply Hab.
Qed.

Lemma priorityOrdered_retry s t0 task w0 d :
  activeWorkers s !! t0 = Some (task, w0) →
  priorityOrdered s → priorityOrdered (scheduleRetry d task (countFailure task s)).
Proof.
  intros Ha HI. pose proof (priorityOrdered_failure s t0 task w0 Ha HI) as H1.
  assert (task_id task < nextTaskId s)%nat as Hb.
  { destruct HI as (_ & _ & Hab & _). by eapply Hab. }
  destruct H1 as (Hs & Hqb & Hab & Htb & Hrb).
  unfold priorityOrdered, pendingFresh, scheduleRetry, retriesOf in *. qsimpl.
  split; [|split; [|split; [|split]]]; try done.
  intros d' task' Hin. apply elem_of_app in Hin as [Hin|Hin]; [by apply (Htb d')|].
  apply list_elem_of_singleton in Hin as [= -> ->]. split; [done|].
  unfold countFailure. qsimpl. rewrite lookup_insert_eq. cbn. lia.
Qed.

Lemma priorityOrdered_requeue s task :
  (task_id task < nextTaskId s)%nat → (1 <= retriesOf s (task_id task))%nat →
  priorityOrdered s → priorityOrdered (requeue task s).
Proof.
  intros Hb Hr (Hs & Hqb & Hab & Htb & Hrb).
  unfold priorityOrdered, pendingFresh, requeue, retriesOf in *. qsimpl.
  split; [|split; [|split; [|split]]]; try done.
  - rewrite filter_cons_False; [done|]. lia.
  - intros u Hu. apply elem_of_cons in Hu as [->|Hu]; [done|by apply Hqb].
Qed.

Lemma priorityOrdered_register s task :
  task_id task = nextTaskId s →
  priorityOrdered s → priorityOrdered (register task s).
Proof.
  intros Hid (Hs & Hqb & Hab & Htb & Hrb).
  assert (retries s !! nextTaskId s = None) as Hfresh.
  { destruct (retries s !! nextTaskId s) eqn:Hr; [|done].
    assert (nextTaskId s < nextTaskId s)%nat by (apply Hrb; by rewrite Hr). lia. }
  unfold priorityOrdered, pendingFresh, register, retriesOf in *. qsimpl.
  split; [|split; [|split; [|split]]].
  - rewrite filter_sortQueue, (filter_app _ (queue s) [task]).
    rewrite filter_cons_True, filter_nil by (by rewrite Hid, Hfresh).
    apply sortQueue_app_newest; [done|].
    intros u Hu. apply list_elem_of_filter in Hu as [_ Hu].
    rewrite Hid. by apply Hqb.
  - intros u Hu. apply elem_of_sortQueue, elem_of_app in Hu as [Hu|Hu].
    + apply Hqb in Hu. lia.
    + apply list_elem_of_singleton in Hu as ->. lia.
  - intros t task' w Hin. apply Hab in Hin. lia.
  - intros d task' Hin. destruct (Htb d task' Hin). split; [lia|done].
  - intros t Hin. apply Hrb in Hin. lia.
Qed.

Lemma initializeWorkerPools_frame n s :
  queue (initializeWorkerPools n s) = queue s
  ∧ activeWorkers (initializeWorkerPools n s) = activeWorkers s
  ∧ timers (initializeWorkerPools n s) = timers s
  ∧ retries (initializeWorkerPools n s) = retries s
  ∧ nextTaskId (initializeWorkerPools n s) = nextTaskId s
  ∧ trace (initializeWorkerPools n s) = trace s.
Proof.
  revert s. induction n as [|n IH]; intros s; [done|].
  cbn [initializeWorkerPools].
  set (s1 := match createWorker single s with Some (_, s') => s' | None => s end).
  assert (queue s1 = queue s ∧ activeWorkers s1 = activeWorkers s
          ∧ timers s1 = timers s ∧ retries s1 = retries s
          ∧ nextTaskId s1 = nextTaskId s ∧ trace s1 = trace s) as (Q1 & A1 & T1 & R1 & N1 & E1).
  { subst s1. destruct (createWorker single s) as [[w s']|] eqn:Hc; [|done].
    destruct (createWorker_frame _ _ _ _ Hc) as (Hq & Ha & He & Hr & Ht & Hn & _).
    by repeat split. }
  set (s2 := match createWorker batch s1 with Some (_, s') => s' | None => s1 end).
  assert (queue s2 = queue s1 ∧ activeWorkers s2 = activeWorkers s1
          ∧ timers s2 = timers s1 ∧ retries s2 = retries s1
          ∧ nextTaskId s2 = nextTaskId s1 ∧ trace s2 = trace s1) as (Q2 & A2 & T2 & R2 & N2 & E2).
  { subst s2. destruct (createWorker batch s1) as [[w s']|] eqn:Hc; [|done].
    destruct (createWorker_frame _ _ _ _ Hc) as (Hq & Ha & He & Hr & Ht & Hn & _).
    by repeat split. }
  destruct (IH s2) as (-> & -> & -> & -> & -> & ->).
  by rewrite Q2, A2, T2, R2, N2, E2.
Qed.

Lemma new_priorityOrdered (o : QueueOptions) : priorityOrdered (new o).
Proof.
  unfold new. cbv zeta.
  match goal with |- priorityOrdered (initializeWorkerPools ?n ?s0) =>
    destruct (initializeWorkerPools_frame n s0) as (Q & A & T & R & N & _);
    apply (priorityOrdered_weaken s0)
  end.
  - rewrite Q. done.
  - intros t task w. rewrite A. cbn. by rewrite lookup_empty.
  - intros d task. by rewrite T.
  - done.
  - done.
  - unfold priorityOrdered, pendingFresh. qsimpl.
    split; [constructor|]. split; [by intros ? ?%elem_of_nil|].
    split; [intros ? ? ?; by rewrite lookup_empty|].
    split; [by intros ? ? ?%elem_of_nil|].
    intros t. rewrite lookup_empty. by intros [? ?].
Qed.

Lemma terminateAll_fields (l : list nat) s :
  let s' := fold_left (λ acc w, effect (Terminate w) acc) l s in
  queue s' = queue s ∧ activeWorkers s' = activeWorkers s
  ∧ timers s' = timers s ∧ retries s' = retries s
  ∧ nextTaskId s' = nextTaskId s ∧ metadata s' = metadata s
  ∧ nextWorkerId s' = nextWorkerId s
  ∧ ∀ t, attempts t s' = attempts t s.
Proof.
  revert s. induction l as [|w l IH]; intros s; [by repeat split|].
  cbn [fold_left]. cbv zeta in *.
  destruct (IH (effect (Terminate w) s)) as (-> & -> & -> & -> & -> & -> & -> & Hat).
  repeat split; try done. all: intros t; by rewrite Hat.
Qed.

Lemma destroyCallback_fields s :
  queue (destroyCallback s) = [] ∧ activeWorkers (destroyCallback s) = ∅
  ∧ timers (destroyCallback s) = timers s ∧ retries (destroyCallback s) = retries s
  ∧ nextTaskId (destroyCallback s) = nextTaskId s
  ∧ ∀ t, attempts t (destroyCallback s) = attempts t s.
Proof.
  unfold destroyCallback. cbv zeta.
  destruct (terminateAll_fields (workerPool s ++ batchWorkerPool s) s)
    as (_ & _ & Ht & Hr & Hn & _ & _ & Hat).
  cbv zeta in *. unfold attempts in *. qsimpl. rewrite Ht, Hr, Hn.
  repeat split; try done. all: intros t; by rewrite <- Hat.
Qed.

Lemma replaceWorker_frame w s :
  queue (replaceWorker w s) = queue s
  ∧ activeWorkers (replaceWorker w s) = activeWorkers s
  ∧ timers (replaceWorker w s) = timers s
  ∧ retries (replaceWorker w s) = retries s
  ∧ nextTaskId (replaceWorker w s) = nextTaskId s
  ∧ ∀ t, attempts t (replaceWorker w s) = attempts t s.
Proof.
  unfold replaceWorker. destruct (metadata s !! w) as [m|]; [|done].
  case_bool_decide; [|done]. cbv zeta.
  set (s1 := set_poolOf _ _ _).
  assert (queue s1 = queue s ∧ activeWorkers s1 = activeWorkers s
          ∧ timers s1 = timers s ∧ retries s1 = retries s
          ∧ nextTaskId s1 = nextTaskId s ∧ ∀ t, attempts t s1 = attempts t s)
    as (Q & A & T & R & N & E).
  { subst s1. unfold attempts. destruct (worker_type m); qsimpl; by repeat split. }
  destruct (createWorker (worker_type m) s1) as [[w' s']|] eqn:Hc; [|done].
  destruct (createWorker_frame _ _ _ _ Hc) as (Hq & Ha & He & Hr & Ht & Hn & _).
  rewrite Hq, Ha, Hr, Ht, Hn. repeat split; try done.
  all: intros t; unfold attempts in *; rewrite He; apply E.
Qed.

Lemma run_priorityOrdered (o : QueueOptions) (inputs : list Input) :
  priorityOrdered (run (new o) inputs).
Proof.
  apply Inv_run; [..|apply new_priorityOrdered].
  - intros s s' (_ & _ & _ & _ & Hq & Ha & _ & _ & _ & Hr & Ht & Hn & _).
    apply priorityOrdered_weaken; rewrite ?Hq, ?Ha, ?Ht; eauto.
  - intros s task rest w s1 Hq Hg _. by eapply priorityOrdered_dispatch.
  - intros s task rest s1 Hq Hg.
    apply getAvailableWorker_none in Hg as ->; [|done..].
    apply priorityOrdered_weaken; qsimpl; rewrite ?Hq; eauto.
  - intros s task rest s1 Hq Hg.
    apply getAvailableWorker_none in Hg as ->; [|done..].
    apply priorityOrdered_weaken; qsimpl; rewrite ?Hq; eauto.
    by apply sublist_cons.
  - intros s t. apply priorityOrdered_weaken; try done.
    + unfold releaseWorker. destruct (activeWorkers s !! t) as [[? ?]|]; done.
    + intros t' task w. unfold releaseWorker.
      destruct (activeWorkers s !! t) as [[? ?]|] eqn:Ha0; qsimpl.
      * rewrite lookup_delete. case_decide; [done|]. eauto.
      * eauto.
    + unfold releaseWorker. destruct (activeWorkers s !! t) as [[? ?]|]; done.
    + unfold releaseWorker. destruct (activeWorkers s !! t) as [[? ?]|]; done.
    + unfold releaseWorker. destruct (activeWorkers s !! t) as [[? ?]|]; done.
  - intros s t. apply priorityOrdered_weaken;
      unfold countWorkerTask; destruct (activeWorkers s !! t) as [[? ?]|]; qsimpl; eauto.
  - apply priorityOrdered_failure.
  - apply priorityOrdered_retry.
  - intros s n d task Hn HI.
    assert (priorityOrdered (set_timers (delete n (timers s)) s)) as H1.
    { revert HI. apply priorityOrdered_weaken; qsimpl; eauto.
      intros d' task' Hin. eapply elem_of_sublist; [exact Hin|apply sublist_delete]. }
    split; [exact H1|].
    destruct HI as (_ & _ & _ & Htb & _).
    destruct (Htb d task) as [Hb Hr]; [by eapply list_elem_of_lookup_2|].
    by apply priorityOrdered_requeue.
  - intros s n Hn.
    destruct (destroyCallback_fields (set_timers (delete n (timers s)) s))
      as (Q & A & T & R & N & _). qsimpl.
    apply priorityOrdered_weaken; rewrite ?Q, ?A, ?T, ?R, ?N.
    + apply sublist_nil_l.
    + intros t task w. by rewrite lookup_empty.
    + intros d task Hin. eapply elem_of_sublist; [exact Hin|apply sublist_delete].
    + done.
    + done.
  - intros s t i task Hf. apply priorityOrdered_weaken; qsimpl; eauto.
    apply sublist_delete.
  - intros s. apply priorityOrdered_weaken; qsimpl; eauto. apply sublist_nil_l.
  - apply priorityOrdered_register.
  - intros s w. destruct (replaceWorker_frame w s) as (Q & A & T & R & N & _).
    apply priorityOrdered_weaken; rewrite ?Q, ?A, ?T, ?R, ?N; eauto.
  - intros s. apply priorityOrdered_weaken; qsimpl; eauto.
    intros d task Hin. apply elem_of_app in Hin as [Hin|Hin]; [done|].
    by apply list_elem_of_singleton in Hin.
Qed.

(** An iteration of the scheduling loop either hands no task over, or hands
    over the task at the head of the queue. *)
Lemma processLoop_takes_head s :
  trace (processLoop s) = trace s
  ∨ ∃ task w,
      queue s = task :: queue (processLoop s)
      ∧ trace (processLoop s)
        = Post w (convertCommand task)
            :: Track (updateProgress (task_id task) 0) :: trace s.
Proof.
  unfold processLoop.
  destruct (queue s) as [|task rest] eqn:Hq; [by left|].
  destruct (_ && _ && _); [|by left].
  pose proof (getAvailableWorker_frame (task_type task) (set_queue rest s)) as Hf.
  destruct (getAvailableWorker (task_type task) (set_queue rest s)) as [[w| |] s1];
    cbn [snd] in Hf; qsimpl; destruct Hf as (Hfq & _ & Hft & _).
  - right. exists task, w.
    destruct (executeTask_fields task w s1) as (Eq & _ & _ & _ & _ & Et & _).
    by rewrite Eq, Et, Hfq, Hft.
  - left. by rewrite Hft.
  - left. by rewrite Hft.
Qed.

(** C4, amended.  In every state the queue can reach, whatever the inputs:
    an iteration of the scheduling loop that hands a task to a worker
    hands over the task at the head of the pending list; the pending
    tasks that have not failed before stand in that list in descending
    priority and, for equal priority, in submission order; so when the
    head is such a task it goes before every other pending task that has
    not failed: its priority is higher, or equal with an earlier
    submission.  (A task put back for a retry re-enters at the head,
    whatever its priority.) *)
Theorem scheduling_follows_priority (o : QueueOptions) (inputs : list Input) :
  (trace (processLoop (run (new o) inputs)) = trace (run (new o) inputs)
   ∨ ∃ task w,
       queue (run (new o) inputs) = task :: queue (processLoop (run (new o) inputs))
       ∧ trace (processLoop (run (new o) inputs))
         = Post w (convertCommand task)
             :: Track (updateProgress (task_id task) 0)
             :: trace (run (new o) inputs))
  ∧ StronglySorted before (pendingFresh (run (new o) inputs))
  ∧ (∀ task rest u,
       queue (run (new o) inputs) = task :: rest →
       retriesOf (run (new o) inputs) (task_id task) = 0%nat →
       u ∈ rest →
       retriesOf (run (new o) inputs) (task_id u) = 0%nat →
       before task u).
Proof.
  destruct (run_priorityOrdered o inputs) as (Hs & _).
  split; [apply processLoop_takes_head|]. split; [exact Hs|].
  intros task rest u Hq Ht Hu Hr. unfold pendingFresh in Hs. rewrite Hq in Hs.
  rewrite filter_cons_True in Hs by done.
  apply StronglySorted_inv in Hs as [_ Hall].
  eapply Forall_forall in Hall; [exact Hall|].
  apply list_elem_of_filter. by split.
Qed.

(** C4, as stated, fails: the task handed over next is the retried task of
    priority 0 (its second attempt), while the task of priority 5 stays
    pending. *)
Lemma retried_task_overtakes_priority :
  List.map (λ task, (task_id task, priority task)) (queue retryAheadOfPriority)
    = [(0%nat, 0); (2%nat, 5)]
  ∧ attempts 0 retryAheadOfPriority = 1%nat
  ∧ attempts 0 (step retryAheadOfPriority (WorkerMessage 2 success)) = 2%nat
  ∧ attempts 2 (step retryAheadOfPriority (WorkerMessage 2 success)) = 0%nat
  ∧ List.map task_id (queue (step retryAheadOfPriority (WorkerMessage 2 success)))
    = [2%nat].
Proof. vm_compute. repeat split. Qed.

(** *** Cancellation *)

Lemma retired_weaken t a s s' :
  (∀ task, task ∈ queue s' → task ∈ queue s) →
  (∀ t0 task w, activeWorkers s' !! t0 = Some (task, w) →
     (∃ t1 w1, activeWorkers s !! t1 = Some (task, w1)) ∨ task ∈ queue s) →
  (∀ d task, RetryTimer d task ∈ timers s' → RetryTimer d task ∈ timers s) →
  nextTaskId s' = nextTaskId s →
  attempts t s' = attempts t s →
  retired t a s → retired t a s'.
Proof.
  intros Hq Ha Ht Hn He (Jq & Ja & Jt & Jn & Je).
  unfold retired. rewrite Hn, He.
  split; [|split; [|split; [|split]]]; try done.
  - intros task Hin. by apply Jq, Hq.
  - intros t0 task w Hin. destruct (Ha _ _ _ Hin) as [(t1 & w1 & H1)|H1].
    + by eapply Ja.
    + by apply Jq.
  - intros d task Hin. by eapply Jt, Ht.
Qed.

Lemma attempts_executeTask t task w s :
  attempts t (executeTask task w s)
  = ((if (task_id task =? t)%nat then 1 else 0) + attempts t s)%nat.
Proof.
  unfold attempts. destruct (executeTask_fields task w s) as (_ & _ & _ & _ & _ & -> & _).
  unfold convertCommand. cbn [List.filter isConvertOf].
  destruct (task_type task); cbn [isConvertOf];
    by destruct (task_id task =? t)%nat.
Qed.

Lemma run_retired t a s (inputs : list Input) :
  retired t a s → retired t a (run s inputs).
Proof.
  apply Inv_run.
  - intros s0 s' (_ & _ & _ & _ & Hq & Ha & _ & _ & _ & _ & Ht & Hn & _ & He).
    apply retired_weaken; rewrite ?Hq, ?Ha, ?Ht; eauto.
  - intros s0 task rest w s1 Hq Hg _ HI.
    pose proof (getAvailableWorker_frame (task_type task) (set_queue rest s0)) as Hf.
    rewrite Hg in Hf. cbn [snd] in Hf. qsimpl.
    destruct Hf as (Hfq & Hfa & Hfe & _ & Hft & Hfn & _).
    destruct (executeTask_fields task w s1) as (Eq & Ea & Et & _ & En & _).
    assert (task_id task ≠ t) as Hne.
    { destruct HI as (Jq & _). apply Jq. rewrite Hq. left. }
    revert HI. apply retired_weaken.
    + intros u. rewrite Eq, Hfq, Hq. by right.
    + intros t0 u w0. rewrite Ea, Hfa, lookup_insert. case_decide.
      * intros [= <- <-]. right. rewrite Hq. left.
      * intros Hin. left. eauto.
    + intros d u. by rewrite Et, Hft.
    + by rewrite En, Hfn.
    + rewrite attempts_executeTask. apply Nat.eqb_neq in Hne. rewrite Hne.
      unfold attempts. by rewrite Hfe.
  - intros s0 task rest s1 Hq Hg.
    apply getAvailableWorker_none in Hg as ->; [|done..].
    apply retired_weaken; qsimpl; rewrite ?Hq; eauto.
  - intros s0 task rest s1 Hq Hg.
    apply getAvailableWorker_none in Hg as ->; [|done..].
    apply retired_weaken; qsimpl; rewrite ?Hq; eauto.
    intros u Hu. by right.
  - intros s0 t0. unfold releaseWorker.
    destruct (activeWorkers s0 !! t0) as [[task w]|] eqn:Ha0; [|done].
    apply retired_weaken; qsimpl; eauto.
    intros t1 u w1. rewrite lookup_delete. case_decide; [done|]. eauto.
  - intros s0 t0. unfold countWorkerTask.
    destruct (activeWorkers s0 !! t0) as [[task w]|]; [|done].
    apply retired_weaken; qsimpl; eauto.
  - intros s0 t0 task w0 _. apply retired_weaken; unfold countFailure; qsimpl; eauto.
  - intros s0 t0 task w0 d Ha0 HI.
    assert (task_id task ≠ t) as Hne by (destruct HI as (_ & Ja & _); by eapply Ja).
    destruct HI as (Jq & Ja & Jt & Jn & Je).
    unfold retired, scheduleRetry, countFailure, attempts in *. qsimpl.
    split; [|split; [|split; [|split]]]; try done.
    intros d' u Hin. apply elem_of_app in Hin as [Hin|Hin]; [by eapply Jt|].
    by apply list_elem_of_singleton in Hin as [= -> ->].
  - intros s0 n d task Hn HI.
    assert (task_id task ≠ t) as Hne.
    { destruct HI as (_ & _ & Jt & _). eapply Jt. by eapply list_elem_of_lookup_2. }
    assert (retired t a (set_timers (delete n (timers s0)) s0)) as H1.
    { revert HI. apply retired_weaken; qsimpl; eauto.
      intros d' u Hin. eapply elem_of_sublist; [exact Hin|apply sublist_delete]. }
    split; [exact H1|].
    destruct H1 as (Jq & Ja & Jt & Jn & Je).
    unfold retired, requeue, attempts in *. qsimpl.
    split; [|split; [|split; [|split]]]; try done.
    intros u Hu. apply elem_of_cons in Hu as [->|Hu]; [done|by apply Jq].
  - intros s0 n Hn.
    destruct (destroyCallback_fields (set_timers (delete n (timers s0)) s0))
      as (Q & A & T & _ & N & E). qsimpl.
    apply retired_weaken; rewrite ?Q, ?A, ?T, ?N.
    + by intros u ?%elem_of_nil.
    + intros t0 u w. by rewrite lookup_empty.
    + intros d u Hin. eapply elem_of_sublist; [exact Hin|apply sublist_delete].
    + done.
    + rewrite E. done.
  - intros s0 t0 i task Hf. apply retired_weaken; qsimpl; eauto.
    intros u Hu. eapply elem_of_sublist; [exact Hu|apply sublist_delete].
  - intros s0. apply retired_weaken; qsimpl; eauto. by intros u ?%elem_of_nil.
  - intros s0 task Hid (Jq & Ja & Jt & Jn & Je).
    unfold retired, register, attempts in *. qsimpl.
    split; [|split; [|split; [|split]]]; try done; [|lia].
    intros u Hu. apply elem_of_sortQueue, elem_of_app in Hu as [Hu|Hu]; [by apply Jq|].
    apply list_elem_of_singleton in Hu as ->. lia.
  - intros s0 w. destruct (replaceWorker_frame w s0) as (Q & A & T & _ & N & E).
    apply retired_weaken; rewrite ?Q, ?A, ?T, ?N; eauto.
  - intros s0. apply retired_weaken; qsimpl; eauto.
    intros d u Hin. apply elem_of_app in Hin as [Hin|Hin]; [done|].
    by apply list_elem_of_singleton in Hin.
Qed.

Lemma length_insertByPriority (y : Task) (m : list Task) :
  length (insertByPriority y m) = S (length m).
Proof.
  induction m as [|u m IH]; [done|]. cbn [insertByPriority].
  destruct (_ <? _); cbn [length]; by rewrite ?IH.
Qed.

Lemma length_sortQueue (l : list Task) : length (sortQueue l) = length l.
Proof.
  induction l as [|y l IH]; [done|].
  change (sortQueue (y :: l)) with (insertByPriority y (sortQueue l)).
  by rewrite length_insertByPriority, IH.
Qed.

Lemma dispatchesRecorded_weaken s s' :
  queue s' `sublist_of` queue s →
  (∀ t0 task w, activeWorkers s' !! t0 = Some (task, w) →
     ∃ t1 w1, activeWorkers s !! t1 = Some (task, w1)) →
  (∀ d task, RetryTimer d task ∈ timers s' → RetryTimer d task ∈ timers s) →
  nextTaskId s' = nextTaskId s →
  (∀ t, attempts t s' = attempts t s) →
  dispatchesRecorded s → dispatchesRecorded s'.
Proof.
  intros Hq Ha Ht Hn He (K1 & K2 & K3 & K4).
  unfold dispatchesRecorded. rewrite Hn.
  split; [|split; [|split]].
  - intros t0 task w Hin. destruct (Ha _ _ _ Hin) as (t1 & w1 & H1).
    rewrite He. by eapply K1.
  - intros d task Hin. rewrite He. by eapply K2, Ht.
  - intros task Hin. apply K3. by eapply elem_of_sublist.
  - intros t Hz. rewrite He in Hz. etrans; [|by apply K4].
    apply sublist_length. by apply filter_sublist_mono.
Qed.

Lemma run_dispatchesRecorded (o : QueueOptions) (inputs : list Input) :
  dispatchesRecorded (run (new o) inputs).
Proof.
  apply Inv_run.
  - intros s0 s' (_ & _ & _ & _ & Hq & Ha & _ & _ & _ & _ & Ht & Hn & _ & He).
    apply dispatchesRecorded_weaken; rewrite ?Hq, ?Ha, ?Ht; eauto.
  - intros s0 task rest w s1 Hq Hg _ (K1 & K2 & K3 & K4).
    pose proof (getAvailableWorker_frame (task_type task) (set_queue rest s0)) as Hf.
    rewrite Hg in Hf. cbn [snd] in Hf. qsimpl.
    destruct Hf as (Hfq & Hfa & Hfe & _ & Hft & Hfn & _).
    destruct (executeTask_fields task w s1) as (Eq & Ea & Et & _ & En & _).
    assert (∀ t, attempts t s1 = attempts t s0) as Hat
      by (intros t; unfold attempts; by rewrite Hfe).
    assert (∀ t, attempts t s0 <= attempts t (executeTask task w s1))%nat as Hmono
      by (intros t; rewrite attempts_executeTask, Hat; lia).
    unfold dispatchesRecorded. rewrite Eq, Ea, Et, En, Hfq, Hfa, Hft, Hfn.
    split; [|split; [|split]].
    + intros t0 u w0. rewrite lookup_insert. case_decide.
      * intros [= <- <-]. split.
        -- rewrite attempts_executeTask, Nat.eqb_refl. lia.
        -- apply K3. rewrite Hq. left.
      * intros Hin. destruct (K1 _ _ _ Hin) as [H1 H2]. split; [|done].
        etrans; [exact H1|apply Hmono].
    + intros d u Hin. destruct (K2 _ _ Hin) as [H1 H2]. split; [|done].
      etrans; [exact H1|apply Hmono].
    + intros u Hu. apply K3. rewrite Hq. by right.
    + intros t Hz. assert (attempts t s0 = 0)%nat as Hz0.
      { specialize (Hmono t). lia. }
      etrans; [|exact (K4 t Hz0)]. rewrite Hq.
      apply sublist_length, filter_sublist_mono. by apply sublist_cons.
  - intros s0 task rest s1 Hq Hg.
    apply getAvailableWorker_none in Hg as ->; [|done..].
    apply dispatchesRecorded_weaken; qsimpl; rewrite ?Hq; eauto.
  - intros s0 task rest s1 Hq Hg.
    apply getAvailableWorker_none in Hg as ->; [|done..].
    apply dispatchesRecorded_weaken; qsimpl; rewrite ?Hq; eauto.
    by apply sublist_cons.
  - intros s0 t0. unfold releaseWorker.
    destruct (activeWorkers s0 !! t0) as [[task w]|] eqn:Ha0; [|done].
    apply dispatchesRecorded_weaken; qsimpl; eauto.
    intros t1 u w1. rewrite lookup_delete. case_decide; [done|]. eauto.
  - intros s0 t0. unfold countWorkerTask.
    destruct (activeWorkers s0 !! t0) as [[task w]|]; [|done].
    apply dispatchesRecorded_weaken; qsimpl; eauto.
  - intros s0 t0 task w0 _.
    apply dispatchesRecorded_weaken; unfold countFailure; qsimpl; eauto.
  - intros s0 t0 task w0 d Ha0 (K1 & K2 & K3 & K4).
    pose proof (K1 _ _ _ Ha0) as Hk.
    unfold dispatchesRecorded, scheduleRetry, countFailure, attempts in *. qsimpl.
    split; [|split; [|split]]; try done.
    intros d' u Hin. apply elem_of_app in Hin as [Hin|Hin]; [by eapply K2|].
    by apply list_elem_of_singleton in Hin as [= -> ->].
  - intros s0 n d task Hn HI.
    assert (dispatchesRecorded (set_timers (delete n (timers s0)) s0)) as H1.
    { revert HI. apply dispatchesRecorded_weaken; qsimpl; eauto.
      intros d' u Hin. eapply elem_of_sublist; [exact Hin|apply sublist_delete]. }
    split; [exact H1|].
    destruct HI as (_ & K2 & _).
    destruct (K2 d task) as [Hk Hb]; [by eapply list_elem_of_lookup_2|].
    destruct H1 as (K1' & K2' & K3' & K4').
    unfold dispatchesRecorded, requeue, attempts in *. qsimpl.
    split; [|split; [|split]]; try done.
    + intros u Hu. apply elem_of_cons in Hu as [->|Hu]; [done|by apply K3'].
    + intros t Hz. rewrite filter_cons_False; [by apply K4'|].
      intros <-. lia.
  - intros s0 n Hn.
    destruct (destroyCallback_fields (set_timers (delete n (timers s0)) s0))
      as (Q & A & T & _ & N & E). qsimpl.
    apply dispatchesRecorded_weaken; rewrite ?Q, ?A, ?T, ?N.
    + apply sublist_nil_l.
    + intros t0 u w. by rewrite lookup_empty.
    + intros d u Hin. eapply elem_of_sublist; [exact Hin|apply sublist_delete].
    + done.
    + exact E.
  - intros s0 t0 i task Hf. apply dispatchesRecorded_weaken; qsimpl; eauto.
    apply sublist_delete.
  - intros s0. apply dispatchesRecorded_weaken; qsimpl; eauto. apply sublist_nil_l.
  - intros s0 task Hid (K1 & K2 & K3 & K4).
    unfold dispatchesRecorded, register, attempts in *. qsimpl.
    split; [|split; [|split]].
    + intros t0 u w Hin. destruct (K1 _ _ _ Hin). split; [done|lia].
    + intros d u Hin. destruct (K2 _ _ Hin). split; [done|lia].
    + intros u Hu. apply elem_of_sortQueue, elem_of_app in Hu as [Hu|Hu].
      * apply K3 in Hu. lia.
      * apply list_elem_of_singleton in Hu as ->. lia.
    + intros t Hz. rewrite filter_sortQueue, length_sortQueue.
      rewrite (filter_app _ (queue s0) [task]), length_app.
      destruct (decide (task_id task = t)) as [He|Hne].
      * rewrite (filter_all_False _ (queue s0)); [by rewrite filter_cons_True|].
        intros u Hu. apply K3 in Hu. lia.
      * rewrite filter_cons_False, filter_nil by done. cbn [length].
        specialize (K4 t Hz). lia.
  - intros s0 w. destruct (replaceWorker_frame w s0) as (Q & A & T & _ & N & E).
    apply dispatchesRecorded_weaken; rewrite ?Q, ?A, ?T, ?N; eauto.
  - intros s0. apply dispatchesRecorded_weaken; qsimpl; eauto.
    intros d u Hin. apply elem_of_app in Hin as [Hin|Hin]; [done|].
    by apply list_elem_of_singleton in Hin.
  - unfold new. cbv zeta.
    match goal with |- dispatchesRecorded (initializeWorkerPools ?n ?s0) =>
      destruct (initializeWorkerPools_frame n s0) as (Q & A & T & _ & N & E);
      apply (dispatchesRecorded_weaken s0)
    end.
    + by rewrite Q.
    + intros t0 task w. rewrite A. cbn. by rewrite lookup_empty.
    + intros d task. by rewrite T.
    + done.
    + intros t. unfold attempts. by rewrite E.
    + unfold dispatchesRecorded. qsimpl.
      split; [intros ? ? ?; by rewrite lookup_empty|].
      split; [by intros ? ? ?%elem_of_nil|].
      split; [by intros ? ?%elem_of_nil|].
      intros t _. cbn. lia.
Qed.

Lemma list_find_delete_unique {A : Type} (P : A → Prop) `{∀ x, Decision (P x)}
    (l : list A) (i : nat) (x : A) :
  list_find P l = Some (i, x) →
  (length (filter P l) <= 1)%nat →
  ∀ y, y ∈ delete i l → ¬ P y.
Proof.
  intros Hf Hlen y Hy HP.
  apply list_find_Some in Hf as (Hi & HPx & Hbefore).
  rewrite <- (take_drop_middle l i x Hi) in Hlen.
  rewrite (filter_app _ (take i l) (x :: drop (S i) l)), length_app in Hlen.
  rewrite filter_cons_True in Hlen by done. cbn [length] in Hlen.
  rewrite delete_take_drop in Hy. apply elem_of_app in Hy as [Hy|Hy].
  - apply list_elem_of_lookup in Hy as [j Hj].
    pose proof (lookup_lt_Some _ _ _ Hj) as Hlt. rewrite length_take in Hlt.
    rewrite lookup_take_lt in Hj by lia.
    apply (Hbefore j y Hj); [lia|done].
  - assert (y ∈ filter P (drop (S i) l)) as Hin by (by apply list_elem_of_filter).
    destruct (filter P (drop (S i) l)); [by apply elem_of_nil in Hin|].
    cbn [length] in Hlen. lia.
Qed.

Lemma list_find_id_None t (l : list Task) :
  (∀ task, task ∈ l → task_id task ≠ t) →
  list_find (λ task, task_id task = t) l = None.
Proof.
  intros Hall. apply list_find_None, Forall_forall. intros task Hin.
  by apply Hall.
Qed.

(** C3.  [cancelTask t], in any state [s] the queue can reach.  If a task
    with id [t] is pending, the call returns true and, within the call,
    removes the first pending task with that id from the queue, tells the
    tracker and emits one [cancelled] event; nothing is posted to a
    worker.  If moreover that task has never been handed to a worker,
    then whatever happens afterwards it never is.  If no pending task has
    id [t] but [activeWorkers] holds [t], the call returns true and its
    only effect is to post [cancel] or [cancel-batch] to the assigned
    worker: no event is emitted and the task stays active until the
    worker answers.  If [t] is neither pending nor active, which is the
    case of an unknown id and of a task the queue has released, the call
    returns false and changes nothing. *)
Theorem cancelTask_contract (o : QueueOptions) (inputs : list Input) (t : nat) :
  ((∃ task, task ∈ queue (run (new o) inputs) ∧ task_id task = t) →
     fst (cancelTask t (run (new o) inputs)) = true
     ∧ ∃ i task,
         queue (run (new o) inputs) !! i = Some task ∧ task_id task = t
         ∧ snd (cancelTask t (run (new o) inputs))
           = emit (EvCancelled t)
               (effect (Track (trackerCancelTask t))
                  (set_queue (delete i (queue (run (new o) inputs)))
                     (run (new o) inputs))))
  ∧ ((∃ task, task ∈ queue (run (new o) inputs) ∧ task_id task = t) →
       attempts t (run (new o) inputs) = 0%nat →
       ∀ later : list Input,
         attempts t (run (snd (cancelTask t (run (new o) inputs))) later) = 0%nat)
  ∧ ((∀ task, task ∈ queue (run (new o) inputs) → task_id task ≠ t) →
       ∀ task w,
         activeWorkers (run (new o) inputs) !! t = Some (task, w) →
         cancelTask t (run (new o) inputs)
         = (true, effect (Post w (cancelCommand task)) (run (new o) inputs)))
  ∧ ((∀ task, task ∈ queue (run (new o) inputs) → task_id task ≠ t) →
       activeWorkers (run (new o) inputs) !! t = None →
       cancelTask t (run (new o) inputs) = (false, run (new o) inputs)).
Proof.
  pose proof (run_dispatchesRecorded o inputs) as HK.
  set (s := run (new o) inputs) in *.
  assert (∀ task, task ∈ queue s → task_id task = t →
            ∃ i task', list_find (λ task, task_id task = t) (queue s) = Some (i, task'))
    as Hfind.
  { intros task Hin Hid.
    destruct (list_find (λ task, task_id task = t) (queue s)) as [[i task']|] eqn:Hf;
      [by eauto|].
    apply list_find_None in Hf. eapply Forall_forall in Hf; [|exact Hin]. done. }
  split; [|split; [|split]].
  - intros (task & Hin & Hid). destruct (Hfind task Hin Hid) as (i & task' & Hf).
    unfold cancelTask. rewrite Hf. cbn [fst snd]. split; [done|].
    exists i, task'. apply list_find_Some in Hf as (Hi & Hid' & _). done.
  - intros (task & Hin & Hid) Hz later.
    destruct (Hfind task Hin Hid) as (i & task' & Hf).
    destruct HK as (K1 & K2 & K3 & K4).
    assert (retired t 0 (snd (cancelTask t s))) as Hret.
    { unfold cancelTask. rewrite Hf. cbn [snd].
      unfold retired, attempts in *. qsimpl.
      split; [|split; [|split; [|split]]].
      - intros u Hu Hidu.
        by apply (list_find_delete_unique _ _ _ _ Hf (K4 t Hz) u Hu).
      - intros t0 u w Hu Hidu. destruct (K1 _ _ _ Hu) as [Hk _].
        rewrite Hidu in Hk. lia.
      - intros d u Hu Hidu. destruct (K2 _ _ Hu) as [Hk _].
        rewrite Hidu in Hk. lia.
      - rewrite <- Hid. by apply K3.
      - exact Hz. }
    by destruct (run_retired t 0 _ later Hret) as (_ & _ & _ & _ & He).
  - intros Hnq task w Ha. unfold cancelTask.
    by rewrite (list_find_id_None t (queue s) Hnq), Ha.
  - intros Hnq Ha. unfold cancelTask.
    by rewrite (list_find_id_None t (queue s) Hnq), Ha.
Qed.

(** *** Retries *)

Lemma filter_ext_elem {A : Type} (P Q : A → Prop)
    `{∀ x, Decision (P x)} `{∀ x, Decision (Q x)} (l : list A) :
  (∀ y, y ∈ l → (Q y ↔ P y)) → filter Q l = filter P l.
Proof.
  induction l as [|y l IH]; intros Hext; [done|].
  rewrite !filter_cons.
  assert (Q y ↔ P y) as Hy by (apply Hext; left).
  rewrite IH by (intros z Hz; apply Hext; by right).
  destruct (decide (Q y)), (decide (P y)); tauto || done.
Qed.

Lemma filter_remove_one {A : Type} (P Q : A → Prop)
    `{∀ x, Decision (P x)} `{∀ x, Decision (Q x)} (l : list A) (x : A) :
  NoDup l → x ∈ l → P x →
  (∀ y, y ∈ l → (Q y ↔ P y ∧ y ≠ x)) →
  S (length (filter Q l)) = length (filter P l).
Proof.
  induction l as [|y l IH]; intros Hnd Hin HP Hext; [by apply elem_of_nil in Hin|].
  apply NoDup_cons in Hnd as [Hy Hnd].
  assert (Q y ↔ P y ∧ y ≠ x) as Hqy by (apply Hext; left).
  apply elem_of_cons in Hin as [->|Hin].
  - rewrite (filter_cons_False Q) by tauto. rewrite (filter_cons_True P) by done.
    cbn [length]. f_equal. f_equal. apply filter_ext_elem.
    intros z Hz. specialize (Hext z (list_elem_of_further _ _ _ Hz)).
    split; [tauto|]. intros HPz. apply Hext. split; [done|]. by intros ->.
  - assert (y ≠ x) as Hne by (by intros ->).
    rewrite !filter_cons.
    specialize (IH Hnd Hin HP (λ z Hz, Hext z (list_elem_of_further _ _ _ Hz))).
    destruct (decide (Q y)), (decide (P y)); cbn [length]; try tauto; by rewrite ?IH.
Qed.

Lemma busyOf_executeTask task w s w' :
  is_Some (metadata s !! w) →
  busyOf (executeTask task w s) w' = if decide (w' = w) then true else busyOf s w'.
Proof.
  intros [m Hm]. unfold busyOf.
  destruct (executeTask_fields task w s) as (_ & _ & _ & _ & _ & _ & -> & _).
  case_decide as Hw.
  - subst w'. by rewrite lookup_alter_eq, Hm.
  - by rewrite lookup_alter_ne.
Qed.

Lemma executeTask_pool task w s :
  poolOk s → w ∈ workerPool s → busyOf s w = false →
  poolOk (executeTask task w s)
  ∧ S (freeSlots (executeTask task w s)) = freeSlots s
  ∧ taskIdOf (executeTask task w s) w = Some (task_id task).
Proof.
  intros (Hnd & Hlt & Hmeta & Hlen) Hin Hidle.
  destruct (executeTask_fields task w s)
    as (_ & _ & _ & _ & _ & _ & Em & Ep & En & _ & _ & _ & _ & _ & _ & Ew).
  split; [|split].
  - unfold poolOk. rewrite Ep, En, Em, Ew. repeat split; try done.
    intros w' Hw'. destruct (Hmeta w' Hw') as [m Hm].
    destruct (decide (w = w')) as [<-|Hne].
    + rewrite lookup_alter_eq, Hm. by eexists.
    + rewrite lookup_alter_ne by done. by eexists.
  - unfold freeSlots, idleWorkers. rewrite Ep, Ew.
    rewrite <- (filter_remove_one (λ w', busyOf s w' = false)
                  (λ w', busyOf (executeTask task w s) w' = false)
                  (workerPool s) w Hnd Hin Hidle).
    + lia.
    + intros w' Hw'. rewrite busyOf_executeTask by (by apply Hmeta).
      case_decide as Hw; [|tauto]. split; [done|]. intros [_ Hne]. by destruct Hne.
  - destruct (Hmeta w Hin) as [m Hm]. unfold taskIdOf.
    by rewrite Em, lookup_alter_eq, Hm.
Qed.

Lemma createWorker_pool s w s' :
  createWorker single s = Some (w, s') →
  poolOk s → (length (workerPool s) < maxWorkers s)%nat →
  (∀ v, is_Some (metadata s !! v) → (v < nextWorkerId s)%nat) →
  poolOk s' ∧ freeSlots s' = freeSlots s ∧ w ∈ workerPool s' ∧ busyOf s' w = false
  ∧ (∀ v, is_Some (metadata s' !! v) → (v < nextWorkerId s')%nat).
Proof.
  unfold createWorker. destruct (isDestroyed s); [done|].
  intros [= <- <-] (Hnd & Hlt & Hmeta & Hlen) Hroom Hdom.
  assert (nextWorkerId s ∉ workerPool s) as Hfresh.
  { intros Hin. apply Hlt in Hin. lia. }
  assert (∀ v, v ∈ workerPool s →
            busyOf (set_poolOf single (poolOf single
                      (set_metadata (<[nextWorkerId s := freshMetadata single]> (metadata s))
                         (set_nextWorkerId (S (nextWorkerId s)) s)) ++ [nextWorkerId s])
                      (set_metadata (<[nextWorkerId s := freshMetadata single]> (metadata s))
                         (set_nextWorkerId (S (nextWorkerId s)) s))) v
            = busyOf s v) as Hbusy.
  { intros v Hv. unfold busyOf. qsimpl. rewrite lookup_insert_ne; [done|].
    intros <-. by apply Hfresh. }
  split; [|split; [|split; [|split]]].
  - unfold poolOk. qsimpl. split; [|split; [|split]].
    + apply NoDup_app. split; [done|]. split; [|apply NoDup_singleton].
      intros v Hv Hv'. apply list_elem_of_singleton in Hv' as ->. by apply Hfresh.
    + intros v Hv. apply elem_of_app in Hv as [Hv|Hv].
      * apply Hlt in Hv. lia.
      * apply list_elem_of_singleton in Hv as ->. lia.
    + intros v Hv. apply elem_of_app in Hv as [Hv|Hv].
      * rewrite lookup_insert_ne; [by apply Hmeta|]. intros <-. by apply Hfresh.
      * apply list_elem_of_singleton in Hv as ->. rewrite lookup_insert_eq. by eexists.
    + rewrite length_app. cbn [length]. lia.
  - unfold freeSlots, idleWorkers. qsimpl.
    rewrite (filter_app _ (workerPool s) [nextWorkerId s]), !length_app.
    rewrite filter_cons_True, filter_nil.
    2:{ unfold busyOf. qsimpl. by rewrite lookup_insert_eq. }
    cbn [length].
    rewrite (filter_ext_elem (λ v, busyOf s v = false) _ (workerPool s)).
    + lia.
    + intros v Hv. unfold busyOf. qsimpl. rewrite lookup_insert_ne; [done|].
      intros <-. by apply Hfresh.
  - qsimpl. apply elem_of_app. right. left.
  - unfold busyOf. qsimpl. by rewrite lookup_insert_eq.
  - intros v. qsimpl. rewrite lookup_insert. case_decide; [lia|].
    intros Hv. apply Hdom in Hv. lia.
Qed.

Lemma getAvailableWorker_single s :
  isDestroyed s = false → poolOk s →
  (∀ v, is_Some (metadata s !! v) → (v < nextWorkerId s)%nat) →
  (1 <= freeSlots s)%nat →
  ∃ w s1,
    getAvailableWorker single s = (Found w, s1)
    ∧ poolOk s1 ∧ freeSlots s1 = freeSlots s
    ∧ w ∈ workerPool s1 ∧ busyOf s1 w = false
    ∧ (∀ v, is_Some (metadata s1 !! v) → (v < nextWorkerId s1)%nat).
Proof.
  intros Hd Hok Hdom Hfree. unfold getAvailableWorker. cbn [poolOf].
  destruct (find _ (workerPool s)) as [w|] eqn:Hf.
  - apply find_some in Hf as [Hin Hb]. apply negb_true_iff in Hb.
    apply list_elem_of_In in Hin.
    exists w, s. exact (conj eq_refl (conj Hok (conj eq_refl (conj Hin (conj Hb Hdom))))).
  - assert (idleWorkers s = []) as Hidle.
    { unfold idleWorkers. apply filter_all_False. intros w Hw Hb.
      apply list_elem_of_In in Hw.
      pose proof (find_none _ _ Hf w Hw) as Hn. cbn in Hn.
      rewrite Hb in Hn. discriminate. }
    unfold freeSlots in Hfree. rewrite Hidle in Hfree. cbn [length] in Hfree.
    assert (length (workerPool s) < maxWorkers s)%nat as Hroom by lia.
    apply Nat.ltb_lt in Hroom as Hroom'. rewrite Hroom'.
    destruct (createWorker single s) as [[w s1]|] eqn:Hc.
    + destruct (createWorker_pool s w s1 Hc Hok Hroom Hdom) as (H1 & H2 & H3 & H4 & H5).
      exists w, s1. exact (conj eq_refl (conj H1 (conj H2 (conj H3 (conj H4 H5))))).
    + unfold createWorker in Hc. by rewrite Hd in Hc.
Qed.

Lemma processLoop_dispatch_single u task :
  queue u = [task] → task_type task = single →
  (size (activeWorkers u) < maxConcurrent u)%nat →
  isPaused u = false → isDestroyed u = false →
  poolOk u → (∀ v, is_Some (metadata u !! v) → (v < nextWorkerId u)%nat) →
  (1 <= freeSlots u)%nat →
  ∃ w s1,
    getAvailableWorker single (set_queue [] u) = (Found w, s1)
    ∧ processLoop u
      = set_suspended (S (suspended (executeTask task w s1))) (executeTask task w s1)
    ∧ poolOk s1 ∧ freeSlots s1 = freeSlots u
    ∧ w ∈ workerPool s1 ∧ busyOf s1 w = false
    ∧ (∀ v, is_Some (metadata s1 !! v) → (v < nextWorkerId s1)%nat).
Proof.
  intros Hq Hty Hsize Hp Hd Hok Hdom Hfree.
  destruct (getAvailableWorker_single (set_queue [] u)) as (w & s1 & Hg & H1 & H2 & H3 & H4 & H5);
    try done.
  exists w, s1. split; [done|].
  split; [|exact (conj H1 (conj H2 (conj H3 (conj H4 H5))))].
  unfold processLoop. rewrite Hq, Hp, Hd.
  apply Nat.ltb_lt in Hsize. rewrite Hsize. cbn [negb andb].
  by rewrite Hty, Hg.
Qed.

Lemma handleWorkerMessage_error_retry s task w :
  taskIdOf s w = Some (task_id task) →
  activeWorkers s !! task_id task = Some (task, w) →
  (S (retriesOf s (task_id task)) < maxRetries s)%nat →
  handleWorkerMessage w error s
  = effect (Track (updateProgress (task_id task) 0))
      (scheduleRetry (retryDelay s * Z.of_nat (S (retriesOf s (task_id task)))) task
         (countFailure task s)).
Proof.
  intros Ht Ha Hlt. unfold handleWorkerMessage. rewrite Ht, Ha.
  unfold handleTaskError. cbv zeta.
  assert (retriesOf (countFailure task s) (task_id task) = S (retriesOf s (task_id task)))
    as Hr.
  { unfold retriesOf at 1, countFailure. qsimpl. by rewrite lookup_insert_eq. }
  rewrite Hr. change (maxRetries (countFailure task s)) with (maxRetries s).
  apply Nat.ltb_lt in Hlt. by rewrite Hlt.
Qed.

Lemma handleWorkerMessage_error_final s task w :
  taskIdOf s w = Some (task_id task) →
  activeWorkers s !! task_id task = Some (task, w) →
  (maxRetries s <= S (retriesOf s (task_id task)))%nat →
  handleWorkerMessage w error s
  = processQueue
      (emit (EvError (task_id task) (S (retriesOf s (task_id task))))
         (releaseWorker (task_id task)
            (effect (Track (failTask (task_id task)))
               (set_metrics
                  {| totalTasksProcessed := totalTasksProcessed (metrics s);
                     totalTasksFailed := S (totalTasksFailed (metrics s));
                     totalTasksCancelled := totalTasksCancelled (metrics s) |}
                  (countFailure task s))))).
Proof.
  intros Ht Ha Hge. unfold handleWorkerMessage. rewrite Ht, Ha.
  unfold handleTaskError. cbv zeta.
  assert (retriesOf (countFailure task s) (task_id task) = S (retriesOf s (task_id task)))
    as Hr.
  { unfold retriesOf at 1, countFailure. qsimpl. by rewrite lookup_insert_eq. }
  rewrite Hr. change (maxRetries (countFailure task s)) with (maxRetries s).
  apply Nat.ltb_ge in Hge. by rewrite Hge.
Qed.

Lemma alter_is_Some (f : Metadata → Metadata) (w v : nat) (m : gmap nat Metadata) :
  is_Some (alter f w m !! v) → is_Some (m !! v).
Proof.
  rewrite lookup_alter. case_decide as Hw; [|done].
  subst v. destruct (m !! w); [by eexists|]. cbn. by intros [? [=]].
Qed.

(** A dispatch of task 0 from a queue that holds only it starts an
    attempt: [u] is the state in which [processQueue] finds the task,
    fresh or requeued by the retry callback. *)
Lemma attempt_dispatch u task R d k :
  queue u = [task] → task_id task = 0%nat → task_type task = single →
  maxRetries u = R → retryDelay u = d → (2 <= maxConcurrent u)%nat →
  isPaused u = false → isDestroyed u = false →
  timers u = [] → suspended u = 0%nat →
  (activeWorkers u = ∅ ∨ ∃ x, activeWorkers u = {[ 0%nat := x ]}) →
  retriesOf u 0 = k → attempts 0 u = k → terminalEvents 0 u = 0%nat →
  timeouts u = List.map (λ i, d * Z.of_nat i) (seq 1 k) →
  poolOk u → (∀ v, is_Some (metadata u !! v) → (v < nextWorkerId u)%nat) →
  (1 <= freeSlots u)%nat → (R <= k + freeSlots u)%nat →
  attempting R d k (resumeProcessQueue (processLoop u)).
Proof.
  intros Hq Hid Hty HR Hdel Hconc Hp Hd Htm Hsus Hact Hret Hatt Hterm Htime
    Hok Hdom Hfree Hcap.
  assert (size (activeWorkers u) < maxConcurrent u)%nat as Hsize.
  { destruct Hact as [->| [x ->]].
    - rewrite map_size_empty. lia.
    - rewrite map_size_singleton. lia. }
  destruct (processLoop_dispatch_single u task Hq Hty Hsize Hp Hd Hok Hdom Hfree)
    as (w & s1 & Hg & -> & Hok1 & Hfree1 & Hw & Hidle & Hdom1).
  pose proof (getAvailableWorker_frame single (set_queue [] u)) as Hfr.
  rewrite Hg in Hfr. cbn [snd] in Hfr.
  destruct Hfr as (Fq & Fa & Ft & Fr & Fti & Fn & Fp & Fd & Fc & Fs & FR & Fde & FW).
  qsimpl.
  destruct (executeTask_fields task w s1)
    as (Eq & Ea & Eti & Er & En & Et & Em & Epool & Enw & Es & Ep & Ed & Ec & ER & Ede & EW).
  destruct (executeTask_pool task w s1 Hok1 Hw Hidle) as (Hok2 & Hfree2 & Htid).
  set (X := executeTask task w s1) in *.
  unfold resumeProcessQueue. cbn [suspended set_suspended].
  unfold processLoop. cbn [queue set_suspended]. rewrite Eq, Fq.
  set (F := set_suspended _ _).
  unfold attempting.
  change (maxRetries F) with (maxRetries X).
  change (retryDelay F) with (retryDelay X).
  change (maxConcurrent F) with (maxConcurrent X).
  change (isPaused F) with (isPaused X).
  change (isDestroyed F) with (isDestroyed X).
  change (queue F) with (queue X).
  change (timers F) with (timers X).
  change (suspended F) with (suspended X).
  change (activeWorkers F) with (activeWorkers X).
  change (retriesOf F 0) with (retriesOf X 0).
  change (attempts 0 F) with (attempts 0 X).
  change (terminalEvents 0 F) with (terminalEvents 0 X).
  change (timeouts F) with (timeouts X).
  change (poolOk F) with (poolOk X).
  change (freeSlots F) with (freeSlots X).
  change (metadata F) with (metadata X).
  change (nextWorkerId F) with (nextWorkerId X).
  rewrite ER, FR, Ede, Fde, Ec, Fc, Ep, Fp, Ed, Fd, Eq, Fq, Eti, Fti, Es, Fs.
  repeat (split; [done|]).
  split.
  { exists task, w. repeat (split; [done|]). split.
    - rewrite Ea, Fa, Hid. destruct Hact as [->| [x ->]].
      + by rewrite insert_empty.
      + by rewrite insert_singleton_eq.
    - change (taskIdOf F w) with (taskIdOf X w). by rewrite Htid, Hid. }
  split.
  { unfold retriesOf. rewrite Er, Fr. exact Hret. }
  split.
  { unfold X. rewrite attempts_executeTask, Hid. cbn [Nat.eqb].
    unfold attempts. rewrite Ft. unfold attempts in Hatt. by rewrite Hatt. }
  split.
  { unfold terminalEvents. rewrite Et. cbn [List.filter isTerminalOf].
    rewrite Ft. exact Hterm. }
  split.
  { unfold timeouts. rewrite Et. cbn [omap list_omap]. rewrite Ft. exact Htime. }
  split; [exact Hok2|].
  split.
  { intros v Hv. rewrite Enw. apply Hdom1. rewrite Em in Hv.
    by apply alter_is_Some in Hv. }
  lia.
Qed.

Lemma errorEvents_le_terminalEvents t s : (errorEvents t s <= terminalEvents t s)%nat.
Proof.
  unfold errorEvents, terminalEvents. induction (trace s) as [|e l IH]; [done|].
  cbn [List.filter].
  destruct e as [[]| | | |]; cbn [isErrorOf isTerminalOf];
    try destruct (_ =? _)%nat; cbn [length]; lia.
Qed.

(** The queue as the constructor leaves it. *)
Lemma new_ready (o : QueueOptions) :
  queue (new o) = [] ∧ activeWorkers (new o) = ∅
  ∧ isPaused (new o) = false ∧ isDestroyed (new o) = false
  ∧ timers (new o) = [] ∧ suspended (new o) = 0%nat
  ∧ retries (new o) = ∅ ∧ trace (new o) = [] ∧ nextTaskId (new o) = 0%nat
  ∧ poolOk (new o)
  ∧ (∀ v, is_Some (metadata (new o) !! v) → (v < nextWorkerId (new o))%nat)
  ∧ freeSlots (new o) = maxWorkers (new o)
  ∧ (1 <= maxWorkers (new o))%nat.
Proof.
  unfold new.
  set (W := Z.to_nat (Z.max 1 (orNumber (opt_maxWorkers o) 4))).
  assert (1 <= W)%nat as HW by (subst W; lia).
  clearbody W.
  destruct W as [|[|W]]; [lia| |].
  - change (Nat.min 2 1) with 1%nat.
    cbv [initializeWorkerPools createWorker]. qsimpl.
    repeat (split; [reflexivity|]).
    split; [|split; [|split; [|lia]]].
    + unfold poolOk. qsimpl. repeat split.
      * apply NoDup_singleton.
      * intros w ->%list_elem_of_singleton. lia.
      * intros w ->%list_elem_of_singleton. by eexists.
      * cbn. lia.
    + intros v. destruct (decide (v < 2)%nat) as [|Hv]; [done|].
      rewrite !lookup_insert_ne by lia. rewrite lookup_empty. by intros [? ?].
    + reflexivity.
  - change (Nat.min 2 (S (S W))) with 2%nat.
    cbv [initializeWorkerPools createWorker]. qsimpl.
    repeat (split; [reflexivity|]).
    split; [|split; [|split; [|lia]]].
    + unfold poolOk. qsimpl. repeat split.
      * apply NoDup_cons. split; [|apply NoDup_singleton].
        intros Hin%list_elem_of_singleton. discriminate.
      * intros w Hw. apply elem_of_cons in Hw as [->|Hw]; [lia|].
        apply list_elem_of_singleton in Hw as ->. lia.
      * intros w Hw. apply elem_of_cons in Hw as [->|Hw]; [by eexists|].
        apply list_elem_of_singleton in Hw as ->. by eexists.
      * cbn. lia.
    + intros v. destruct (decide (v < 4)%nat) as [|Hv]; [done|].
      rewrite !lookup_insert_ne by lia. rewrite lookup_empty. by intros [? ?].
    + unfold freeSlots.
      match goal with
      | |- context [idleWorkers ?s] =>
          replace (idleWorkers s) with [0; 2]%nat by (vm_compute; reflexivity)
      end.
      qsimpl. cbn [app length]. lia.
Qed.

Lemma alwaysFailing_start (o : QueueOptions) :
  (2 <= maxConcurrent (new o))%nat →
  (maxRetries (new o) <= maxWorkers (new o))%nat →
  attempting (maxRetries (new o)) (retryDelay (new o)) 0 (alwaysFailing o 0).
Proof.
  intros Hconc Hcap.
  destruct (new_ready o)
    as (Hq & Ha & Hp & Hd & Hti & Hs & Hr & Ht & Hn & Hok & Hdom & Hfree & HW).
  unfold alwaysFailing. cbn [Nat.iter]. unfold run. cbn [fold_left].
  set (task := mkTask (nextTaskId (new o)) single (PFile heicFile) noOptions).
  assert (step (new o) (CallAddFile (Some heicFile) (OptionsObject noOptions))
          = processLoop (register task (new o))) as ->.
  { cbn [step]. unfold addFile. rewrite Hd.
    change (validateFile (Some heicFile)) with (@None Error).
    cbv zeta.
    change (targetTypeOf noOptions) with (Some "jpeg"%string).
    change (bool_decide (toLowerCase "jpeg" ∈ validTargetTypes)) with true.
    cbn [stateOf snd]. unfold enqueue, processQueue. fold task.
    change (isPaused (register task (new o))) with (isPaused (new o)).
    change (isDestroyed (register task (new o))) with (isDestroyed (new o)).
    by rewrite Hp, Hd. }
  cbn [step].
  apply attempt_dispatch with (task := task).
  - unfold register. qsimpl. by rewrite Hq.
  - unfold task, mkTask. cbn [task_id]. exact Hn.
  - reflexivity.
  - reflexivity.
  - reflexivity.
  - exact Hconc.
  - exact Hp.
  - exact Hd.
  - exact Hti.
  - exact Hs.
  - left. exact Ha.
  - unfold retriesOf. change (retries (register task (new o))) with (retries (new o)).
    by rewrite Hr.
  - unfold attempts, register. qsimpl. by rewrite Ht.
  - unfold terminalEvents, register. qsimpl. by rewrite Ht.
  - unfold timeouts, register. qsimpl. by rewrite Ht.
  - exact Hok.
  - exact Hdom.
  - change (freeSlots (register task (new o))) with (freeSlots (new o)). lia.
  - change (freeSlots (register task (new o))) with (freeSlots (new o)).
    change (maxRetries (register task (new o))) with (maxRetries (new o)). lia.
Qed.

(** A failure that leaves retries: the worker is not released, the requeue
    is scheduled and, once its timer fires, the task is dispatched again. *)
Lemma failOnce_retries R d k s :
  attempting R d k s → (S k < R)%nat → attempting R d (S k) (failOnce 0 s).
Proof.
  intros (HR & Hdel & Hconc & Hp & Hd & Hq & Hti & Hs
          & (task & w & Hid & Hty & Hact & Htid)
          & Hret & Hatt & Hterm & Htime & Hok & Hdom & Hcap) Hlt.
  assert (activeWorkers s !! 0%nat = Some (task, w)) as Hlook
    by (by rewrite Hact, lookup_singleton_eq).
  unfold failOnce. rewrite Hlook.
  assert (step s (WorkerMessage w error)
          = effect (Track (updateProgress 0 0))
              (scheduleRetry (d * Z.of_nat (S k)) task (countFailure task s))) as ->.
  { cbn [step].
    rewrite (handleWorkerMessage_error_retry s task w); rewrite ?Hid, ?Hret, ?HR, ?Hdel;
      try done. }
  set (A := effect _ _).
  assert (step A (TimerFires 0) = processLoop (requeue task (set_timers [] A))) as ->.
  { cbn [step]. unfold fireTimer.
    change (timers A) with (timers s ++ [RetryTimer (d * Z.of_nat (S k)) task]).
    rewrite Hti. cbn [app]. change ([?x] !! 0%nat) with (Some x).
    cbv zeta. change (delete 0%nat [?x]) with (@nil Timer).
    unfold retryCallback.
    change (isDestroyed (set_timers [] A)) with (isDestroyed s). rewrite Hd.
    unfold processQueue.
    change (isPaused (requeue task (set_timers [] A))) with (isPaused s).
    change (isDestroyed (requeue task (set_timers [] A))) with (isDestroyed s).
    by rewrite Hp, Hd. }
  set (u := requeue task (set_timers [] A)).
  cbn [step].
  apply attempt_dispatch with (task := task); try done.
  - change (queue u) with (task :: queue s). by rewrite Hq.
  - right. exists (task, w). exact Hact.
  - unfold retriesOf.
    change (retries u) with (<[task_id task := S (retriesOf s (task_id task))]> (retries s)).
    by rewrite Hid, lookup_insert_eq, Hret.
  - change (timeouts u)
      with (rev (d * Z.of_nat (S k)
                 :: omap (λ e, match e with SetTimeout d => Some d | _ => None end)
                      (trace s))).
    cbn [rev]. fold (timeouts s). rewrite Htime.
    rewrite (seq_S k 1), map_app. reflexivity.
  - change (freeSlots u) with (freeSlots s). lia.
Qed.

(** The failure that exhausts the retries. *)
Lemma failOnce_fails R d k s :
  attempting R d k s → (R <= S k)%nat → failedAfter d (S k) (failOnce 0 s).
Proof.
  intros (HR & Hdel & Hconc & Hp & Hd & Hq & Hti & Hs
          & (task & w & Hid & Hty & Hact & Htid)
          & Hret & Hatt & Hterm & Htime & Hok & Hdom & Hcap) Hge.
  assert (activeWorkers s !! 0%nat = Some (task, w)) as Hlook
    by (by rewrite Hact, lookup_singleton_eq).
  pose proof (errorEvents_le_terminalEvents 0 s) as Herr.
  unfold failOnce. rewrite Hlook.
  set (B := effect (Track (failTask 0))
              (set_metrics
                 {| totalTasksProcessed := totalTasksProcessed (metrics s);
                    totalTasksFailed := S (totalTasksFailed (metrics s));
                    totalTasksCancelled := totalTasksCancelled (metrics s) |}
                 (countFailure task s))).
  set (F := emit (EvError 0 (S k))
              (set_activeWorkers ∅
                 (set_metadata (alter markIdle w (metadata B)) B))).
  assert (step s (WorkerMessage w error) = F) as ->.
  { cbn [step].
    rewrite (handleWorkerMessage_error_final s task w); rewrite ?Hid, ?Hret, ?HR;
      try done.
    fold B. unfold releaseWorker.
    change (activeWorkers B) with (activeWorkers s). rewrite Hlook. cbv zeta.
    change (activeWorkers (set_metadata (alter markIdle w (metadata B)) B))
      with (activeWorkers s).
    rewrite Hact, delete_singleton_eq. fold F.
    unfold processQueue.
    change (isPaused F) with (isPaused s). change (isDestroyed F) with (isDestroyed s).
    rewrite Hp, Hd. cbn [orb]. unfold processLoop.
    change (queue F) with (queue s). by rewrite Hq. }
  assert (step F (TimerFires 0) = F) as ->.
  { cbn [step]. unfold fireTimer. change (timers F) with (timers s). by rewrite Hti. }
  assert (step F Microtask = F) as ->.
  { cbn [step]. unfold resumeProcessQueue. change (suspended F) with (suspended s).
    by rewrite Hs. }
  unfold failedAfter.
  change (activeWorkers F) with (∅ : gmap nat (Task * nat)).
  change (queue F) with (queue s). change (timers F) with (timers s).
  change (attempts 0 F) with (attempts 0 s).
  change (trace F) with (Emit (EvError 0 (S k)) :: Track (failTask 0) :: trace s).
  change (errorEvents 0 F) with (S (errorEvents 0 s)).
  change (terminalEvents 0 F) with (S (terminalEvents 0 s)).
  change (timeouts F) with (timeouts s).
  replace (S k - 1)%nat with k by lia.
  assert (List.filter (isErrorOf 0) (trace s) = []) as Hnone.
  { apply length_zero_iff_nil. fold (errorEvents 0 s). lia. }
  repeat split; try done.
  - lia.
  - lia.
  - apply elem_of_cons. right. apply elem_of_cons. by left.
  - cbn [List.filter isErrorOf Nat.eqb]. by rewrite Hnone.
Qed.

Lemma failOnce_failed d n s : failedAfter d n s → failOnce 0 s = s.
Proof. intros (Ha & _). unfold failOnce. by rewrite Ha, lookup_empty. Qed.

Lemma alwaysFailing_attempting (o : QueueOptions) (k : nat) :
  (2 <= maxConcurrent (new o))%nat →
  (maxRetries (new o) <= maxWorkers (new o))%nat →
  (k < Nat.max 1 (maxRetries (new o)))%nat →
  attempting (maxRetries (new o)) (retryDelay (new o)) k (alwaysFailing o k).
Proof.
  intros Hconc Hcap. induction k as [|k IH]; intros Hk.
  - by apply alwaysFailing_start.
  - change (alwaysFailing o (S k)) with (failOnce 0 (alwaysFailing o k)).
    apply failOnce_retries; [apply IH|]; lia.
Qed.

Lemma alwaysFailing_failed (o : QueueOptions) (n : nat) :
  (2 <= maxConcurrent (new o))%nat →
  (maxRetries (new o) <= maxWorkers (new o))%nat →
  (Nat.max 1 (maxRetries (new o)) <= n)%nat →
  failedAfter (retryDelay (new o)) (Nat.max 1 (maxRetries (new o))) (alwaysFailing o n).
Proof.
  intros Hconc Hcap Hn.
  induction n as [|n IH]; [lia|].
  change (alwaysFailing o (S n)) with (failOnce 0 (alwaysFailing o n)).
  destruct (decide (Nat.max 1 (maxRetries (new o)) <= n)%nat) as [Hle|Hgt].
  - rewrite (failOnce_failed _ _ _ (IH Hle)). by apply IH.
  - assert (Nat.max 1 (maxRetries (new o)) = S n) as -> by lia.
    apply failOnce_fails with (R := maxRetries (new o)); [|lia].
    apply alwaysFailing_attempting; try done. lia.
Qed.

(** Retry bound.  A freshly built queue with at least two concurrency
    slots and at least [maxRetries] workers is given one file, and every
    attempt to convert it ends in an error reported by the worker; each
    scheduled requeue fires before the next report.  Let [n] be
    [max 1 maxRetries].  While fewer than [n] attempts have failed, each
    failure schedules one requeue, the [i]-th after [retryDelay × i]
    milliseconds, the task is handed to a worker again and no terminal
    event is emitted.  The [n]-th failure is the last: the task has been
    handed to a worker exactly [n] times (not [maxRetries + 1]), the
    tracker is told that it failed, exactly one terminal event is emitted
    and it is the [error] event, carrying a retry count of [n]; further
    rounds change nothing. *)
Theorem retry_bound_failing_task (o : QueueOptions) :
  (2 <= maxConcurrent (new o))%nat →
  (maxRetries (new o) <= maxWorkers (new o))%nat →
  (∀ k, (k < Nat.max 1 (maxRetries (new o)))%nat →
     attempts 0 (alwaysFailing o k) = S k
     ∧ terminalEvents 0 (alwaysFailing o k) = 0%nat
     ∧ timeouts (alwaysFailing o k)
       = List.map (λ i, retryDelay (new o) * Z.of_nat i) (seq 1 k))
  ∧ (∀ m, (Nat.max 1 (maxRetries (new o)) <= m)%nat →
       attempts 0 (alwaysFailing o m) = Nat.max 1 (maxRetries (new o))
       ∧ Track (failTask 0) ∈ trace (alwaysFailing o m)
       ∧ terminalEvents 0 (alwaysFailing o m) = 1%nat
       ∧ List.filter (isErrorOf 0) (trace (alwaysFailing o m))
         = [Emit (EvError 0 (Nat.max 1 (maxRetries (new o))))]
       ∧ timeouts (alwaysFailing o m)
         = List.map (λ i, retryDelay (new o) * Z.of_nat i)
             (seq 1 (Nat.max 1 (maxRetries (new o)) - 1))).
Proof.
  intros Hconc Hcap. split.
  - intros k Hk.
    destruct (alwaysFailing_attempting o k Hconc Hcap Hk)
      as (_ & _ & _ & _ & _ & _ & _ & _ & _ & _ & Ha & Ht & Hti & _).
    by repeat split.
  - intros m Hm.
    destruct (alwaysFailing_failed o m Hconc Hcap Hm)
      as (_ & _ & _ & Ha & _ & Ht & Hf & He & Hti).
    by repeat split.
Qed.

Lemma retry_bound_failing_task_witness :
  (2 <= maxConcurrent (new defaultOptions))%nat
  ∧ (maxRetries (new defaultOptions) <= maxWorkers (new defaultOptions))%nat
  ∧ (∀ k, (k < Nat.max 1 (maxRetries (new defaultOptions)))%nat →
       attempts 0 (alwaysFailing defaultOptions k) = S k
       ∧ terminalEvents 0 (alwaysFailing defaultOptions k) = 0%nat
       ∧ timeouts (alwaysFailing defaultOptions k)
         = List.map (λ i, retryDelay (new defaultOptions) * Z.of_nat i) (seq 1 k))
  ∧ (∀ m, (Nat.max 1 (maxRetries (new defaultOptions)) <= m)%nat →
       attempts 0 (alwaysFailing defaultOptions m)
       = Nat.max 1 (maxRetries (new defaultOptions))
       ∧ Track (failTask 0) ∈ trace (alwaysFailing defaultOptions m)
       ∧ terminalEvents 0 (alwaysFailing defaultOptions m) = 1%nat
       ∧ List.filter (isErrorOf 0) (trace (alwaysFailing defaultOptions m))
         = [Emit (EvError 0 (Nat.max 1 (maxRetries (new defaultOptions))))]
       ∧ timeouts (alwaysFailing defaultOptions m)
         = List.map (λ i, retryDelay (new defaultOptions) * Z.of_nat i)
             (seq 1 (Nat.max 1 (maxRetries (new defaultOptions)) - 1))).
Proof.
  assert (2 <= maxConcurrent (new defaultOptions))%nat as H1 by (vm_compute; lia).
  assert (maxRetries (new defaultOptions) <= maxWorkers (new defaultOptions))%nat
    as H2 by (vm_compute; lia).
  split; [exact H1|]. split; [exact H2|].
  exact (retry_bound_failing_task defaultOptions H1 H2).
Defined.

(** With the default configuration ([maxRetries] 3, [retryDelay] 1000) a
    task that always fails is attempted three times, with requeues after
    1000 and 2000 ms, and then fails with one error event. *)
Example default_queue_gives_three_attempts :
  maxRetries (new defaultOptions) = 3%nat
  ∧ attempts 0 (alwaysFailing defaultOptions 3) = 3%nat
  ∧ attempts 0 (alwaysFailing defaultOptions 4) = 3%nat
  ∧ errorEvents 0 (alwaysFailing defaultOptions 3) = 1%nat
  ∧ timeouts (alwaysFailing defaultOptions 3) = [1000; 2000].
Proof. vm_compute. repeat split. Qed.

(** *** Limits *)

Lemma createWorker_limits ty s w s' :
  createWorker ty s = Some (w, s') →
  (length (poolOf ty s) < maxWorkers s)%nat →
  withinLimits s → withinLimits s'.
Proof.
  unfold createWorker. destruct (isDestroyed s); [done|].
  intros [= <- <-] Hroom (Ha & Hp & Hb). unfold withinLimits.
  destruct ty; qsimpl; rewrite ?length_app; cbn [length]; repeat split; lia.
Qed.

Lemma getAvailableWorker_limits ty s a s1 :
  getAvailableWorker ty s = (a, s1) → withinLimits s → withinLimits s1.
Proof.
  unfold getAvailableWorker. intros Hg HI.
  destruct (find _ (poolOf ty s)); [by injection Hg as <- <-|].
  destruct (_ <? _)%nat eqn:Hroom; [|by injection Hg as <- <-].
  apply Nat.ltb_lt in Hroom.
  destruct (createWorker ty s) as [[w' s']|] eqn:Hc; [|by injection Hg as <- <-].
  injection Hg as <- <-. by eapply createWorker_limits.
Qed.

Lemma withinLimits_ext s s' :
  activeWorkers s' = activeWorkers s → workerPool s' = workerPool s →
  batchWorkerPool s' = batchWorkerPool s →
  maxConcurrent s' = maxConcurrent s → maxWorkers s' = maxWorkers s →
  withinLimits s → withinLimits s'.
Proof. unfold withinLimits. by intros -> -> -> -> ->. Qed.

Lemma length_filter_le {A : Type} (f : A → bool) (l : list A) :
  (length (List.filter f l) <= length l)%nat.
Proof.
  induction l as [|x l IH]; [done|]. cbn [List.filter].
  destruct (f x); cbn [length]; lia.
Qed.

Lemma length_filter_remove (w : nat) (l : list nat) :
  w ∈ l → (length (List.filter (λ v, negb (v =? w)%nat) l) < length l)%nat.
Proof.
  induction l as [|x l IH]; intros Hin; [by apply elem_of_nil in Hin|].
  cbn [List.filter]. destruct (x =? w)%nat eqn:Hx; cbn [negb length].
  - pose proof (length_filter_le (λ v, negb (v =? w)%nat) l). lia.
  - apply elem_of_cons in Hin as [->|Hin]; [by rewrite Nat.eqb_refl in Hx|].
    specialize (IH Hin). lia.
Qed.

Lemma replaceWorker_limits w s : withinLimits s → withinLimits (replaceWorker w s).
Proof.
  intros (Ha & Hp & Hb). unfold replaceWorker.
  destruct (metadata s !! w) as [m|]; [|done]. cbv zeta.
  case_bool_decide as Hin; [|done].
  set (s1 := set_poolOf _ _ _).
  assert (withinLimits s1 ∧ (length (poolOf (worker_type m) s1) < maxWorkers s1)%nat)
    as [H1 Hroom].
  { subst s1. unfold withinLimits.
    destruct (worker_type m); qsimpl;
      pose proof (length_filter_remove w _ Hin); repeat split; lia. }
  destruct (createWorker (worker_type m) s1) as [[w' s']|] eqn:Hc; [|done].
  by eapply createWorker_limits.
Qed.

Lemma run_withinLimits s (inputs : list Input) :
  withinLimits s → withinLimits (run s inputs).
Proof.
  apply Inv_run.
  - intros s0 s' (Hc & _ & _ & HW & _ & Ha & Hp & Hb & _).
    by apply withinLimits_ext.
  - intros s0 task rest w s1 Hq Hg (Hsize & _ & _) HI.
    assert (withinLimits s1) as (Ha & Hp & Hb).
    { eapply getAvailableWorker_limits; [exact Hg|].
      by eapply withinLimits_ext; [..|exact HI]. }
    pose proof (getAvailableWorker_frame (task_type task) (set_queue rest s0)) as Hf.
    rewrite Hg in Hf. cbn [snd] in Hf. qsimpl.
    destruct Hf as (_ & Hfa & _ & _ & _ & _ & _ & _ & Hfc & _ & _ & _ & HfW).
    destruct (executeTask_fields task w s1)
      as (_ & Ea & _ & _ & _ & _ & _ & Epool & _ & _ & _ & _ & Ec & _ & _ & EW).
    assert (batchWorkerPool (executeTask task w s1) = batchWorkerPool s1) as Eb
      by (unfold executeTask; by destruct (task_type task)).
    unfold withinLimits. rewrite Ea, Epool, Eb, Ec, EW, Hfa, Hfc.
    split; [|by split].
    pose proof (map_size_insert (task_id task) (task, w) (activeWorkers s0)) as Hins.
    revert Hins. destruct (activeWorkers s0 !! task_id task); intros ->;
      unfold id; lia.
  - intros s0 task rest s1 Hq Hg HI.
    apply getAvailableWorker_none in Hg as ->; [|done..].
    by eapply withinLimits_ext; [..|exact HI].
  - intros s0 task rest s1 Hq Hg HI.
    apply getAvailableWorker_none in Hg as ->; [|done..].
    by eapply withinLimits_ext; [..|exact HI].
  - intros s0 t (Ha & Hp & Hb). unfold releaseWorker.
    destruct (activeWorkers s0 !! t) as [[task w]|] eqn:Hl; [|done].
    unfold withinLimits. qsimpl. split; [|by split].
    rewrite map_size_delete, Hl. lia.
  - intros s0 t HI. unfold countWorkerTask.
    destruct (activeWorkers s0 !! t) as [[task w]|]; [|done].
    by eapply withinLimits_ext; [..|exact HI].
  - intros s0 t0 task w0 _ HI. by eapply withinLimits_ext; [..|exact HI].
  - intros s0 t0 task w0 d _ HI. by eapply withinLimits_ext; [..|exact HI].
  - intros s0 n d task _ HI. split; by eapply withinLimits_ext; [..|exact HI].
  - intros s0 n _ (Ha & Hp & Hb). unfold withinLimits, destroyCallback. qsimpl.
    rewrite map_size_empty. cbn [length].
    assert (∀ (l : list nat) s1,
              maxConcurrent (fold_left (λ acc w, effect (Terminate w) acc) l s1)
              = maxConcurrent s1
              ∧ maxWorkers (fold_left (λ acc w, effect (Terminate w) acc) l s1)
                = maxWorkers s1) as Hfold.
    { induction l as [|w l IH]; intros s1; [done|]. cbn [fold_left].
      destruct (IH (effect (Terminate w) s1)) as [-> ->]. done. }
    repeat split; lia.
  - intros s0 t i task _ HI. by eapply withinLimits_ext; [..|exact HI].
  - intros s0 HI. by eapply withinLimits_ext; [..|exact HI].
  - intros s0 task _ HI. by eapply withinLimits_ext; [..|exact HI].
  - intros s0 w. apply replaceWorker_limits.
  - intros s0 HI. by eapply withinLimits_ext; [..|exact HI].
Qed.

Lemma createWorker_configOf ty s w s' :
  createWorker ty s = Some (w, s') → configOf s' = configOf s.
Proof.
  intros Hc. unfold configOf.
  by destruct (createWorker_frame _ _ _ _ Hc)
    as (_ & _ & _ & _ & _ & _ & _ & _ & -> & _ & -> & -> & ->).
Qed.

Lemma initializeWorkerPools_configOf n s :
  configOf (initializeWorkerPools n s) = configOf s.
Proof.
  revert s. induction n as [|n IH]; intros s; [done|].
  cbn [initializeWorkerPools]. rewrite IH.
  destruct (createWorker single s) as [[w1 s1]|] eqn:H1.
  - rewrite <- (createWorker_configOf _ _ _ _ H1).
    destruct (createWorker batch s1) as [[w2 s2]|] eqn:H2; [|done].
    by apply createWorker_configOf in H2.
  - destruct (createWorker batch s) as [[w2 s2]|] eqn:H2; [|done].
    by apply createWorker_configOf in H2.
Qed.

Lemma initializeWorkerPools_limits n s :
  (length (workerPool s) + n <= maxWorkers s)%nat →
  (length (batchWorkerPool s) + n <= maxWorkers s)%nat →
  withinLimits s → withinLimits (initializeWorkerPools n s).
Proof.
  revert s. induction n as [|n IH]; intros s Hp Hb HI; [done|].
  cbn [initializeWorkerPools].
  set (s1 := match createWorker single s with Some (_, s') => s' | None => s end).
  assert (withinLimits s1 ∧ (length (workerPool s1) + n <= maxWorkers s1)%nat
          ∧ (length (batchWorkerPool s1) + S n <= maxWorkers s1)%nat) as (H1 & Hp1 & Hb1).
  { subst s1. destruct (createWorker single s) as [[w s']|] eqn:Hc; [|split; [done|split; lia]].
    split; [eapply createWorker_limits; [exact Hc| |exact HI]; cbn [poolOf]; lia|].
    unfold createWorker in Hc. destruct (isDestroyed s); [done|].
    injection Hc as <- <-. qsimpl. rewrite length_app. cbn [length]. lia. }
  set (s2 := match createWorker batch s1 with Some (_, s') => s' | None => s1 end).
  assert (withinLimits s2 ∧ (length (workerPool s2) + n <= maxWorkers s2)%nat
          ∧ (length (batchWorkerPool s2) + n <= maxWorkers s2)%nat) as (H2 & Hp2 & Hb2).
  { subst s2. destruct (createWorker batch s1) as [[w s']|] eqn:Hc; [|split; [done|split; lia]].
    split; [eapply createWorker_limits; [exact Hc| |exact H1]; cbn [poolOf]; lia|].
    unfold createWorker in Hc. destruct (isDestroyed s1); [done|].
    injection Hc as <- <-. qsimpl. rewrite length_app. cbn [length]. lia. }
  by apply IH.
Qed.

Lemma terminateAll_configOf (l : list nat) s :
  configOf (fold_left (λ acc w, effect (Terminate w) acc) l s) = configOf s.
Proof.
  revert s. induction l as [|w l IH]; intros s; [done|]. cbn [fold_left].
  by rewrite IH.
Qed.

Lemma destroyCallback_configOf s : configOf (destroyCallback s) = configOf s.
Proof.
  unfold destroyCallback. cbv zeta.
  rewrite <- (terminateAll_configOf (workerPool s ++ batchWorkerPool s) s).
  reflexivity.
Qed.

Lemma run_configOf s (inputs : list Input) : configOf (run s inputs) = configOf s.
Proof.
  apply (Inv_run (λ s', configOf s' = configOf s)); [..|done].
  - intros s0 s' (Hc & HR & Hd & HW & _) <-. unfold configOf. by rewrite Hc, HR, Hd, HW.
  - intros s0 task rest w s1 Hq Hg _ <-.
    pose proof (getAvailableWorker_frame (task_type task) (set_queue rest s0)) as Hf.
    rewrite Hg in Hf. cbn [snd] in Hf. qsimpl.
    destruct Hf as (_ & _ & _ & _ & _ & _ & _ & _ & Hfc & _ & HfR & Hfd & HfW).
    destruct (executeTask_fields task w s1)
      as (_ & _ & _ & _ & _ & _ & _ & _ & _ & _ & _ & _ & Ec & ER & Ed & EW).
    unfold configOf. by rewrite Ec, ER, Ed, EW, Hfc, HfR, Hfd, HfW.
  - intros s0 task rest s1 Hq Hg <-.
    by apply getAvailableWorker_none in Hg as ->; [|done..].
  - intros s0 task rest s1 Hq Hg <-.
    by apply getAvailableWorker_none in Hg as ->; [|done..].
  - intros s0 t <-. unfold releaseWorker. by destruct (activeWorkers s0 !! t) as [[? ?]|].
  - intros s0 t <-. unfold countWorkerTask. by destruct (activeWorkers s0 !! t) as [[? ?]|].
  - by intros s0 t0 task w0 _ <-.
  - by intros s0 t0 task w0 d _ <-.
  - by intros s0 n d task _ <-.
  - intros s0 n _ <-. by rewrite destroyCallback_configOf.
  - by intros s0 t i task _ <-.
  - by intros s0 <-.
  - by intros s0 task _ <-.
  - intros s0 w <-. unfold replaceWorker.
    destruct (metadata s0 !! w) as [m|]; [|done]. cbv zeta.
    case_bool_decide; [|done].
    set (s1 := set_poolOf _ _ _).
    assert (configOf s1 = configOf s0) as <- by (subst s1; by destruct (worker_type m)).
    destruct (createWorker (worker_type m) s1) as [[w' s']|] eqn:Hc; [|done].
    by apply createWorker_configOf in Hc.
  - by intros s0 <-.
Qed.

(** Limits.  The constructor clamps the settings: [maxConcurrent] and
    [maxWorkers] are at least 1, [maxRetries] at least 0, [retryDelay] at
    least 100 ms, with defaults 2, 4, 3 and 1000 for a setting that is
    missing or zero.  Whatever is submitted, cancelled, reported by workers
    or fired by timers afterwards, the settings never change, the number of
    active tasks never exceeds [maxConcurrent], and neither worker pool
    ever holds more than [maxWorkers] workers. *)
Theorem queue_respects_limits (o : QueueOptions) (inputs : list Input) :
  configOf (new o)
  = (Z.to_nat (Z.max 1 (orNumber (opt_maxConcurrent o) 2)),
     Z.to_nat (Z.max 0 (orNumber (opt_maxRetries o) 3)),
     Z.max 100 (orNumber (opt_retryDelay o) 1000),
     Z.to_nat (Z.max 1 (orNumber (opt_maxWorkers o) 4)))
  ∧ configOf (run (new o) inputs) = configOf (new o)
  ∧ (size (activeWorkers (run (new o) inputs)) <= maxConcurrent (new o))%nat
  ∧ (length (workerPool (run (new o) inputs)) <= maxWorkers (new o))%nat
  ∧ (length (batchWorkerPool (run (new o) inputs)) <= maxWorkers (new o))%nat.
Proof.
  assert (configOf (new o)
          = (Z.to_nat (Z.max 1 (orNumber (opt_maxConcurrent o) 2)),
             Z.to_nat (Z.max 0 (orNumber (opt_maxRetries o) 3)),
             Z.max 100 (orNumber (opt_retryDelay o) 1000),
             Z.to_nat (Z.max 1 (orNumber (opt_maxWorkers o) 4)))) as Hcfg.
  { unfold new. cbv zeta. by rewrite initializeWorkerPools_configOf. }
  split; [exact Hcfg|].
  pose proof (run_configOf (new o) inputs) as Hc. split; [exact Hc|].
  assert (withinLimits (new o)) as H0.
  { unfold new. cbv zeta. apply initializeWorkerPools_limits; qsimpl; cbn [length].
    - lia.
    - lia.
    - unfold withinLimits. qsimpl. rewrite map_size_empty. cbn [length]. lia. }
  destruct (run_withinLimits (new o) inputs H0) as (Ha & Hp & Hb).
  unfold configOf in Hc. injection Hc as <- _ _ <-. done.
Qed.

(** *** Pause and teardown *)

Ltac flags :=
  unfold sameFlags, dispatches; qsimpl; cbn [List.filter isConvert];
  repeat split; reflexivity.

Lemma sameFlags_trans s1 s2 s3 : sameFlags s1 s2 → sameFlags s2 s3 → sameFlags s1 s3.
Proof. intros (P1 & D1 & A1) (P2 & D2 & A2). unfold sameFlags. by rewrite P2, D2, A2. Qed.

Lemma sameFlags_halted s s' : sameFlags s s' → halted s' = halted s.
Proof. intros (P & D & _). unfold halted. by rewrite P, D. Qed.

Lemma processLoop_halted s : halted s = true → processLoop s = s.
Proof.
  unfold halted, processLoop. intros Hh. destruct (queue s); [done|].
  destruct (isPaused s), (isDestroyed s); try done;
    by rewrite ?andb_false_r.
Qed.

Lemma processQueue_halted s : halted s = true → processQueue s = s.
Proof. unfold halted, processQueue. by intros ->. Qed.

Lemma sameFlags_processQueue s s' :
  halted s = true → sameFlags s s' → sameFlags s (processQueue s').
Proof.
  intros Hh Hf. rewrite processQueue_halted; [done|].
  by rewrite (sameFlags_halted _ _ Hf).
Qed.

Lemma sameFlags_releaseWorker t s : sameFlags s (releaseWorker t s).
Proof. unfold releaseWorker. destruct (activeWorkers s !! t) as [[? ?]|]; flags. Qed.

Lemma sameFlags_countWorkerTask t s : sameFlags s (countWorkerTask t s).
Proof. unfold countWorkerTask. destruct (activeWorkers s !! t) as [[? ?]|]; flags. Qed.

Lemma sameFlags_createWorker ty s w s' :
  createWorker ty s = Some (w, s') → sameFlags s s'.
Proof.
  unfold createWorker. destruct (isDestroyed s); [done|].
  intros [= <- <-]. destruct ty; flags.
Qed.

Lemma sameFlags_replaceWorker w s : sameFlags s (replaceWorker w s).
Proof.
  unfold replaceWorker. destruct (metadata s !! w) as [m|]; [|flags]. cbv zeta.
  case_bool_decide; [|flags].
  set (s1 := set_poolOf _ _ _).
  assert (sameFlags s s1) as H1 by (subst s1; destruct (worker_type m); flags).
  destruct (createWorker (worker_type m) s1) as [[w' s']|] eqn:Hc; [|done].
  eapply sameFlags_trans; [exact H1|]. by eapply sameFlags_createWorker.
Qed.

Lemma sameFlags_fold {A : Type} (f : State → A → State) (l : list A) s :
  (∀ s0 a, sameFlags s0 (f s0 a)) → sameFlags s (fold_left f l s).
Proof.
  intros Hf. revert s. induction l as [|a l IH]; intros s; [flags|].
  cbn [fold_left]. eapply sameFlags_trans; [apply Hf|apply IH].
Qed.

Lemma sameFlags_cancelAll s : sameFlags s (cancelAll s).
Proof.
  unfold cancelAll. cbv zeta.
  eapply sameFlags_trans; [|apply sameFlags_fold].
  - eapply (sameFlags_trans _ (set_queue [] s)); [flags|]. apply sameFlags_fold.
    intros s0 task. flags.
  - intros s0 e. unfold cancelCommand. destruct (task_type _); flags.
Qed.

Lemma sameFlags_destroyCallback s : sameFlags s (destroyCallback s).
Proof.
  unfold destroyCallback. cbv zeta.
  set (s1 := fold_left _ _ s).
  assert (sameFlags s s1) as H1 by (apply sameFlags_fold; intros; flags).
  eapply sameFlags_trans; [exact H1|]. flags.
Qed.

Lemma sameFlags_handleTaskError task s :
  halted s = true → sameFlags s (handleTaskError task s).
Proof.
  intros Hh. unfold handleTaskError. cbv zeta.
  destruct (_ <? _)%nat; [unfold scheduleRetry, countFailure; flags|].
  apply sameFlags_processQueue; [done|].
  eapply sameFlags_trans; [|flags].
  eapply sameFlags_trans; [|apply sameFlags_releaseWorker].
  unfold countFailure. flags.
Qed.

Lemma sameFlags_handleWorkerMessage w msg s :
  halted s = true → sameFlags s (handleWorkerMessage w msg s).
Proof.
  intros Hh. unfold handleWorkerMessage.
  destruct (taskIdOf s w) as [t|]; [|flags].
  destruct (activeWorkers s !! t) as [[task w0]|]; [|flags].
  assert (sameFlags s (handleSuccess task s)) as Hsuccess.
  { unfold handleSuccess. cbv zeta. apply sameFlags_processQueue; [done|].
    eapply sameFlags_trans; [|flags].
    eapply sameFlags_trans; [|apply sameFlags_releaseWorker].
    eapply sameFlags_trans; [|flags].
    eapply sameFlags_trans; [|apply sameFlags_countWorkerTask]. flags. }
  assert (sameFlags s (handleCancellation task s)) as Hcancel.
  { unfold handleCancellation. cbv zeta. apply sameFlags_processQueue; [done|].
    eapply sameFlags_trans; [|flags].
    eapply sameFlags_trans; [|apply sameFlags_releaseWorker]. flags. }
  destruct msg; try done; by apply sameFlags_handleTaskError.
Qed.

Lemma sameFlags_submit task s :
  halted s = true → sameFlags s (enqueue task s).
Proof.
  intros Hh. unfold enqueue. apply sameFlags_processQueue; [done|].
  unfold register. flags.
Qed.

(** One input to a halted queue. *)
Lemma step_halted s i :
  halted s = true → isCallResume i = false →
  halted (step s i) = true
  ∧ (isDestroyed s = true → isDestroyed (step s i) = true)
  ∧ dispatches (step s i) = dispatches s.
Proof.
  intros Hh Hi.
  assert (∀ s', sameFlags s s' →
            halted s' = true ∧ (isDestroyed s = true → isDestroyed s' = true)
            ∧ dispatches s' = dispatches s) as Hok.
  { intros s' Hf. rewrite (sameFlags_halted _ _ Hf).
    destruct Hf as (_ & -> & ->). done. }
  destruct i; cbn [step]; try discriminate.
  - apply Hok. unfold addFile. destruct (isDestroyed s); [flags|].
    destruct (validateFile file); [flags|]. destruct file; [|flags].
    destruct options as [o| |]; [|flags..].
    destruct (targetTypeOf o) as [targetType0|]; [|flags]. case_bool_decide; [|flags].
    cbn [stateOf snd]. by apply sameFlags_submit.
  - apply Hok. unfold addBatch. destruct (isDestroyed s); [flags|].
    destruct files as [files|]; [|flags].
    destruct (_ =? _)%nat; [flags|]. destruct (_ <? _)%nat; [flags|].
    destruct (validateFiles files); [flags|].
    destruct options as [o| |]; [|flags..].
    destruct (targetTypeOf o) as [targetType0|]; [|flags]. case_bool_decide; [|flags].
    cbn [stateOf snd]. by apply sameFlags_submit.
  - apply Hok. unfold cancelTask.
    destruct (list_find _ (queue s)) as [[j task]|]; [flags|].
    destruct (activeWorkers s !! t) as [[task w]|]; [|flags].
    cbn [snd]. unfold cancelCommand. destruct (task_type task); flags.
  - apply Hok. apply sameFlags_cancelAll.
  - apply Hok. unfold pause. destruct (isDestroyed s) eqn:Hd; [flags|].
    unfold halted in Hh. rewrite Hd, orb_false_r in Hh. rewrite Hh. flags.
  - unfold destroy. destruct (isDestroyed s) eqn:Hd; [by apply Hok; flags|].
    cbv zeta.
    set (s1 := set_isPaused false (set_isDestroyed true s)).
    pose proof (sameFlags_cancelAll s1) as (P & D & A).
    unfold halted. qsimpl. rewrite D. subst s1. qsimpl.
    rewrite orb_true_r. split; [done|]. split; [done|].
    unfold dispatches in *. qsimpl. cbn [List.filter isConvert]. exact A.
  - apply Hok. by apply sameFlags_handleWorkerMessage.
  - apply Hok. unfold handleWorkerError. destruct isEvent; [flags|].
    eapply sameFlags_trans; [|apply sameFlags_replaceWorker].
    destruct (taskIdOf s w) as [t|]; [|flags].
    destruct (activeWorkers s !! t) as [[task w0]|]; [|flags].
    by apply sameFlags_handleTaskError.
  - apply Hok. unfold fireTimer.
    destruct (timers s !! n) as [[d task|]|]; [| |flags]; cbv zeta.
    + unfold retryCallback. qsimpl. destruct (isDestroyed s) eqn:Hd; [flags|].
      apply sameFlags_processQueue; [done|]. unfold requeue. flags.
    + eapply sameFlags_trans; [|apply sameFlags_destroyCallback]. flags.
  - apply Hok. unfold resumeProcessQueue. destruct (suspended s); [flags|].
    rewrite processLoop_halted; [flags|]. exact Hh.
Qed.

Lemma step_destroyed s i :
  isDestroyed s = true →
  isDestroyed (step s i) = true ∧ dispatches (step s i) = dispatches s.
Proof.
  intros Hd. assert (halted s = true) as Hh by (unfold halted; by rewrite Hd, orb_true_r).
  destruct (isCallResume i) eqn:Hi.
  - destruct i; try discriminate. cbn [step]. unfold resume. by rewrite Hd.
  - destruct (step_halted s i Hh Hi) as (_ & H1 & H2). by split; [apply H1|].
Qed.

(** Pause and teardown.  A destroyed queue stays destroyed, whatever it
    is sent: it never posts a conversion command again, and [addFile] and
    [addBatch] throw.  A paused queue posts no conversion command, and
    stays paused or becomes destroyed, as long as [resume] is not called:
    not on a submission, not when a worker reports success, failure or
    cancellation, not when a retry timer fires. *)
Theorem halted_queue_dispatches_nothing (s : State) (inputs : list Input) :
  (isDestroyed s = true →
     isDestroyed (run s inputs) = true
     ∧ dispatches (run s inputs) = dispatches s
     ∧ (∀ file options, addFile file options (run s inputs) = Throws Destroyed)
     ∧ (∀ files options, addBatch files options (run s inputs) = Throws Destroyed))
  ∧ (isPaused s = true → existsb isCallResume inputs = false →
       halted (run s inputs) = true
       ∧ dispatches (run s inputs) = dispatches s).
Proof.
  split.
  - intros Hd.
    assert (isDestroyed (run s inputs) = true
            ∧ dispatches (run s inputs) = dispatches s) as [H1 H2].
    { revert s Hd. induction inputs as [|i inputs IH]; intros s Hd; [done|].
      cbn [run fold_left]. destruct (step_destroyed s i Hd) as [Hd' Ha].
      destruct (IH _ Hd') as [H1 H2]. split; [done|]. by rewrite <- Ha. }
    split; [done|]. split; [done|].
    split; intros; [unfold addFile|unfold addBatch]; by rewrite H1.
  - intros Hp. assert (halted s = true) as Hh by (unfold halted; by rewrite Hp).
    clear Hp. revert s Hh. induction inputs as [|i inputs IH]; intros s Hh Hr; [done|].
    cbn [existsb] in Hr. apply orb_false_iff in Hr as [Hi Hr].
    cbn [run fold_left]. destruct (step_halted s i Hh Hi) as (Hh' & _ & Ha).
    destruct (IH _ Hh' Hr) as [H1 H2]. split; [done|]. by rewrite <- Ha.
Qed.

(** *** Batch submission *)

Lemma validateFiles_inr (files : list (option FileObj)) (fs : list FileObj) :
  validateFiles files = inr fs →
  files = List.map Some fs ∧ ∀ f, f ∈ fs → validateFile (Some f) = None.
Proof.
  revert fs. induction files as [|file files IH]; intros fs Hv; cbn [validateFiles] in Hv.
  - injection Hv as <-. split; [done|]. intros f Hf. by apply elem_of_nil in Hf.
  - destruct (validateFile file) as [e|] eqn:Hf; [done|].
    destruct file as [f|]; [|done].
    destruct (validateFiles files) as [e|fs'] eqn:Hrest; [done|].
    injection Hv as <-. destruct (IH fs' eq_refl) as [-> Hall].
    split; [done|]. intros g Hg. apply elem_of_cons in Hg as [->|Hg]; [done|by apply Hall].
Qed.

Lemma validateFiles_inl (files : list (option FileObj)) (e : Error) :
  validateFiles files = inl e →
  ∃ i file, files !! i = Some file ∧ validateFile file = Some e
            ∧ ∀ j file', (j < i)%nat → files !! j = Some file' → validateFile file' = None.
Proof.
  revert e. induction files as [|file files IH]; intros e Hv; cbn [validateFiles] in Hv;
    [done|].
  destruct (validateFile file) as [e'|] eqn:Hf.
  { injection Hv as <-. exists 0%nat, file. split; [done|]. split; [done|]. lia. }
  destruct file as [f|]; [|done].
  destruct (validateFiles files) as [e'|fs'] eqn:Hrest; [|done].
  injection Hv as <-. destruct (IH e' eq_refl) as (i & file & Hi & He & Hbefore).
  exists (S i), file. split; [done|]. split; [done|].
  intros [|j] file' Hj Hl; [by injection Hl as <-|].
  apply (Hbefore j); [lia|done].
Qed.

(** [addBatch] on a queue that is not destroyed.  It throws, and leaves
    the queue as it was, exactly when [files] is not an array, is empty,
    holds more than 100 entries, holds an entry that is not a valid file
    (the error reported is that of the first such entry), the options
    are [null] or a truthy value that is not an object, or the target
    format is a value that cannot be lower-cased or is not supported.
    Otherwise it returns the fresh task id; the task is a batch task that
    carries all the files in the order given, it is registered with the
    progress tracker, and it is pending in the queue or already handed to
    a worker. *)
Theorem addBatch_validation s (files : option (list (option FileObj)))
    (options : OptionsArg) :
  isDestroyed s = false →
  match addBatch files options s with
  | Throws e =>
      files = None
      ∨ ∃ fs, files = Some fs
          ∧ ((fs = [] ∧ e = FilesEmpty)
             ∨ ((100 < length fs)%nat ∧ e = BatchTooLarge)
             ∨ (∃ i file, fs !! i = Some file ∧ validateFile file = Some e
                  ∧ ∀ j file', (j < i)%nat → fs !! j = Some file' →
                      validateFile file' = None)
             ∨ ¬ acceptedOptions options)
  | Returns (t, s') =>
      ∃ fs, files = Some (List.map Some fs)
        ∧ (0 < length fs <= 100)%nat
        ∧ (∀ f, f ∈ fs → validateFile (Some f) = None)
        ∧ acceptedOptions options
        ∧ t = nextTaskId s
        ∧ Track (createTask t) ∈ trace s'
        ∧ ∃ task, task_id task = t ∧ task_type task = batch ∧ payload task = PFiles fs
            ∧ (task ∈ queue s' ∨ ∃ w, activeWorkers s' !! t = Some (task, w))
  end.
Proof.
  intros Hd. unfold addBatch, acceptedOptions, supportedTarget. rewrite Hd.
  destruct files as [files|]; [|by left].
  destruct (length files =? 0)%nat eqn:H0.
  { right. exists files. split; [done|]. left. apply Nat.eqb_eq in H0.
    by destruct files. }
  destruct (100 <? length files)%nat eqn:H100.
  { right. exists files. split; [done|]. right. left. by apply Nat.ltb_lt in H100. }
  apply Nat.eqb_neq in H0. apply Nat.ltb_ge in H100.
  destruct (validateFiles files) as [e|fs] eqn:Hv.
  { right. exists files. split; [done|]. do 2 right. left.
    by apply validateFiles_inl. }
  apply validateFiles_inr in Hv as [-> Hall].
  destruct options as [o| |].
  2, 3: right; eexists; split; [done|]; do 3 right; tauto.
  destruct (targetTypeOf o) as [targetType0|].
  2: { right. eexists. split; [done|]. do 3 right. tauto. }
  case_bool_decide as Hsup.
  2: { right. eexists. split; [done|]. by do 3 right. }
  rewrite length_map in H0, H100.
  exists fs. split; [done|]. split; [lia|]. split; [done|]. split; [done|].
  split; [done|].
  destruct (enqueue_registers (mkTask (nextTaskId s) batch (PFiles fs) o) s Hd)
    as [Htr Hin].
  split; [exact Htr|]. eexists. split; [|split; [|split; [|exact Hin]]]; reflexivity.
Qed.

Lemma addBatch_validation_witness :
  isDestroyed (new defaultOptions) = false
  ∧ match addBatch (Some twoFiles) (OptionsObject noOptions) (new defaultOptions) with
    | Throws e =>
        Some twoFiles = None
        ∨ ∃ fs, Some twoFiles = Some fs
            ∧ ((fs = [] ∧ e = FilesEmpty)
               ∨ ((100 < length fs)%nat ∧ e = BatchTooLarge)
               ∨ (∃ i file, fs !! i = Some file ∧ validateFile file = Some e
                    ∧ ∀ j file', (j < i)%nat → fs !! j = Some file' →
                        validateFile file' = None)
               ∨ ¬ acceptedOptions (OptionsObject noOptions))
    | Returns (t, s') =>
        ∃ fs, Some twoFiles = Some (List.map Some fs)
          ∧ (0 < length fs <= 100)%nat
          ∧ (∀ f, f ∈ fs → validateFile (Some f) = None)
          ∧ acceptedOptions (OptionsObject noOptions)
          ∧ t = nextTaskId (new defaultOptions)
          ∧ Track (createTask t) ∈ trace s'
          ∧ ∃ task, task_id task = t ∧ task_type task = batch ∧ payload task = PFiles fs
              ∧ (task ∈ queue s' ∨ ∃ w, activeWorkers s' !! t = Some (task, w))
    end.
Proof.
  split; [reflexivity|].
  apply (addBatch_validation (new defaultOptions) (Some twoFiles) (OptionsObject noOptions)).
  reflexivity.
Defined.

(** A batch of two files is accepted and handed to a batch worker at once;
    an empty batch and a batch with a nameless file are refused. *)
Example addBatch_examples :
  match addBatch (Some twoFiles) (OptionsObject noOptions) (new defaultOptions) with
  | Returns (t, s') => t = 0%nat ∧ dispatches s' = 1%nat ∧ queue s' = []
  | Throws _ => False
  end
  ∧ addBatch (Some []) (OptionsObject noOptions) (new defaultOptions) = Throws FilesEmpty
  ∧ addBatch (Some [Some heicFile; None]) (OptionsObject noOptions) (new defaultOptions)
    = Throws InvalidFile
  ∧ addBatch (Some twoFiles) OptionsOther (new defaultOptions) = Throws OptionsNotObject
  ∧ addBatch (Some twoFiles) OptionsNull (new defaultOptions) = Throws TypeError
  ∧ addBatch (Some twoFiles)
      (OptionsObject {| targetType := Some TOther; quality := None; opt_priority := None |})
      (new defaultOptions) = Throws TypeError.
Proof. vm_compute. repeat split. Qed.

(** *** Cancelling everything *)

Lemma cancelAll_queued_fold (l : list Task) s :
  let s' := fold_left (λ acc task,
                emit (EvCancelled (task_id task))
                  (effect (Track (trackerCancelTask (task_id task))) acc)) l s in
  trace s'
  = flat_map (λ task, [Emit (EvCancelled (task_id task));
                       Track (trackerCancelTask (task_id task))]) (rev l)
    ++ trace s
  ∧ queue s' = queue s ∧ activeWorkers s' = activeWorkers s
  ∧ metrics s' = metrics s ∧ metadata s' = metadata s ∧ timers s' = timers s.
Proof.
  cbv zeta. revert s. induction l as [|task l IH]; intros s; [done|].
  cbn [fold_left rev]. destruct (IH (emit (EvCancelled (task_id task))
                                      (effect (Track (trackerCancelTask (task_id task))) s)))
    as (-> & -> & -> & -> & -> & ->).
  rewrite flat_map_app. cbn [flat_map]. rewrite app_nil_r, <- app_assoc. done.
Qed.

Lemma cancelAll_active_fold (l : list (nat * (Task * nat))) s :
  let s' := fold_left (λ acc e,
                effect (Post (snd (snd e)) (cancelCommand (fst (snd e)))) acc) l s in
  trace s'
  = List.map (λ e, Post (snd (snd e)) (cancelCommand (fst (snd e)))) (rev l) ++ trace s
  ∧ queue s' = queue s ∧ activeWorkers s' = activeWorkers s
  ∧ metrics s' = metrics s ∧ metadata s' = metadata s ∧ timers s' = timers s.
Proof.
  cbv zeta. revert s. induction l as [|e l IH]; intros s; [done|].
  cbn [fold_left rev].
  destruct (IH (effect (Post (snd (snd e)) (cancelCommand (fst (snd e)))) s))
    as (-> & -> & -> & -> & -> & ->).
  rewrite map_app. cbn [List.map]. rewrite <- app_assoc. done.
Qed.

(** [cancelAll].  Every pending task is removed from the queue, and for
    each, in queue order, the tracker is told and one [cancelled] event is
    emitted.  Then one [cancel] or [cancel-batch] command is posted to the
    worker of each active task.  The active tasks stay active and their
    workers stay busy until the workers answer; no cancellation is counted
    in the metrics and no timer is touched. *)
Theorem cancelAll_effect (s : State) :
  queue (cancelAll s) = []
  ∧ activeWorkers (cancelAll s) = activeWorkers s
  ∧ metadata (cancelAll s) = metadata s
  ∧ metrics (cancelAll s) = metrics s
  ∧ timers (cancelAll s) = timers s
  ∧ ∃ posts,
      trace (cancelAll s)
      = posts
        ++ flat_map (λ task, [Emit (EvCancelled (task_id task));
                              Track (trackerCancelTask (task_id task))]) (rev (queue s))
        ++ trace s
      ∧ posts ≡ₚ List.map (λ e, Post (snd (snd e)) (cancelCommand (fst (snd e))))
                   (map_to_list (activeWorkers s)).
Proof.
  unfold cancelAll. cbv zeta.
  set (s1 := fold_left _ (queue s) (set_queue [] s)).
  destruct (cancelAll_queued_fold (queue s) (set_queue [] s))
    as (Ht1 & Hq1 & Ha1 & Hm1 & Hd1 & Hti1).
  cbv zeta in *. fold s1 in Ht1, Hq1, Ha1, Hm1, Hd1, Hti1.
  destruct (cancelAll_active_fold (map_to_list (activeWorkers s1)) s1)
    as (Ht2 & Hq2 & Ha2 & Hm2 & Hd2 & Hti2).
  cbv zeta in *.
  set (s2 := fold_left _ (map_to_list (activeWorkers s1)) s1) in *.
  rewrite Hq2, Ha2, Hm2, Hd2, Hti2, Hq1, Ha1, Hm1, Hd1, Hti1.
  repeat (split; [done|]).
  eexists. split.
  - rewrite Ht2, Ht1. reflexivity.
  - rewrite Ha1. cbn [activeWorkers set_queue]. by rewrite <- Permutation_rev.
Qed.

(** *** Crashed workers *)















(** With one worker and no retry left, the crash of the worker that
    converts task 0 fails the task and hands the pending task 1 to the
    crashed worker, which is then terminated and replaced: task 1 stays
    active on a worker that is in no pool, while the new worker idles. *)
Example task_stranded_on_crashed_worker :
  activeWorkers beforeCrash !! 0%nat = Some (mkTask 0 single (PFile heicFile) noOptions, 0%nat)
  ∧ List.map task_id (queue beforeCrash) = [1%nat]
  ∧ activeWorkers (step beforeCrash (WorkerError 0 false)) !! 1%nat
    = Some (mkTask 1 single (PFile heicFile) noOptions, 0%nat)
  ∧ workerPool (step beforeCrash (WorkerError 0 false)) = [2%nat]
  ∧ busyOf (step beforeCrash (WorkerError 0 false)) 2 = false
  ∧ List.filter (λ e, match e with Terminate _ | Post _ _ => true | _ => false end)
      (trace (step beforeCrash (WorkerError 0 false)))
    = [Terminate 0;
       Post 0 (convert (mkTask 1 single (PFile heicFile) noOptions));
       Post 0 (convert (mkTask 0 single (PFile heicFile) noOptions))].
Proof. vm_compute. repeat split. Qed.

(** *** Metrics against events *)

Ltac ledger :=
  unfold sameLedger, emitted, tracked; qsimpl;
  cbn [List.filter isEventOf isTrackerCallOf];
  try (split; [reflexivity|]; intros []; split; reflexivity).

Lemma sameLedger_refl s : sameLedger s s.
Proof. ledger. Qed.

Lemma sameLedger_trans s1 s2 s3 : sameLedger s1 s2 → sameLedger s2 s3 → sameLedger s1 s3.
Proof.
  intros (M1 & E1) (M2 & E2). split; [by rewrite M2|].
  intros k. destruct (E1 k) as [<- <-]. apply E2.
Qed.

Lemma sameLedger_metricsMatchEvents s s' :
  sameLedger s s' → metricsMatchEvents s → metricsMatchEvents s'.
Proof.
  intros (M & E) (H1 & H2 & H3 & H4). unfold metricsMatchEvents. rewrite M.
  rewrite !(proj1 (E _)). split; [done|]. split; [done|]. split; [done|].
  intros k. destruct (E k) as [-> ->]. apply H4.
Qed.

Lemma sameLedger_releaseWorker t s : sameLedger s (releaseWorker t s).
Proof. unfold releaseWorker. destruct (activeWorkers s !! t) as [[? ?]|]; ledger. Qed.

Lemma sameLedger_countWorkerTask t s : sameLedger s (countWorkerTask t s).
Proof. unfold countWorkerTask. destruct (activeWorkers s !! t) as [[? ?]|]; ledger. Qed.

Lemma sameLedger_createWorker ty s w s' :
  createWorker ty s = Some (w, s') → sameLedger s s'.
Proof.
  unfold createWorker. destruct (isDestroyed s); [done|].
  intros [= <- <-]. destruct ty; ledger.
Qed.

Lemma sameLedger_getAvailableWorker ty s a s1 :
  getAvailableWorker ty s = (a, s1) → sameLedger s s1.
Proof.
  unfold getAvailableWorker. intros Hg.
  destruct (find _ (poolOf ty s)); [injection Hg as <- <-; ledger|].
  destruct (_ <? _)%nat; [|injection Hg as <- <-; ledger].
  destruct (createWorker ty s) as [[w' s']|] eqn:Hc; [|injection Hg as <- <-; ledger].
  injection Hg as <- <-. by eapply sameLedger_createWorker.
Qed.

Lemma sameLedger_executeTask task w s : sameLedger s (executeTask task w s).
Proof. unfold executeTask. destruct (task_type task); ledger. Qed.

Lemma sameLedger_processLoop s : sameLedger s (processLoop s).
Proof.
  unfold processLoop. destruct (queue s) as [|task rest] eqn:Hq; [ledger|].
  destruct (_ && _); [|ledger]. cbv zeta.
  destruct (getAvailableWorker _ _) as [a s1] eqn:Hg.
  apply sameLedger_getAvailableWorker in Hg.
  eapply sameLedger_trans; [|destruct a].
  - eapply sameLedger_trans; [|exact Hg]. ledger.
  - eapply sameLedger_trans; [apply sameLedger_executeTask|]. ledger.
  - ledger.
  - ledger.
Qed.

Lemma sameLedger_processQueue s : sameLedger s (processQueue s).
Proof. unfold processQueue. destruct (_ || _); [ledger|apply sameLedger_processLoop]. Qed.

Lemma sameLedger_replaceWorker w s : sameLedger s (replaceWorker w s).
Proof.
  unfold replaceWorker. destruct (metadata s !! w) as [m|]; [|ledger]. cbv zeta.
  case_bool_decide; [|ledger].
  set (s1 := set_poolOf _ _ _).
  assert (sameLedger s s1) as H1 by (subst s1; destruct (worker_type m); ledger).
  destruct (createWorker (worker_type m) s1) as [[w' s']|] eqn:Hc; [|done].
  eapply sameLedger_trans; [exact H1|]. by eapply sameLedger_createWorker.
Qed.

Lemma sameLedger_fold {A : Type} (f : State → A → State) (l : list A) s :
  (∀ s0 a, sameLedger s0 (f s0 a)) → sameLedger s (fold_left f l s).
Proof.
  intros Hf. revert s. induction l as [|a l IH]; intros s; [ledger|].
  cbn [fold_left]. eapply sameLedger_trans; [apply Hf|apply IH].
Qed.

Lemma sameLedger_destroyCallback s : sameLedger s (destroyCallback s).
Proof.
  unfold destroyCallback. cbv zeta.
  set (s1 := fold_left _ _ s).
  assert (sameLedger s s1) as H1 by (apply sameLedger_fold; intros; ledger).
  eapply sameLedger_trans; [exact H1|]. ledger.
Qed.

Lemma sameLedger_initializeWorkerPools n s : sameLedger s (initializeWorkerPools n s).
Proof.
  revert s. induction n as [|n IH]; intros s; [ledger|].
  cbn [initializeWorkerPools]. eapply sameLedger_trans; [|apply IH].
  set (s1 := match createWorker single s with Some (_, s') => s' | None => s end).
  assert (sameLedger s s1) as H1.
  { subst s1. destruct (createWorker single s) as [[w s']|] eqn:Hc; [|ledger].
    by eapply sameLedger_createWorker. }
  eapply sameLedger_trans; [exact H1|].
  destruct (createWorker batch s1) as [[w s']|] eqn:Hc; [|ledger].
  by eapply sameLedger_createWorker.
Qed.

Lemma sameLedger_enqueue task s : sameLedger s (enqueue task s).
Proof.
  unfold enqueue. eapply sameLedger_trans; [|apply sameLedger_processQueue].
  unfold register. ledger.
Qed.

Lemma releaseWorker_ledger t s :
  metrics (releaseWorker t s) = metrics s ∧ trace (releaseWorker t s) = trace s.
Proof. unfold releaseWorker. by destruct (activeWorkers s !! t) as [[? ?]|]. Qed.

Lemma countWorkerTask_ledger t s :
  metrics (countWorkerTask t s) = metrics s ∧ trace (countWorkerTask t s) = trace s.
Proof. unfold countWorkerTask. by destruct (activeWorkers s !! t) as [[? ?]|]. Qed.

(** An ending recorded with its counter: the tracker call, the event, and
    for a task that was running the counter of [metrics]. *)
Ltac ending :=
  unfold metricsMatchEvents, emitted, tracked;
  repeat first
    [ rewrite (proj1 (releaseWorker_ledger _ _))
    | rewrite (proj2 (releaseWorker_ledger _ _))
    | rewrite (proj1 (countWorkerTask_ledger _ _))
    | rewrite (proj2 (countWorkerTask_ledger _ _))
    | progress qsimpl ];
  cbn [List.filter isEventOf isTrackerCallOf TaskEnd_eqb length
       totalTasksProcessed totalTasksFailed totalTasksCancelled];
  let H1 := fresh in let H2 := fresh in let H3 := fresh in let H4 := fresh in
  intros (H1 & H2 & H3 & H4);
  split; [lia|]; split; [lia|]; split; [lia|];
  let k := fresh "k" in
  intros k; specialize (H4 k); destruct k;
  cbn [List.filter isEventOf isTrackerCallOf TaskEnd_eqb length] in *; lia.

Lemma handleSuccess_metrics task s :
  metricsMatchEvents s → metricsMatchEvents (handleSuccess task s).
Proof.
  intros HI. unfold handleSuccess. cbv zeta.
  eapply sameLedger_metricsMatchEvents; [apply sameLedger_processQueue|].
  revert HI. ending.
Qed.

Lemma handleBatchComplete_metrics task s :
  metricsMatchEvents s → metricsMatchEvents (handleBatchComplete task s).
Proof.
  intros HI. unfold handleBatchComplete. cbv zeta.
  eapply sameLedger_metricsMatchEvents; [apply sameLedger_processQueue|].
  revert HI. ending.
Qed.

Lemma handleCancellation_metrics task s :
  metricsMatchEvents s → metricsMatchEvents (handleCancellation task s).
Proof.
  intros HI. unfold handleCancellation. cbv zeta.
  eapply sameLedger_metricsMatchEvents; [apply sameLedger_processQueue|].
  revert HI. ending.
Qed.

Lemma handleTaskError_metrics task s :
  metricsMatchEvents s → metricsMatchEvents (handleTaskError task s).
Proof.
  intros HI. unfold handleTaskError. cbv zeta.
  destruct (_ <? _)%nat.
  - eapply sameLedger_metricsMatchEvents; [|exact HI].
    unfold scheduleRetry, countFailure. ledger.
  - eapply sameLedger_metricsMatchEvents; [apply sameLedger_processQueue|].
    revert HI. unfold countFailure. ending.
Qed.

Lemma cancelAll_metrics s :
  metricsMatchEvents s → metricsMatchEvents (cancelAll s).
Proof.
  intros HI. unfold cancelAll. cbv zeta.
  eapply sameLedger_metricsMatchEvents.
  { apply sameLedger_fold. intros s0 e. unfold cancelCommand.
    destruct (task_type _); ledger. }
  assert (metricsMatchEvents (set_queue [] s)) as H0 by (revert HI; ending).
  revert H0. generalize (set_queue [] s). induction (queue s) as [|task l IH]; intros s0 H0.
  - done.
  - cbn [fold_left]. apply IH. revert H0. ending.
Qed.

Lemma step_metrics s i :
  metricsMatchEvents s → metricsMatchEvents (step s i).
Proof.
  intros HI. destruct i; cbn [step].
  - unfold addFile. destruct (isDestroyed s); [done|].
    destruct (validateFile file); [done|]. destruct file; [|done].
    destruct options as [o| |]; [|done..].
    destruct (targetTypeOf o) as [targetType0|]; [|done]. case_bool_decide; [|done].
    cbn [stateOf snd]. eapply sameLedger_metricsMatchEvents; [apply sameLedger_enqueue|done].
  - unfold addBatch. destruct (isDestroyed s); [done|].
    destruct files as [files|]; [|done].
    destruct (_ =? _)%nat; [done|]. destruct (_ <? _)%nat; [done|].
    destruct (validateFiles files); [done|].
    destruct options as [o| |]; [|done..].
    destruct (targetTypeOf o) as [targetType0|]; [|done]. case_bool_decide; [|done].
    cbn [stateOf snd]. eapply sameLedger_metricsMatchEvents; [apply sameLedger_enqueue|done].
  - unfold cancelTask.
    destruct (list_find _ (queue s)) as [[j task]|]; [cbn [snd]; revert HI; ending|].
    destruct (activeWorkers s !! t) as [[task w]|]; [|done].
    cbn [snd]. eapply sameLedger_metricsMatchEvents; [|exact HI].
    unfold cancelCommand. destruct (task_type task); ledger.
  - by apply cancelAll_metrics.
  - unfold pause. destruct (isDestroyed s); [done|]. destruct (isPaused s); [done|].
    cbn [stateOf id]. eapply sameLedger_metricsMatchEvents; [|exact HI]. ledger.
  - unfold resume. destruct (isDestroyed s); [done|]. destruct (isPaused s); [|done].
    cbn [stateOf id].
    eapply sameLedger_metricsMatchEvents; [apply sameLedger_processQueue|].
    eapply sameLedger_metricsMatchEvents; [|exact HI]. ledger.
  - unfold destroy. destruct (isDestroyed s); [done|]. cbv zeta.
    set (s1 := cancelAll _).
    assert (metricsMatchEvents s1) as H1.
    { apply cancelAll_metrics. eapply sameLedger_metricsMatchEvents; [|exact HI]. ledger. }
    eapply sameLedger_metricsMatchEvents; [|exact H1]. ledger.
  - unfold handleWorkerMessage.
    destruct (taskIdOf s w) as [t|]; [|done].
    destruct (activeWorkers s !! t) as [[task w0]|]; [|done].
    destruct msg; try done.
    + by apply handleSuccess_metrics.
    + by apply handleBatchComplete_metrics.
    + by apply handleCancellation_metrics.
    + by apply handleCancellation_metrics.
    + by apply handleTaskError_metrics.
    + by apply handleTaskError_metrics.
  - unfold handleWorkerError. destruct isEvent; [done|].
    eapply sameLedger_metricsMatchEvents; [apply sameLedger_replaceWorker|].
    destruct (taskIdOf s w) as [t|]; [|done].
    destruct (activeWorkers s !! t) as [[task w0]|]; [|done].
    by apply handleTaskError_metrics.
  - unfold fireTimer.
    destruct (timers s !! n) as [[d task|]|]; [| |done]; cbv zeta.
    + unfold retryCallback. qsimpl. destruct (isDestroyed s).
      * eapply sameLedger_metricsMatchEvents; [|exact HI]. ledger.
      * eapply sameLedger_metricsMatchEvents; [apply sameLedger_processQueue|].
        eapply sameLedger_metricsMatchEvents; [|exact HI]. unfold requeue. ledger.
    + eapply sameLedger_metricsMatchEvents; [apply sameLedger_destroyCallback|].
      eapply sameLedger_metricsMatchEvents; [|exact HI]. ledger.
  - unfold resumeProcessQueue. destruct (suspended s); [done|].
    eapply sameLedger_metricsMatchEvents; [apply sameLedger_processLoop|].
    eapply sameLedger_metricsMatchEvents; [|exact HI]. ledger.
Qed.

(** The counters reported by [getMetrics] and [getQueueStatus] against
    what the queue announced.  In every state the queue can reach,
    [totalTasksProcessed] is the number of [complete] events emitted,
    [totalTasksFailed] the number of [error] events, and
    [totalTasksCancelled] at most the number of [cancelled] events: it
    counts the cancellations acknowledged by a worker, not those of
    pending tasks.  The progress tracker was told of a completion, a
    failure or a cancellation exactly as often as the matching event was
    emitted. *)
Theorem metrics_agree_with_events (o : QueueOptions) (inputs : list Input) :
  totalTasksProcessed (metrics (run (new o) inputs))
  = emitted Completed (run (new o) inputs)
  ∧ totalTasksFailed (metrics (run (new o) inputs))
    = emitted Failed (run (new o) inputs)
  ∧ (totalTasksCancelled (metrics (run (new o) inputs))
     <= emitted Cancelled (run (new o) inputs))%nat
  ∧ ∀ k, tracked k (run (new o) inputs) = emitted k (run (new o) inputs).
Proof.
  change (metricsMatchEvents (run (new o) inputs)).
  assert (metricsMatchEvents (new o)) as H0.
  { unfold new. cbv zeta.
    eapply sameLedger_metricsMatchEvents; [apply sameLedger_initializeWorkerPools|].
    unfold metricsMatchEvents, emitted, tracked. qsimpl. cbn. by repeat split. }
  revert H0. generalize (new o). unfold run.
  induction inputs as [|i inputs IH]; intros s H0; [done|].
  cbn [fold_left]. by apply IH, step_metrics.
Qed.

(** A task cancelled while pending is announced, and not counted. *)
Example pending_cancellation_not_counted :
  emitted Cancelled cancelledWhilePending = 1%nat
  ∧ tracked Cancelled cancelledWhilePending = 1%nat
  ∧ totalTasksCancelled (metrics cancelledWhilePending) = 0%nat.
Proof. vm_compute. done. Qed.

(** *** A cancelled batch and the next one *)

(** With one batch worker, the queue that learns of a cancelled batch
    releases the worker and hands it the pending batch at once: the
    worker receives [convert-batch], [cancel-batch], [convert-batch]. *)
Example queue_reuses_worker_after_cancel :
  rev (omap (λ e, match e with
                  | Post w (convert_batch task) => Some (w, Some (task_id task))
                  | Post w cancel_batch => Some (w, None)
                  | _ => None
                  end) (trace secondBatchAfterCancel))
  = [(1%nat, Some 0%nat); (1%nat, None); (1%nat, Some 1%nat)]
  ∧ batchWorkerPool secondBatchAfterCancel = [1%nat].
Proof. vm_compute. done. Qed.
End QueueFacts.

(** * Further properties of the code *)

(** ** Memory manager: accounting *)

Section MemoryManagerAccounting.
Import MemoryManager.
Implicit Types (m : State) (b : Blob) (h : Host).

Lemma totalSize_app (l1 l2 : list Blob) :
  totalSize (l1 ++ l2) = totalSize l1 + totalSize l2.
Proof.
  unfold totalSize. induction l1 as [|b l1 IH]; cbn [app foldr]; [lia|].
  rewrite IH. lia.
Qed.

Lemma totalSize_set_delete b (l : list Blob) :
  NoDup l → b ∈ l → totalSize (set_delete b l) = totalSize l - blob_size b.
Proof.
  intros Hnd Hin. induction l as [|c l IH]; [by apply elem_of_nil in Hin|].
  apply NoDup_cons in Hnd as [Hc Hnd].
  unfold set_delete in *. rewrite filter_cons. destruct (decide (c ≠ b)) as [Hne|Heq].
  - apply elem_of_cons in Hin as [->|Hin]; [done|].
    cbn [totalSize foldr]. fold (totalSize (filter (λ y, y ≠ b) l)).
    fold (totalSize l). rewrite IH by done. lia.
  - assert (c = b) as -> by (destruct (decide (c = b)); [done|by elim Heq]).
    fold (set_delete b l). rewrite set_delete_notin by done.
    cbn [totalSize foldr]. fold (totalSize l). lia.
Qed.

Lemma NoDup_set_add {A : Type} `{EqDecision A} (x : A) (s : list A) :
  NoDup s → NoDup (set_add x s).
Proof.
  intros Hnd. unfold set_add. destruct (set_has x s) eqn:Hhas; [done|].
  apply set_has_false in Hhas. apply NoDup_app. split; [done|]. split.
  - intros y Hy ->%list_elem_of_singleton. done.
  - apply NoDup_singleton.
Qed.

Lemma NoDup_set_delete {A : Type} `{EqDecision A} (x : A) (s : list A) :
  NoDup s → NoDup (set_delete x s).
Proof. intros Hnd. unfold set_delete. by apply NoDup_filter. Qed.

Lemma accounted_registerBlob b m :
  b ∉ activeBlobs m → accounted m → accounted (registerBlob (VBlob b) m).
Proof.
  intros Hb (He & Hnb & Hnu). unfold accounted, registerBlob. cbn.
  split; [|split; [by apply NoDup_set_add|done]].
  unfold set_add. apply set_has_false in Hb as ->.
  rewrite totalSize_app. cbn [totalSize foldr]. lia.
Qed.

Lemma accounted_unregisterBlob v m :
  accounted m → accounted (unregisterBlob v m).
Proof.
  intros (He & Hnb & Hnu). destruct v as [b|]; [|done].
  unfold unregisterBlob. destruct (set_has b (activeBlobs m)) eqn:Hhas; [|done].
  apply set_has_true in Hhas. unfold accounted. cbn.
  rewrite totalSize_set_delete by done.
  split; [lia|]. split; [by apply NoDup_set_delete|done].
Qed.

Lemma accounted_revokeObjectURL u m :
  accounted m → accounted (revokeObjectURL u m).
Proof.
  intros (He & Hnb & Hnu). unfold revokeObjectURL.
  destruct (set_has u (objectURLs m)); [|done].
  unfold accounted. cbn. split; [done|]. split; [done|].
  by apply NoDup_set_delete.
Qed.

Lemma accounted_requestGarbageCollection h m :
  accounted m → accounted (requestGarbageCollection h m).
Proof. unfold requestGarbageCollection. by destruct (gcExposed h). Qed.

Lemma accounted_triggerCleanup h m :
  accounted m → accounted (triggerCleanup h m).
Proof.
  intros Hacc. unfold triggerCleanup.
  apply accounted_requestGarbageCollection.
  set (m1 := fold_left _ (blobsToRemove m) m).
  assert (accounted m1) as H1.
  { subst m1. generalize (blobsToRemove m). intros rem. revert m Hacc.
    induction rem as [|b rem IH]; intros m Hacc; [done|]. cbn [fold_left].
    apply IH. by apply accounted_unregisterBlob. }
  generalize (urlsToRevoke h m1). intros us. revert H1. generalize m1.
  induction us as [|u us IH]; intros m2 H2; [done|]. cbn [fold_left].
  apply IH. by apply accounted_revokeObjectURL.
Qed.

Lemma accounted_call m hc :
  match registers (snd hc) with
  | Some b => b ∉ activeBlobs m
  | None => True
  end →
  accounted m → accounted (call m hc).
Proof.
  destruct hc as [h c]. cbn [snd call]. intros Hfresh Hacc.
  destruct c as [v|v|url b|url|r| |]; cbn [registers] in Hfresh.
  - destruct v as [b|]; [by apply accounted_registerBlob|done].
  - by apply accounted_unregisterBlob.
  - unfold createObjectURL. apply accounted_registerBlob; [done|].
    destruct Hacc as (He & Hnb & Hnu). unfold accounted. cbn.
    split; [done|]. split; [done|]. by apply NoDup_set_add.
  - by apply accounted_revokeObjectURL.
  - unfold hasAvailableMemory. cbn [snd].
    destruct (negb _); [by apply accounted_triggerCleanup|done].
  - by apply accounted_triggerCleanup.
  - unfold cleanup. apply accounted_requestGarbageCollection.
    unfold accounted. cbn. repeat split; apply NoDup_nil_2.
Qed.

(** Accounting.  Start from a new manager and make any sequence of calls
    to [registerBlob], [unregisterBlob], [createObjectURL],
    [revokeObjectURL], [hasAvailableMemory], [triggerCleanup] and
    [cleanup], under any host conditions.  If no call registers a blob
    that is tracked at that moment, then afterwards
    [currentMemoryEstimate] is exactly the sum of the sizes of the tracked
    blobs, and neither set holds an element twice. *)
Theorem estimate_is_total_of_tracked (maxMemory : Z) (cs : list (Host * Call)) :
  registersUntracked (new maxMemory) cs →
  currentMemoryEstimate (calls (new maxMemory) cs)
  = totalSize (activeBlobs (calls (new maxMemory) cs))
  ∧ NoDup (activeBlobs (calls (new maxMemory) cs))
  ∧ NoDup (objectURLs (calls (new maxMemory) cs)).
Proof.
  assert (accounted (new maxMemory)) as H0.
  { unfold accounted. cbn. repeat split; apply NoDup_nil_2. }
  revert H0. generalize (new maxMemory). unfold calls.
  induction cs as [|hc cs IH]; intros m Hacc Hfresh; [exact Hacc|].
  cbn [fold_left]. destruct Hfresh as [Hf Hrest].
  apply IH; [|exact Hrest]. by apply accounted_call.
Qed.

Lemma estimate_is_total_of_tracked_witness :
  registersUntracked (new 1000) session
  ∧ currentMemoryEstimate (calls (new 1000) session)
    = totalSize (activeBlobs (calls (new 1000) session))
  ∧ NoDup (activeBlobs (calls (new 1000) session))
  ∧ NoDup (objectURLs (calls (new 1000) session)).
Proof.
  assert (registersUntracked (new 1000) session) as H.
  { vm_compute. repeat split; intros Hin; repeat (apply elem_of_cons in Hin as [Hin|Hin]; [discriminate|]); by apply elem_of_nil in Hin. }
  split; [exact H|]. exact (estimate_is_total_of_tracked 1000 session H).
Defined.

Lemma elem_of_set_delete_ne {A : Type} `{EqDecision A} (x y : A) (s : list A) :
  y ∈ s → y ≠ x → y ∈ set_delete x s.
Proof. intros Hy Hne. unfold set_delete. by apply list_elem_of_filter. Qed.

Lemma estimate_unregister_all (rem : list Blob) m :
  NoDup rem → (∀ b, b ∈ rem → b ∈ activeBlobs m) →
  currentMemoryEstimate (fold_left (λ acc b, unregisterBlob (VBlob b) acc) rem m)
  = currentMemoryEstimate m - totalSize rem.
Proof.
  revert m. induction rem as [|b rem IH]; intros m Hnd Hsub.
  { cbn. lia. }
  apply NoDup_cons in Hnd as [Hb Hnd]. cbn [fold_left].
  assert (b ∈ activeBlobs m) as Hin by (apply Hsub; left).
  rewrite IH; [|done|].
  - unfold unregisterBlob. apply set_has_true in Hin as ->. cbn.
    fold (totalSize rem). lia.
  - intros c Hc. rewrite activeBlobs_unregisterBlob.
    apply elem_of_set_delete_ne; [apply Hsub; by right|]. by intros ->.
Qed.

Lemma estimate_revoke_all (us : list string) m :
  currentMemoryEstimate (fold_left (λ acc u, revokeObjectURL u acc) us m)
  = currentMemoryEstimate m.
Proof.
  revert m. induction us as [|u us IH]; intros m; [done|]. cbn [fold_left].
  rewrite IH. unfold revokeObjectURL. by destruct (set_has u (objectURLs m)).
Qed.

Lemma urls_revoke_all (us : list string) m :
  NoDup us → (∀ u, u ∈ us → u ∈ objectURLs m) →
  objectURLs (fold_left (λ acc u, revokeObjectURL u acc) us m)
  = filter (λ y, y ∉ us) (objectURLs m)
  ∧ revoked (fold_left (λ acc u, revokeObjectURL u acc) us m) = revoked m ++ us.
Proof.
  revert m. induction us as [|u us IH]; intros m Hnd Hsub.
  { cbn [fold_left]. rewrite app_nil_r. split; [|done].
    symmetry. apply filter_all_True. intros y _. apply not_elem_of_nil. }
  apply NoDup_cons in Hnd as [Hu Hnd]. cbn [fold_left].
  assert (u ∈ objectURLs m) as Hin by (apply Hsub; left).
  assert (revokeObjectURL u m
          = set_urls m (set_delete u (objectURLs m)) (revoked m ++ [u])) as ->.
  { unfold revokeObjectURL. by apply set_has_true in Hin as ->. }
  destruct (IH (set_urls m (set_delete u (objectURLs m)) (revoked m ++ [u])) Hnd)
    as [-> ->].
  - intros v Hv. cbn. apply elem_of_set_delete_ne; [apply Hsub; by right|].
    by intros ->.
  - cbn. split; [|by rewrite <- app_assoc].
    unfold set_delete. rewrite (list_filter_filter _ _ (objectURLs m)).
    apply list_filter_iff. intros y. rewrite not_elem_of_cons. tauto.
Qed.

Lemma gcRequests_revoke_all (us : list string) m :
  gcRequests (fold_left (λ acc u, revokeObjectURL u acc) us m) = gcRequests m.
Proof.
  revert m. induction us as [|u us IH]; intros m; [done|]. cbn [fold_left].
  rewrite IH. unfold revokeObjectURL. by destruct (set_has u (objectURLs m)).
Qed.

Lemma gcRequests_unregister_all (rem : list Blob) m :
  gcRequests (fold_left (λ acc b, unregisterBlob (VBlob b) acc) rem m) = gcRequests m.
Proof.
  revert m. induction rem as [|b rem IH]; intros m; [done|]. cbn [fold_left].
  rewrite IH. unfold unregisterBlob. by destruct (set_has b (activeBlobs m)).
Qed.

Lemma filter_notin_orphaned h (us : list string) :
  filter (λ y, y ∉ List.filter (orphaned h) us) us
  = List.filter (λ u, negb (orphaned h u)) us.
Proof.
  assert (∀ l : list string,
            (∀ y, y ∈ l → (y ∉ List.filter (orphaned h) us ↔ orphaned h y = false)) →
            filter (λ y, y ∉ List.filter (orphaned h) us) l
            = List.filter (λ u, negb (orphaned h u)) l) as Hgen.
  { induction l as [|y l IH]; intros Hl; [done|].
    rewrite filter_cons. cbn [List.filter].
    assert (y ∉ List.filter (orphaned h) us ↔ orphaned h y = false) as Hy
      by (apply Hl; left).
    rewrite IH by (intros z Hz; apply Hl; by right).
    destruct (orphaned h y) eqn:Ho; cbn [negb].
    - rewrite decide_False; [done|]. rewrite Hy. done.
    - rewrite decide_True; [done|]. by rewrite Hy. }
  apply Hgen. intros y Hy. rewrite list_elem_of_In, filter_In, <- list_elem_of_In.
  destruct (orphaned h y); split; try done.
  - intros Hn. elim Hn. by split.
  - intros _ [_ [=]].
Qed.

(** What [triggerCleanup] does, for a manager whose sets hold no element
    twice.  It keeps the first [⌊0.3 × n⌋] of the [n] tracked blobs in
    insertion order (the ones registered earliest) and unregisters all
    later ones, lowering the estimate by exactly their total size.  It
    revokes, in insertion order, exactly the tracked URLs that no [img]
    element of the document shows, and keeps the others.  It asks for a
    garbage collection exactly when the host exposes [window.gc]. *)
Theorem triggerCleanup_effect h m :
  NoDup (activeBlobs m) → NoDup (objectURLs m) →
  activeBlobs (triggerCleanup h m) = take (keepCount m) (activeBlobs m)
  ∧ Z.of_nat (keepCount m) = (3 * Z.of_nat (length (activeBlobs m))) / 10
  ∧ currentMemoryEstimate (triggerCleanup h m)
    = currentMemoryEstimate m - totalSize (drop (keepCount m) (activeBlobs m))
  ∧ objectURLs (triggerCleanup h m)
    = List.filter (λ u, bool_decide (u ∈ imgSrcs h)) (objectURLs m)
  ∧ revoked (triggerCleanup h m)
    = revoked m ++ List.filter (λ u, negb (bool_decide (u ∈ imgSrcs h))) (objectURLs m)
  ∧ gcRequests (triggerCleanup h m)
    = (if gcExposed h then S (gcRequests m) else gcRequests m).
Proof.
  intros Hnb Hnu.
  split; [by apply triggerCleanup_keeps_first|].
  split; [apply keepCount_floor|].
  unfold triggerCleanup.
  set (m1 := fold_left (λ acc b, unregisterBlob (VBlob b) acc) (blobsToRemove m) m).
  destruct (urls_unregister_all (blobsToRemove m) m) as [Hu1 Hr1]. fold m1 in Hu1, Hr1.
  assert (currentMemoryEstimate m1
          = currentMemoryEstimate m - totalSize (drop (keepCount m) (activeBlobs m)))
    as He1.
  { subst m1. unfold blobsToRemove. apply estimate_unregister_all.
    - rewrite <- (take_drop (keepCount m) (activeBlobs m)) in Hnb.
      by apply NoDup_app in Hnb as (_ & _ & Hd).
    - intros b Hb. by apply (subseteq_drop (keepCount m) (activeBlobs m)). }
  set (us := urlsToRevoke h m1).
  assert (NoDup us) as Hnus.
  { subst us. unfold urlsToRevoke. rewrite Hu1.
    by apply NoDup_ListNoDup, List.NoDup_filter, NoDup_ListNoDup. }
  assert (∀ u, u ∈ us → u ∈ objectURLs m1) as Hsub.
  { intros u Hu. subst us. unfold urlsToRevoke in Hu.
    apply list_elem_of_In, filter_In in Hu as [Hu _]. by apply list_elem_of_In. }
  destruct (urls_revoke_all us m1 Hnus Hsub) as [Hu2 Hr2].
  pose proof (estimate_revoke_all us m1) as He2.
  set (m2 := fold_left (λ acc u, revokeObjectURL u acc) us m1) in *.
  assert (gcRequests m2 = gcRequests m) as Hg.
  { subst m2 m1. by rewrite gcRequests_revoke_all, gcRequests_unregister_all. }
  assert (objectURLs m2 = List.filter (λ u, bool_decide (u ∈ imgSrcs h)) (objectURLs m))
    as Hu3.
  { rewrite Hu2. subst us. unfold urlsToRevoke. rewrite Hu1.
    rewrite filter_notin_orphaned. apply List.filter_ext. intros u.
    unfold orphaned. by rewrite negb_involutive. }
  assert (revoked m2
          = revoked m ++ List.filter (λ u, negb (bool_decide (u ∈ imgSrcs h)))
                           (objectURLs m)) as Hr3.
  { rewrite Hr2, Hr1. subst us. unfold urlsToRevoke. by rewrite Hu1. }
  unfold requestGarbageCollection. destruct (gcExposed h); cbn;
    rewrite ?He2, ?He1, ?Hu3, ?Hr3, ?Hg; by repeat split.
Qed.

Lemma triggerCleanup_effect_witness :
  NoDup (activeBlobs twoPictures) ∧ NoDup (objectURLs twoPictures)
  ∧ activeBlobs (triggerCleanup pictureHost twoPictures)
    = take (keepCount twoPictures) (activeBlobs twoPictures)
  ∧ Z.of_nat (keepCount twoPictures)
    = (3 * Z.of_nat (length (activeBlobs twoPictures))) / 10
  ∧ currentMemoryEstimate (triggerCleanup pictureHost twoPictures)
    = currentMemoryEstimate twoPictures
      - totalSize (drop (keepCount twoPictures) (activeBlobs twoPictures))
  ∧ objectURLs (triggerCleanup pictureHost twoPictures)
    = List.filter (λ u, bool_decide (u ∈ imgSrcs pictureHost)) (objectURLs twoPictures)
  ∧ revoked (triggerCleanup pictureHost twoPictures)
    = revoked twoPictures
      ++ List.filter (λ u, negb (bool_decide (u ∈ imgSrcs pictureHost)))
           (objectURLs twoPictures)
  ∧ gcRequests (triggerCleanup pictureHost twoPictures)
    = (if gcExposed pictureHost then S (gcRequests twoPictures)
       else gcRequests twoPictures).
Proof.
  assert (NoDup (activeBlobs twoPictures)) as H1.
  { vm_compute. repeat constructor; intros Hin;
      repeat (apply elem_of_cons in Hin as [Hin|Hin]; [discriminate|]);
      by apply elem_of_nil in Hin. }
  assert (NoDup (objectURLs twoPictures)) as H2.
  { vm_compute. repeat constructor; intros Hin;
      repeat (apply elem_of_cons in Hin as [Hin|Hin]; [discriminate|]);
      by apply elem_of_nil in Hin. }
  split; [exact H1|]. split; [exact H2|].
  exact (triggerCleanup_effect pictureHost twoPictures H1 H2).
Defined.

(** [revokeObjectURL] does not undo [createObjectURL].  For a URL and a
    blob that are not tracked yet, creating the URL and then revoking it
    restores the URL set and revokes the URL, but the blob stays tracked
    and the estimate stays raised by the blob's size. *)
Theorem revokeObjectURL_keeps_blob (url : string) b m :
  url ∉ objectURLs m → b ∉ activeBlobs m →
  objectURLs (revokeObjectURL url (createObjectURL url b m)) = objectURLs m
  ∧ revoked (revokeObjectURL url (createObjectURL url b m)) = revoked m ++ [url]
  ∧ activeBlobs (revokeObjectURL url (createObjectURL url b m)) = activeBlobs m ++ [b]
  ∧ currentMemoryEstimate (revokeObjectURL url (createObjectURL url b m))
    = currentMemoryEstimate m + blob_size b.
Proof.
  intros Hu Hb. unfold createObjectURL, registerBlob, revokeObjectURL.
  cbn [activeBlobs objectURLs revoked currentMemoryEstimate set_urls set_blobs].
  unfold set_add. apply set_has_false in Hu as Hu'. rewrite Hu'.
  apply set_has_false in Hb as ->.
  assert (set_has url (objectURLs m ++ [url]) = true) as ->.
  { apply set_has_true, elem_of_app. right. by left. }
  cbn [activeBlobs objectURLs revoked currentMemoryEstimate set_urls set_blobs].
  by rewrite set_delete_app_last.
Qed.

Lemma revokeObjectURL_keeps_blob_witness :
  ("blob:a"%string ∉ objectURLs (new 1000)) ∧ (someBlob ∉ activeBlobs (new 1000))
  ∧ objectURLs (revokeObjectURL "blob:a" (createObjectURL "blob:a" someBlob (new 1000)))
    = objectURLs (new 1000)
  ∧ revoked (revokeObjectURL "blob:a" (createObjectURL "blob:a" someBlob (new 1000)))
    = revoked (new 1000) ++ ["blob:a"%string]
  ∧ activeBlobs (revokeObjectURL "blob:a" (createObjectURL "blob:a" someBlob (new 1000)))
    = activeBlobs (new 1000) ++ [someBlob]
  ∧ currentMemoryEstimate
      (revokeObjectURL "blob:a" (createObjectURL "blob:a" someBlob (new 1000)))
    = currentMemoryEstimate (new 1000) + blob_size someBlob.
Proof.
  assert ("blob:a"%string ∉ objectURLs (new 1000)) as H1 by apply not_elem_of_nil.
  assert (someBlob ∉ activeBlobs (new 1000)) as H2 by apply not_elem_of_nil.
  split; [exact H1|]. split; [exact H2|].
  exact (revokeObjectURL_keeps_blob "blob:a" someBlob (new 1000) H1 H2).
Defined.

End MemoryManagerAccounting.

(** ** Chunked processor *)

Section ChunkedProcessorFacts.
Import ChunkedProcessor.
Context {A : Type}.
Implicit Types (items : list A).

Lemma createChunksFrom_spec (chunkSize : nat) items :
  (0 < chunkSize)%nat →
  ∀ fuel i, (length items - i < fuel)%nat →
    ∃ chunks,
      createChunksFrom fuel chunkSize i items = Some chunks
      ∧ concat chunks = drop i items
      ∧ Forall (λ c, 0 < length c <= chunkSize)%nat chunks
      ∧ (∀ k c, chunks !! k = Some c →
           c = take chunkSize (drop (i + k * chunkSize) items))
      ∧ (length chunks * chunkSize < length items - i + chunkSize)%nat
      ∧ (length items - i <= length chunks * chunkSize)%nat.
Proof.
  intros Hcs fuel. induction fuel as [|fuel IH]; intros i Hfuel; [lia|].
  cbn [createChunksFrom]. destruct (i <? length items)%nat eqn:Hi.
  - apply Nat.ltb_lt in Hi.
    destruct (IH (i + chunkSize)%nat) as (chunks & -> & Hcat & Hall & Hnth & Hlen1 & Hlen2);
      [lia|].
    eexists. split; [reflexivity|].
    assert (slice i (i + chunkSize) items = take chunkSize (drop i items)) as Hslice.
    { unfold slice. f_equal. lia. }
    rewrite Hslice. split; [|split; [|split; [|split]]].
    + cbn [concat]. rewrite Hcat.
      rewrite <- (take_drop chunkSize (drop i items)) at 2.
      by rewrite drop_drop.
    + constructor; [|done]. rewrite length_take, length_drop. lia.
    + intros [|k] c Hk.
      * injection Hk as <-. by rewrite Nat.add_0_r.
      * cbn in Hk. rewrite (Hnth k c Hk). do 2 f_equal. lia.
    + cbn [length]. rewrite Nat.mul_succ_l.
      assert (length chunks * chunkSize = 0 ∨ chunkSize <= length chunks * chunkSize)%nat
        as [H0|H0] by (destruct (length chunks); [by left|right; cbn; lia]); lia.
    + cbn [length]. rewrite Nat.mul_succ_l. lia.
  - apply Nat.ltb_ge in Hi. exists []. split; [done|].
    split; [by rewrite drop_ge|]. split; [constructor|].
    split; [intros k c Hk; by rewrite lookup_nil in Hk|].
    cbn [length]. lia.
Qed.

(** [createChunks] with a positive chunk size.  The loop ends (any bound
    above the number of items is enough) and the chunks, concatenated in
    order, give back the items: nothing is lost, repeated or reordered.
    Chunk number [k] is the slice of [chunkSize] items that starts at
    index [k × chunkSize]; every chunk is non-empty and holds at most
    [chunkSize] items, and there are [⌈n / chunkSize⌉] chunks. *)
Theorem createChunks_partitions (chunkSize : nat) items :
  (0 < chunkSize)%nat →
  ∃ chunks,
    (∀ fuel, (length items < fuel)%nat → createChunks fuel chunkSize items = Some chunks)
    ∧ concat chunks = items
    ∧ Forall (λ c, 0 < length c <= chunkSize)%nat chunks
    ∧ (∀ k c, chunks !! k = Some c → c = take chunkSize (drop (k * chunkSize) items))
    ∧ length chunks = ((length items + chunkSize - 1) / chunkSize)%nat.
Proof.
  intros Hcs.
  destruct (createChunksFrom_spec chunkSize items Hcs (S (length items)) 0)
    as (chunks & Hrun & Hcat & Hall & Hnth & Hlen1 & Hlen2); [lia|].
  exists chunks. split; [|split; [|split; [|split]]]; try done.
  - intros fuel Hfuel. unfold createChunks.
    destruct (createChunksFrom_spec chunkSize items Hcs fuel 0)
      as (chunks' & Hrun' & Hcat' & _ & Hnth' & Hl1 & Hl2); [lia|].
    rewrite Hrun'. f_equal.
    apply list_eq. intros k.
    assert (length chunks' = length chunks) as Hlen by nia.
    destruct (chunks' !! k) as [c'|] eqn:Hk'.
    + destruct (chunks !! k) as [c|] eqn:Hk.
      * by rewrite (Hnth' k c' Hk'), (Hnth k c Hk).
      * apply lookup_lt_Some in Hk'. apply lookup_ge_None in Hk. lia.
    + destruct (chunks !! k) as [c|] eqn:Hk; [|done].
      apply lookup_lt_Some in Hk. apply lookup_ge_None in Hk'. lia.
  - rewrite Nat.sub_0_r in Hlen1, Hlen2.
    apply (Nat.div_unique _ _ _ (length items + chunkSize - 1 - length chunks * chunkSize));
      lia.
Qed.

End ChunkedProcessorFacts.

Section ChunkedProcessorExamples.
Import ChunkedProcessor.

Lemma createChunks_partitions_witness :
  (0 < 2)%nat
  ∧ ∃ chunks : list (list nat),
      (∀ fuel, (length [1; 2; 3; 4; 5]%nat < fuel)%nat →
         createChunks fuel 2 [1; 2; 3; 4; 5]%nat = Some chunks)
      ∧ concat chunks = [1; 2; 3; 4; 5]%nat
      ∧ Forall (λ c, 0 < length c <= 2)%nat chunks
      ∧ (∀ k c, chunks !! k = Some c → c = take 2 (drop (k * 2) [1; 2; 3; 4; 5]%nat))
      ∧ length chunks = ((length [1; 2; 3; 4; 5]%nat + 2 - 1) / 2)%nat.
Proof.
  assert (0 < 2)%nat as H by lia.
  split; [exact H|].
  exact (@createChunks_partitions nat 2 [1; 2; 3; 4; 5]%nat H).
Defined.

(** With a chunk size of zero the loop variable never advances: on a
    non-empty array the loop does not end, whatever the bound. *)
Lemma createChunks_zero_diverges {A : Type} (items : list A) (fuel : nat) :
  items ≠ [] → createChunks fuel 0 items = None.
Proof.
  intros Hne. unfold createChunks. induction fuel as [|fuel IH]; [done|].
  cbn [createChunksFrom]. destruct items as [|x items]; [done|].
  cbn [length]. change (0 <? S (length items))%nat with true. cbn iota.
  rewrite Nat.add_0_r. by rewrite IH.
Qed.

Lemma retryLoop_all_reject {V E : Type} (maxRetries retryDelay retryBackoff : Z)
    (outcome : nat → Attempt V E) (error : nat → E) :
  (∀ k, outcome k = Rejects (error k)) →
  ∀ iterations itemAttempt itemError waited,
    Z.of_nat (itemAttempt + iterations) = maxRetries + 1 →
    (0 < iterations)%nat →
    retryLoop iterations maxRetries retryDelay retryBackoff outcome
      itemAttempt itemError waited
    = {| ending := Thrown (Some (error (itemAttempt + iterations - 1)%nat));
         calls := (itemAttempt + iterations)%nat;
         delays := waited
                   ++ List.map (λ i, retryDelay * retryBackoff ^ Z.of_nat i)
                        (seq itemAttempt (iterations - 1)) |}.
Proof.
  intros Hall. induction iterations as [|n IH]; intros i err waited Hlen Hpos; [lia|].
  cbn [retryLoop]. rewrite Hall.
  destruct n as [|n].
  - cbn [retryLoop]. assert ((Z.of_nat i <? maxRetries) = false) as -> by lia.
    cbn [seq List.map]. rewrite app_nil_r. do 2 f_equal; [do 2 f_equal|]; lia.
  - assert ((Z.of_nat i <? maxRetries) = true) as -> by lia.
    rewrite IH by lia.
    replace (S i + S n - 1)%nat with (i + S (S n) - 1)%nat by lia.
    replace (S i + S n)%nat with (i + S (S n))%nat by lia.
    f_equal. rewrite <- app_assoc. f_equal.
    replace (S (S n) - 1)%nat with (S n) by lia.
    replace (S n - 1)%nat with n by lia. reflexivity.
Qed.

Lemma retryLoop_first_success {V E : Type} (maxRetries retryDelay retryBackoff : Z)
    (outcome : nat → Attempt V E) (k : nat) (v : V) :
  outcome k = Fulfils v →
  (∀ j, (j < k)%nat → ∃ e, outcome j = Rejects e) →
  Z.of_nat k <= maxRetries →
  ∀ iterations itemAttempt itemError waited,
    (itemAttempt <= k)%nat → (k < itemAttempt + iterations)%nat →
    retryLoop iterations maxRetries retryDelay retryBackoff outcome
      itemAttempt itemError waited
    = {| ending := Returned v; calls := S k;
         delays := waited
                   ++ List.map (λ i, retryDelay * retryBackoff ^ Z.of_nat i)
                        (seq itemAttempt (k - itemAttempt)) |}.
Proof.
  intros Hk Hbefore Hmax.
  induction iterations as [|n IH]; intros i err waited Hi Hn; [lia|].
  cbn [retryLoop]. destruct (decide (i = k)) as [->|Hne].
  - rewrite Hk. rewrite Nat.sub_diag. cbn [seq List.map]. by rewrite app_nil_r.
  - destruct (Hbefore i) as [e ->]; [lia|].
    assert ((Z.of_nat i <? maxRetries) = true) as -> by lia.
    rewrite IH by lia. f_equal. rewrite <- app_assoc. f_equal.
    replace (k - i)%nat with (S (k - S i)) by lia. reflexivity.
Qed.

(** The per-item retry wrapper of [processWithRetry], for an integer
    [maxRetries ≥ 0].  If every call of the processor rejects, the
    processor is called exactly [maxRetries + 1] times, the wrapper waits
    [retryDelay × retryBackoff^i] after failure number [i] for
    [i = 0 … maxRetries - 1] (no wait after the last failure) and throws
    the error of the last call.  If call number [k ≤ maxRetries] is the
    first to fulfil, the wrapper returns its value after exactly [k + 1]
    calls and [k] waits, and the processor is not called again. *)
Theorem retryingProcessor_attempts {V E : Type}
    (maxRetries retryDelay retryBackoff : Z) (outcome : nat → Attempt V E) :
  0 <= maxRetries →
  (∀ error : nat → E,
     (∀ k, outcome k = Rejects (error k)) →
     retryingProcessor maxRetries retryDelay retryBackoff outcome
     = {| ending := Thrown (Some (error (Z.to_nat maxRetries)));
          calls := Z.to_nat (maxRetries + 1);
          delays := backoffDelays retryDelay retryBackoff (Z.to_nat maxRetries) |})
  ∧ (∀ k v,
       outcome k = Fulfils v →
       (∀ j, (j < k)%nat → ∃ e, outcome j = Rejects e) →
       Z.of_nat k <= maxRetries →
       retryingProcessor maxRetries retryDelay retryBackoff outcome
       = {| ending := Returned v; calls := S k;
            delays := backoffDelays retryDelay retryBackoff k |}).
Proof.
  intros Hmax. split.
  - intros error Hall. unfold retryingProcessor, backoffDelays.
    rewrite (retryLoop_all_reject _ _ _ _ error Hall) by lia.
    cbn [app Nat.add]. f_equal; [do 3 f_equal; lia|do 2 f_equal; lia].
  - intros k v Hk Hbefore Hle. unfold retryingProcessor, backoffDelays.
    rewrite (retryLoop_first_success _ _ _ _ k v Hk Hbefore Hle) by lia.
    cbn [app]. by rewrite Nat.sub_0_r.
Qed.

Lemma retryingProcessor_attempts_witness :
  0 <= 2
  ∧ (∀ error : nat → string,
       (∀ k, failsTwice k = Rejects (error k)) →
       retryingProcessor 2 1000 2 failsTwice
       = {| ending := Thrown (Some (error (Z.to_nat 2)));
            calls := Z.to_nat (2 + 1);
            delays := backoffDelays 1000 2 (Z.to_nat 2) |})
  ∧ (∀ k v,
       failsTwice k = Fulfils v →
       (∀ j, (j < k)%nat → ∃ e, failsTwice j = Rejects e) →
       Z.of_nat k <= 2 →
       retryingProcessor 2 1000 2 failsTwice
       = {| ending := Returned v; calls := S k;
            delays := backoffDelays 1000 2 k |}).
Proof.
  assert (0 <= 2) as H by lia.
  split; [exact H|].
  exact (retryingProcessor_attempts 2 1000 2 failsTwice H).
Defined.

(** With the defaults (two retries, 1000 ms, factor 2) a processor that
    fails twice is called three times, after waits of 1000 and 2000 ms;
    with a negative [maxRetries] it is never called and the wrapper throws
    [undefined]. *)
Example retryingProcessor_examples :
  retryingProcessor 2 1000 2 failsTwice
  = {| ending := Returned 7; calls := 3; delays := [1000; 2000] |}
  ∧ retryingProcessor (-1) 1000 2 failsTwice
    = {| ending := Thrown None; calls := 0; delays := [] |}.
Proof. by vm_compute. Qed.

End ChunkedProcessorExamples.

(** ** HEIC converter wrapper *)

Section SimpleHeicConverterFacts.
Import SimpleHeicConverter.

Lemma hasSignature_true (content : Bytes) :
  hasSignature content = true
  ↔ (12 <= length content)%nat
    ∧ fourCC content 4 = "ftyp"%string
    ∧ fourCC content 8 ∈ heicBrands.
Proof.
  unfold hasSignature. destruct (length content <? 12)%nat eqn:Hlen.
  - apply Nat.ltb_lt in Hlen. split; [done|]. intros [? _]. lia.
  - apply Nat.ltb_ge in Hlen.
    destruct (String.eqb (fourCC content 4) "ftyp") eqn:Hf; cbn [negb].
    + apply String.eqb_eq in Hf. rewrite bool_decide_eq_true. tauto.
    + apply String.eqb_neq in Hf. split; [done|]. by intros (_ & ? & _).
Qed.

Lemma fourCC_window (content content' : Bytes) (k : nat) :
  (k <= 4)%nat →
  take 8 (drop 4 content) = take 8 (drop 4 content') →
  fourCC content (4 + k) = fourCC content' (4 + k).
Proof.
  intros Hk Heq. unfold fourCC. f_equal.
  rewrite <- !drop_drop.
  rewrite (take_drop_commute (drop 4 content) 4 k),
    (take_drop_commute (drop 4 content') 4 k).
  assert (∀ l : Bytes, take (k + 4) l = take (k + 4) (take 8 l)) as Htake.
  { intros l. rewrite take_take. f_equal. lia. }
  rewrite (Htake (drop 4 content)), (Htake (drop 4 content')). by rewrite Heq.
Qed.

(** [isHEIC] answers true exactly when it gets bytes to inspect, there
    are at least 12 of them, bytes 4 to 7 spell [ftyp] and bytes 8 to 11
    spell one of the nine accepted brands.  A blob whose read fails and a
    value of another type are rejected.  The answer depends on bytes 4 to
    11 only: not on the box size in bytes 0 to 3, and not on anything
    after byte 11.  For a [Uint8Array] the bytes inspected are those of
    the underlying buffer from its start, whatever window the view
    shows. *)
Theorem isHEIC_signature (input : Input) :
  (isHEIC input = true
   ↔ ∃ content, inspected input = Some content
       ∧ (12 <= length content)%nat
       ∧ fourCC content 4 = "ftyp"%string
       ∧ fourCC content 8 ∈ heicBrands)
  ∧ (∀ content content',
       (12 <= length content)%nat → (12 <= length content')%nat →
       take 8 (drop 4 content) = take 8 (drop 4 content') →
       isHEIC (FromArrayBuffer content) = isHEIC (FromArrayBuffer content'))
  ∧ (∀ buffer byteOffset viewLength,
       isHEIC (FromUint8Array buffer byteOffset viewLength)
       = isHEIC (FromArrayBuffer buffer)).
Proof.
  split; [|split].
  - destruct input as [[content|]|content|buffer off len|]; cbn [isHEIC inspected].
    + rewrite hasSignature_true. split.
      * intros H. by exists content.
      * by intros (c & [= <-] & H).
    + split; [done|]. by intros (c & [=] & _).
    + rewrite hasSignature_true. split.
      * intros H. by exists content.
      * by intros (c & [= <-] & H).
    + rewrite hasSignature_true. split.
      * intros H. by exists buffer.
      * by intros (c & [= <-] & H).
    + split; [done|]. by intros (c & [=] & _).
  - intros content content' Hl Hl' Heq. cbn [isHEIC]. unfold hasSignature.
    assert ((length content <? 12)%nat = false) as -> by (apply Nat.ltb_ge; lia).
    assert ((length content' <? 12)%nat = false) as -> by (apply Nat.ltb_ge; lia).
    pose proof (fourCC_window content content' 0 ltac:(lia) Heq) as H4.
    pose proof (fourCC_window content content' 4 ltac:(lia) Heq) as H8.
    cbn [Nat.add] in H4, H8. by rewrite H4, H8.
  - done.
Qed.

(** A well-formed header is accepted; the same header behind four more
    bytes is not, and neither is a view that shows it there. *)
Example isHEIC_examples :
  isHEIC (FromArrayBuffer heicHeader) = true
  ∧ isHEIC (FromArrayBuffer (list_ascii_of_string "JUNK" ++ heicHeader)) = false
  ∧ isHEIC (FromUint8Array (list_ascii_of_string "JUNK" ++ heicHeader) 4 16) = false
  ∧ isHEIC (FromArrayBuffer (take 11 heicHeader)) = false.
Proof. by vm_compute. Qed.

Lemma convertFrom_all_resolved (format : Format) (conversions : list Outcome)
    (i : nat) started results :
  Forall (λ o, isRejected o = false) conversions →
  convertFrom format i conversions started results
  = {| converted := started ++ List.map (λ j, (j, format)) (seq i (length conversions));
       outcome := inl (results ++ omap blobOf conversions) |}.
Proof.
  revert i started results.
  induction conversions as [|o rest IH]; intros i started results Hall.
  - cbn. by rewrite !app_nil_r.
  - apply Forall_cons in Hall as [Ho Hall]. destruct o as [blob|message]; [|done].
    cbn [convertFrom]. rewrite IH by done. cbn [length seq List.map omap blobOf].
    by rewrite <- !app_assoc.
Qed.

Lemma convertFrom_first_rejected (format : Format) (conversions : list Outcome)
    (k : nat) (message : string) :
  conversions !! k = Some (Rejected message) →
  (∀ j o, (j < k)%nat → conversions !! j = Some o → isRejected o = false) →
  ∀ i started results,
    convertFrom format i conversions started results
    = {| converted := started ++ List.map (λ j, (j, format)) (seq i (S k));
         outcome := inr (S (i + k), message) |}.
Proof.
  revert k. induction conversions as [|o rest IH]; intros k Hk Hbefore i started results;
    [done|].
  destruct k as [|k].
  - injection Hk as ->. cbn [convertFrom seq List.map]. by rewrite Nat.add_0_r.
  - assert (isRejected o = false) as Ho by (apply (Hbefore 0%nat); [lia|done]).
    destruct o as [blob|m]; [|done]. cbn [convertFrom].
    rewrite (IH k); [| done |].
    + cbn [seq List.map]. rewrite <- app_assoc. do 3 f_equal. lia.
    + intros j o Hj Hl. apply (Hbefore (S j)); [lia|done].
Qed.

(** [convertBatch] converts the files one after the other and stops at
    the first failure.  If every conversion succeeds it returns the
    blobs, one per file, in the order of the files.  If the conversion of
    file number [k] (counting from 0) is the first to fail, it throws an
    error that names file [k + 1] and carries the message of that
    failure; the blobs already made are dropped, and no later file is
    converted.  Every file is converted to PNG when the format asked for
    is [png] in any letter case, and to JPEG for any other format. *)
Theorem convertBatch_stops_at_first_failure (conversions : list Outcome)
    (outputFormat : string) :
  (Forall (λ o, isRejected o = false) conversions →
     convertBatch conversions outputFormat
     = {| converted := List.map (λ j, (j, formatFor outputFormat))
                         (seq 0 (length conversions));
          outcome := inl (omap blobOf conversions) |}
     ∧ length (omap blobOf conversions) = length conversions)
  ∧ (∀ k message,
       conversions !! k = Some (Rejected message) →
       (∀ j o, (j < k)%nat → conversions !! j = Some o → isRejected o = false) →
       convertBatch conversions outputFormat
       = {| converted := List.map (λ j, (j, formatFor outputFormat)) (seq 0 (S k));
            outcome := inr (S k, message) |})
  ∧ (formatFor outputFormat = PNG ↔ Queue.toLowerCase outputFormat = "png"%string)
  ∧ (formatFor outputFormat = JPEG ↔ Queue.toLowerCase outputFormat ≠ "png"%string).
Proof.
  split; [|split; [|split]].
  - intros Hall. unfold convertBatch. rewrite convertFrom_all_resolved by done.
    split; [done|]. clear -Hall. induction conversions as [|o rest IH]; [done|].
    apply Forall_cons in Hall as [Ho Hall]. destruct o; [|done].
    change (omap blobOf (Resolved outputSize :: rest))
      with (outputSize :: omap blobOf rest).
    cbn [length]. by rewrite IH.
  - intros k message Hk Hbefore. unfold convertBatch.
    by rewrite (convertFrom_first_rejected _ _ k message Hk Hbefore).
  - unfold formatFor. destruct (String.eqb _ "png") eqn:He.
    + apply String.eqb_eq in He. done.
    + apply String.eqb_neq in He. done.
  - unfold formatFor. destruct (String.eqb _ "png") eqn:He.
    + apply String.eqb_eq in He. done.
    + apply String.eqb_neq in He. done.
Qed.

End SimpleHeicConverterFacts.

(** ** Progress tracker *)

Section ProgressTrackerFacts.
Import ProgressTracker.
Implicit Types (s : State) (ls : list Listener).

Lemma stats_emitEvent event s : stats (emitEvent event s) = stats s.
Proof. unfold emitEvent. by destruct (lookupEvent event (listeners s)). Qed.

Lemma listeners_emitEvent event s : listeners (emitEvent event s) = listeners s.
Proof. unfold emitEvent. by destruct (lookupEvent event (listeners s)). Qed.



Lemma stats_call s (c : Call) :
  totalFiles (stats (call s c)) = totalFiles (stats s)
  ∧ totalBytes (stats (call s c)) = totalBytes (stats s)
  ∧ processedFiles (stats (call s c))
    = processedFiles (stats s) + count isCompleteFile [c] + count isFailFile [c]
  ∧ failedFiles (stats (call s c)) = failedFiles (stats s) + count isFailFile [c]
  ∧ cancelledFiles (stats (call s c)) = cancelledFiles (stats s) + count isCancelFile [c]
  ∧ (processedBytes (stats s) <= totalBytes (stats s) →
     processedBytes (stats (call s c)) <= totalBytes (stats s)).
Proof.
  unfold count.
  destruct c; cbn [call List.filter isCompleteFile isFailFile isCancelFile length];
    unfold updateFileProgress, completeFile, failFile, cancelFile, finish, on, off;
    rewrite ?stats_emitEvent; cbn [stats set_stats totalFiles totalBytes
      processedFiles failedFiles cancelledFiles processedBytes];
    try (destruct (lookupEvent event (listeners s)); cbn [stats]);
    repeat split; lia.
Qed.

Lemma count_cons (p : Call → bool) (c : Call) (cs : list Call) :
  count p (c :: cs) = count p [c] + count p cs.
Proof. unfold count. cbn [List.filter]. destruct (p c); cbn [length]; lia. Qed.

(** The state after the calls of one tracked batch: the counters. *)
Lemma stats_calls s (cs : list Call) :
  totalFiles (stats (calls s cs)) = totalFiles (stats s)
  ∧ totalBytes (stats (calls s cs)) = totalBytes (stats s)
  ∧ processedFiles (stats (calls s cs))
    = processedFiles (stats s) + count isCompleteFile cs + count isFailFile cs
  ∧ failedFiles (stats (calls s cs)) = failedFiles (stats s) + count isFailFile cs
  ∧ cancelledFiles (stats (calls s cs)) = cancelledFiles (stats s) + count isCancelFile cs
  ∧ (processedBytes (stats s) <= totalBytes (stats s) →
     processedBytes (stats (calls s cs)) <= totalBytes (stats s)).
Proof.
  unfold calls. revert s. induction cs as [|c cs IH]; intros s.
  { unfold count. cbn. repeat split; lia. }
  cbn [fold_left]. destruct (IH (call s c)) as (Ht & Hb & Hp & Hf & Hc & Hpb).
  destruct (stats_call s c) as (Ht1 & Hb1 & Hp1 & Hf1 & Hc1 & Hpb1).
  rewrite !(count_cons _ c cs).
  rewrite Ht, Hb, Hp, Hf, Hc, Ht1, Hb1, Hp1, Hf1, Hc1.
  repeat split; try lia.
Qed.

(** Counters of a tracked batch.  After [reset] and
    [startTracking(files, bytes)], whatever sequence of progress updates,
    completions, failures, cancellations and listener registrations
    follows: [processedFiles] counts the completions and the failures,
    [failedFiles] the failures, [cancelledFiles] the cancellations; the
    batch is reported complete exactly when completions plus failures
    reach [files], so a cancelled file never counts towards completion;
    and, for a non-negative [bytes], [processedBytes] never exceeds
    [bytes]. *)
Theorem tracker_counters (s0 : State) (files bytes : Z) (cs : list Call) :
  processedFiles (stats (calls (startTracking files bytes (reset s0)) cs))
  = count isCompleteFile cs + count isFailFile cs
  ∧ failedFiles (stats (calls (startTracking files bytes (reset s0)) cs))
    = count isFailFile cs
  ∧ cancelledFiles (stats (calls (startTracking files bytes (reset s0)) cs))
    = count isCancelFile cs
  ∧ (isComplete (calls (startTracking files bytes (reset s0)) cs) = true
     ↔ files <= count isCompleteFile cs + count isFailFile cs)
  ∧ (0 <= bytes →
     processedBytes (stats (calls (startTracking files bytes (reset s0)) cs)) <= bytes).
Proof.
  set (s1 := startTracking files bytes (reset s0)).
  assert (stats s1 = {| totalFiles := files; processedFiles := 0; failedFiles := 0;
                        cancelledFiles := 0; totalBytes := bytes; processedBytes := 0 |})
    as Hs1.
  { subst s1. unfold startTracking. by rewrite stats_emitEvent. }
  destruct (stats_calls s1 cs) as (Ht & Hb & Hp & Hf & Hc & Hpb).
  rewrite Hs1 in Ht, Hb, Hp, Hf, Hc, Hpb.
  cbn [totalFiles processedFiles failedFiles cancelledFiles totalBytes processedBytes]
    in Ht, Hb, Hp, Hf, Hc, Hpb.
  unfold isComplete. rewrite Ht, Hp, Hf, Hc.
  repeat split; lia.
Qed.




End ProgressTrackerFacts.

(** ** Single-file worker *)

Section SingleWorkerFacts.
Import SingleWorker.
Implicit Types (s : State) (r : Request).

Ltac crunch :=
  unfold resultCount, ackCount, catchError, sendProgress, post, park in *;
  repeat (first
    [ case_bool_decide
    | match goal with
      | |- context [if ?b then _ else _] => destruct b eqn:?
      end ]);
  cbn [outbox parked isCancelled];
  rewrite ?List.filter_app, ?length_app;
  cbn [List.filter isResult isCancelAck length];
  try lia.

Lemma step_tally s (i : Input) :
  (resultCount (step s i) + length (parked (step s i))
   = resultCount s + length (parked s) + (if isConvertInput i then 1 else 0))%nat
  ∧ (ackCount (step s i) = ackCount s + (if isCancelInput i then 1 else 0))%nat.
Proof.
  destruct i as [c|k o|k elapsed]; cbn [step isConvertInput isCancelInput].
  - destruct c as [r| |]; cbn [onmessage]; split; crunch.
  - destruct (parked s !! k) as [[r p]|] eqn:Hk; [|lia].
    assert (length (parked (unpark k s)) + 1 = length (parked s))%nat as Hlen.
    { unfold unpark. cbn [parked]. rewrite length_delete by (by eexists).
      apply lookup_lt_Some in Hk. lia. }
    assert (outbox (unpark k s) = outbox s) as Hout by done.
    assert (resultCount (unpark k s) = resultCount s) as Hres
      by (unfold resultCount; by rewrite Hout).
    assert (ackCount (unpark k s) = ackCount s) as Hack
      by (unfold ackCount; by rewrite Hout).
    rewrite <- Hlen, <- Hres, <- Hack. generalize (unpark k s). intros s1.
    destruct p as [| |out|out]; cbv zeta.
    + unfold afterFileRead; split; crunch.
    + unfold afterConverter; destruct o; split; crunch.
    + unfold afterEncode; split; crunch.
    + unfold afterOptimize; split; crunch.
  - destruct (parked s !! k) as [[r [| | |]]|]; try lia.
    unfold intervalTick. split; crunch.
Qed.

(** One result per conversion.  Whatever the worker receives and in
    whatever order its awaited operations settle: every [convert] request
    that has run to its end has posted exactly one result message
    (success or failure), and a request still waiting has posted none, so
    results plus waiting requests equal the [convert] requests received;
    and every [cancel] command is acknowledged by one [cancelled] message
    of its own, posted at once.  A conversion that is cancelled therefore
    accounts for two messages, the acknowledgement and its own failure
    result. *)
Theorem one_result_per_conversion (inputs : list Input) :
  (resultCount (run init inputs) + length (parked (run init inputs))
   = length (List.filter isConvertInput inputs))%nat
  ∧ ackCount (run init inputs) = length (List.filter isCancelInput inputs)
  ∧ terminalCount (run init inputs)
    = (resultCount (run init inputs) + ackCount (run init inputs))%nat.
Proof.
  assert (∀ s,
            (resultCount (run s inputs) + length (parked (run s inputs))
             = resultCount s + length (parked s)
               + length (List.filter isConvertInput inputs))%nat
            ∧ (ackCount (run s inputs)
               = ackCount s + length (List.filter isCancelInput inputs))%nat) as Hrun.
  { unfold run. induction inputs as [|i inputs IH]; intros s; [cbn; lia|].
    cbn [fold_left List.filter]. destruct (IH (step s i)) as [-> ->].
    destruct (step_tally s i) as [-> ->].
    destruct (isConvertInput i), (isCancelInput i); cbn [length]; lia. }
  destruct (Hrun init) as [H1 H2]. split; [exact H1|]. split; [exact H2|].
  unfold terminalCount, resultCount, ackCount.
  induction (outbox (run init inputs)) as [|m l IH]; [done|].
  cbn [List.filter]. destruct m; cbn [isTerminal isResult isCancelAck length]; lia.
Qed.

Lemma percents_post (m : Posted) s :
  percents (post m s)
  = percents s ++ match m with Progress p _ => [p] | _ => [] end.
Proof.
  unfold percents, post. cbn [outbox]. rewrite omap_app. by destruct m.
Qed.

Lemma StronglySorted_snoc (l : list Q) (p : Q) :
  StronglySorted Qle l → Forall (λ q, q <= p)%Q l → StronglySorted Qle (l ++ [p]).
Proof.
  intros Hs Hall. induction Hs as [|q l Hs IH Hq]; cbn [app].
  - repeat constructor.
  - apply Forall_cons in Hall as [Hqp Hall]. constructor; [by apply IH|].
    apply Forall_app. split; [done|]. by constructor.
Qed.

Lemma ceiling_monotone (e e' : Z) :
  e <= e' →
  (Qmin 50 (20 + inject_Z e / 100) <= Qmin 50 (20 + inject_Z e' / 100))%Q.
Proof.
  intros He. apply Q.min_le_compat_l.
  unfold Qle, Qplus, Qdiv, Qmult, Qinv, inject_Z. cbn. lia.
Qed.

Lemma ceiling_bounds (e : Z) :
  0 <= e →
  (20 <= Qmin 50 (20 + inject_Z e / 100))%Q
  ∧ (Qmin 50 (20 + inject_Z e / 100) <= 50)%Q.
Proof.
  intros He. split; [|apply Q.le_min_l].
  apply Q.min_glb; [done|].
  unfold Qle, Qplus, Qdiv, Qmult, Qinv, inject_Z. cbn. lia.
Qed.

Lemma reportedUpTo_weaken (c c' : Q) s :
  (c <= c')%Q → reportedUpTo c s → reportedUpTo c' s.
Proof.
  intros Hc [Hs Hall]. split; [done|].
  eapply Forall_impl; [exact Hall|]. intros q [Hr Hq]. split; [done|].
  by eapply Qle_trans.
Qed.

Lemma reportedUpTo_sendProgress (c p : Q) (stage : Stage) s :
  (c <= p)%Q → (0 <= p <= 100)%Q →
  reportedUpTo c s → reportedUpTo p (sendProgress p stage s).
Proof.
  intros Hc Hp [Hs Hall]. unfold reportedUpTo, sendProgress.
  rewrite percents_post. split.
  - apply StronglySorted_snoc; [done|].
    eapply Forall_impl; [exact Hall|]. intros q [_ Hq]. by eapply Qle_trans.
  - apply Forall_app. split.
    + eapply Forall_impl; [exact Hall|]. intros q [Hr Hq]. split; [done|].
      by eapply Qle_trans.
    + constructor; [|constructor]. split; [done|apply Qle_refl].
Qed.

Lemma reportedUpTo_post (c : Q) (m : Posted) s :
  isTerminal m = true → reportedUpTo c s → reportedUpTo c (post m s).
Proof.
  intros Hm H. unfold reportedUpTo. rewrite percents_post.
  destruct m; [done| | |]; by rewrite app_nil_r.
Qed.

Lemma last_post (m : Posted) s : last (outbox (post m s)) = Some m.
Proof. unfold post. cbn [outbox]. apply last_snoc. Qed.

Lemma advancing_park (e : Z) s r (p : Point) :
  isCancelled s = false → 0 <= e → parked s = [] →
  reportedUpTo (ceilingAt p e) s →
  (∀ m, last (outbox s) = Some m → isTerminal m = false) →
  advancing e (park r p s).
Proof.
  intros Hc He Hp Hup Hlast. unfold advancing, park. cbn [isCancelled parked outbox].
  rewrite Hp. cbn [app]. split; [done|]. split; [done|]. split; [exact Hup|exact Hlast].
Qed.

Lemma advancing_catchError (e : Z) s (message : string) :
  isCancelled s = false → 0 <= e → parked s = [] →
  reportedUpTo 100 s → advancing e (catchError message s).
Proof.
  intros Hc He Hp Hup. unfold advancing, catchError.
  case_bool_decide; cbn [isCancelled parked post]; rewrite Hp;
    (split; [done|]; split; [done|]; split;
     [by apply reportedUpTo_post|intros m; rewrite last_post; by intros [= <-]]).
Qed.

Lemma last_sendProgress (p : Q) (stage : Stage) s (m : Posted) :
  last (outbox (sendProgress p stage s)) = Some m → isTerminal m = false.
Proof. unfold sendProgress. rewrite last_post. by intros [= <-]. Qed.

Lemma step_advancing (e : Z) s (i : Input) :
  isReceive i = false →
  match i with Tick _ e' => e <= e' | _ => True end →
  advancing e s →
  advancing (match i with Tick _ e' => e' | _ => e end) (step s i).
Proof.
  intros Hi He (Hc & He0 & Hp).
  destruct (parked s) as [|[r p] [|a rest]] eqn:Hparked; [| |done].
  - (* the conversion has ended: nothing is waiting *)
    assert (step s i = s) as ->.
    { destruct i as [c|k o|k e']; [done| |]; cbn [step]; by rewrite Hparked, lookup_nil. }
    unfold advancing. rewrite Hc, Hparked. split; [done|]. split; [|done].
    destruct i; lia.
  - destruct i as [c|k o|k e']; [done| |]; cbn [step]; rewrite Hparked.
    + (* an awaited promise settles *)
      destruct k as [|k];
        [cbn [lookup list_lookup]
        |rewrite (lookup_ge_None_2 _ (S k)) by (cbn [length]; lia);
         unfold advancing; by rewrite Hc, Hparked].
      cbv zeta.
      destruct Hp as [Hup Hlast].
      set (s1 := unpark 0 s).
      assert (reportedUpTo (ceilingAt p e) s1) as Hup1 by exact Hup.
      assert (isCancelled s1 = false) as Hc1 by exact Hc.
      assert (parked s1 = []) as Hp1 by (subst s1; unfold unpark; cbn; by rewrite Hparked).
      clearbody s1. clear Hup Hlast Hparked.
      destruct p as [| |out|out].
      * (* the simulated file read *)
        unfold afterFileRead. rewrite Hc1. cbv zeta.
        set (s2 := sendProgress 20 decoding (sendProgress 20 loading s1)).
        change (isCancelled s2) with (isCancelled s1). rewrite Hc1.
        assert (reportedUpTo 20 s2) as H20.
        { apply (reportedUpTo_sendProgress 20); [apply Qle_refl|done|].
          apply (reportedUpTo_sendProgress 10); [done|done|exact Hup1]. }
        destruct (supported r).
        -- apply advancing_park; [exact Hc1|done|exact Hp1| |apply last_sendProgress].
           eapply reportedUpTo_weaken; [|exact H20]. by apply ceiling_bounds.
        -- apply advancing_catchError; [exact Hc1|done|exact Hp1|].
           by eapply reportedUpTo_weaken; [|exact H20].
      * (* the converter *)
        unfold afterConverter. destruct o as [out|message].
        -- rewrite Hc1. cbv zeta.
           apply advancing_park; [exact Hc1|done|exact Hp1| |apply last_sendProgress].
           apply (reportedUpTo_sendProgress 60); [apply Qle_refl|done|].
           apply (reportedUpTo_sendProgress (ceilingAt AwaitConverter e));
             [|done|exact Hup1].
           eapply Qle_trans; [apply (ceiling_bounds e He0)|done].
        -- apply advancing_catchError; [exact Hc1|done|exact Hp1|].
           eapply reportedUpTo_weaken; [|exact Hup1].
           eapply Qle_trans; [apply (ceiling_bounds e He0)|done].
      * (* the encoding pause *)
        unfold afterEncode. rewrite Hc1. cbv zeta.
        apply advancing_park; [exact Hc1|done|exact Hp1| |apply last_sendProgress].
        apply (reportedUpTo_sendProgress 60); [done|done|exact Hup1].
      * (* the optimizing pause *)
        unfold afterOptimize. rewrite Hc1. cbv zeta.
        set (s2 := sendProgress 90 finalizing (sendProgress 90 encoding s1)).
        change (isCancelled s2) with (isCancelled s1). rewrite Hc1.
        set (s3 := sendProgress 100 complete s2).
        assert (reportedUpTo 100 s3) as H100.
        { apply (reportedUpTo_sendProgress 90); [done|done|].
          apply (reportedUpTo_sendProgress 90); [apply Qle_refl|done|].
          apply (reportedUpTo_sendProgress 80); [done|done|exact Hup1]. }
        unfold advancing. cbn [isCancelled parked post].
        change (isCancelled s3) with (isCancelled s1).
        change (parked s3) with (parked s1). rewrite Hp1.
        split; [done|]. split; [done|]. split.
        -- by apply reportedUpTo_post.
        -- intros m. rewrite last_post. intros [= <-].
           rewrite percents_post, app_nil_r. subst s3. unfold sendProgress at 1.
           rewrite percents_post. apply last_snoc.
    + (* the interval timer fires *)
      destruct Hp as [Hup Hlast].
      assert (advancing e' s) as Hsame.
      { unfold advancing. rewrite Hparked. split; [done|]. split; [lia|].
        split; [|done]. eapply reportedUpTo_weaken; [|exact Hup].
        destruct p; try apply Qle_refl. by apply ceiling_monotone. }
      destruct k as [|k];
        [cbn [lookup list_lookup]
        |by rewrite (lookup_ge_None_2 _ (S k)) by (cbn [length]; lia)].
      destruct p; try exact Hsame.
      unfold intervalTick. rewrite Hc.
      unfold advancing. change (isCancelled (sendProgress _ _ s)) with (isCancelled s).
      change (parked (sendProgress _ _ s)) with (parked s).
      rewrite Hparked. split; [done|]. split; [lia|]. split.
      * apply (reportedUpTo_sendProgress (ceilingAt AwaitConverter e)); [|split|exact Hup].
        -- by apply ceiling_monotone.
        -- eapply Qle_trans; [|apply ceiling_bounds; lia]. done.
        -- eapply Qle_trans; [apply ceiling_bounds; lia|done].
      * apply last_sendProgress.
Qed.

Lemma run_advancing (inputs : list Input) :
  existsb isReceive inputs = false →
  ∀ (e : Z) s, clockAdvances e inputs → advancing e s →
    ∃ e', advancing e' (run s inputs).
Proof.
  unfold run. induction inputs as [|i inputs IH]; intros Hr e s Hclock Hadv.
  { by exists e. }
  cbn [existsb] in Hr. apply orb_false_iff in Hr as [Hi Hr].
  cbn [fold_left].
  apply (IH Hr (match i with Tick _ e' => e' | _ => e end)).
  - destruct i as [c|k o|k e']; cbn [clockAdvances] in Hclock; [done|done|].
    by destruct Hclock.
  - apply step_advancing; [done| |done].
    destruct i as [c|k o|k e']; cbn [clockAdvances] in Hclock; [done|done|].
    by destruct Hclock.
Qed.

(** Progress of a conversion that is not cancelled.  The worker gets one
    [convert] request and no other message; its awaited operations settle
    and its interval timer fires in any order, the timer reading a clock
    that does not go backwards.  Then the percentages of the progress
    messages it posts never decrease and stay within 0 to 100, and a
    success message is posted only right after a progress of 100. *)
Theorem progress_never_decreases r (inputs : list Input) :
  existsb isReceive inputs = false →
  clockAdvances 0 inputs →
  StronglySorted Qle (percents (run init (Receive (convert r) :: inputs)))
  ∧ Forall (λ p, 0 <= p <= 100)%Q (percents (run init (Receive (convert r) :: inputs)))
  ∧ (∀ originalSize convertedSize,
       last (outbox (run init (Receive (convert r) :: inputs)))
       = Some (SuccessMsg originalSize convertedSize) →
       last (percents (run init (Receive (convert r) :: inputs))) = Some 100%Q).
Proof.
  intros Hr Hclock.
  assert (advancing 0 (step init (Receive (convert r)))) as H0.
  { cbn [step onmessage]. cbv zeta.
    change (isCancelled (sendProgress 0 loading
              {| isCancelled := false; parked := parked init; outbox := outbox init |}))
      with false. cbn iota.
    apply advancing_park; [done|done|done| |apply last_sendProgress].
    apply (reportedUpTo_sendProgress 0); [done|done|].
    apply (reportedUpTo_sendProgress 0); [apply Qle_refl|done|].
    split; constructor. }
  destruct (run_advancing inputs Hr 0 _ Hclock H0) as (e' & Hc & He & Hp).
  change (run init (Receive (convert r) :: inputs))
    with (run (step init (Receive (convert r))) inputs).
  set (s := run (step init (Receive (convert r))) inputs) in *.
  assert (reportedUpTo 100 s
          ∧ ∀ a b, last (outbox s) = Some (SuccessMsg a b) →
                   last (percents s) = Some 100%Q) as [[Hs Hall] Hlast].
  { destruct (parked s) as [|[r' p] [|? ?]]; [| |done].
    - destruct Hp as [Hup Hl]. split; [done|]. intros a b Hab. by apply (Hl _ Hab).
    - destruct Hp as [Hup Hl]. split.
      + eapply reportedUpTo_weaken; [|exact Hup].
        destruct p; cbn [ceilingAt]; try done.
        eapply Qle_trans; [apply ceiling_bounds; lia|done].
      + intros a b Hab. by apply Hl in Hab. }
  split; [done|]. split; [|done].
  eapply Forall_impl; [exact Hall|]. by intros q [? _].
Qed.

Lemma progress_never_decreases_witness :
  existsb isReceive tickingRun = false
  ∧ clockAdvances 0 tickingRun
  ∧ StronglySorted Qle (percents (run init (Receive (convert jpegRequest) :: tickingRun)))
  ∧ Forall (λ p, 0 <= p <= 100)%Q
      (percents (run init (Receive (convert jpegRequest) :: tickingRun)))
  ∧ (∀ originalSize convertedSize,
       last (outbox (run init (Receive (convert jpegRequest) :: tickingRun)))
       = Some (SuccessMsg originalSize convertedSize) →
       last (percents (run init (Receive (convert jpegRequest) :: tickingRun)))
       = Some 100%Q).
Proof.
  assert (existsb isReceive tickingRun = false) as H1 by reflexivity.
  assert (clockAdvances 0 tickingRun) as H2 by (cbn; lia).
  split; [exact H1|]. split; [exact H2|].
  exact (progress_never_decreases jpegRequest tickingRun H1 H2).
Defined.

(** The run used above: ten progress messages up to 100, then success. *)
Example ticking_run_percents :
  percents (run init (Receive (convert jpegRequest) :: tickingRun))
  = [0; 10; 20; 20; Qmin 50 (20 + inject_Z 150 / 100);
     Qmin 50 (20 + inject_Z 5000 / 100); 60; 60; 80; 90; 90; 100]%Q
  ∧ last (outbox (run init (Receive (convert jpegRequest) :: tickingRun)))
    = Some (SuccessMsg 2000000 900).
Proof. split; reflexivity. Qed.

End SingleWorkerFacts.

(** ** Batch worker: a batch that is not cancelled *)

Section BatchWorkerCompletion.
Import BatchWorker.
Implicit Types (s : State) (r : Request) (f : File).

Lemma accountedFor_pushError r (i : nat) f (message : string) s :
  files r !! i = Some f →
  accountedFor r i (batchState s) →
  accountedFor r (S i) (batchState (pushError f message s)).
Proof.
  intros Hf [Hlen Hperm]. unfold accountedFor, pushError.
  cbn [batchState set_batchState results errors].
  rewrite length_app, map_app. cbn [length List.map e_fileName]. split; [lia|].
  rewrite (take_S_r _ _ _ Hf), map_app. cbn [List.map].
  by rewrite app_assoc, Hperm.
Qed.

Lemma accountedFor_pushResult r (i : nat) f (out : Z) s :
  files r !! i = Some f →
  accountedFor r i (batchState s) →
  accountedFor r (S i) (batchState (pushResult f out s)).
Proof.
  intros Hf [Hlen Hperm]. unfold accountedFor, pushResult.
  cbn [batchState set_batchState results errors].
  rewrite length_app, map_app. cbn [length List.map r_fileName]. split; [lia|].
  rewrite (take_S_r _ _ _ Hf), map_app. cbn [List.map].
  rewrite <- Hperm. rewrite <- !app_assoc. apply Permutation_app_head.
  apply Permutation_app_comm.
Qed.

(** The loop head, entered at index [i] with nothing parked. *)
Lemma loopHead_converting r (i : nat) s :
  isCancelled (batchState s) = false →
  totalFiles (batchState s) = length (files r) →
  parked s = [] → (i <= length (files r))%nat →
  accountedFor r i (batchState s) →
  Forall (λ e, isTerminalEffect e = false) (effects s) →
  converting r (loopHead r i s)
  ∧ (awaitsLeft r (loopHead r i s) <= 3 * (length (files r) - i))%nat.
Proof.
  intros Hc Ht Hp Hi Hacc Heff. unfold loopHead.
  destruct (files r !! i) as [f|] eqn:Hf.
  - rewrite Hc. cbv zeta. apply lookup_lt_Some in Hf as Hlt.
    split.
    + unfold converting, park, sendProgress, effect, setCurrentFileIndex, set_batchState.
      cbn [batchState parked effects isCancelled totalFiles results errors
           request index point].
      rewrite Hp. cbn [app]. do 4 (split; [done|]).
      split; [exact Hacc|]. apply Forall_app. split; [done|]. by repeat constructor.
    + unfold awaitsLeft, park, sendProgress, effect, setCurrentFileIndex, set_batchState.
      cbn [parked]. rewrite Hp. cbn [app index point]. lia.
  - apply lookup_ge_None in Hf. assert (i = length (files r)) as -> by lia.
    unfold finish. rewrite Hc. cbv zeta. split.
    + unfold converting, sendProgress, effect.
      cbn [batchState parked effects]. rewrite Hp. do 2 (split; [done|]).
      split; [exact Hacc|]. eexists. split; [by rewrite Ht|].
      apply Forall_app. split; [done|]. by repeat constructor.
    + unfold awaitsLeft, sendProgress, effect. cbn [parked]. rewrite Hp. lia.
Qed.

Lemma nonterminal_sendProgress (p : Q) (file : string) (note : Note) (stage : Stage) s :
  Forall (λ e, isTerminalEffect e = false) (effects s) →
  Forall (λ e, isTerminalEffect e = false) (effects (sendProgress p file note stage s)).
Proof.
  intros H. unfold sendProgress, effect. cbn [effects].
  apply Forall_app. split; [done|]. by repeat constructor.
Qed.

Lemma nonterminal_callConverter f s :
  Forall (λ e, isTerminalEffect e = false) (effects s) →
  Forall (λ e, isTerminalEffect e = false) (effects (effect (CallConverter f) s)).
Proof.
  intros H. unfold effect. cbn [effects].
  apply Forall_app. split; [done|]. by repeat constructor.
Qed.

Lemma converting_park r (i : nat) (p : Point) s :
  isCancelled (batchState s) = false →
  totalFiles (batchState s) = length (files r) →
  parked s = [] → (i < length (files r))%nat →
  accountedFor r i (batchState s) →
  Forall (λ e, isTerminalEffect e = false) (effects s) →
  converting r (park {| request := r; index := i; point := p |} s)
  ∧ awaitsLeft r (park {| request := r; index := i; point := p |} s)
    = (3 * (length (files r) - i)
       - match p with AwaitLoad => 0 | AwaitConverter => 1 | AwaitEncode _ => 2 end)%nat.
Proof.
  intros Hc Ht Hp Hi Hacc Heff. unfold converting, awaitsLeft, park.
  cbn [batchState parked effects]. rewrite Hp. cbn [app request index point].
  split; [|done]. do 4 (split; [done|]). split; [exact Hacc|exact Heff].
Qed.

(** One settled await of a batch that runs uncancelled. *)
Lemma step_converting r s (i : Input) :
  isReceive i = false → converting r s →
  converting r (step s i)
  ∧ (awaitsLeft r (step s i) <= awaitsLeft r s)%nat
  ∧ (∀ o, i = Settle 0 o → (0 < awaitsLeft r s)%nat →
       (awaitsLeft r (step s i) < awaitsLeft r s)%nat).
Proof.
  intros Hi Hconv. destruct i as [c|k o]; [done|]. cbn [step].
  destruct Hconv as (Hc & Ht & Hp).
  destruct (parked s) as [|a [|b rest]] eqn:Hparked; [| |done].
  { rewrite lookup_nil. unfold converting, awaitsLeft. rewrite Hparked.
    split; [done|]. split; [lia|]. intros; lia. }
  destruct k as [|k].
  2: { rewrite (lookup_ge_None_2 _ (S k)) by (cbn [length]; lia).
       unfold converting, awaitsLeft. rewrite Hparked.
       split; [done|]. split; [lia|]. by intros o' [=]. }
  cbn [lookup list_lookup].
  destruct Hp as (Hr & Hlt & Hacc & Heff).
  destruct a as [r' i p]. cbn [request index point] in *. subst r'.
  destruct (files r !! i) as [f|] eqn:Hf.
  2: { apply lookup_ge_None in Hf. lia. }
  cbv zeta.
  assert (awaitsLeft r s
          = 3 * (length (files r) - i)
            - match p with AwaitLoad => 0 | AwaitConverter => 1 | AwaitEncode _ => 2 end)%nat
    as Hleft by (unfold awaitsLeft; by rewrite Hparked).
  rewrite Hleft.
  set (s1 := unpark 0 s).
  assert (isCancelled (batchState s1) = false) as Hc1 by exact Hc.
  assert (totalFiles (batchState s1) = length (files r)) as Ht1 by exact Ht.
  assert (parked s1 = []) as Hp1 by (subst s1; unfold unpark; cbn; by rewrite Hparked).
  assert (accountedFor r i (batchState s1)) as Hacc1 by exact Hacc.
  assert (Forall (λ e, isTerminalEffect e = false) (effects s1)) as Heff1 by exact Heff.
  clearbody s1. clear Hparked Hleft Hc Ht Hacc Heff.
  assert (∀ s2 : State,
            isCancelled (batchState s2) = false →
            totalFiles (batchState s2) = length (files r) →
            parked s2 = [] → accountedFor r (S i) (batchState s2) →
            Forall (λ e, isTerminalEffect e = false) (effects s2) →
            converting r (loopHead r (S i) s2)
            ∧ (awaitsLeft r (loopHead r (S i) s2) <= 3 * (length (files r) - i) - 3)%nat)
    as Hnext.
  { intros s2 H1 H2 H3 H4 H5.
    destruct (loopHead_converting r (S i) s2 H1 H2 H3 ltac:(lia) H4 H5) as [Hcv Hle].
    split; [done|]. lia. }
  destruct p as [| |out].
  - (* after the loading pause *)
    unfold afterLoad. cbv zeta.
    set (s2 := sendProgress _ (name f) Loading loading s1).
    change (isCancelled (batchState s2)) with (isCancelled (batchState s1)).
    rewrite Hc1.
    set (s3 := sendProgress _ (name f) Decoding decoding s2).
    assert (Forall (λ e, isTerminalEffect e = false) (effects s3)) as Heff3
      by (by apply nonterminal_sendProgress, nonterminal_sendProgress).
    destruct (supported r).
    + destruct (converting_park r i AwaitConverter (effect (CallConverter f) s3))
        as [Hcv ->]; try done; [by apply nonterminal_callConverter|].
      split; [done|]. split; [lia|]. intros; lia.
    + destruct (Hnext (pushError f ("Unsupported conversion type: " ++ targetType r) s3))
        as [Hcv Hle]; try done; [by apply accountedFor_pushError|].
      split; [done|]. split; [lia|]. intros; lia.
  - (* after the converter *)
    unfold afterConverter. destruct o as [out|message].
    + rewrite Hc1. cbv zeta.
      set (s2 := sendProgress _ (name f) Encoding encoding s1).
      destruct (converting_park r i (AwaitEncode out) s2) as [Hcv ->]; try done;
        [by apply nonterminal_sendProgress|].
      split; [done|]. split; [lia|]. intros; lia.
    + destruct (Hnext (pushError f message s1)) as [Hcv Hle]; try done;
        [by apply accountedFor_pushError|].
      split; [done|]. split; [lia|]. intros; lia.
  - (* after the encoding pause *)
    unfold afterEncode. cbv zeta.
    set (s2 := sendProgress _ (name f) Finalizing finalizing s1).
    set (s3 := sendProgress _ (name f) Completed complete s2).
    assert (Forall (λ e, isTerminalEffect e = false) (effects s3)) as Heff3
      by (by apply nonterminal_sendProgress, nonterminal_sendProgress).
    destruct (Hnext (pushResult f out s3)) as [Hcv Hle]; try done;
      [by apply accountedFor_pushResult|].
    split; [done|]. split; [lia|]. intros; lia.
Qed.

Lemma start_converting r :
  converting r (step init (Receive (convert_batch r)))
  ∧ (awaitsLeft r (step init (Receive (convert_batch r))) <= 3 * length (files r))%nat.
Proof.
  cbn [step onmessage]. cbv zeta.
  set (s0 := sendProgress 0 "" StartingBatch initializing _).
  assert (accountedFor r 0 (batchState s0)) as Hacc
    by (split; [done|]; by rewrite take_0).
  assert (Forall (λ e, isTerminalEffect e = false) (effects s0)) as Heff
    by (subst s0; apply nonterminal_sendProgress; constructor).
  destruct (loopHead_converting r 0 s0 eq_refl eq_refl eq_refl ltac:(lia) Hacc Heff)
    as [Hcv Hle].
  split; [done|]. lia.
Qed.

Lemma run_converting r (inputs : list Input) s :
  existsb isReceive inputs = false → converting r s → converting r (run s inputs).
Proof.
  unfold run. revert s. induction inputs as [|i inputs IH]; intros s Hr Hcv; [done|].
  cbn [existsb] in Hr. apply orb_false_iff in Hr as [Hi Hr]. cbn [fold_left].
  apply IH; [done|]. by apply step_converting.
Qed.

Lemma run_awaitsLeft r (outcomes : list Outcome) s :
  converting r s →
  (awaitsLeft r (run s (List.map (Settle 0) outcomes))
   <= awaitsLeft r s - length outcomes)%nat.
Proof.
  unfold run. revert s. induction outcomes as [|o outcomes IH]; intros s Hcv.
  { cbn. lia. }
  cbn [List.map fold_left length].
  destruct (step_converting r s (Settle 0 o) eq_refl Hcv) as (Hcv' & Hle & Hlt).
  specialize (IH _ Hcv').
  destruct (decide (0 < awaitsLeft r s)%nat) as [Hpos|Hzero].
  - specialize (Hlt o eq_refl Hpos). lia.
  - lia.
Qed.

(** A batch that is not cancelled.  The worker gets one [convert-batch]
    request and no other message, and its awaited operations settle, each
    conversion fulfilling or rejecting as it may.  While an activation
    waits, no terminal message has been posted.  Once nothing waits, the
    last message posted is the only terminal one: a [batch-complete]
    whose [successCount] and [errorCount] are the numbers of results and
    errors it carries and add up to the number of files, every file being
    named exactly once among the results and the errors.  And the batch
    does end: after three settled awaits per file, at most, nothing
    waits. *)
Theorem uncancelled_batch_completes r :
  (∀ inputs : list Input,
     existsb isReceive inputs = false →
     (parked (run init (Receive (convert_batch r) :: inputs)) = [] →
        ∃ results errors before,
          effects (run init (Receive (convert_batch r) :: inputs))
          = before ++ [PostMessage (BatchComplete results errors (length (files r))
                                      (length results) (length errors))]
          ∧ Forall (λ e, isTerminalEffect e = false) before
          ∧ (length results + length errors = length (files r))%nat
          ∧ List.map r_fileName results ++ List.map e_fileName errors
            ≡ₚ List.map name (files r))
     ∧ (parked (run init (Receive (convert_batch r) :: inputs)) ≠ [] →
        Forall (λ e, isTerminalEffect e = false)
          (effects (run init (Receive (convert_batch r) :: inputs)))))
  ∧ (∀ outcomes : list Outcome,
       (3 * length (files r) <= length outcomes)%nat →
       parked (run init (Receive (convert_batch r) :: List.map (Settle 0) outcomes)) = []).
Proof.
  destruct (start_converting r) as [H0 Hleft]. split.
  - intros inputs Hr.
    change (run init (Receive (convert_batch r) :: inputs))
      with (run (step init (Receive (convert_batch r))) inputs).
    pose proof (run_converting r inputs _ Hr H0) as (Hc & Ht & Hp).
    destruct (parked (run (step init (Receive (convert_batch r))) inputs))
      as [|a [|b rest]]; [| |done].
    + split; [|done]. intros _. destruct Hp as ([Hlen Hperm] & before & Heff & Hbefore).
      eexists _, _, before. split; [exact Heff|]. split; [exact Hbefore|].
      split; [exact Hlen|]. by rewrite firstn_all in Hperm.
    + split; [done|]. intros _. by destruct Hp as (_ & _ & _ & Heff).
  - intros outcomes Hlen.
    change (run init (Receive (convert_batch r) :: List.map (Settle 0) outcomes))
      with (run (step init (Receive (convert_batch r))) (List.map (Settle 0) outcomes)).
    pose proof (run_awaitsLeft r outcomes _ H0) as Hle.
    assert (existsb isReceive (List.map (Settle 0) outcomes) = false) as Hr.
    { clear. induction outcomes as [|o l IH]; [done|]. cbn. exact IH. }
    pose proof (run_converting r _ _ Hr H0) as (Hc & Ht & Hp).
    set (s := run (step init (Receive (convert_batch r))) (List.map (Settle 0) outcomes))
      in *.
    unfold awaitsLeft in Hle at 1.
    destruct (parked s) as [|a [|b rest]]; [done| |done].
    destruct Hp as (_ & Hi & _). destruct (point a); lia.
Qed.

(** Three files, the second of which the converter rejects: the summary
    reports two results and one error. *)
Example batch_with_one_failure :
  last (effects (run init [Receive (convert_batch threeFiles);
                           Settle 0 (Resolved 0); Settle 0 (Resolved 5); Settle 0 (Resolved 0);
                           Settle 0 (Resolved 0); Settle 0 (Rejected "corrupt");
                           Settle 0 (Resolved 0); Settle 0 (Resolved 7); Settle 0 (Resolved 0)]))
  = Some (PostMessage
            (BatchComplete
               [ {| r_fileName := "a.heic"; r_originalSize := 10; r_convertedSize := 5 |};
                 {| r_fileName := "c.heic"; r_originalSize := 30; r_convertedSize := 7 |} ]
               [ {| e_fileName := "b.heic"; e_error := "corrupt" |} ] 3 2 1)).
Proof. reflexivity. Qed.

(** A batch cancelled while it runs, on a worker that is handed no other
    batch.  The worker gets [convert-batch], its awaited operations settle
    for a while, then [cancel-batch] arrives.  It posts [batch-cancelled]
    at once, and the message carries the results and errors of the files
    that are over: every file before the one in progress is named exactly
    once among them, and no other file is.  From then on, whatever
    settles and whatever else is received, as long as no [convert-batch]
    is, no file begins: no "Starting conversion" message is posted and the
    converter is not called. *)
Theorem cancelled_batch_begins_no_file r (before later : list Input) :
  existsb isReceive before = false →
  Forall (λ i, isConvertBatch i = false) later →
  ∃ results errors more,
    effects (run init (Receive (convert_batch r) :: before
                       ++ Receive cancel_batch :: later))
    = effects (run init (Receive (convert_batch r) :: before))
      ++ PostMessage (BatchCancelled results errors) :: more
    ∧ Forall (λ e, startsFile e = false) more
    ∧ (length results + length errors
       = filesOver r (run init (Receive (convert_batch r) :: before)))%nat
    ∧ List.map r_fileName results ++ List.map e_fileName errors
      ≡ₚ List.map name
           (take (filesOver r (run init (Receive (convert_batch r) :: before)))
              (files r)).
Proof.
  intros Hbefore Hlater.
  destruct (start_converting r) as [H0 _].
  change (run init (Receive (convert_batch r) :: before))
    with (run (step init (Receive (convert_batch r))) before).
  change (run init (Receive (convert_batch r) :: before ++ Receive cancel_batch :: later))
    with (run (step init (Receive (convert_batch r)))
            (before ++ Receive cancel_batch :: later)).
  pose proof (run_converting r before _ Hbefore H0) as (Hc & Ht & Hp).
  unfold run at 1. rewrite fold_left_app. cbn [fold_left].
  fold (run (step init (Receive (convert_batch r))) before).
  set (s := run (step init (Receive (convert_batch r))) before) in *.
  change (step s (Receive cancel_batch)) with (onmessage cancel_batch s).
  fold (run (onmessage cancel_batch s) later).
  destruct (quietly_run (onmessage cancel_batch s) later eq_refl Hlater)
    as [_ (more & Heff & Hmore)].
  exists (results (batchState s)), (errors (batchState s)), more.
  split.
  { rewrite Heff.
    exact (eq_sym (app_assoc (effects s)
                     [PostMessage (BatchCancelled (results (batchState s))
                                     (errors (batchState s)))] more)). }
  split; [exact Hmore|].
  unfold filesOver.
  destruct (parked s) as [|a [|b rest]]; [| |done].
  - destruct Hp as ([Hlen Hperm] & _). by split.
  - destruct Hp as (_ & _ & [Hlen Hperm] & _). by split.
Qed.

Lemma cancelled_batch_begins_no_file_witness :
  existsb isReceive [Settle 0 (Resolved 0); Settle 0 (Resolved 5);
                     Settle 0 (Resolved 0); Settle 0 (Resolved 0)] = false
  ∧ Forall (λ i, isConvertBatch i = false) laterInputs
  ∧ ∃ results errors more,
      effects (run init (Receive (convert_batch threeFiles)
                         :: [Settle 0 (Resolved 0); Settle 0 (Resolved 5);
                             Settle 0 (Resolved 0); Settle 0 (Resolved 0)]
                         ++ Receive cancel_batch :: laterInputs))
      = effects (run init (Receive (convert_batch threeFiles)
                           :: [Settle 0 (Resolved 0); Settle 0 (Resolved 5);
                               Settle 0 (Resolved 0); Settle 0 (Resolved 0)]))
        ++ PostMessage (BatchCancelled results errors) :: more
      ∧ Forall (λ e, startsFile e = false) more
      ∧ (length results + length errors
         = filesOver threeFiles
             (run init (Receive (convert_batch threeFiles)
                        :: [Settle 0 (Resolved 0); Settle 0 (Resolved 5);
                            Settle 0 (Resolved 0); Settle 0 (Resolved 0)])))%nat
      ∧ List.map r_fileName results ++ List.map e_fileName errors
        ≡ₚ List.map name
             (take (filesOver threeFiles
                      (run init (Receive (convert_batch threeFiles)
                                 :: [Settle 0 (Resolved 0); Settle 0 (Resolved 5);
                                     Settle 0 (Resolved 0); Settle 0 (Resolved 0)])))
                (files threeFiles)).
Proof.
  assert (existsb isReceive [Settle 0 (Resolved 0); Settle 0 (Resolved 5);
                             Settle 0 (Resolved 0); Settle 0 (Resolved 0)] = false) as H1
    by reflexivity.
  assert (Forall (λ i, isConvertBatch i = false) laterInputs) as H2
    by (repeat constructor).
  split; [exact H1|]. split; [exact H2|].
  exact (cancelled_batch_begins_no_file threeFiles _ laterInputs H1 H2).
Defined.

(** The second file is inside the converter when the batch is cancelled:
    the message carries the result of the first file, and when the
    conversion of the second settles it is recorded as an error and the
    third file is not touched. *)
Example cancelled_mid_batch :
  omap milestone (effects (run (onmessage cancel_batch midBatch) laterInputs))
  = [ FileBegins "a.heic"; ConverterCalled "a.heic";
      FileBegins "b.heic"; ConverterCalled "b.heic"; CancelledPosted ["a.heic"] ]
  ∧ results (batchState midBatch)
    = [{| r_fileName := "a.heic"; r_originalSize := 10; r_convertedSize := 5 |}]
  ∧ errors (batchState (run (onmessage cancel_batch midBatch) laterInputs))
    = [{| e_fileName := "b.heic"; e_error := cancelledMessage |}]
  ∧ parked (run (onmessage cancel_batch midBatch) laterInputs) = [].
Proof. repeat split; reflexivity. Qed.


End BatchWorkerCompletion.

(** ** Memory manager: the conversion queue *)

Section MemoryQueueFacts.
Import MemoryQueue.
Implicit Types (s : State) (item : Item) (h : MemoryManager.Host).

Ltac msimpl :=
  cbn [manager conversionQueue isProcessing parked trace nextItem nextActivation
       set_manager set_conversionQueue set_isProcessing set_parked effect park
       delay fst snd] in *.

Lemma seq_snoc_ids n m :
  (n <= m)%nat → seq n (m - n) ++ [m] = seq n (S m - n).
Proof.
  intros Hle. replace (S m - n)%nat with ((m - n) + 1)%nat by lia.
  rewrite seq_app. cbn [seq]. by replace (n + (m - n))%nat with m by lia.
Qed.

Lemma seq_head_ids n m i (l : list nat) :
  i :: l = seq n (m - n) → i = n ∧ (n < m)%nat ∧ l = seq (S n) (m - S n).
Proof.
  destruct (m - n)%nat as [|d] eqn:Hd; [done|]. cbn [seq].
  intros [= -> ->]. split; [done|]. split; [lia|]. f_equal. lia.
Qed.

Lemma parked_bound_insert (p : gmap nat Activation) (a : Activation) (next : nat) :
  (∀ k, is_Some (p !! k) → (k < next)%nat) →
  ∀ k, is_Some (<[next := a]> p !! k) → (k < S next)%nat.
Proof.
  intros Hb k. destruct (decide (k = next)) as [->|Hne]; [lia|].
  rewrite lookup_insert_ne by done. intros Hk%Hb. lia.
Qed.

(** The [finally] block, entered once the promise of the head item is
    settled. *)
Lemma finish_orderly s item rest n :
  conversionQueue s = item :: rest →
  parked s = ∅ →
  isProcessing s = true →
  schedule (trace s) = Some (S n, false) →
  List.map item_id (item :: rest) = seq n (nextItem s - n) →
  orderly (finish s).
Proof.
  intros Hq Hp Hproc Hs Hids. cbn [List.map] in Hids.
  apply seq_head_ids in Hids as (Hi & Hlt & Hrest).
  unfold finish. cbv zeta. rewrite Hq. cbn [tail]. msimpl.
  destruct rest as [|item' rest]; cbn [length Nat.ltb Nat.leb].
  - exists (S n), false. msimpl. split; [done|]. split; [done|]. split; [lia|].
    split; [done|]. split; [|done]. rewrite Hp. intros k. rewrite lookup_empty.
    by intros [? ?].
  - exists (S n), false. msimpl. cbn [schedule]. rewrite Hs. cbn [observe].
    split; [done|]. split; [done|]. split; [lia|]. split; [done|]. split.
    + apply parked_bound_insert. rewrite Hp. intros k. rewrite lookup_empty.
      by intros [? ?].
    + exists (nextActivation s). right. right. rewrite Hp. by rewrite insert_empty.
Qed.

(** The [try] block, entered on the head item with nothing parked. *)
Lemma runTask_orderly s item rest n :
  conversionQueue s = item :: rest →
  parked s = ∅ →
  isProcessing s = true →
  schedule (trace s) = Some (n, false) →
  List.map item_id (item :: rest) = seq n (nextItem s - n) →
  orderly (runTask item s).
Proof.
  intros Hq Hp Hproc Hs Hids. pose proof Hids as Hids'. cbn [List.map] in Hids'.
  apply seq_head_ids in Hids' as (Hi & Hlt & Hrest).
  unfold runTask. cbv zeta. destruct (task item) as [error|].
  - apply (finish_orderly _ item rest n); msimpl; try done.
    cbn [schedule]. rewrite Hs, Hi. cbn [observe]. rewrite Nat.eqb_refl.
    cbn [observe]. by rewrite Nat.eqb_refl.
  - exists n, true. msimpl. cbn [schedule]. rewrite Hs. cbn [observe].
    rewrite Hi, Nat.eqb_refl, Hq, Hproc. split; [done|]. split; [done|].
    split; [lia|]. split; [done|]. split.
    + apply parked_bound_insert. rewrite Hp. intros k. rewrite lookup_empty.
      by intros [? ?].
    + exists (nextActivation s). right. left. rewrite Hp. by rewrite insert_empty.
Qed.

Lemma waitForMemory_orderly h s item rest n :
  conversionQueue s = item :: rest →
  parked s = ∅ →
  isProcessing s = true →
  schedule (trace s) = Some (n, false) →
  List.map item_id (item :: rest) = seq n (nextItem s - n) →
  orderly (waitForMemory h item s).
Proof.
  intros Hq Hp Hproc Hs Hids. unfold waitForMemory.
  destruct (MemoryManager.hasAvailableMemory _ _ _) as [available m].
  destruct available.
  - by apply (runTask_orderly _ item rest n).
  - pose proof Hids as Hids'. cbn [List.map] in Hids'.
    apply seq_head_ids in Hids' as (Hi & Hlt & Hrest).
    exists n, false. msimpl. cbn [schedule]. rewrite Hs. cbn [observe].
    rewrite Hq, Hproc. split; [done|]. split; [done|]. split; [lia|].
    split; [done|]. split.
    + apply parked_bound_insert. rewrite Hp. intros k. rewrite lookup_empty.
      by intros [? ?].
    + exists (nextActivation s). left. rewrite Hp. by rewrite insert_empty.
Qed.

Lemma processQueue_orderly h s item rest n :
  conversionQueue s = item :: rest →
  parked s = ∅ →
  schedule (trace s) = Some (n, false) →
  List.map item_id (item :: rest) = seq n (nextItem s - n) →
  orderly (processQueue h s).
Proof.
  intros Hq Hp Hs Hids. unfold processQueue. rewrite Hq.
  by apply (waitForMemory_orderly _ _ item rest n).
Qed.

Lemma step_orderly s hi :
  isCallDispose hi = false → orderly s → orderly (step s hi).
Proof.
  destruct hi as [h i]. intros Hd (n & r & Hs & Hids & Hle & Hproc & Hb & Hpark).
  destruct i as [body estimated| |c|k|k o]; cbn [step]; [| done | | |].
  - (* queueConversion *)
    unfold queueConversion. cbv zeta. msimpl.
    destruct (conversionQueue s) as [|item rest] eqn:Hq.
    + destruct Hpark as [Hp ->]. rewrite Hproc. cbn [negb bool_decide decide_rel].
      rewrite bool_decide_eq_true_2 by done. cbn [negb app].
      assert (n = nextItem s) as ->.
      { cbn [List.map] in Hids. destruct (nextItem s - n)%nat eqn:E; [lia|done]. }
      eapply (processQueue_orderly _ _ _ [] (nextItem s)); msimpl; try done.
      cbn [List.map item_id]. by replace (S (nextItem s) - nextItem s)%nat with 1%nat by lia.
    + rewrite Hproc. rewrite bool_decide_eq_false_2 by done. cbn [negb].
      exists n, r. msimpl. split; [done|]. split.
      { rewrite List.map_app, Hids. cbn [List.map item_id]. by apply seq_snoc_ids. }
      split; [lia|]. split; [by rewrite bool_decide_eq_false_2|]. by split.
  - (* another method of the manager *)
    exists n, r. by msimpl.
  - (* a timer fires *)
    destruct (parked s !! k) as [a|] eqn:Hk; [|by exists n, r].
    destruct (conversionQueue s) as [|item rest] eqn:Hq.
    { destruct Hpark as [Hp _]. by rewrite Hp, lookup_empty in Hk. }
    destruct Hpark as (k0 & [[Hp ->]|[[Hp ->]|[Hp ->]]]);
      rewrite Hp in Hk; apply lookup_singleton_Some in Hk as [-> <-].
    + apply (waitForMemory_orderly _ _ item rest n); msimpl; try done;
        try (by rewrite Hp, delete_singleton_eq); try (by rewrite <- Hq).
    + exists n, true. rewrite Hq. do 5 (split; [done|]).
      exists k. by right; left.
    + apply (processQueue_orderly _ _ item rest n); msimpl; try done;
        try (by rewrite Hp, delete_singleton_eq); try (by rewrite <- Hq).
  - (* the task settles *)
    destruct (parked s !! k) as [a|] eqn:Hk; [|by exists n, r].
    destruct (conversionQueue s) as [|item rest] eqn:Hq.
    { destruct Hpark as [Hp _]. by rewrite Hp, lookup_empty in Hk. }
    destruct Hpark as (k0 & [[Hp ->]|[[Hp ->]|[Hp ->]]]);
      rewrite Hp in Hk; apply lookup_singleton_Some in Hk as [-> <-].
    + exists n, false. rewrite Hq. do 5 (split; [done|]).
      exists k. by left.
    + cbv zeta. pose proof Hids as Hids'. cbn [List.map] in Hids'.
      apply seq_head_ids in Hids' as (Hi & Hlt & Hrest).
      apply (finish_orderly _ item rest n); msimpl; try done;
        try (by rewrite Hp, delete_singleton_eq); try (by rewrite <- Hq).
      cbn [schedule]. rewrite Hs. unfold settle.
      destruct o; cbn [observe]; by rewrite Hi, Nat.eqb_refl.
    + exists n, false. rewrite Hq. do 5 (split; [done|]).
      exists k. by right; right.
Qed.

Lemma nextItem_finish s : nextItem (finish s) = nextItem s.
Proof. unfold finish. cbv zeta. by destruct (_ <? _)%nat. Qed.

Lemma nextItem_waitForMemory h item s : nextItem (waitForMemory h item s) = nextItem s.
Proof.
  unfold waitForMemory. destruct (MemoryManager.hasAvailableMemory _ _ _) as [[] m]; [|done].
  unfold runTask. cbv zeta. destruct (task item); [|done]. by rewrite nextItem_finish.
Qed.

Lemma nextItem_processQueue h s : nextItem (processQueue h s) = nextItem s.
Proof.
  unfold processQueue. destruct (conversionQueue s); [done|].
  by rewrite nextItem_waitForMemory.
Qed.

Lemma nextItem_step s hi :
  nextItem (step s hi) = (nextItem s + if isCallQueueConversion hi then 1 else 0)%nat.
Proof.
  destruct hi as [h i]. destruct i as [body estimated| |c|k|k o];
    cbn [step isCallQueueConversion snd].
  - unfold queueConversion. cbv zeta. msimpl.
    destruct (isProcessing s); [msimpl; lia|]. rewrite nextItem_processQueue. msimpl. lia.
  - cbn. lia.
  - cbn. lia.
  - destruct (parked s !! k) as [[item|item|]|]; try (cbn; lia).
    + cbv zeta. rewrite nextItem_waitForMemory. cbn. lia.
    + rewrite nextItem_processQueue. cbn. lia.
  - destruct (parked s !! k) as [[item|item|]|]; try (cbn; lia).
    cbv zeta. rewrite nextItem_finish. cbn. lia.
Qed.

Lemma run_orderly s inputs :
  forallb (λ hi, negb (isCallDispose hi)) inputs = true →
  orderly s →
  orderly (run s inputs)
  ∧ nextItem (run s inputs) = (nextItem s + submissions inputs)%nat.
Proof.
  unfold run, submissions. revert s.
  induction inputs as [|hi inputs IH]; intros s Hnd HI; [cbn; split; [done|lia]|].
  cbn [forallb] in Hnd. apply andb_true_iff in Hnd as [Hd Hnd].
  apply negb_true_iff in Hd. cbn [fold_left List.filter].
  destruct (IH (step s hi) Hnd (step_orderly _ _ Hd HI)) as [H1 H2].
  split; [done|]. rewrite H2, nextItem_step.
  destruct (isCallQueueConversion hi); cbn [length]; lia.
Qed.

(** Conversions queued with the memory manager run in submission order,
    one at a time.  As long as [dispose] is not called, whatever else
    happens and however the timers and tasks interleave: the tasks are
    invoked in the order of their submission, a task is invoked only once
    the promise of the one before is settled, every promise is settled at
    most once and only after its task was invoked; the queue holds, in
    order, exactly the submissions whose promise is not settled yet; and
    [isProcessing] is set exactly when the queue is not empty. *)
Theorem conversions_run_in_order (m : MemoryManager.State)
    (inputs : list (MemoryManager.Host * Input)) :
  forallb (λ hi, negb (isCallDispose hi)) inputs = true →
  ∃ n r,
    schedule (trace (run (new m) inputs)) = Some (n, r)
    ∧ List.map item_id (conversionQueue (run (new m) inputs))
      = seq n (submissions inputs - n)
    ∧ (n <= submissions inputs)%nat
    ∧ isProcessing (run (new m) inputs)
      = negb (bool_decide (conversionQueue (run (new m) inputs) = [])).
Proof.
  intros Hnd.
  assert (orderly (new m)) as H0.
  { exists 0%nat, false. cbn. split; [done|]. split; [done|]. split; [done|].
    split; [done|]. split; [|done]. intros k. rewrite lookup_empty. by intros [? ?]. }
  destruct (run_orderly _ _ Hnd H0) as [(n & r & Hs & Hids & Hle & Hproc & _) Hn].
  cbn [nextItem new] in Hn. rewrite Hn in Hids, Hle. cbn [Nat.add] in Hids, Hle.
  by exists n, r.
Qed.

Lemma conversions_run_in_order_witness :
  forallb (λ hi, negb (isCallDispose hi)) twoConversions = true
  ∧ ∃ n r,
      schedule (trace (run (new (MemoryManager.new 1000)) twoConversions)) = Some (n, r)
      ∧ List.map item_id (conversionQueue (run (new (MemoryManager.new 1000)) twoConversions))
        = seq n (submissions twoConversions - n)
      ∧ (n <= submissions twoConversions)%nat
      ∧ isProcessing (run (new (MemoryManager.new 1000)) twoConversions)
        = negb (bool_decide
                  (conversionQueue (run (new (MemoryManager.new 1000)) twoConversions) = [])).
Proof.
  assert (forallb (λ hi, negb (isCallDispose hi)) twoConversions = true) as H
    by reflexivity.
  split; [exact H|].
  exact (conversions_run_in_order (MemoryManager.new 1000) twoConversions H).
Defined.

(** Memory is short when the two conversions are queued: the first waits
    for 100 ms, runs once memory is free, and the second follows after
    the 10 ms pause; both promises are settled and the queue is idle. *)
Example two_conversions_trace :
  rev (trace (run (new (MemoryManager.new 1000)) twoConversions))
  = [SetTimeout 100; Invoke 0; Resolve 0 8; SetTimeout 10; Invoke 1; Reject 1 3]
  ∧ conversionQueue (run (new (MemoryManager.new 1000)) twoConversions) = []
  ∧ isProcessing (run (new (MemoryManager.new 1000)) twoConversions) = false.
Proof. vm_compute. done. Qed.

(** After [dispose] the order is lost: the second conversion is dropped
    and its promise never settled, and when the first task settles the
    [finally] block removes the third conversion, which is still running,
    from the queue. *)
Example dispose_breaks_the_order :
  rev (trace (run (new (MemoryManager.new 1000)) disposedWhileRunning))
  = [Invoke 0; Invoke 2; Resolve 0 8]
  ∧ schedule (trace (run (new (MemoryManager.new 1000)) disposedWhileRunning)) = None
  ∧ conversionQueue (run (new (MemoryManager.new 1000)) disposedWhileRunning) = []
  ∧ isProcessing (run (new (MemoryManager.new 1000)) disposedWhileRunning) = false
  ∧ parked (run (new (MemoryManager.new 1000)) disposedWhileRunning)
    = {[ 1%nat := AwaitTask {| item_id := 2; task := ReturnsPromise; estimatedMemory := 50 |} ]}.
Proof. vm_compute. done. Qed.

End MemoryQueueFacts.

(** ** Chunked processor: [processFiles] *)

Section ProcessFilesFacts.
Import ChunkedProcessor.
Implicit Types (f g : FileItem) (files l : list FileItem).







(** The large picture goes last; the average size is 15 MB, so the files
    are processed three at a time. *)
Example processFiles_mixed :
  processFilesChunks 5 mixedFiles
  = Some [ [NotFile 2; IsFile 1 300; IsFile 3 300]; [IsFile 0 (60 * MB)] ]
  ∧ processFilesChunks 1 [] = Some [].
Proof. vm_compute. done. Qed.

End ProcessFilesFacts.
